(** * Pixel transformation engine of image-transform-app

    A shallow embedding of the transformation functions of
    [src/transformations/basicTransforms.js], of the edge detectors
    ([applySobelEdgeDetection], [applyCannyEdgeDetection]), of the
    segmentation ([applySegmentation]), of [src/utils/colorUtils.js] and of
    the dispatcher [applyTransformation] with the stack of transformations
    of the application component, with the properties the specification
    states about them and further properties of the code.

    - JavaScript numbers are IEEE 754 binary64 values: they are Rocq's
      primitive floats, which compute with the same rounding.
    - A [Uint8ClampedArray] is a [list Z] of bytes, read and written by
      index; a store converts the number with [ToUint8Clamp], a read
      outside the array is [undefined] (NaN in arithmetic), a store outside
      is ignored.
    - A [for] loop is a left fold over the list of the values of its
      counter, in the order of the loop.
    - A call that may throw returns a [completion]; the only exceptions
      are those of the [ImageData] constructor.
    - The two [while] loops of the segmentation, and the loop of
      [preserveLuminance] whose counter is a number with a fraction, run on
      fuel: a result [None] means that the fuel did not suffice.
    - [Math.random] is a function from the number of the call to the
      number returned. *)

From Stdlib Require Import ZArith Uint63 PrimFloat SpecFloat FloatOps.
From Stdlib Require Import FloatAxioms FloatLemmas Rbase Rfunctions Lra.
From stdpp Require Import base list gmap strings.

Set Warnings "-inexact-float".

(** ** JavaScript numbers *)

Module JS.

(** An integer as a number; exact for the integers of this program, which
    are far below 2^53. *)
Definition of_Z (z : Z) : float :=
  if (z <? 0)%Z then (- of_uint63 (Uint63.of_Z (- z)))%float
  else of_uint63 (Uint63.of_Z z).

Definition of_nat (n : nat) : float := of_Z (Z.of_nat n).

(** The value of a finite number as [n * 2^e]. *)
Definition to_scaled (x : float) : option (Z * Z) :=
  match Prim2SF x with
  | S754_zero _ => Some (0, 0)%Z
  | S754_finite s m e => Some (if s then Z.neg m else Z.pos m, e)
  | _ => None
  end.

Definition is_negative (x : float) : bool := (x <? 0)%float.

(** [Math.floor] *)
Definition Math_floor (x : float) : float :=
  match to_scaled x with
  | Some (n, e) =>
      if (0 <=? e)%Z then x
      else if (n =? 0)%Z then x
      else of_Z (n / 2 ^ (- e))
  | None => x
  end.

(** [Math.round]: the nearest integer, a tie going up; [-0] for a
    negative number that rounds to zero. *)
Definition Math_round (x : float) : float :=
  match to_scaled x with
  | Some (n, e) =>
      if (0 <=? e)%Z then x
      else if (n =? 0)%Z then x
      else
        let q := ((2 * n + 2 ^ (- e)) / 2 ^ (- e + 1))%Z in
        if (q =? 0)%Z && (n <? 0)%Z then neg_zero else of_Z q
  | None => x
  end.

(** [Math.max] and [Math.min] of two numbers: NaN if either is, and
    [-0] below [+0]. *)
Definition Math_max (a b : float) : float :=
  if is_nan a || is_nan b then nan
  else if (a <? b)%float then b
  else if (b <? a)%float then a
  else if is_negative (1 / a)%float then b else a.

Definition Math_min (a b : float) : float :=
  if is_nan a || is_nan b then nan
  else if (a <? b)%float then a
  else if (b <? a)%float then b
  else if is_negative (1 / a)%float then a else b.

(** [Math.pow(x, 2)] *)
Definition sq (x : float) : float := (x * x)%float.

(** The remainder operator [x % y] on numbers (C's fmod: exact, sign of
    the dividend). *)
Definition rem (x y : float) : float :=
  if is_nan x || is_nan y || is_infinity x || is_zero y then nan
  else if is_infinity y || is_zero x then x
  else
    match to_scaled x, to_scaled y with
    | Some (nx, ex), Some (ny, ey) =>
        let e0 := Z.min ex ey in
        let r := Z.rem (nx * 2 ^ (ex - e0)) (ny * 2 ^ (ey - e0)) in
        if (r =? 0)%Z then (if is_negative x then neg_zero else zero)
        else Z.ldexp (of_Z r) e0
    | _, _ => nan
    end.

(** The integer nearest to [n * 2^e], a tie going to the even one. *)
Definition roundTiesToEven (n e : Z) : Z :=
  if (0 <=? e)%Z then (n * 2 ^ e)%Z
  else
    let d := (2 ^ (- e))%Z in
    let q := (n / d)%Z in
    let m := (n mod d)%Z in
    if (2 * m <? d)%Z then q
    else if (d <? 2 * m)%Z then (q + 1)%Z
    else if Z.even q then q else (q + 1)%Z.

(** [ToUint8Clamp], the conversion of a store into a [Uint8ClampedArray]:
    NaN gives 0; otherwise the number, clamped to [0, 255], is rounded to
    the nearest integer, a tie going to the even one. *)
Definition ToUint8Clamp (x : float) : Z :=
  match to_scaled x with
  | Some (n, e) => Z.max 0 (Z.min 255 (roundTiesToEven n e))
  | None => if (0 <? x)%float then 255%Z else 0%Z
  end.

End JS.

Import JS.

(** ** Image data *)

(** An [ImageData]-shaped object: dimensions and the RGBA byte array,
    whose elements stand for bytes (0 to 255). *)
Record ImageData := mkImageData {
  width : nat;
  height : nat;
  data : list Z
}.

(** The exceptions the platform's [ImageData] constructor throws. *)
Inductive DOMException := InvalidStateError | IndexSizeError.

(** A call either returns a value or throws. *)
Inductive completion (A : Type) :=
| Returned (a : A)
| Thrown (e : DOMException).
Arguments Returned {A} a.
Arguments Thrown {A} e.

Definition bind {A B} (c : completion A) (k : A → completion B) : completion B :=
  match c with
  | Returned a => k a
  | Thrown e => Thrown e
  end.

(** [new ImageData(data, sw, sh)] of the HTML Standard: the byte length
    must be a nonzero multiple of four, the pixel count a multiple of [sw],
    and the resulting height equal to [sh]. *)
Definition new_ImageData (d : list Z) (sw sh : nat) : completion ImageData :=
  let len := length d in
  if bool_decide (len = 0 ∨ len `mod` 4 ≠ 0) then Thrown InvalidStateError
  else if bool_decide (sw = 0 ∨ (len `div` 4) `mod` sw ≠ 0) then Thrown IndexSizeError
  else if bool_decide ((len `div` 4) `div` sw ≠ sh) then Thrown IndexSizeError
  else Returned (mkImageData sw sh d).

(** Reading an element in arithmetic: a byte, or [undefined] (NaN as a
    number) outside the array. *)
Definition rd (d : list Z) (i : nat) : float :=
  match d !! i with
  | Some b => of_Z b
  | None => nan
  end.

(** The same at an index computed with offsets, which may be negative. *)
Definition rdZ (d : list Z) (i : Z) : float :=
  if bool_decide (0 ≤ i)%Z then rd d (Z.to_nat i) else nan.

(** The store [d[i] = x] of a [Uint8ClampedArray]: ignored outside. *)
Definition st (i : nat) (x : float) (d : list Z) : list Z :=
  <[i := ToUint8Clamp x]> d.

(** The indices [0, 4, 8, ...] below [len]. *)
Definition stride4 (len : nat) : list nat :=
  (λ k, 4 * k) <$> seq 0 ((len + 3) `div` 4).

(** The pixels [(y, x)] of the nested loops
    [for (y = y0; y < y0 + ny; y++) for (x = x0; x < x0 + nx; x++)],
    in the order the loops visit them. *)
Definition raster (y0 ny x0 nx : nat) : list (nat * nat) :=
  y ← seq y0 ny; x ← seq x0 nx; [(y, x)].

(** The offsets [-r .. r] of a kernel loop. *)
Definition offsets (r : Z) : list Z := seqZ (- r) (2 * r + 1).

(** An element of a plain array of numbers ([undefined] outside). *)
Definition elt (k : list float) (i : Z) : float :=
  if bool_decide (0 ≤ i)%Z then default nan (k !! Z.to_nat i) else nan.

(** ** basicTransforms.js *)

Definition clamp (value : float) : float :=
  Math_min 255 (Math_max 0 value).

Definition contrastPixel (factor : float) (data : list Z) (i : nat) : list Z :=
  let data := st i (clamp (factor * (rd data i - 128) + 128)) data in
  let data := st (i + 1) (clamp (factor * (rd data (i + 1) - 128) + 128)) data in
  let data := st (i + 2) (clamp (factor * (rd data (i + 2) - 128) + 128)) data in
  data.

Definition applyContrast (imageData : ImageData) (contrast : float)
  : completion ImageData :=
  let data := imageData.(data) in
  let factor := ((259 * (contrast + 255)) / (255 * (259 - contrast)))%float in
  let data := foldl (contrastPixel factor) data (stride4 (length data)) in
  new_ImageData data imageData.(width) imageData.(height).

Definition brightnessPixel (factor : float) (data : list Z) (i : nat) : list Z :=
  let data := st i (clamp (rd data i * factor)) data in
  let data := st (i + 1) (clamp (rd data (i + 1) * factor)) data in
  let data := st (i + 2) (clamp (rd data (i + 2) * factor)) data in
  data.

Definition applyBrightness (imageData : ImageData) (brightness : float)
  : completion ImageData :=
  let data := imageData.(data) in
  let factor := (brightness / 100)%float in
  let data := foldl (brightnessPixel factor) data (stride4 (length data)) in
  new_ImageData data imageData.(width) imageData.(height).

Definition sharpenKernel (factor : float) : list float :=
  [ 0; - factor; 0;
    - factor; 1 + 4 * factor; - factor;
    0; - factor; 0 ]%float.

(** The kernel sum of one channel at one pixel. *)
Definition sharpenSum (kernel : list float) (data : list Z)
    (width y x c : nat) : float :=
  foldl (λ sum ky,
    foldl (λ sum kx,
      let kernelIndex := ((ky + 1) * 3 + (kx + 1))%Z in
      let dataIndex := (((Z.of_nat y + ky) * Z.of_nat width + (Z.of_nat x + kx)) * 4 + Z.of_nat c)%Z in
      (sum + rdZ data dataIndex * elt kernel kernelIndex)%float)
    sum (offsets 1))
  0%float (offsets 1).

Definition sharpenPixel (kernel : list float) (data : list Z) (width : nat)
    (resultData : list Z) (yx : nat * nat) : list Z :=
  let '(y, x) := yx in
  let pixelIndex := (y * width + x) * 4 in
  foldl (λ resultData c,
    st (pixelIndex + c) (clamp (sharpenSum kernel data width y x c)) resultData)
  resultData (seq 0 3).

Definition applySharpen (imageData : ImageData) (amount : float)
  : completion ImageData :=
  if (amount =? 0)%float then Returned imageData
  else
    let data := imageData.(data) in
    let width := imageData.(width) in
    let height := imageData.(height) in
    let factor := (amount / 10)%float in
    let resultData := data in
    let kernel := sharpenKernel factor in
    let resultData :=
      foldl (sharpenPixel kernel data width) resultData
        (raster 1 (height - 2) 1 (width - 2)) in
    new_ImageData resultData width height.

(** The luminance of the pixel at byte index [i]. *)
Definition luminanceAt (data : list Z) (i : nat) : float :=
  (rd data i * 0.299 + rd data (i + 1) * 0.587 + rd data (i + 2) * 0.114)%float.

Definition grayscalePixel (data : list Z) (i : nat) : list Z :=
  let avg := luminanceAt data i in
  let data := st i avg data in
  let data := st (i + 1) avg data in
  let data := st (i + 2) avg data in
  data.

Definition applyGrayscale (imageData : ImageData) : completion ImageData :=
  let data := imageData.(data) in
  let data := foldl grayscalePixel data (stride4 (length data)) in
  new_ImageData data imageData.(width) imageData.(height).

(** [data[i] < threshold ? 0 : 255] *)
Definition thresholdValue_at (threshold : float) (data : list Z) (i : nat)
  : float :=
  if (rd data i <? threshold)%float then 0%float else 255%float.

Definition thresholdPixel (threshold : float) (data : list Z) (i : nat)
  : list Z :=
  let value := thresholdValue_at threshold data i in
  let data := st i value data in
  let data := st (i + 1) value data in
  let data := st (i + 2) value data in
  data.

Definition applyThreshold (imageData : ImageData) (threshold : float)
  : completion ImageData :=
  bind (applyGrayscale imageData) (λ grayscaleData,
    let data := grayscaleData.(data) in
    let data := foldl (thresholdPixel threshold) data (stride4 (length data)) in
    new_ImageData data imageData.(width) imageData.(height)).

(** ** edgeDetection.js *)

Definition kernelX : list float := [ -1; 0; 1; -2; 0; 2; -1; 0; 1 ]%float.
Definition kernelY : list float := [ -1; -2; -1; 0; 0; 0; 1; 2; 1 ]%float.

(** The two gradient sums at an interior pixel. *)
Definition sobelSums (data : list Z) (width y x : nat) : float * float :=
  foldl (λ sums ky,
    foldl (λ '(sumX, sumY) kx,
      let kernelIndex := ((ky + 1) * 3 + (kx + 1))%Z in
      let dataIndex := (((Z.of_nat y + ky) * Z.of_nat width + (Z.of_nat x + kx)) * 4)%Z in
      ((sumX + rdZ data dataIndex * elt kernelX kernelIndex)%float,
       (sumY + rdZ data dataIndex * elt kernelY kernelIndex)%float))
    sums (offsets 1))
  (0%float, 0%float) (offsets 1).

Definition sobelMagnitude (data : list Z) (width y x : nat) : float :=
  let '(sumX, sumY) := sobelSums data width y x in
  sqrt (sumX * sumX + sumY * sumY).

Definition sobelPixel (data : list Z) (width : nat) (resultData : list Z)
    (yx : nat * nat) : list Z :=
  let '(y, x) := yx in
  let pixelIndex := (y * width + x) * 4 in
  let magnitude := sobelMagnitude data width y x in
  let resultData := st pixelIndex magnitude resultData in
  let resultData := st (pixelIndex + 1) magnitude resultData in
  let resultData := st (pixelIndex + 2) magnitude resultData in
  let resultData := st (pixelIndex + 3) 255 resultData in
  resultData.

(** One step of the border loop.  The loop runs over [x < width] and
    [y < height], where [width - 1] and [height - 1] are not negative. *)
Definition sobelBorderPixel (width height : nat) (resultData : list Z)
    (yx : nat * nat) : list Z :=
  let '(y, x) := yx in
  if bool_decide (x ≠ 0 ∧ x ≠ width - 1 ∧ y ≠ 0 ∧ y ≠ height - 1)
  then resultData
  else
    let pixelIndex := (y * width + x) * 4 in
    let resultData := st pixelIndex 0 resultData in
    let resultData := st (pixelIndex + 1) 0 resultData in
    let resultData := st (pixelIndex + 2) 0 resultData in
    let resultData := st (pixelIndex + 3) 255 resultData in
    resultData.

Definition applySobelEdgeDetection (imageData : ImageData)
  : completion ImageData :=
  bind (applyGrayscale imageData) (λ grayscaleData,
    let data := grayscaleData.(data) in
    let width := imageData.(width) in
    let height := imageData.(height) in
    let resultData := replicate (length data) 0%Z in
    let resultData :=
      foldl (sobelPixel data width) resultData
        (raster 1 (height - 2) 1 (width - 2)) in
    let resultData :=
      foldl (sobelBorderPixel width height) resultData
        (raster 0 height 0 width) in
    new_ImageData resultData width height).

Definition gaussianKernel : list float :=
  [ 2; 4; 5; 4; 2;
    4; 9; 12; 9; 4;
    5; 12; 15; 12; 5;
    4; 9; 12; 9; 4;
    2; 4; 5; 4; 2 ]%float.

Definition blurSums (normalizedKernel : list float) (data : list Z)
    (width y x : nat) : float * float * float :=
  foldl (λ sums ky,
    foldl (λ '(sumR, sumG, sumB) kx,
      let kernelIndex := ((ky + 2) * 5 + (kx + 2))%Z in
      let dataIndex := (((Z.of_nat y + ky) * Z.of_nat width + (Z.of_nat x + kx)) * 4)%Z in
      ((sumR + rdZ data dataIndex * elt normalizedKernel kernelIndex)%float,
       (sumG + rdZ data (dataIndex + 1) * elt normalizedKernel kernelIndex)%float,
       (sumB + rdZ data (dataIndex + 2) * elt normalizedKernel kernelIndex)%float))
    sums (offsets 2))
  (0%float, 0%float, 0%float) (offsets 2).

Definition blurPixel (normalizedKernel : list float) (data : list Z)
    (width : nat) (resultData : list Z) (yx : nat * nat) : list Z :=
  let '(y, x) := yx in
  let pixelIndex := (y * width + x) * 4 in
  let '(sumR, sumG, sumB) := blurSums normalizedKernel data width y x in
  let resultData := st pixelIndex (Math_round sumR) resultData in
  let resultData := st (pixelIndex + 1) (Math_round sumG) resultData in
  let resultData := st (pixelIndex + 2) (Math_round sumB) resultData in
  resultData.

Definition applyGaussianBlur (imageData : ImageData) : completion ImageData :=
  let data := imageData.(data) in
  let width := imageData.(width) in
  let height := imageData.(height) in
  let resultData := data in
  let kernelSum := foldl (λ sum val, (sum + val)%float) 0%float gaussianKernel in
  let normalizedKernel := (λ val, (val / kernelSum)%float) <$> gaussianKernel in
  let resultData :=
    foldl (blurPixel normalizedKernel data width) resultData
      (raster 2 (height - 4) 2 (width - 4)) in
  new_ImageData resultData width height.

(** The double threshold of one pixel of the magnitude map. *)
Definition doubleThresholdPixel (data : list Z)
    (lowThreshold highThreshold : float) (resultData : list Z) (i : nat)
  : list Z :=
  let magnitude := rd data i in
  let resultData :=
    if (highThreshold <? magnitude)%float then
      st (i + 2) 255 (st (i + 1) 255 (st i 255 resultData))
    else if (lowThreshold <? magnitude)%float then
      st (i + 2) 128 (st (i + 1) 128 (st i 128 resultData))
    else
      st (i + 2) 0 (st (i + 1) 0 (st i 0 resultData)) in
  st (i + 3) 255 resultData.

Definition doubleThreshold (data : list Z) (lowThreshold highThreshold : float)
  : list Z :=
  foldl (doubleThresholdPixel data lowThreshold highThreshold)
    (replicate (length data) 0%Z) (stride4 (length data)).

(** [resultData[i] === v] *)
Definition is_value (resultData : list Z) (i : nat) (v : Z) : bool :=
  bool_decide (resultData !! i = Some v).

(** The same at an index computed with offsets. *)
Definition is_valueZ (resultData : list Z) (i : Z) (v : Z) : bool :=
  bool_decide (0 ≤ i)%Z && is_value resultData (Z.to_nat i) v.

(** The search of the 8-connected neighbourhood for a strong pixel. *)
Definition hasStrongNeighbor (resultData : list Z) (width y x : nat) : bool :=
  existsb (λ ky,
    existsb (λ kx,
      if bool_decide (ky = 0 ∧ kx = 0)%Z then false
      else
        let neighborIndex := (((Z.of_nat y + ky) * Z.of_nat width + (Z.of_nat x + kx)) * 4)%Z in
        is_valueZ resultData neighborIndex 255)
    (offsets 1))
  (offsets 1).

Definition hysteresisPixel (width : nat) (resultData : list Z)
    (yx : nat * nat) : list Z :=
  let '(y, x) := yx in
  let pixelIndex := (y * width + x) * 4 in
  if is_value resultData pixelIndex 128 then
    if hasStrongNeighbor resultData width y x then
      st (pixelIndex + 2) 255 (st (pixelIndex + 1) 255 (st pixelIndex 255 resultData))
    else
      st (pixelIndex + 2) 0 (st (pixelIndex + 1) 0 (st pixelIndex 0 resultData))
  else resultData.

Definition hysteresis (width height : nat) (resultData : list Z) : list Z :=
  foldl (hysteresisPixel width) resultData
    (raster 1 (height - 2) 1 (width - 2)).

(** Steps 1 to 3 of [applyCannyEdgeDetection]: blur, Sobel, double
    threshold. *)
Definition cannyDoubleThreshold (imageData : ImageData)
    (lowThreshold highThreshold : float) : completion (list Z) :=
  bind (applyGaussianBlur imageData) (λ blurredData,
  bind (applySobelEdgeDetection blurredData) (λ sobelData,
    Returned (doubleThreshold sobelData.(data) lowThreshold highThreshold))).

Definition applyCannyEdgeDetection (imageData : ImageData)
    (lowThreshold highThreshold : float) : completion ImageData :=
  bind (cannyDoubleThreshold imageData lowThreshold highThreshold)
    (λ resultData,
      let width := imageData.(width) in
      let height := imageData.(height) in
      new_ImageData (hysteresis width height resultData) width height).

(** ** colorUtils.js *)

Definition hsvToRgb (h s v : float) : float * float * float :=
  let h := rem (rem h 360 + 360) 360 in
  if (s =? 0)%float then
    (Math_round (v * 255), Math_round (v * 255), Math_round (v * 255))
  else
    let i := rem (Math_floor (h / 60)) 6 in
    let f := (h / 60 - Math_floor (h / 60))%float in
    let p := (v * (1 - s))%float in
    let q := (v * (1 - f * s))%float in
    let t := (v * (1 - (1 - f) * s))%float in
    let '(r, g, b) :=
      if (i =? 0)%float then (v, t, p)
      else if (i =? 1)%float then (q, v, p)
      else if (i =? 2)%float then (p, v, t)
      else if (i =? 3)%float then (p, q, v)
      else if (i =? 4)%float then (t, p, v)
      else if (i =? 5)%float then (v, p, q)
      else (v, p, q) in
    (Math_round (r * 255), Math_round (g * 255), Math_round (b * 255)).

Definition rgbToHsv (r g b : float) : float * float * float :=
  let r := (r / 255)%float in
  let g := (g / 255)%float in
  let b := (b / 255)%float in
  let max := Math_max (Math_max r g) b in
  let min := Math_min (Math_min r g) b in
  let delta := (max - min)%float in
  let h :=
    if (delta =? 0)%float then 0%float
    else if (max =? r)%float then rem ((g - b) / delta) 6
    else if (max =? g)%float then ((b - r) / delta + 2)%float
    else ((r - g) / delta + 4)%float in
  let h := Math_round (h * 60) in
  let h := if (h <? 0)%float then (h + 360)%float else h in
  let s := if (max =? 0)%float then 0%float else (delta / max)%float in
  let v := max in
  (h, s, v).

(** ** segmentation.js *)

Module Segmentation.

(** An entry of [segmentColors]. *)
Record segColor := mkSegColor {
  r : float;
  g : float;
  b : float;
  count : float
}.

(** The variables of [applySegmentation] that the flood fill updates.
    Segment ids and sizes are integers far below 2^53, kept as [Z] and
    [nat]; the top of [stack] is the head of the list. *)
Record growth := mkGrowth {
  segmentMap : list Z;
  segmentSizes : gmap Z nat;
  segmentColors : gmap Z segColor;
  stack : list (Z * Z);
  currentSegment : Z
}.

Definition directions : list (Z * Z) := [(-1, 0); (1, 0); (0, -1); (0, 1)]%Z.

Definition colorDiff3 (r1 g1 b1 r2 g2 b2 : float) : float :=
  sqrt (sq (r1 - r2) + sq (g1 - g2) + sq (b1 - b2)).

(** The body of the loop over [directions] in [floodFill], at the popped
    position [(cx, cy)]. *)
Definition visit (data : list Z) (width height : nat) (tolerance : float)
    (baseR baseG baseB : float) (cx cy : Z) (s : growth) (d : Z * Z)
  : growth :=
  let nx := (cx + d.1)%Z in
  let ny := (cy + d.2)%Z in
  if bool_decide (nx < 0 ∨ Z.of_nat width ≤ nx ∨ ny < 0 ∨ Z.of_nat height ≤ ny)%Z
  then s
  else
    let neighborIndex := (ny * Z.of_nat width + nx)%Z in
    if bool_decide (segmentMap s !! Z.to_nat neighborIndex ≠ Some (-1)%Z) then s
    else
      let nIndex := (neighborIndex * 4)%Z in
      let nr := rdZ data nIndex in
      let ng := rdZ data (nIndex + 1) in
      let nb := rdZ data (nIndex + 2) in
      let colorDiff := colorDiff3 baseR baseG baseB nr ng nb in
      if (colorDiff <=? tolerance)%float then
        let cur := currentSegment s in
        mkGrowth
          (<[Z.to_nat neighborIndex := cur]> (segmentMap s))
          (alter S cur (segmentSizes s))
          (alter (λ c, mkSegColor (r c + nr) (g c + ng) (b c + nb) (count c + 1))
             cur (segmentColors s))
          ((nx, ny) :: stack s)
          cur
      else s.

(** The [while (stack.length > 0)] loop of [floodFill]; [None] when the
    fuel does not suffice. *)
Fixpoint floodLoop (fuel : nat) (data : list Z) (width height : nat)
    (tolerance baseR baseG baseB : float) (s : growth) : option growth :=
  match stack s with
  | [] => Some s
  | (cx, cy) :: rest =>
      match fuel with
      | O => None
      | S fuel =>
          let s := mkGrowth (segmentMap s) (segmentSizes s) (segmentColors s)
                     rest (currentSegment s) in
          let s := foldl (visit data width height tolerance baseR baseG baseB cx cy)
                     s directions in
          floodLoop fuel data width height tolerance baseR baseG baseB s
      end
  end.

(** The state in which [floodFill] enters its loop: the seed is pushed
    and assigned, and the size and colour of the new segment are
    initialized. *)
Definition fillStart (width : nat) (x y : nat) (baseR baseG baseB : float)
    (s : growth) : growth :=
  mkGrowth
    (<[y * width + x := currentSegment s]> (segmentMap s))
    (<[currentSegment s := 1]> (segmentSizes s))
    (<[currentSegment s := mkSegColor baseR baseG baseB 1]> (segmentColors s))
    ((Z.of_nat x, Z.of_nat y) :: stack s)
    (currentSegment s).

Definition floodFill (fuel : nat) (data : list Z) (width height : nat)
    (tolerance : float) (x y : nat) (baseR baseG baseB : float) (s : growth)
  : option growth :=
  let cur := currentSegment s in
  let s := fillStart width x y baseR baseG baseB s in
  s ← floodLoop fuel data width height tolerance baseR baseG baseB s;
  let average := λ c,
    mkSegColor (Math_round (r c / count c)) (Math_round (g c / count c))
      (Math_round (b c / count c)) (count c) in
  Some (mkGrowth (segmentMap s) (segmentSizes s)
          (alter average cur (segmentColors s)) (stack s) (cur + 1)%Z).

(** A left fold whose step may give no result. *)
Fixpoint foldlM {A B} (f : A → B → option A) (a : A) (l : list B) : option A :=
  match l with
  | [] => Some a
  | x :: l => a ← f a x; foldlM f a l
  end.

(** The body of the loop that processes all pixels. *)
Definition growPixel (fuel : nat) (data : list Z) (width height : nat)
    (tolerance : float) (s : growth) (yx : nat * nat) : option growth :=
  let '(y, x) := yx in
  let index := y * width + x in
  if bool_decide (segmentMap s !! index ≠ Some (-1)%Z) then Some s
  else
    let pixelIndex := index * 4 in
    floodFill fuel data width height tolerance x y
      (rd data pixelIndex) (rd data (pixelIndex + 1)) (rd data (pixelIndex + 2)) s.

Definition grow (fuel : nat) (data : list Z) (width height : nat)
    (tolerance : float) : option growth :=
  foldlM (growPixel fuel data width height tolerance)
    (mkGrowth (replicate (width * height) (-1)%Z) ∅ ∅ [] 0%Z)
    (raster 0 height 0 width).

(** [Set.prototype.add]: a set keeps the order of insertion. *)
Definition setAdd (set : list Z) (v : Z) : list Z :=
  if bool_decide (v ∈ set) then set else set ++ [v].

(** The neighbours a pixel of segment [i] contributes.  A neighbouring
    segment is an id below [currentSegment], where [mergeMap] is defined. *)
Definition pixelNeighbors (width height : nat) (segmentMap : list Z)
    (mergeMap : gmap Z Z) (i : Z) (neighbors : list Z) (yx : nat * nat)
  : list Z :=
  let '(y, x) := yx in
  let index := y * width + x in
  if bool_decide (segmentMap !! index = Some i) then
    foldl (λ neighbors (d : Z * Z),
      let nx := (Z.of_nat x + d.1)%Z in
      let ny := (Z.of_nat y + d.2)%Z in
      if bool_decide (nx < 0 ∨ Z.of_nat width ≤ nx ∨ ny < 0 ∨ Z.of_nat height ≤ ny)%Z
      then neighbors
      else
        match segmentMap !! Z.to_nat (ny * Z.of_nat width + nx) with
        | Some neighborSegment =>
            if bool_decide (neighborSegment ≠ i ∧ neighborSegment ≠ (-1)%Z) then
              match mergeMap !! neighborSegment with
              | Some m => setAdd neighbors m
              | None => neighbors
              end
            else neighbors
        | None => neighbors
        end)
    neighbors directions
  else neighbors.

Definition colorDistance (c1 c2 : segColor) : float :=
  colorDiff3 (r c1) (g c1) (b c1) (r c2) (g c2) (b c2).

(** The search for the closest neighbour by colour, from [-1] and
    [Infinity].  The ids it meets are below [currentSegment], where
    [segmentColors] is defined. *)
Definition closestNeighbor (segmentColors : gmap Z segColor) (i : Z)
    (neighborArray : list Z) : Z * float :=
  foldl (λ '(bestNeighbor, minColorDiff) neighborSegment,
    match segmentColors !! i, segmentColors !! neighborSegment with
    | Some ci, Some cn =>
        let colorDiff := colorDistance ci cn in
        if (colorDiff <? minColorDiff)%float then (neighborSegment, colorDiff)
        else (bestNeighbor, minColorDiff)
    | _, _ => (bestNeighbor, minColorDiff)
    end)
  ((-1)%Z, infinity) neighborArray.

(** The body of the loop that merges small segments; [mergeMap] is the
    map as the previous iterations left it. *)
Definition mergeSmall (width height : nat) (minSize : float) (s : growth)
    (mergeMap : gmap Z Z) (i : Z) : gmap Z Z :=
  if (from_option of_nat nan (segmentSizes s !! i) <? minSize)%float then
    let neighbors :=
      foldl (pixelNeighbors width height (segmentMap s) mergeMap i) []
        (raster 0 height 0 width) in
    let bestNeighbor := (closestNeighbor (segmentColors s) i neighbors).1 in
    if bool_decide (bestNeighbor ≠ (-1)%Z) then <[i := bestNeighbor]> mergeMap
    else mergeMap
  else mergeMap.

(** [while (mergeMap[target] !== target) target = mergeMap[target]];
    [None] when the fuel does not suffice, and outside the map. *)
Fixpoint followChain (fuel : nat) (mergeMap : gmap Z Z) (target : Z) : option Z :=
  match mergeMap !! target with
  | Some next =>
      if bool_decide (next ≠ target) then
        match fuel with
        | O => None
        | S fuel => followChain fuel mergeMap next
        end
      else Some target
  | None => None
  end.

Definition flatten (fuel : nat) (mergeMap : gmap Z Z) (i : Z)
  : option (gmap Z Z) :=
  target ← followChain fuel mergeMap i;
  Some (<[i := target]> mergeMap).

(** What segmentation computes before colours are chosen. *)
Record segments := mkSegments {
  grown : growth;
  mergeMap : gmap Z Z;
  segmentList : list Z
}.

Definition segment (fuel : nat) (imageData : ImageData)
    (tolerance minSize : float) : option segments :=
  let width := imageData.(width) in
  let height := imageData.(height) in
  let data := imageData.(data) in
  s ← grow fuel data width height tolerance;
  let ids := seqZ 0 (currentSegment s) in
  let mergeMap := foldl (λ mergeMap i, <[i := i]> mergeMap) ∅ ids in
  let mergeMap := foldl (mergeSmall width height minSize s) mergeMap ids in
  mergeMap ← foldlM (flatten fuel) mergeMap ids;
  let uniqueSegments :=
    foldl (λ set i,
      match mergeMap !! i with Some m => setAdd set m | None => set end)
    [] ids in
  Some (mkSegments s mergeMap uniqueSegments).

(** A display colour. *)
Record rgb := mkRgb { red : float; green : float; blue : float }.

Definition ofTriple (c : float * float * float) : rgb :=
  mkRgb c.1.1 c.1.2 c.2.

(** The loop [for (i = 0; i < segmentList.length; i++)] of a colour
    scheme. *)
Definition colorEach (segmentList : list Z) (color : nat → Z → rgb)
  : gmap Z rgb :=
  foldl (λ colors '(i, segment), <[segment := color i segment]> colors) ∅
    (zip (seq 0 (length segmentList)) segmentList).

(** [random i] is the value of the [i]-th call of [Math.random].  The
    segments of [segmentList] have an entry in [segmentColors]. *)
Definition assignColorsToSegments (random : nat → float)
    (segmentList : list Z) (segmentColors : gmap Z segColor)
    (colorScheme : string) : gmap Z rgb :=
  let n := of_nat (length segmentList) in
  let rainbow := λ (i : nat) (_ : Z),
    ofTriple (hsvToRgb (of_nat i / n * 360) 0.8 0.9) in
  if bool_decide (colorScheme = "rainbow") then colorEach segmentList rainbow
  else if bool_decide (colorScheme = "pastel") then
    colorEach segmentList (λ i _,
      ofTriple (hsvToRgb (of_nat i / n * 360) 0.4 0.95))
  else if bool_decide (colorScheme = "grayscale") then
    colorEach segmentList (λ i _,
      let value := (255 - Math_round (of_nat i / n * 220))%float in
      mkRgb value value value)
  else if bool_decide (colorScheme = "highContrast") then
    colorEach segmentList (λ i _,
      ofTriple (hsvToRgb (rem (of_nat i * 137.5) 360) 1 1))
  else if bool_decide (colorScheme = "preserveBrightness") then
    colorEach segmentList (λ i segment,
      let origColor :=
        default (mkSegColor nan nan nan nan) (segmentColors !! segment) in
      let brightness :=
        ((r origColor * 0.299 + g origColor * 0.587 + b origColor * 0.114)
         / 255)%float in
      let hue := (random i * 360)%float in
      ofTriple (hsvToRgb hue 0.8 brightness))
  else colorEach segmentList rainbow.

(** The body of the loop that applies the colours. *)
Definition paintPixel (width : nat) (segmentMap : list Z)
    (mergeMap : gmap Z Z) (colors : gmap Z rgb) (resultData : list Z)
    (yx : nat * nat) : list Z :=
  let '(y, x) := yx in
  let index := y * width + x in
  match segmentMap !! index with
  | Some pixelSegment =>
      if bool_decide (pixelSegment ≠ (-1)%Z) then
        match mergeMap !! pixelSegment ≫= (colors !!.) with
        | Some color =>
            let pixelIndex := index * 4 in
            let resultData := st pixelIndex (red color) resultData in
            let resultData := st (pixelIndex + 1) (green color) resultData in
            let resultData := st (pixelIndex + 2) (blue color) resultData in
            resultData
        | None => resultData
        end
      else resultData
  | None => resultData
  end.

Definition applySegmentation (fuel : nat) (random : nat → float)
    (imageData : ImageData) (tolerance minSize : float) (colorScheme : string)
  : option (completion ImageData) :=
  let width := imageData.(width) in
  let height := imageData.(height) in
  let resultData := imageData.(data) in
  sg ← segment fuel imageData tolerance minSize;
  let colors :=
    assignColorsToSegments random (segmentList sg)
      (segmentColors (grown sg)) colorScheme in
  let resultData :=
    foldl (paintPixel width (segmentMap (grown sg)) (mergeMap sg) colors)
      resultData (raster 0 height 0 width) in
  Some (new_ImageData resultData width height).

(** *** Vocabulary of the segmentation properties *)

(** The number of pixels of a segment map that have a segment. *)
Definition assigned (segmentMap : list Z) : nat :=
  length (filter (λ v, v ≠ (-1)%Z) segmentMap).

(** The sum of [segmentSizes[i]] over the ids [0 .. n-1]. *)
Definition totalSize (segmentSizes : gmap Z nat) (n : Z) : nat :=
  sum_list_with (λ i, default 0 (segmentSizes !! i)) (seqZ 0 n).

(** The representative of the segment of pixel [p] after the merge:
    [mergeMap[segmentMap[p]]]. *)
Definition representative (sg : segments) (p : nat) : option Z :=
  segmentMap (grown sg) !! p ≫= (mergeMap sg !!.).

(** The number of pixels, among the first [n], whose representative is
    [rep]. *)
Definition pixelCount (sg : segments) (n : nat) (rep : Z) : nat :=
  length (filter (λ p, representative sg p = Some rep) (seq 0 n)).

(** Pixels that have a segment in [sm] have the same one in [sm']. *)
Definition extends (sm sm' : list Z) : Prop :=
  ∀ p v, sm !! p = Some v → v ≠ (-1)%Z → sm' !! p = Some v.

(** The invariant of the flood fill of segment [cur] over [n] pixels. *)
Definition fillInv (n : nat) (cur : Z) (s : growth) : Prop :=
  currentSegment s = cur ∧ (0 ≤ cur)%Z
  ∧ length (segmentMap s) = n
  ∧ (∀ p v, segmentMap s !! p = Some v → (-1 ≤ v ≤ cur)%Z)
  ∧ is_Some (segmentSizes s !! cur)
  ∧ totalSize (segmentSizes s) (cur + 1) = assigned (segmentMap s).

(** The invariant of the loop that processes all pixels, between two
    flood fills. *)
Definition growInv (n : nat) (s : growth) : Prop :=
  (0 ≤ currentSegment s)%Z
  ∧ length (segmentMap s) = n
  ∧ (∀ p v, segmentMap s !! p = Some v → (-1 ≤ v < currentSegment s)%Z)
  ∧ totalSize (segmentSizes s) (currentSegment s) = assigned (segmentMap s).

(** The segments below [n] have an entry in [segmentSizes] and in
    [segmentColors]. *)
Definition definedBelow (n : Z) (s : growth) : Prop :=
  ∀ i, (0 ≤ i < n)%Z →
    is_Some (segmentSizes s !! i) ∧ is_Some (segmentColors s !! i).

(** What the loop of the flood fill consumes: a stack entry per
    iteration, and two units per pixel that has no segment yet. *)
Definition fillMeasure (n : nat) (s : growth) : nat :=
  length (stack s) + 2 * (n - assigned (segmentMap s)).

(** [mergeMap] is defined on the ids below [cur] and maps into them. *)
Definition mergeInv (cur : Z) (m : gmap Z Z) : Prop :=
  (∀ i, (0 ≤ i < cur)%Z → is_Some (m !! i))
  ∧ (∀ k t, m !! k = Some t → (0 ≤ t < cur)%Z).

(** The chain of segment [i] is flattened: [mergeMap[i]] is a
    representative. *)
Definition resolved (m : gmap Z Z) (i : Z) : Prop :=
  ∃ t, m !! i = Some t ∧ m !! t = Some t.

End Segmentation.

(** ** The dispatcher of the application component *)

Record transformParams := mkParams {
  contrastValue : float;
  brightnessValue : float;
  sharpnessValue : float;
  thresholdValue : float;
  cannyLow : float;
  cannyHigh : float;
  segmentTolerance : float;
  segmentMinSize : float;
  colorScheme : string
}.

Record transform := mkTransform {
  type : string;
  params : transformParams
}.

(** The [case] labels of [applyTransformation]. *)
Definition recognizedTypes : list string :=
  ["contrast"; "brightness"; "sharpening"; "threshold"; "grayscale";
   "edges"; "canny"; "segmentation"].

Definition applyTransformation (fuel : nat) (random : nat → float)
    (imageData : ImageData) (transform : transform)
  : option (completion ImageData) :=
  let type := transform.(type) in
  let params := transform.(params) in
  if bool_decide (type = "contrast") then
    Some (applyContrast imageData params.(contrastValue))
  else if bool_decide (type = "brightness") then
    Some (applyBrightness imageData params.(brightnessValue))
  else if bool_decide (type = "sharpening") then
    Some (applySharpen imageData params.(sharpnessValue))
  else if bool_decide (type = "threshold") then
    Some (applyThreshold imageData params.(thresholdValue))
  else if bool_decide (type = "grayscale") then
    Some (applyGrayscale imageData)
  else if bool_decide (type = "edges") then
    Some (applySobelEdgeDetection imageData)
  else if bool_decide (type = "canny") then
    Some (applyCannyEdgeDetection imageData params.(cannyLow) params.(cannyHigh))
  else if bool_decide (type = "segmentation") then
    Segmentation.applySegmentation fuel random imageData
      params.(segmentTolerance) params.(segmentMinSize) params.(colorScheme)
  else Some (Returned imageData).

(** ** Vocabulary of the properties *)

(** The invariant of a pixel buffer, as the [ImageData] constructor
    enforces it. *)
Definition wellFormed (imageData : ImageData) : Prop :=
  length imageData.(data) = imageData.(width) * imageData.(height) * 4
  ∧ 0 < imageData.(width) ∧ 0 < imageData.(height).

(** The byte index of channel 0 of the pixel [(x, y)]. *)
Definition pixelIndexOf (width y x : nat) : nat := (y * width + x) * 4.

(** The R, G and B bytes of pixel [(x, y)] all equal [v]. *)
Definition pixelIs (d : list Z) (width y x : nat) (v : Z) : Prop :=
  d !! pixelIndexOf width y x = Some v
  ∧ d !! (pixelIndexOf width y x + 1) = Some v
  ∧ d !! (pixelIndexOf width y x + 2) = Some v.


(** The luminance of a grey pixel of value [a] is stored as [a]. *)
Definition grayFixed (a : Z) : bool :=
  (ToUint8Clamp (of_Z a * 0.299 + of_Z a * 0.587 + of_Z a * 0.114) =? a)%Z.

(** The distance of two hues on the colour circle, in degrees. *)
Definition hueDistance (h1 h2 : float) : float :=
  let d := abs (h1 - h2) in
  Math_min d (360 - d).

(** [rgbToHsv (hsvToRgb h s v)] is [(h, s, v)] within the tolerances. *)
Definition recovers (tolH tolS tolV : float) (h s v : float) : bool :=
  let '(r, g, b) := hsvToRgb h s v in
  let '(h', s', v') := rgbToHsv r g b in
  (hueDistance h' h <=? tolH)%float
  && (abs (s' - s) <=? tolS)%float
  && (abs (v' - v) <=? tolV)%float.

(** [rgbToHsv] of the colour that [hsvToRgb] makes. *)
Definition roundTrip (h s v : float) : float * float * float :=
  let '(r, g, b) := hsvToRgb h s v in rgbToHsv r g b.

(** A call that throws. *)
Definition throws {A} (c : completion A) : Prop := ∃ e, c = Thrown e.

(** The bytes of [n] pixels [(r, g, b, a)]. *)
Definition pixelBytes (r g b a : Z) (n : nat) : list Z :=
  concat (replicate n [r; g; b; a]).

(** The image in which every pixel is [(r, g, b, a)]. *)
Definition constantImage (width height : nat) (r g b a : Z) : ImageData :=
  mkImageData width height (pixelBytes r g b a (width * height)).

(** The byte stored for the magnitude at the centre of the 3x3 image of
    constant grey [v]. *)
Definition sobelOfConstant (v : Z) : Z :=
  ToUint8Clamp (sobelMagnitude (pixelBytes v v v 255 9) 3 1 1).

(** The class the double threshold gives a magnitude: strong (255), weak
    (128) or none (0). *)
Definition edgeClass (lowThreshold highThreshold magnitude : float) : Z :=
  if (highThreshold <? magnitude)%float then 255%Z
  else if (lowThreshold <? magnitude)%float then 128%Z
  else 0%Z.

(** The pixel [(x, y)] lies on one of the four edges of the image. *)
Definition onBorder (width height y x : nat) : Prop :=
  x = 0 ∨ x = width - 1 ∨ y = 0 ∨ y = height - 1.

(** *** Sample inputs *)

(** The 2x2 image of the contrast scenario. *)
Definition gray2x2 : ImageData := constantImage 2 2 100 100 100 255.

(** Three columns: black, mid-grey, white. *)
Definition columns3x3 : ImageData :=
  mkImageData 3 3
    (concat (replicate 3 [0; 0; 0; 255; 128; 128; 128; 255; 255; 255; 255; 255]%Z)).

(** Four columns of grey 0, 0, 20 and 200: the gradient is weak at
    column 1 and strong at column 2. *)
Definition ramp4x4 : ImageData :=
  mkImageData 4 4
    (concat (replicate 4
       [0; 0; 0; 255; 0; 0; 0; 255; 20; 20; 20; 255; 200; 200; 200; 255]%Z)).

(** Two solid 4x2 blocks. *)
Definition blocks4x4 : ImageData :=
  mkImageData 4 4
    (concat (replicate 8 [10; 10; 10; 255]%Z)
     ++ concat (replicate 8 [200; 200; 200; 255]%Z)).

(** The image of grey pixels of the given values. *)
Definition grayImage (width height : nat) (values : list Z) : ImageData :=
  mkImageData width height (values ≫= λ v, [v; v; v; 255%Z]).

(** A 5x4 grey image on which the merge of small segments makes segments
    7 and 9 each other's merge target. *)
Definition cycleImage : ImageData :=
  grayImage 5 4
    [ 0; 21;  0; 11; 10;
     10; 10;  2;  2;  5;
     12;  2; 20; 10;  5;
     22; 10;  0;  5;  5]%Z.

(** Its segments after the growth. *)
Definition cycleGrown : Segmentation.growth :=
  default (Segmentation.mkGrowth [] ∅ ∅ [] 0)
    (Segmentation.grow 100 (data cycleImage) 5 4 10).

(** Its merge map after the loop that merges small segments. *)
Definition cycleMergeMap : gmap Z Z :=
  let ids := seqZ 0 (Segmentation.currentSegment cycleGrown) in
  foldl (Segmentation.mergeSmall 5 4 10 cycleGrown)
    (foldl (λ mergeMap i, <[i := i]> mergeMap) ∅ ids) ids.

(** A buffer of 3 bytes that claims 2x2 pixels. *)
Definition malformed2x2 : ImageData := mkImageData 2 2 [1; 2; 3]%Z.

(** The buffer of [cycleImage] with one byte more, still claiming 5x4
    pixels, and its segments after the growth. *)
Definition malformedCycle : ImageData :=
  mkImageData 5 4 (data cycleImage ++ [0%Z]).

Definition malformedCycleGrown : Segmentation.growth :=
  default (Segmentation.mkGrowth [] ∅ ∅ [] 0)
    (Segmentation.grow 100 (data malformedCycle) 5 4 10).

Definition sampleParams : transformParams :=
  mkParams 100 100 0 128 50 150 20 100 "rainbow".

(** ** basicTransforms.js: inversion *)

Definition invertPixel (data : list Z) (i : nat) : list Z :=
  let data := st i (255 - rd data i) data in
  let data := st (i + 1) (255 - rd data (i + 1)) data in
  let data := st (i + 2) (255 - rd data (i + 2)) data in
  data.

Definition applyInvert (imageData : ImageData) : completion ImageData :=
  let data := imageData.(data) in
  let data := foldl invertPixel data (stride4 (length data)) in
  new_ImageData data imageData.(width) imageData.(height).

(** ** colorUtils.js: luminance, distance and luminance-preserving colours *)

Definition getLuminance (r g b : float) : float :=
  ((0.299 * r + 0.587 * g + 0.114 * b) / 255)%float.

Definition getColorDistance (r1 g1 b1 r2 g2 b2 : float) : float :=
  sqrt (sq (r2 - r1) + sq (g2 - g1) + sq (b2 - b1)).

(** The values the counter of
    [for (testValue = 0.1; testValue <= 1.0; testValue += 0.05)] takes;
    [None] when the fuel does not suffice. *)
Fixpoint testValues (fuel : nat) (testValue : float) : option (list float) :=
  if (testValue <=? 1)%float then
    match fuel with
    | O => None
    | S fuel => (testValue ::.) <$> testValues fuel (testValue + 0.05)
    end
  else Some [].

(** The body of that loop, on the pair of [bestDiff] and [bestRgb]. *)
Definition tryValue (luminance targetHue targetSaturation : float)
    (best : float * (float * float * float)) (testValue : float)
  : float * (float * float * float) :=
  let '(bestDiff, bestRgb) := best in
  let testRgb := hsvToRgb targetHue targetSaturation testValue in
  let testLum := getLuminance testRgb.1.1 testRgb.1.2 testRgb.2 in
  let diff := abs (testLum - luminance) in
  if (diff <? bestDiff)%float then (diff, testRgb) else (bestDiff, bestRgb).

(** The conversion of [(r, g, b)] to HSV at the start of the function
    has no effect and its result is not used. *)
Definition preserveLuminance (fuel : nat) (r g b targetHue targetSaturation : float)
  : option (float * float * float) :=
  let luminance := getLuminance r g b in
  values ← testValues fuel 0.1;
  Some (foldl (tryValue luminance targetHue targetSaturation)
          (infinity, (0, 0, 0)%float) values).2.

(** ** The stack of transformations of the application component *)

(** [setActiveTransformations(prev => [...prev, { ...currentTransform }])] *)
Definition addCurrentTransform (currentTransform : transform)
    (prev : list transform) : list transform :=
  prev ++ [currentTransform].

(** [setActiveTransformations(prev => prev.filter((_, i) => i !== index))] *)
Definition removeTransform (index : nat) (prev : list transform)
  : list transform :=
  snd <$> filter (λ it, it.1 ≠ index) (zip (seq 0 (length prev)) prev).

(** The number of calls of [Math.random] a transformation makes: one for
    each final segment, in the colour scheme that preserves brightness. *)
Definition randomCalls (fuel : nat) (imageData : ImageData)
    (transform : transform) : nat :=
  let params := transform.(params) in
  if bool_decide (transform.(type) = "segmentation"
                  ∧ params.(colorScheme) = "preserveBrightness") then
    match Segmentation.segment fuel imageData
            params.(segmentTolerance) params.(segmentMinSize) with
    | Some sg => length (Segmentation.segmentList sg)
    | None => 0
    end
  else 0.

(** The loop of [applyAllTransformations] over the active
    transformations, from the image data read from the canvas. *)
Fixpoint applyTransformations (fuel : nat) (random : nat → float)
    (currentImageData : ImageData) (activeTransformations : list transform)
  : option (completion ImageData) :=
  match activeTransformations with
  | [] => Some (Returned currentImageData)
  | transform :: rest =>
      c ← applyTransformation fuel random currentImageData transform;
      match c with
      | Returned next =>
          let calls := randomCalls fuel currentImageData transform in
          applyTransformations fuel (λ i, random (calls + i)) next rest
      | Thrown e => Some (Thrown e)
      end
  end.

(** *** Vocabulary of the further properties *)

(** Every element of the array is a byte. *)
Definition byteBuffer (d : list Z) : Prop := Forall (λ b, 0 ≤ b ≤ 255)%Z d.

(** A loop body that stores [f] of the R, G and B bytes of the pixel at
    byte index [i]. *)
Definition mapChannels (f : float → float) (data : list Z) (i : nat) : list Z :=
  let data := st i (f (rd data i)) data in
  let data := st (i + 1) (f (rd data (i + 1))) data in
  let data := st (i + 2) (f (rd data (i + 2))) data in
  data.

(** A call returns a well-formed buffer of the dimensions of [img]. *)
Definition keepsShape (img : ImageData) (c : completion ImageData) : Prop :=
  ∃ out, c = Returned out
    ∧ width out = width img ∧ height out = height img ∧ wellFormed out.

(** The bytes 0 to 255. *)
Definition bytes : list Z := seqZ 0 256.

(** The normalized kernel of [applyGaussianBlur]. *)
Definition normalizedKernel : list float :=
  let kernelSum := foldl (λ sum val, (sum + val)%float) 0%float gaussianKernel in
  (λ val, (val / kernelSum)%float) <$> gaussianKernel.

(** The sum the blur accumulates for channel [c] at the pixel [(x, y)]. *)
Definition channelSum (normalizedKernel : list float) (data : list Z)
    (width y x : nat) (c : Z) : float :=
  foldl (λ sum ky,
    foldl (λ sum kx,
      let kernelIndex := ((ky + 2) * 5 + (kx + 2))%Z in
      let dataIndex := (((Z.of_nat y + ky) * Z.of_nat width + (Z.of_nat x + kx)) * 4)%Z in
      (sum + rdZ data (dataIndex + c) * elt normalizedKernel kernelIndex)%float)
    sum (offsets 2))
  0%float (offsets 2).

(** The byte the blur stores at the centre of the 5x5 image of constant
    grey [v]. *)
Definition blurOfConstant (v : Z) : Z :=
  ToUint8Clamp
    (Math_round (channelSum normalizedKernel (pixelBytes v v v 255 25) 5 2 2 0)).

(** The colour a scheme gives the segment at position [i] of a list of
    [n] segments. *)
Definition schemeColor (random : nat → float)
    (segmentColors : gmap Z Segmentation.segColor) (colorScheme : string)
    (n i : nat) (segment : Z) : Segmentation.rgb :=
  let rainbow :=
    Segmentation.ofTriple
      (hsvToRgb (of_nat i / of_nat n * 360) 0.8 0.9) in
  if bool_decide (colorScheme = "rainbow") then rainbow
  else if bool_decide (colorScheme = "pastel") then
    Segmentation.ofTriple (hsvToRgb (of_nat i / of_nat n * 360) 0.4 0.95)
  else if bool_decide (colorScheme = "grayscale") then
    let value := (255 - Math_round (of_nat i / of_nat n * 220))%float in
    Segmentation.mkRgb value value value
  else if bool_decide (colorScheme = "highContrast") then
    Segmentation.ofTriple (hsvToRgb (rem (of_nat i * 137.5) 360) 1 1)
  else if bool_decide (colorScheme = "preserveBrightness") then
    let origColor :=
      default (Segmentation.mkSegColor nan nan nan nan)
        (segmentColors !! segment) in
    let brightness :=
      ((Segmentation.r origColor * 0.299 + Segmentation.g origColor * 0.587
        + Segmentation.b origColor * 0.114) / 255)%float in
    Segmentation.ofTriple (hsvToRgb (random i * 360) 0.8 brightness)
  else rainbow.

(** The colour of the final segment of pixel [p]. *)
Definition pixelColor (sg : Segmentation.segments)
    (colors : gmap Z Segmentation.rgb) (p : nat) : option Segmentation.rgb :=
  Segmentation.representative sg p ≫= (colors !!.).

(** [getLuminance] of the bytes [(r, g, b)] lies between 0 and 1. *)
Definition luminanceInRange (r : Z) : bool :=
  let fr := of_Z r in
  forallb (λ g,
    let fg := of_Z g in
    forallb (λ b,
      let l := getLuminance fr fg (of_Z b) in
      (0 <=? l)%float && (l <=? 1)%float) bytes) bytes.

(** The values [preserveLuminance] tries. *)
Definition triedValues : list float := default [] (testValues 18 0.1).

(** The colour of pixel [p] is within the tolerance of the colour of
    pixel [q], by the test of the flood fill. *)
Definition similarTo (data : list Z) (tolerance : float) (q p : nat) : Prop :=
  (Segmentation.colorDiff3
     (rd data (q * 4)) (rd data (q * 4 + 1)) (rd data (q * 4 + 2))
     (rd data (p * 4)) (rd data (p * 4 + 1)) (rd data (p * 4 + 2))
   <=? tolerance)%float = true.

(** Every segment [v] has a seed pixel [seed v] in it, and every other
    pixel of the segment is similar to the seed. *)
Definition seededBy (data : list Z) (tolerance : float) (seed : Z → nat)
    (segmentMap : list Z) : Prop :=
  ∀ p v, segmentMap !! p = Some v → v ≠ (-1)%Z →
    segmentMap !! seed v = Some v
    ∧ (p = seed v ∨ similarTo data tolerance (seed v) p).

(** [generateDistinctColors]; [count] is a non-negative integer, and an
    argument left out ([undefined]) takes its default. *)
Definition generateDistinctColors (random : nat → float) (count : nat)
    (saturation value : option float) : list (float * float * float) :=
  let saturation := default 0.8%float saturation in
  let value := default 0.9%float value in
  let goldenRatioConjugate := 0.618033988749895%float in
  let h := random 0 in
  (foldl (λ '(h, colors) (_ : nat),
     let h := (h + goldenRatioConjugate)%float in
     let h := rem h 1 in
     let rgb := hsvToRgb (h * 360) saturation value in
     (h, colors ++ [rgb]))
    (h, []) (seq 0 count)).2.

(** The saturation and the value [rgbToHsv] returns. *)
Definition saturationOf (r g b : float) : float :=
  let r := (r / 255)%float in
  let g := (g / 255)%float in
  let b := (b / 255)%float in
  let max := Math_max (Math_max r g) b in
  let min := Math_min (Math_min r g) b in
  let delta := (max - min)%float in
  if (max =? 0)%float then 0%float else (delta / max)%float.

Definition valueOf (r g b : float) : float :=
  Math_max (Math_max (r / 255) (g / 255)) (b / 255).

(** The saturation of a colour whose greatest channel is the byte [max]
    and whose least channel is the byte [min] lies between 0 and 1. *)
Definition saturationInRange (max : Z) : bool :=
  forallb (λ min,
    (max <? min)%Z
    || let fmax := (of_Z max / 255)%float in
       let fmin := (of_Z min / 255)%float in
       let s := if (fmax =? 0)%float then 0%float
                else ((fmax - fmin) / fmax)%float in
       (0 <=? s)%float && (s <=? 1)%float) bytes.

(** The value of a colour whose greatest channel is the byte [max] lies
    between 0 and 1. *)
Definition valueInRange (max : Z) : bool :=
  (0 <=? of_Z max / 255)%float && (of_Z max / 255 <=? 1)%float.

(** *** Vocabulary of the flood fill of an image of one colour *)

(** The position [c = (x, y)] lies in the image. *)
Definition inBounds (width height : nat) (c : Z * Z) : Prop :=
  (0 ≤ c.1 < Z.of_nat width)%Z ∧ (0 ≤ c.2 < Z.of_nat height)%Z.

(** The neighbour of [c] in the direction [d]. *)
Definition neighbour (c d : Z * Z) : Z * Z := (c.1 + d.1, c.2 + d.2)%Z.

(** The pixel at [c] belongs to segment 0. *)
Definition filled (segmentMap : list Z) (width : nat) (c : Z * Z) : Prop :=
  segmentMap !! Z.to_nat (c.2 * Z.of_nat width + c.1) = Some 0%Z.

(** The neighbours of [c] in the image all belong to segment 0. *)
Definition closedAt (width height : nat) (segmentMap : list Z) (c : Z * Z)
  : Prop :=
  ∀ d, d ∈ Segmentation.directions → inBounds width height (neighbour c d) →
    filled segmentMap width (neighbour c d).

(** The invariant of the flood fill of segment 0 while the position [c0]
    is being visited: the pixels of the segment are [c0], on the stack, or
    have all their neighbours in the segment. *)
Definition fillingAt (width height : nat) (c0 : Z * Z) (s : Segmentation.growth)
  : Prop :=
  Segmentation.currentSegment s = 0%Z
  ∧ length (Segmentation.segmentMap s) = width * height
  ∧ (∀ p v, Segmentation.segmentMap s !! p = Some v → v = (-1)%Z ∨ v = 0%Z)
  ∧ (∀ c, c ∈ Segmentation.stack s →
       inBounds width height c ∧ filled (Segmentation.segmentMap s) width c)
  ∧ (∀ c, inBounds width height c →
       filled (Segmentation.segmentMap s) width c →
       c = c0 ∨ c ∈ Segmentation.stack s
       ∨ closedAt width height (Segmentation.segmentMap s) c).

(** The same between two iterations of the loop. *)
Definition filling (width height : nat) (s : Segmentation.growth) : Prop :=
  Segmentation.currentSegment s = 0%Z
  ∧ length (Segmentation.segmentMap s) = width * height
  ∧ (∀ p v, Segmentation.segmentMap s !! p = Some v → v = (-1)%Z ∨ v = 0%Z)
  ∧ (∀ c, c ∈ Segmentation.stack s →
       inBounds width height c ∧ filled (Segmentation.segmentMap s) width c)
  ∧ (∀ c, inBounds width height c →
       filled (Segmentation.segmentMap s) width c →
       c ∈ Segmentation.stack s
       ∨ closedAt width height (Segmentation.segmentMap s) c)
  ∧ filled (Segmentation.segmentMap s) width (0, 0)%Z.

(** ** The numbers as real numbers

    The value of a binary64 number as a real number, and the rounding of
    the arithmetic operations: to nearest, ties to even, in the format of
    [SpecFloat] (53 bits of precision, exponents from -1074). *)

Local Open Scope R_scope.

(** The power of two of exponent [e]. *)
Definition bpow (e : Z) : R :=
  if (0 <=? e)%Z then IZR (2 ^ e) else (/ IZR (2 ^ (- e)))%R.

(** The exponent of the binary64 numbers of magnitude [d]. *)
Definition fexp64 (d : Z) : Z := Z.max (d - 53) (-1074).

(** The location [l] of [Y] between [m] and [m + 1], as [SpecFloat] records
    it while it shifts a mantissa. *)
Definition inbetween (Y : R) (m : Z) (l : location) : Prop :=
  match l with
  | loc_Exact => Y = IZR m
  | loc_Inexact Lt => IZR m < Y < IZR m + / 2
  | loc_Inexact Eq => Y = IZR m + / 2
  | loc_Inexact Gt => IZR m + / 2 < Y < IZR m + 1
  end.

(** The record [mrs] of a shift holds the integer part and the location of
    [Y]. *)
Definition shr_inv (Y : R) (mrs : shr_record) : Prop :=
  (0 <= shr_m mrs)%Z ∧ inbetween Y (shr_m mrs) (loc_of_shr_record mrs).

(** [e] is the exponent of the binary64 numbers around [X >= 0]. *)
Definition canon (X : R) (e : Z) : Prop :=
  ∃ d, e = fexp64 d ∧ X < bpow d ∧ (bpow (d - 1) <= X ∨ (d <= -1021)%Z).

(** [Y] is [X >= 0] rounded to binary64 (no overflow). *)
Definition RN (X Y : R) : Prop :=
  ∃ e k, canon X e ∧ Y = IZR k * bpow e
         ∧ Rabs (IZR k - X / bpow e) <= / 2
         ∧ (Rabs (IZR k - X / bpow e) = / 2 → Z.even k = true).

(** [r] is zero or finite, of sign [sx] and magnitude [Y]. *)
Definition SFmag (r : spec_float) (sx : bool) (Y : R) : Prop :=
  (r = S754_zero sx ∧ Y = 0)
  ∨ (∃ m e, r = S754_finite sx m e ∧ Y = IZR (Z.pos m) * bpow e).

(** A real number that is a binary64 number (not negative). *)
Definition Repr (X : R) : Prop :=
  ∃ r e0, X = IZR r * bpow e0 ∧ (0 <= r < 2 ^ 53)%Z ∧ (-1074 <= e0)%Z.

(** The magnitude, the sign and the value of a number; NaN and the
    infinities count as 0, and are told apart by [SFfin]. *)
Definition SFabsV (x : spec_float) : R :=
  match x with
  | S754_finite _ m e => IZR (Z.pos m) * bpow e
  | _ => 0
  end.

Definition SFsign (x : spec_float) : bool :=
  match x with
  | S754_zero s | S754_infinity s | S754_finite s _ _ => s
  | S754_nan => false
  end.

Definition SFV (x : spec_float) : R :=
  if SFsign x then - SFabsV x else SFabsV x.

(** Zero or finite. *)
Definition SFfin (x : spec_float) : bool :=
  match x with
  | S754_zero _ | S754_finite _ _ _ => true
  | _ => false
  end.

(** Finite and not negative, [-0] excluded. *)
Definition SFnn (x : spec_float) : bool := SFfin x && negb (SFsign x).

(** The same on the primitive numbers. *)
Definition FV (x : float) : R := SFV (Prim2SF x).

Definition Fin (x : float) : Prop := SFfin (Prim2SF x) = true.

Definition NN (x : float) : Prop := SFnn (Prim2SF x) = true.

(** The result [r] has magnitude the rounding of [|X|] and the sign of [X]. *)
Definition rounds (X : R) (r : spec_float) : Prop :=
  ∃ Y s, SFmag r s Y ∧ RN (Rabs X) Y ∧ (if s then X <= 0 else 0 <= X).

(** The order that a comparison states. *)
Definition cmp_rel (c : comparison) (x y : R) : Prop :=
  match c with
  | Lt => x < y
  | Eq => x = y
  | Gt => y < x
  end.

(** [Y] is [X] rounded to binary64. *)
Definition Round (X Y : R) : Prop :=
  (0 <= X ∧ RN X Y) ∨ (X <= 0 ∧ RN (- X) (- Y)).

(** [2^-43]: above the error of an operation on numbers up to 1000. *)
Definition err : R := / 8796093022208.

(** [b] is the byte [Math.round(c * 255)] of the channel value [C]. *)
Definition byteOf (C : R) (b : Z) : Prop :=
  ∃ Y, RN (C * 255) Y ∧ IZR b <= Y + / 2 < IZR b + 1.

(** The channels of the six sectors of the hue circle. *)
Definition sector {A} (k : Z) (v p q t : A) : A * A * A :=
  if (k =? 1)%Z then (q, v, p)
  else if (k =? 2)%Z then (p, v, t)
  else if (k =? 3)%Z then (p, q, v)
  else if (k =? 4)%Z then (t, p, v)
  else if (k =? 5)%Z then (v, p, q)
  else (v, t, p).

(** The hue of a colour made of bytes, in sixths of the circle. *)
Definition hueOfBytes (r g b : Z) : R :=
  let M := Z.max (Z.max r g) b in
  let m := Z.min (Z.min r g) b in
  if (r =? M)%Z then (IZR g - IZR b) / (IZR M - IZR m)
  else if (g =? M)%Z then (IZR b - IZR r) / (IZR M - IZR m) + 2
  else (IZR r - IZR g) / (IZR M - IZR m) + 4.

Local Close Scope R_scope.
(** * Properties *)

(** ** Loops *)

Lemma foldl_invariant {A B} (P : A → Prop) (f : A → B → A) (l : list B) a :
  P a → (∀ a b, b ∈ l → P a → P (f a b)) → P (foldl f a l).
Proof.
  revert a. induction l as [|b l IH]; intros a Ha Hf; simpl; [done|].
  apply IH.
  - apply Hf; [apply elem_of_cons; by left | done].
  - intros a' b' Hb'. apply Hf. apply elem_of_cons. by right.
Qed.

Lemma elem_of_raster y0 ny x0 nx y x :
  (y, x) ∈ raster y0 ny x0 nx ↔ (y0 ≤ y < y0 + ny) ∧ (x0 ≤ x < x0 + nx).
Proof.
  unfold raster. rewrite list_elem_of_bind. split.
  - intros (y' & Hin & Hy'). apply list_elem_of_bind in Hin as (x' & Hin & Hx').
    apply list_elem_of_singleton in Hin. inversion Hin; subst.
    apply elem_of_seq in Hy', Hx'. lia.
  - intros [Hy Hx]. exists y. split; [|apply elem_of_seq; lia].
    apply list_elem_of_bind. exists x. split; [|apply elem_of_seq; lia].
    by apply list_elem_of_singleton.
Qed.

Lemma elem_of_stride4 len i :
  i ∈ stride4 len ↔ ∃ k, i = 4 * k ∧ 4 * k < len.
Proof.
  unfold stride4. rewrite list_elem_of_fmap. split.
  - intros (k & -> & Hk). exists k. split; [done|].
    apply elem_of_seq in Hk.
    pose proof (Nat.div_mod_eq (len + 3) 4).
    pose proof (Nat.mod_upper_bound (len + 3) 4). lia.
  - intros (k & -> & Hk). exists k. split; [done|].
    apply elem_of_seq.
    pose proof (Nat.div_mod_eq (len + 3) 4).
    pose proof (Nat.mod_upper_bound (len + 3) 4). lia.
Qed.

(** ** Stores *)

Lemma length_st i x d : length (st i x d) = length d.
Proof. apply length_insert. Qed.

Lemma lookup_st_ne i j x d : i ≠ j → st i x d !! j = d !! j.
Proof. apply list_lookup_insert_ne. Qed.

Lemma lookup_st_eq i x d :
  i < length d → st i x d !! i = Some (ToUint8Clamp x).
Proof. apply list_lookup_insert_eq. Qed.

Lemma ToUint8Clamp_byte x : (0 ≤ ToUint8Clamp x ≤ 255)%Z.
Proof.
  unfold ToUint8Clamp. destruct (to_scaled x) as [[n e]|]; [lia|].
  destruct (0 <? x)%float; lia.
Qed.

(** ** The [ImageData] constructor *)

Lemma new_ImageData_wellFormed d w h :
  length d = w * h * 4 → 0 < w → 0 < h →
  new_ImageData d w h = Returned (mkImageData w h d).
Proof.
  intros Hlen Hw Hh. unfold new_ImageData. rewrite Hlen.
  rewrite Nat.Div0.mod_mul, Nat.div_mul by lia.
  rewrite (Nat.mul_comm w h), Nat.Div0.mod_mul, Nat.div_mul by lia.
  rewrite !bool_decide_eq_false_2; [done|lia|lia|].
  intros [H|H]; [|done]. apply Nat.eq_mul_0 in H as [H|H]; [|done].
  apply Nat.eq_mul_0 in H. lia.
Qed.

Lemma new_ImageData_Returned d w h out :
  new_ImageData d w h = Returned out →
  out = mkImageData w h d ∧ wellFormed (mkImageData w h d).
Proof.
  unfold new_ImageData, wellFormed. cbn [width height data].
  repeat case_bool_decide; try discriminate.
  intros [= <-]. split; [done|].
  assert (length d `mod` 4 = 0) as Hm4 by lia.
  assert ((length d `div` 4) `mod` w = 0) as Hmw by lia.
  assert ((length d `div` 4) `div` w = h) as Hh by lia.
  pose proof (Nat.div_mod_eq (length d) 4) as E4.
  pose proof (Nat.div_mod_eq (length d `div` 4) w) as Ew.
  rewrite Hm4 in E4. rewrite Hmw, Hh in Ew.
  assert (h ≠ 0) by (intros ->; lia). nia.
Qed.

Lemma new_ImageData_malformed d w h :
  length d ≠ w * h * 4 → throws (new_ImageData d w h).
Proof.
  intros Hlen. destruct (new_ImageData d w h) as [out|e] eqn:E.
  - apply new_ImageData_Returned in E as [_ (Hl & _ & _)]. simpl in Hl. done.
  - by exists e.
Qed.

(** ** Lengths: every loop keeps the length of the array it writes *)

Lemma length_contrast factor d l :
  length (foldl (contrastPixel factor) d l) = length d.
Proof.
  apply (foldl_invariant (λ d', length d' = length d)); [done|].
  intros a i _ Ha. unfold contrastPixel. by rewrite !length_st.
Qed.

Lemma length_brightness factor d l :
  length (foldl (brightnessPixel factor) d l) = length d.
Proof.
  apply (foldl_invariant (λ d', length d' = length d)); [done|].
  intros a i _ Ha. unfold brightnessPixel. by rewrite !length_st.
Qed.

Lemma length_sharpenPixel kernel data w d yx :
  length (sharpenPixel kernel data w d yx) = length d.
Proof. destruct yx as [y x]. unfold sharpenPixel. simpl. by rewrite !length_st. Qed.

Lemma length_sharpen kernel data w d l :
  length (foldl (sharpenPixel kernel data w) d l) = length d.
Proof.
  apply (foldl_invariant (λ d', length d' = length d)); [done|].
  intros a i _ Ha. by rewrite length_sharpenPixel.
Qed.

Lemma length_grayscale d l : length (foldl grayscalePixel d l) = length d.
Proof.
  apply (foldl_invariant (λ d', length d' = length d)); [done|].
  intros a i _ Ha. unfold grayscalePixel. by rewrite !length_st.
Qed.

Lemma length_threshold t d l :
  length (foldl (thresholdPixel t) d l) = length d.
Proof.
  apply (foldl_invariant (λ d', length d' = length d)); [done|].
  intros a i _ Ha. unfold thresholdPixel. by rewrite !length_st.
Qed.

Lemma length_sobelPixel data w d yx :
  length (sobelPixel data w d yx) = length d.
Proof. destruct yx as [y x]. unfold sobelPixel. by rewrite !length_st. Qed.

Lemma length_sobelBorderPixel w h d yx :
  length (sobelBorderPixel w h d yx) = length d.
Proof.
  destruct yx as [y x]. unfold sobelBorderPixel.
  case_bool_decide; [done|]. by rewrite !length_st.
Qed.

Lemma length_blurPixel k data w d yx :
  length (blurPixel k data w d yx) = length d.
Proof.
  destruct yx as [y x]. unfold blurPixel.
  destruct (blurSums k data w y x) as [[sumR sumG] sumB].
  by rewrite !length_st.
Qed.

Lemma length_blur k data w d l :
  length (foldl (blurPixel k data w) d l) = length d.
Proof.
  apply (foldl_invariant (λ d', length d' = length d)); [done|].
  intros a i _ Ha. by rewrite length_blurPixel.
Qed.

Lemma length_paint w sm mm colors d l :
  length (foldl (Segmentation.paintPixel w sm mm colors) d l) = length d.
Proof.
  apply (foldl_invariant (λ d', length d' = length d)); [done|].
  intros a [y x] _ Ha. unfold Segmentation.paintPixel.
  destruct (sm !! _); [|done]. case_bool_decide; [|done].
  destruct (_ ≫= _); [|done]. by rewrite !length_st.
Qed.

(** ** Operators return on well-formed buffers *)

Lemma applyGrayscale_wellFormed img :
  wellFormed img →
  applyGrayscale img =
    Returned (mkImageData (width img) (height img)
                (foldl grayscalePixel (data img) (stride4 (length (data img))))).
Proof.
  intros (Hl & Hw & Hh). unfold applyGrayscale.
  apply new_ImageData_wellFormed; [by rewrite length_grayscale|done|done].
Qed.

(** ** Contrast at 100 *)

(** C1 (evaluation at the failing input): on the 2x2 image whose pixels are
    all (100,100,100,255), [applyContrast] with contrast 100 returns the
    pixels (65,65,65,255), not the input: the factor
    259*(100+255) / (255*(259-100)) is about 2.27, and it is 1 at contrast 0. *)
Theorem applyContrast_100_gray2x2 :
  applyContrast gray2x2 100 = Returned (constantImage 2 2 65 65 65 255)
  ∧ applyContrast gray2x2 0 = Returned gray2x2.
Proof. split; vm_compute; reflexivity. Qed.

(** ** Unrecognized transform types *)

(** C3: a transform whose type is none of the [case] labels is passed
    through: [applyTransformation] returns its input buffer unchanged and
    does not throw, for every buffer, fuel and source of randomness. *)
Theorem applyTransformation_unrecognized fuel random img t :
  type t ∉ recognizedTypes →
  applyTransformation fuel random img t = Some (Returned img).
Proof.
  intros Hty. unfold applyTransformation.
  repeat case_bool_decide; try done;
    exfalso; apply Hty; unfold recognizedTypes;
    match goal with H : type t = _ |- _ => rewrite H end;
    rewrite !elem_of_cons; tauto.
Qed.

Lemma applyTransformation_unrecognized_witness :
  applyTransformation 0 (λ _, 0%float) malformed2x2
    (mkTransform "sobel" sampleParams) = Some (Returned malformed2x2).
Proof.
  apply applyTransformation_unrecognized.
  unfold recognizedTypes. simpl. rewrite !elem_of_cons, elem_of_nil.
  intros H. repeat destruct H as [H|H]; try discriminate H. done.
Defined.

(** ** Loops that rewrite a buffer pixel by pixel, in place *)

Section in_place.
Variable step : list Z → nat → list Z.
Hypothesis step_length : ∀ d i, length (step d i) = length d.
Hypothesis step_frame : ∀ d k j,
  j < 4 * k ∨ 4 * k + 4 ≤ j → step d (4 * k) !! j = d !! j.
Hypothesis step_local : ∀ d d' k j,
  length d = length d' →
  (∀ j', 4 * k ≤ j' < 4 * k + 4 → d !! j' = d' !! j') →
  4 * k ≤ j < 4 * k + 4 →
  step d (4 * k) !! j = step d' (4 * k) !! j.

Lemma in_place_length d l : length (foldl step d l) = length d.
Proof.
  apply (foldl_invariant (λ d', length d' = length d)); [done|].
  intros a i _ Ha. by rewrite step_length.
Qed.

Lemma in_place_prefix n d j :
  foldl step d ((λ k, 4 * k) <$> seq 0 n) !! j =
    if decide (j < 4 * n) then step d (4 * (j `div` 4)) !! j else d !! j.
Proof.
  revert j. induction n as [|n IH]; intros j.
  - rewrite decide_False by lia. done.
  - rewrite seq_S, fmap_app, foldl_app. cbn [fmap list_fmap foldl Nat.add].
    pose proof (Nat.div_mod_eq j 4) as Hj.
    pose proof (Nat.mod_upper_bound j 4) as Hm.
    destruct (decide (4 * n ≤ j < 4 * n + 4)) as [Hin|Hout].
    + assert (j `div` 4 = n) as -> by lia.
      rewrite decide_True by lia.
      apply step_local; [apply in_place_length| |done].
      intros j' Hj'. rewrite IH. by rewrite decide_False by lia.
    + rewrite step_frame by lia. rewrite IH.
      repeat case_decide; try lia; done.
Qed.

Lemma in_place_lookup d j :
  j < length d →
  foldl step d (stride4 (length d)) !! j = step d (4 * (j `div` 4)) !! j.
Proof.
  intros Hj. unfold stride4. rewrite in_place_prefix.
  pose proof (Nat.div_mod_eq (length d + 3) 4).
  pose proof (Nat.mod_upper_bound (length d + 3) 4).
  rewrite decide_True by lia. done.
Qed.
End in_place.

(** Case analysis of a lookup in a buffer after some stores. *)
Ltac stores :=
  unfold st; rewrite ?list_lookup_insert, ?length_insert;
  repeat case_decide; try lia; try done.

Lemma lookup_grayscalePixel d i j :
  grayscalePixel d i !! j =
    if decide (j < length d ∧ i ≤ j < i + 3)
    then Some (ToUint8Clamp (luminanceAt d i)) else d !! j.
Proof. unfold grayscalePixel. stores. Qed.

Lemma lookup_thresholdPixel t d i j :
  thresholdPixel t d i !! j =
    if decide (j < length d ∧ i ≤ j < i + 3)
    then Some (ToUint8Clamp (thresholdValue_at t d i)) else d !! j.
Proof. unfold thresholdPixel. stores. Qed.

Lemma rd_ext d d' i : d !! i = d' !! i → rd d i = rd d' i.
Proof. unfold rd. by intros ->. Qed.

Lemma luminanceAt_ext d d' i :
  (∀ j, i ≤ j < i + 3 → d !! j = d' !! j) → luminanceAt d i = luminanceAt d' i.
Proof.
  intros H. unfold luminanceAt.
  rewrite (rd_ext d d' i), (rd_ext d d' (i + 1)), (rd_ext d d' (i + 2));
    [done|apply H; lia..].
Qed.

Lemma lookup_grayscale d j :
  j < length d →
  foldl grayscalePixel d (stride4 (length d)) !! j =
    if decide (j `mod` 4 < 3)
    then Some (ToUint8Clamp (luminanceAt d (4 * (j `div` 4)))) else d !! j.
Proof.
  intros Hj.
  pose proof (Nat.div_mod_eq j 4) as Hdm.
  rewrite (in_place_lookup grayscalePixel).
  - rewrite lookup_grayscalePixel. repeat case_decide; try lia; done.
  - intros d0 i. apply length_grayscale with (l := [i]).
  - intros d0 k j0 Hj0. rewrite lookup_grayscalePixel.
    case_decide; [lia|done].
  - intros d0 d' k j0 Hlen Hagree Hj0. rewrite !lookup_grayscalePixel.
    rewrite Hlen, (luminanceAt_ext d0 d') by (intros; apply Hagree; lia).
    case_decide; [done|]. by apply Hagree.
  - done.
Qed.

Lemma lookup_threshold t d j :
  j < length d →
  foldl (thresholdPixel t) d (stride4 (length d)) !! j =
    if decide (j `mod` 4 < 3)
    then Some (ToUint8Clamp (thresholdValue_at t d (4 * (j `div` 4))))
    else d !! j.
Proof.
  intros Hj.
  pose proof (Nat.div_mod_eq j 4) as Hdm.
  rewrite (in_place_lookup (thresholdPixel t)).
  - rewrite lookup_thresholdPixel. repeat case_decide; try lia; done.
  - intros d0 i. apply length_threshold with (l := [i]).
  - intros d0 k j0 Hj0. rewrite lookup_thresholdPixel.
    case_decide; [lia|done].
  - intros d0 d' k j0 Hlen Hagree Hj0. rewrite !lookup_thresholdPixel.
    unfold thresholdValue_at.
    rewrite Hlen, (rd_ext d0 d' (4 * k)) by (apply Hagree; lia).
    case_decide; [done|]. by apply Hagree.
  - done.
Qed.

(** ** Threshold *)

Lemma thresholdValue_at_byte t d i :
  ToUint8Clamp (thresholdValue_at t d i) = 0%Z
  ∨ ToUint8Clamp (thresholdValue_at t d i) = 255%Z.
Proof.
  unfold thresholdValue_at. destruct (rd d i <? t)%float; [by left|by right].
Qed.

(** C7: on a well-formed buffer and for every threshold, [applyThreshold]
    returns a buffer in which the R, G and B bytes of every pixel are 0 or
    255, and the alpha byte of every pixel is the one of the input. *)
Theorem applyThreshold_binary img threshold :
  wellFormed img →
  ∃ out, applyThreshold img threshold = Returned out
    ∧ width out = width img ∧ height out = height img
    ∧ ∀ p, p < width img * height img →
        (∀ c, c < 3 →
           data out !! (4 * p + c) = Some 0%Z
           ∨ data out !! (4 * p + c) = Some 255%Z)
        ∧ data out !! (4 * p + 3) = data img !! (4 * p + 3).
Proof.
  intros Hwf. pose proof Hwf as (Hl & Hw & Hh).
  unfold applyThreshold. rewrite applyGrayscale_wellFormed by done.
  cbn [bind data].
  eexists. split.
  { apply new_ImageData_wellFormed; [|done..].
    by rewrite length_threshold, length_grayscale. }
  cbn [width height data]. split; [done|]. split; [done|].
  intros p Hp. split.
  - intros c Hc.
    rewrite lookup_threshold by (rewrite length_grayscale; lia).
    assert ((4 * p + c) `mod` 4 = c) as Hmod.
    { rewrite Nat.add_comm, Nat.mul_comm, Nat.Div0.mod_add.
      apply Nat.mod_small. lia. }
    rewrite decide_True by lia.
    destruct (thresholdValue_at_byte threshold
      (foldl grayscalePixel (data img) (stride4 (length (data img))))
      (4 * ((4 * p + c) `div` 4))) as [-> | ->]; auto.
  - rewrite lookup_threshold by (rewrite length_grayscale; lia).
    assert ((4 * p + 3) `mod` 4 = 3) as Hmod.
    { rewrite Nat.add_comm, Nat.mul_comm, Nat.Div0.mod_add. done. }
    rewrite decide_False by lia.
    rewrite lookup_grayscale by lia. by rewrite decide_False by lia.
Qed.

Lemma applyThreshold_binary_witness :
  ∃ out, applyThreshold columns3x3 128 = Returned out
    ∧ width out = 3 ∧ height out = 3
    ∧ ∀ p, p < 3 * 3 →
        (∀ c, c < 3 →
           data out !! (4 * p + c) = Some 0%Z
           ∨ data out !! (4 * p + c) = Some 255%Z)
        ∧ data out !! (4 * p + 3) = data columns3x3 !! (4 * p + 3).
Proof.
  apply (applyThreshold_binary columns3x3 128).
  unfold wellFormed. simpl. split; [reflexivity | lia].
Defined.

(** ** Grayscale is idempotent *)

(** A grey byte is its own luminance, for each of the 256 bytes. *)
Lemma grayFixed_all a : (0 ≤ a ≤ 255)%Z → grayFixed a = true.
Proof.
  intros Ha.
  assert (forallb grayFixed (seqZ 0 256) = true) as Hall by (vm_compute; reflexivity).
  rewrite forallb_forall in Hall. apply Hall.
  apply list_elem_of_In, elem_of_seqZ. lia.
Qed.

Lemma grayscale_data_idempotent d :
  length d `mod` 4 = 0 →
  let g := foldl grayscalePixel d (stride4 (length d)) in
  foldl grayscalePixel g (stride4 (length g)) = g.
Proof.
  intros Hlen g. apply list_eq. intros j.
  assert (length g = length d) as Hg by apply length_grayscale.
  destruct (decide (j < length d)) as [Hj|Hj].
  2:{ rewrite !(lookup_ge_None_2 _ j); [done|lia|rewrite length_grayscale; lia]. }
  rewrite lookup_grayscale by lia. subst g.
  rewrite (lookup_grayscale d j) by lia.
  case_decide as Hc; [|done].
  f_equal.
  pose proof (Nat.div_mod_eq j 4) as Hdm.
  pose proof (Nat.div_mod_eq (length d) 4) as Hdl.
  set (i := 4 * (j `div` 4)).
  set (a := ToUint8Clamp (luminanceAt d i)).
  assert (∀ c, c < 3 →
    rd (foldl grayscalePixel d (stride4 (length d))) (i + c) = of_Z a) as Hrd.
  { intros c Hc'. unfold rd. rewrite lookup_grayscale by lia.
    assert ((i + c) `mod` 4 = c) as Hmod.
    { unfold i. rewrite Nat.add_comm, Nat.mul_comm, Nat.Div0.mod_add.
      apply Nat.mod_small. lia. }
    assert ((i + c) `div` 4 = j `div` 4) as Hdiv.
    { unfold i. rewrite Nat.add_comm, Nat.mul_comm, Nat.div_add by lia.
      rewrite Nat.div_small by lia. done. }
    rewrite decide_True by lia. by rewrite Hdiv. }
  unfold luminanceAt at 1.
  rewrite <-(Nat.add_0_r i) at 1. rewrite !Hrd by lia.
  pose proof (grayFixed_all a (ToUint8Clamp_byte _)) as Hfix.
  unfold grayFixed in Hfix. by apply Z.eqb_eq in Hfix.
Qed.

(** On a well-formed buffer both calls return, the second one its own
    input. *)
Lemma applyGrayscale_twice_returns img :
  wellFormed img →
  ∃ out, applyGrayscale img = Returned out ∧ applyGrayscale out = Returned out.
Proof.
  intros Hwf. pose proof Hwf as (Hl & Hw & Hh).
  rewrite applyGrayscale_wellFormed by done.
  eexists. split; [done|].
  rewrite applyGrayscale_wellFormed
    by (split; [cbn [width height data]; by rewrite length_grayscale|done]).
  cbn [width height data]. rewrite grayscale_data_idempotent; [done|].
  rewrite Hl. apply Nat.Div0.mod_mul.
Qed.

(** C6: [applyGrayscale] is idempotent.  Whatever the first call does on a
    buffer (return or throw), a second call on its result changes nothing. *)
Theorem applyGrayscale_idempotent img :
  bind (applyGrayscale img) applyGrayscale = applyGrayscale img.
Proof.
  destruct (applyGrayscale img) as [out|e] eqn:E; [|done].
  cbn [bind]. unfold applyGrayscale in E.
  apply new_ImageData_Returned in E as [-> Hwf].
  pose proof Hwf as (Hl & Hw & Hh). cbn [width height data] in *.
  rewrite applyGrayscale_wellFormed by done. cbn [width height data].
  rewrite grayscale_data_idempotent; [done|].
  rewrite length_grayscale in Hl. rewrite Hl. apply Nat.Div0.mod_mul.
Qed.

(** ** The alpha channel *)

Lemma alpha_contrast factor d k :
  foldl (contrastPixel factor) d (stride4 (length d)) !! (4 * k + 3)
  = d !! (4 * k + 3).
Proof.
  apply (foldl_invariant (λ d', d' !! (4 * k + 3) = d !! (4 * k + 3))); [done|].
  intros a i Hi Ha. apply elem_of_stride4 in Hi as (k' & -> & _).
  unfold contrastPixel. by rewrite !lookup_st_ne by lia.
Qed.

Lemma alpha_brightness factor d k :
  foldl (brightnessPixel factor) d (stride4 (length d)) !! (4 * k + 3)
  = d !! (4 * k + 3).
Proof.
  apply (foldl_invariant (λ d', d' !! (4 * k + 3) = d !! (4 * k + 3))); [done|].
  intros a i Hi Ha. apply elem_of_stride4 in Hi as (k' & -> & _).
  unfold brightnessPixel. by rewrite !lookup_st_ne by lia.
Qed.

Lemma alpha_sharpen kernel data w d l k :
  foldl (sharpenPixel kernel data w) d l !! (4 * k + 3) = d !! (4 * k + 3).
Proof.
  apply (foldl_invariant (λ d', d' !! (4 * k + 3) = d !! (4 * k + 3))); [done|].
  intros a [y x] _ Ha. unfold sharpenPixel. cbn [foldl seq].
  by rewrite !lookup_st_ne by lia.
Qed.

(** C10: on a well-formed buffer and for every parameter value,
    [applyContrast], [applyBrightness] and [applySharpen] return a buffer
    in which the alpha byte of every pixel is the one of the input. *)
Theorem alpha_channel_unchanged img v :
  wellFormed img →
  ∃ c b s,
    applyContrast img v = Returned c
    ∧ applyBrightness img v = Returned b
    ∧ applySharpen img v = Returned s
    ∧ ∀ p, data c !! (4 * p + 3) = data img !! (4 * p + 3)
           ∧ data b !! (4 * p + 3) = data img !! (4 * p + 3)
           ∧ data s !! (4 * p + 3) = data img !! (4 * p + 3).
Proof.
  intros (Hl & Hw & Hh).
  unfold applyContrast, applyBrightness, applySharpen.
  rewrite !new_ImageData_wellFormed
    by (rewrite ?length_contrast, ?length_brightness, ?length_sharpen; done).
  destruct (v =? 0)%float.
  - do 3 eexists. repeat (split; [reflexivity|]). intros p. cbn [data].
    by rewrite alpha_contrast, alpha_brightness.
  - do 3 eexists. repeat (split; [reflexivity|]). intros p. cbn [data].
    by rewrite alpha_contrast, alpha_brightness, alpha_sharpen.
Qed.

Lemma alpha_channel_unchanged_witness :
  ∃ c b s,
    applyContrast columns3x3 150 = Returned c
    ∧ applyBrightness columns3x3 150 = Returned b
    ∧ applySharpen columns3x3 150 = Returned s
    ∧ ∀ p, data c !! (4 * p + 3) = data columns3x3 !! (4 * p + 3)
           ∧ data b !! (4 * p + 3) = data columns3x3 !! (4 * p + 3)
           ∧ data s !! (4 * p + 3) = data columns3x3 !! (4 * p + 3).
Proof.
  apply (alpha_channel_unchanged columns3x3 150).
  unfold wellFormed. simpl. split; [reflexivity | lia].
Defined.

(** ** Malformed buffers *)

(** C2 (counterexample): [applySharpen] with amount 0 returns a buffer of
    3 bytes that claims 2x2 pixels, without any failure. *)
Lemma applySharpen_malformed_returns :
  length (data malformed2x2) ≠ width malformed2x2 * height malformed2x2 * 4
  ∧ applySharpen malformed2x2 0 = Returned malformed2x2.
Proof. split; [simpl; lia | reflexivity]. Qed.

Lemma bind_throws {A B} (c : completion A) (k : A → completion B) :
  throws c → throws (bind c k).
Proof. intros [e ->]. by exists e. Qed.

(** C2 (amended): no operator checks the length of the buffer on entry.
    On a buffer whose length is not width*height*4, [applySharpen] with
    amount 0 returns the buffer itself.  Contrast, brightness, sharpening
    with another amount, grayscale, threshold, Sobel and Canny throw the
    [InvalidStateError] or [IndexSizeError] of the [ImageData] constructor,
    which they call after their loops on an array of the same length.
    The segmentation returns no buffer either: whatever the fuel, it
    either throws or does not complete. *)
Theorem malformed_buffer_behaviour img :
  length (data img) ≠ width img * height img * 4 →
  applySharpen img 0 = Returned img
  ∧ (∀ amount, (amount =? 0)%float = false → throws (applySharpen img amount))
  ∧ (∀ contrast, throws (applyContrast img contrast))
  ∧ (∀ brightness, throws (applyBrightness img brightness))
  ∧ throws (applyGrayscale img)
  ∧ (∀ threshold, throws (applyThreshold img threshold))
  ∧ throws (applySobelEdgeDetection img)
  ∧ (∀ low high, throws (applyCannyEdgeDetection img low high))
  ∧ (∀ fuel random tolerance minSize colorScheme out,
       Segmentation.applySegmentation fuel random img tolerance minSize
         colorScheme ≠ Some (Returned out)).
Proof.
  intros Hlen.
  assert (throws (applyGrayscale img)) as Hgray.
  { apply new_ImageData_malformed. by rewrite length_grayscale. }
  split; [reflexivity|].
  split.
  { intros amount Ha. unfold applySharpen. rewrite Ha.
    apply new_ImageData_malformed. by rewrite length_sharpen. }
  split.
  { intros c. apply new_ImageData_malformed. by rewrite length_contrast. }
  split.
  { intros b. apply new_ImageData_malformed. by rewrite length_brightness. }
  split; [done|].
  split; [intros t; by apply bind_throws|].
  split; [by apply bind_throws|].
  split.
  { intros low high. unfold applyCannyEdgeDetection, cannyDoubleThreshold.
    do 2 apply bind_throws.
    apply new_ImageData_malformed. by rewrite length_blur. }
  intros fuel random tolerance minSize colorScheme out.
  unfold Segmentation.applySegmentation.
  destruct (Segmentation.segment _ _ _ _) as [sg|]; [|done].
  cbn [mbind option_bind].
  match goal with |- Some ?c ≠ _ => assert (throws c) as [e ->] end.
  { apply new_ImageData_malformed. by rewrite length_paint. }
  done.
Qed.

Lemma malformed_buffer_behaviour_witness :
  applySharpen malformed2x2 0 = Returned malformed2x2
  ∧ (∀ amount, (amount =? 0)%float = false →
       throws (applySharpen malformed2x2 amount))
  ∧ (∀ contrast, throws (applyContrast malformed2x2 contrast))
  ∧ (∀ brightness, throws (applyBrightness malformed2x2 brightness))
  ∧ throws (applyGrayscale malformed2x2)
  ∧ (∀ threshold, throws (applyThreshold malformed2x2 threshold))
  ∧ throws (applySobelEdgeDetection malformed2x2)
  ∧ (∀ low high, throws (applyCannyEdgeDetection malformed2x2 low high))
  ∧ (∀ fuel random tolerance minSize colorScheme out,
       Segmentation.applySegmentation fuel random malformed2x2 tolerance
         minSize colorScheme ≠ Some (Returned out)).
Proof. apply (malformed_buffer_behaviour malformed2x2). simpl. lia. Defined.

(** ** Loops that write each pixel of a raster once *)

Lemma NoDup_raster y0 ny x0 nx : NoDup (raster y0 ny x0 nx).
Proof.
  unfold raster. apply NoDup_bind; [| |apply NoDup_seq].
  - intros y1 y2 [y x] _ _ H1 H2.
    apply list_elem_of_bind in H1 as (x1 & H1 & _).
    apply list_elem_of_bind in H2 as (x2 & H2 & _).
    apply list_elem_of_singleton in H1, H2. congruence.
  - intros y _. apply NoDup_bind; [| |apply NoDup_seq].
    + intros x1 x2 [y' x] _ _ H1 H2.
      apply list_elem_of_singleton in H1, H2. congruence.
    + intros x _. apply NoDup_singleton.
Qed.

Lemma pixelIndexOf_inj w y x y' x' c c' :
  x < w → x' < w → c < 4 → c' < 4 →
  pixelIndexOf w y x + c = pixelIndexOf w y' x' + c' →
  (y, x) = (y', x') ∧ c = c'.
Proof.
  unfold pixelIndexOf. intros Hx Hx' Hc Hc' E.
  assert (y * w + x = y' * w + x') as E' by lia.
  assert (y = y') as -> by nia.
  split; [f_equal|]; lia.
Qed.

Section raster_write.
Variable f : list Z → nat * nat → list Z.
Variable w : nat.
Hypothesis f_length : ∀ d yx, length (f d yx) = length d.
Hypothesis f_frame : ∀ d y x j,
  ¬ (pixelIndexOf w y x ≤ j < pixelIndexOf w y x + 4) →
  f d (y, x) !! j = d !! j.
Hypothesis f_own : ∀ d d' yx j,
  length d = length d' → d !! j = d' !! j → f d yx !! j = f d' yx !! j.

Lemma raster_write_length d l : length (foldl f d l) = length d.
Proof.
  apply (foldl_invariant (λ d', length d' = length d)); [done|].
  intros a i _ Ha. by rewrite f_length.
Qed.

Lemma raster_write_lookup l d y x c :
  NoDup l → (∀ y' x', (y', x') ∈ l → x' < w) → x < w → c < 4 →
  foldl f d l !! (pixelIndexOf w y x + c) =
    if decide ((y, x) ∈ l) then f d (y, x) !! (pixelIndexOf w y x + c)
    else d !! (pixelIndexOf w y x + c).
Proof.
  intros Hnd Hl Hx Hc. revert d.
  induction l as [|[y' x'] l IH]; intros d.
  - rewrite decide_False by apply not_elem_of_nil. done.
  - apply NoDup_cons in Hnd as [Hnotin Hnd]. cbn [foldl].
    rewrite IH; [|done|intros y0 x0 Hin0; apply (Hl y0 x0), elem_of_cons; by right].
    assert (x' < w) as Hx' by (apply (Hl y'), elem_of_cons; by left).
    destruct (decide ((y, x) = (y', x'))) as [[= -> ->]|Hne].
    + rewrite decide_False by done. rewrite decide_True; [done|].
      apply elem_of_cons. by left.
    + assert (f d (y', x') !! (pixelIndexOf w y x + c)
              = d !! (pixelIndexOf w y x + c)) as Hfr.
      { apply f_frame. intros Hin. apply Hne.
        eapply (pixelIndexOf_inj w y x y' x' c
                  (pixelIndexOf w y x + c - pixelIndexOf w y' x')); lia. }
      destruct (decide ((y, x) ∈ l)) as [Hin|Hin].
      * rewrite decide_True by (apply elem_of_cons; by right).
        apply f_own; [apply f_length|done].
      * rewrite decide_False; [done|].
        rewrite elem_of_cons. intros [?|?]; done.
Qed.
End raster_write.

(** ** Constant buffers *)

Lemma length_pixelBytes r g b a n : length (pixelBytes r g b a n) = n * 4.
Proof. unfold pixelBytes. induction n as [|n IH]; simpl; [done|]. by rewrite IH. Qed.

Lemma lookup_pixelBytes r g b a n p c :
  p < n → c < 4 → pixelBytes r g b a n !! (4 * p + c) = [r; g; b; a] !! c.
Proof.
  unfold pixelBytes. revert p. induction n as [|n IH]; intros p Hp Hc; [lia|].
  cbn [replicate concat]. destruct p as [|p].
  - rewrite lookup_app_l by (simpl; lia). done.
  - rewrite lookup_app_r by (simpl; lia).
    replace (4 * S p + c - length [r; g; b; a]) with (4 * p + c) by (simpl; lia).
    apply IH; lia.
Qed.

(** Every byte index below [n * 4] is a channel of a pixel. *)
Lemma byte_index j n : j < n * 4 → ∃ p c, j = 4 * p + c ∧ p < n ∧ c < 4.
Proof.
  intros Hj. exists (j `div` 4), (j `mod` 4).
  pose proof (Nat.div_mod_eq j 4). pose proof (Nat.mod_upper_bound j 4). lia.
Qed.

Lemma div_mod_pixel p c : c < 4 →
  (4 * p + c) `div` 4 = p ∧ (4 * p + c) `mod` 4 = c.
Proof.
  intros Hc. rewrite Nat.add_comm, Nat.mul_comm.
  rewrite Nat.div_add, Nat.Div0.mod_add by lia.
  rewrite Nat.div_small, Nat.mod_small by lia. done.
Qed.

(** The grayscale of a constant image is a constant grey image. *)
Lemma grayscale_constant r g b a n :
  ∃ v, (0 ≤ v ≤ 255)%Z
    ∧ foldl grayscalePixel (pixelBytes r g b a n)
        (stride4 (length (pixelBytes r g b a n)))
      = pixelBytes v v v a n.
Proof.
  exists (ToUint8Clamp (of_Z r * 0.299 + of_Z g * 0.587 + of_Z b * 0.114)).
  split; [apply ToUint8Clamp_byte|].
  apply list_eq. intros j.
  destruct (decide (j < n * 4)) as [Hj|Hj].
  2:{ rewrite !lookup_ge_None_2;
        [done|rewrite length_pixelBytes; lia
             |rewrite length_grayscale, length_pixelBytes; lia]. }
  rewrite lookup_grayscale by (rewrite length_pixelBytes; lia).
  destruct (byte_index j n Hj) as (p & c & -> & Hp & Hc).
  destruct (div_mod_pixel p c Hc) as [-> ->].
  rewrite !lookup_pixelBytes by done.
  case_decide as Hc3.
  - unfold luminanceAt, rd.
    rewrite <-(Nat.add_0_r (4 * p)) at 1.
    rewrite !lookup_pixelBytes by lia. cbn [lookup list_lookup].
    destruct c as [|[|[|c]]]; [done..|lia].
  - assert (c = 3) as -> by lia. done.
Qed.

(** ** Sobel on a constant image *)

Lemma ToUint8Clamp_0 : ToUint8Clamp 0 = 0%Z.
Proof. reflexivity. Qed.

Lemma ToUint8Clamp_255 : ToUint8Clamp 255 = 255%Z.
Proof. reflexivity. Qed.

Lemma lookup_sobelPixel data w d y x j :
  sobelPixel data w d (y, x) !! j =
    if decide (j < length d ∧ pixelIndexOf w y x ≤ j < pixelIndexOf w y x + 3)
    then Some (ToUint8Clamp (sobelMagnitude data w y x))
    else if decide (j < length d ∧ j = pixelIndexOf w y x + 3) then Some 255%Z
    else d !! j.
Proof.
  unfold sobelPixel, pixelIndexOf. unfold st.
  rewrite ToUint8Clamp_255.
  rewrite ?list_lookup_insert, ?length_insert.
  repeat case_decide; try lia; try done.
Qed.

Lemma lookup_sobelBorderPixel w h d y x j :
  sobelBorderPixel w h d (y, x) !! j =
    if decide (onBorder w h y x ∧ j < length d
               ∧ pixelIndexOf w y x ≤ j < pixelIndexOf w y x + 3)
    then Some 0%Z
    else if decide (onBorder w h y x ∧ j < length d
                    ∧ j = pixelIndexOf w y x + 3) then Some 255%Z
    else d !! j.
Proof.
  unfold sobelBorderPixel, pixelIndexOf, onBorder.
  case_bool_decide as Hb.
  - rewrite !decide_False by lia. done.
  - unfold st. rewrite ToUint8Clamp_255, ToUint8Clamp_0.
    rewrite ?list_lookup_insert, ?length_insert.
    repeat case_decide; try lia; try done.
Qed.

Lemma rdZ_pixel d w (y x : nat) (ky kx : Z) (c : nat) :
  (0 ≤ Z.of_nat y + ky)%Z → (0 ≤ Z.of_nat x + kx)%Z →
  rdZ d (((Z.of_nat y + ky) * Z.of_nat w + (Z.of_nat x + kx)) * 4 + Z.of_nat c)
  = rd d (pixelIndexOf w (Z.to_nat (Z.of_nat y + ky))
            (Z.to_nat (Z.of_nat x + kx)) + c).
Proof.
  intros Hy Hx. unfold rdZ, pixelIndexOf.
  rewrite bool_decide_eq_true_2 by nia. f_equal. nia.
Qed.

Lemma sobelSums_ext d d' w w' y y' x x' :
  (∀ ky kx, (-1 ≤ ky ≤ 1)%Z → (-1 ≤ kx ≤ 1)%Z →
     rdZ d (((Z.of_nat y + ky) * Z.of_nat w + (Z.of_nat x + kx)) * 4)
     = rdZ d' (((Z.of_nat y' + ky) * Z.of_nat w' + (Z.of_nat x' + kx)) * 4)) →
  sobelSums d w y x = sobelSums d' w' y' x'.
Proof.
  intros H. unfold sobelSums. change (offsets 1) with [-1; 0; 1]%Z.
  cbn [foldl]. rewrite !H by lia. done.
Qed.

Lemma sobel_reads_constant v a w h y x ky kx :
  1 ≤ y → y + 2 ≤ h → 1 ≤ x → x + 2 ≤ w →
  (-1 ≤ ky ≤ 1)%Z → (-1 ≤ kx ≤ 1)%Z →
  rdZ (pixelBytes v v v a (w * h))
    (((Z.of_nat y + ky) * Z.of_nat w + (Z.of_nat x + kx)) * 4)
  = of_Z v.
Proof.
  intros Hy1 Hy2 Hx1 Hx2 Hky Hkx.
  rewrite <-(Z.add_0_r (_ * 4)). change 0%Z with (Z.of_nat 0).
  rewrite rdZ_pixel by lia. unfold rd, pixelIndexOf.
  set (y' := Z.to_nat (Z.of_nat y + ky)). set (x' := Z.to_nat (Z.of_nat x + kx)).
  assert (y' < h) by lia. assert (x' < w) by lia.
  replace ((y' * w + x') * 4 + 0) with (4 * (y' * w + x') + 0) by lia.
  rewrite lookup_pixelBytes; [done| |lia].
  nia.
Qed.

Lemma sobelMagnitude_constant v a w h y x :
  1 ≤ y → y + 2 ≤ h → 1 ≤ x → x + 2 ≤ w →
  ToUint8Clamp (sobelMagnitude (pixelBytes v v v a (w * h)) w y x)
  = sobelOfConstant v.
Proof.
  intros Hy1 Hy2 Hx1 Hx2. unfold sobelOfConstant, sobelMagnitude.
  rewrite (sobelSums_ext _ (pixelBytes v v v 255 9) w 3 y 1 x 1); [done|].
  intros ky kx Hky Hkx.
  rewrite (sobel_reads_constant v a w h) by done.
  symmetry. apply (sobel_reads_constant v 255 3 3); lia.
Qed.

Lemma sobelOfConstant_zero v : (0 ≤ v ≤ 255)%Z → sobelOfConstant v = 0%Z.
Proof.
  intros Hv.
  assert (forallb (λ v, sobelOfConstant v =? 0)%Z (seqZ 0 256) = true) as Hall
    by (vm_compute; reflexivity).
  rewrite forallb_forall in Hall. apply Z.eqb_eq, Hall.
  apply list_elem_of_In, elem_of_seqZ. lia.
Qed.

Lemma sobelPixel_frame data w d y x j :
  ¬ (pixelIndexOf w y x ≤ j < pixelIndexOf w y x + 4) →
  sobelPixel data w d (y, x) !! j = d !! j.
Proof. intros H. rewrite lookup_sobelPixel. by rewrite !decide_False by lia. Qed.

Lemma sobelPixel_own data w d d' yx j :
  length d = length d' → d !! j = d' !! j →
  sobelPixel data w d yx !! j = sobelPixel data w d' yx !! j.
Proof.
  destruct yx as [y x]. intros Hl Hj. rewrite !lookup_sobelPixel, Hl, Hj. done.
Qed.

Lemma sobelBorderPixel_frame w h d y x j :
  ¬ (pixelIndexOf w y x ≤ j < pixelIndexOf w y x + 4) →
  sobelBorderPixel w h d (y, x) !! j = d !! j.
Proof.
  intros H. rewrite lookup_sobelBorderPixel. by rewrite !decide_False by lia.
Qed.

Lemma sobelBorderPixel_own w h d d' yx j :
  length d = length d' → d !! j = d' !! j →
  sobelBorderPixel w h d yx !! j = sobelBorderPixel w h d' yx !! j.
Proof.
  destruct yx as [y x]. intros Hl Hj.
  rewrite !lookup_sobelBorderPixel, Hl, Hj. done.
Qed.

(** The two loops of [applySobelEdgeDetection], byte by byte. *)
Lemma lookup_sobel data w h y x c :
  y < h → x < w → c < 4 →
  let zeros := replicate (w * h * 4) 0%Z in
  let j := pixelIndexOf w y x + c in
  foldl (sobelBorderPixel w h)
    (foldl (sobelPixel data w) zeros (raster 1 (h - 2) 1 (w - 2)))
    (raster 0 h 0 w) !! j
  = if decide (onBorder w h y x)
    then Some (if decide (c = 3) then 255%Z else 0%Z)
    else Some (if decide (c = 3) then 255%Z
               else ToUint8Clamp (sobelMagnitude data w y x)).
Proof.
  intros Hy Hx Hc zeros j. subst zeros j.
  assert (pixelIndexOf w y x + c < w * h * 4) as Hj
    by (unfold pixelIndexOf; nia).
  rewrite (raster_write_lookup (sobelBorderPixel w h) w);
    [|apply length_sobelBorderPixel|apply sobelBorderPixel_frame
     |apply sobelBorderPixel_own|apply NoDup_raster| |done|done].
  2:{ intros y' x' Hin. apply elem_of_raster in Hin. lia. }
  rewrite decide_True by (apply elem_of_raster; lia).
  rewrite lookup_sobelBorderPixel.
  rewrite (raster_write_length (sobelPixel data w)) by apply length_sobelPixel.
  rewrite length_replicate.
  destruct (decide (onBorder w h y x)) as [Hb|Hb].
  - destruct (decide (c = 3)) as [->|Hc3].
    + rewrite decide_False by lia. by rewrite decide_True by (split; [done|lia]).
    + by rewrite decide_True by (split; [done|lia]).
  - rewrite !decide_False by tauto.
    rewrite (raster_write_lookup (sobelPixel data w) w);
      [|apply length_sobelPixel|apply sobelPixel_frame
       |apply sobelPixel_own|apply NoDup_raster| |done|done].
    2:{ intros y' x' Hin. apply elem_of_raster in Hin. lia. }
    unfold onBorder in Hb.
    rewrite decide_True by (apply elem_of_raster; lia).
    rewrite lookup_sobelPixel. rewrite length_replicate.
    repeat case_decide; try lia; done.
Qed.

(** C8: on the image whose pixels all have the same colour,
    [applySobelEdgeDetection] returns a buffer in which R, G and B are zero
    at every pixel, interior pixels included, and alpha is 255: the border
    pixels are exactly (0,0,0,255). *)
Theorem applySobelEdgeDetection_constant w h r g b a :
  0 < w → 0 < h →
  ∃ out, applySobelEdgeDetection (constantImage w h r g b a) = Returned out
    ∧ width out = w ∧ height out = h
    ∧ ∀ y x, y < h → x < w →
        pixelIs (data out) w y x 0
        ∧ data out !! (pixelIndexOf w y x + 3) = Some 255%Z.
Proof.
  intros Hw Hh. unfold applySobelEdgeDetection.
  rewrite applyGrayscale_wellFormed
    by (split; [apply length_pixelBytes|done]).
  cbn [bind width height data constantImage].
  destruct (grayscale_constant r g b a (w * h)) as (v & Hv & ->).
  rewrite length_pixelBytes.
  eexists. split.
  { apply new_ImageData_wellFormed; [|done..].
    rewrite (raster_write_length (sobelBorderPixel w h))
      by apply length_sobelBorderPixel.
    rewrite (raster_write_length (sobelPixel _ w)) by apply length_sobelPixel.
    apply length_replicate. }
  cbn [width height data]. split; [done|]. split; [done|].
  intros y x Hy Hx.
  assert (∀ c, c < 4 →
    foldl (sobelBorderPixel w h)
      (foldl (sobelPixel (pixelBytes v v v a (w * h)) w)
         (replicate (w * h * 4) 0%Z) (raster 1 (h - 2) 1 (w - 2)))
      (raster 0 h 0 w) !! (pixelIndexOf w y x + c)
    = Some (if decide (c = 3) then 255%Z else 0%Z)) as Hlook.
  { intros c Hc. rewrite lookup_sobel by done.
    destruct (decide (onBorder w h y x)) as [Hb|Hb]; [done|].
    unfold onBorder in Hb.
    rewrite (sobelMagnitude_constant v a w h) by lia.
    by rewrite sobelOfConstant_zero. }
  unfold pixelIs. rewrite <-(Nat.add_0_r (pixelIndexOf w y x)) at 1.
  rewrite !Hlook by lia. done.
Qed.

Lemma applySobelEdgeDetection_constant_witness :
  ∃ out, applySobelEdgeDetection (constantImage 4 3 10 200 30 77) = Returned out
    ∧ width out = 4 ∧ height out = 3
    ∧ ∀ y x, y < 3 → x < 4 →
        pixelIs (data out) 4 y x 0
        ∧ data out !! (pixelIndexOf 4 y x + 3) = Some 255%Z.
Proof. apply (applySobelEdgeDetection_constant 4 3 10 200 30 77); lia. Defined.

(** ** Canny: double threshold and hysteresis *)

Lemma ToUint8Clamp_128 : ToUint8Clamp 128 = 128%Z.
Proof. reflexivity. Qed.

Lemma lookup_doubleThresholdPixel data low high d i j :
  doubleThresholdPixel data low high d i !! j =
    if decide (j < length d ∧ i ≤ j < i + 3)
    then Some (edgeClass low high (rd data i))
    else if decide (j < length d ∧ j = i + 3) then Some 255%Z
    else d !! j.
Proof.
  unfold doubleThresholdPixel, edgeClass.
  destruct (high <? rd data i)%float; [|destruct (low <? rd data i)%float];
    unfold st;
    rewrite ?ToUint8Clamp_255, ?ToUint8Clamp_128, ?ToUint8Clamp_0;
    rewrite ?list_lookup_insert, ?length_insert;
    repeat case_decide; try lia; done.
Qed.

Lemma length_doubleThresholdLoop data low high d l :
  length (foldl (doubleThresholdPixel data low high) d l) = length d.
Proof.
  apply (foldl_invariant (λ d', length d' = length d)); [done|].
  intros a i _ Ha. unfold doubleThresholdPixel.
  destruct (_ <? _)%float; [|destruct (_ <? _)%float]; by rewrite !length_st.
Qed.

Lemma length_doubleThreshold data low high :
  length (doubleThreshold data low high) = length data.
Proof.
  unfold doubleThreshold.
  by rewrite length_doubleThresholdLoop, length_replicate.
Qed.

Lemma lookup_doubleThreshold data low high p c :
  4 * p + c < length data → c < 3 →
  doubleThreshold data low high !! (4 * p + c)
  = Some (edgeClass low high (rd data (4 * p))).
Proof.
  intros Hj Hc. unfold doubleThreshold.
  rewrite <-(length_replicate (length data) 0%Z) at 2.
  rewrite (in_place_lookup (doubleThresholdPixel data low high)).
  - destruct (div_mod_pixel p c) as [-> _]; [lia|].
    rewrite lookup_doubleThresholdPixel, length_replicate.
    by rewrite decide_True by lia.
  - intros d0 i. apply length_doubleThresholdLoop with (l := [i]).
  - intros d0 k j0 Hj0. rewrite lookup_doubleThresholdPixel.
    by rewrite !decide_False by lia.
  - intros d0 d' k j0 Hlen Hagree Hj0. rewrite !lookup_doubleThresholdPixel.
    rewrite Hlen. repeat case_decide; try done. by apply Hagree.
  - by rewrite length_replicate.
Qed.

Lemma lookup_hysteresisPixel w d y x j :
  hysteresisPixel w d (y, x) !! j =
    if decide (d !! pixelIndexOf w y x = Some 128%Z ∧ j < length d
               ∧ pixelIndexOf w y x ≤ j < pixelIndexOf w y x + 3)
    then Some (if hasStrongNeighbor d w y x then 255%Z else 0%Z)
    else d !! j.
Proof.
  unfold hysteresisPixel, is_value. fold (pixelIndexOf w y x).
  case_bool_decide as Hweak.
  - destruct (decide (j < length d
                      ∧ pixelIndexOf w y x ≤ j < pixelIndexOf w y x + 3))
      as [Hin|Hout].
    + rewrite decide_True by tauto.
      destruct (hasStrongNeighbor d w y x); unfold st;
        rewrite ?ToUint8Clamp_255, ?ToUint8Clamp_0;
        rewrite ?list_lookup_insert, ?length_insert;
        repeat case_decide; try lia; done.
    + rewrite decide_False by tauto.
      destruct (hasStrongNeighbor d w y x); unfold st;
        rewrite ?list_lookup_insert, ?length_insert;
        repeat case_decide; try lia; done.
  - rewrite decide_False by tauto. done.
Qed.

(** A step of the hysteresis loop does not touch another pixel. *)
Lemma hysteresisPixel_other w d y x y' x' c :
  x < w → x' < w → c < 4 → (y, x) ≠ (y', x') →
  hysteresisPixel w d (y', x') !! (pixelIndexOf w y x + c)
  = d !! (pixelIndexOf w y x + c).
Proof.
  intros Hx Hx' Hc Hne. rewrite lookup_hysteresisPixel.
  rewrite decide_False; [done|]. intros (_ & _ & Hin). apply Hne.
  eapply (pixelIndexOf_inj w y x y' x' c
            (pixelIndexOf w y x + c - pixelIndexOf w y' x')); lia.
Qed.





(** The hysteresis loop leaves the pixels on the border as they are. *)
Lemma hysteresis_border w h d y x c :
  x < w → c < 4 → onBorder w h y x →
  hysteresis w h d !! (pixelIndexOf w y x + c) = d !! (pixelIndexOf w y x + c).
Proof.
  intros Hx Hc Hb. unfold hysteresis.
  apply (foldl_invariant
    (λ d', d' !! (pixelIndexOf w y x + c) = d !! (pixelIndexOf w y x + c)));
    [done|].
  intros a [y0 x0] Hin Ha. apply elem_of_raster in Hin.
  rewrite hysteresisPixel_other; [done|done|lia|done|].
  intros [= -> ->]. unfold onBorder in Hb. lia.
Qed.

(** What a returning call of [applySobelEdgeDetection] says about its
    input and about the border of its output. *)
Lemma applySobelEdgeDetection_Returned img out :
  applySobelEdgeDetection img = Returned out →
  wellFormed img
  ∧ width out = width img ∧ height out = height img
  ∧ length (data out) = width img * height img * 4
  ∧ ∀ y x c, y < height img → x < width img → c < 4 →
      onBorder (width img) (height img) y x →
      data out !! (pixelIndexOf (width img) y x + c)
      = Some (if decide (c = 3) then 255%Z else 0%Z).
Proof.
  unfold applySobelEdgeDetection. intros E.
  destruct (applyGrayscale img) as [g|e] eqn:Eg; [|done].
  unfold applyGrayscale in Eg.
  apply new_ImageData_Returned in Eg as [-> (Hl & Hw & Hh)].
  cbn [bind width height data] in *.
  rewrite length_grayscale in Hl.
  apply new_ImageData_Returned in E as [-> (Hl' & _ & _)].
  cbn [width height data] in *.
  split; [done|]. split; [done|]. split; [done|]. split; [done|].
  intros y x c Hy Hx Hc Hb.
  rewrite length_grayscale, Hl, lookup_sobel by done.
  by rewrite decide_True.
Qed.




(** ** HSV round trip *)

(** C9 (counterexample): at h = 180, s = 1, v = 0.001 the colour is stored
    as the bytes (0,0,0), from which [rgbToHsv] gives (0,0,0): the hue is
    off by 180 degrees and the saturation by 1.  At h = 180, s = 0.001,
    v = 1 the bytes are (255,255,255) and the hue is lost as well. *)
Lemma hsv_roundtrip_loses_dark_colours :
  (0 <? 1)%float = true ∧ (0 <? 0.001)%float = true
  ∧ hsvToRgb 180 1 0.001 = (0, 0, 0)%float
  ∧ rgbToHsv 0 0 0 = (0, 0, 0)%float
  ∧ recovers 179 0.99 1 180 1 0.001 = false
  ∧ hsvToRgb 180 0.001 1 = (255, 255, 255)%float
  ∧ rgbToHsv 255 255 255 = (0, 0, 1)%float
  ∧ recovers 179 1 1 180 0.001 1 = false.
Proof. repeat split; vm_compute; reflexivity. Qed.

(** ** Segmentation *)

Import Segmentation.

Lemma foldlM_visited_from {A B} (I : A → Prop) (R : B → A → Prop)
    (f : A → B → option A) (l seen : list B) a r :
  I a → (∀ b, b ∈ seen → R b a) →
  (∀ a b a', b ∈ l → I a → f a b = Some a' → I a' ∧ R b a') →
  (∀ a b b' a', b' ∈ l → I a → R b a → f a b' = Some a' → R b a') →
  foldlM f a l = Some r →
  I r ∧ ∀ b, b ∈ seen ++ l → R b r.
Proof.
  revert a seen. induction l as [|b0 l IH]; intros a seen Ia Hseen Hstep Hstable Hr.
  - injection Hr as <-. rewrite app_nil_r. done.
  - cbn [foldlM] in Hr. destruct (f a b0) as [a1|] eqn:E; [|done].
    cbn [mbind option_bind] in Hr.
    destruct (Hstep a b0 a1) as [Ia1 Rb0];
      [apply elem_of_cons; by left|done|done|].
    destruct (IH a1 (seen ++ [b0])) as [Ir HR]; [done| | | |done|].
    + intros b Hb. apply elem_of_app in Hb as [Hb|Hb%list_elem_of_singleton].
      * apply (Hstable a b b0 a1); [apply elem_of_cons; by left|done|auto|done].
      * by subst b.
    + intros a0 b a' Hb. apply Hstep. apply elem_of_cons. by right.
    + intros a0 b b' a' Hb'. apply Hstable. apply elem_of_cons. by right.
    + split; [done|]. intros b Hb. apply HR.
      rewrite <-app_assoc. done.
Qed.

Lemma foldlM_visited {A B} (I : A → Prop) (R : B → A → Prop)
    (f : A → B → option A) (l : list B) a r :
  I a →
  (∀ a b a', b ∈ l → I a → f a b = Some a' → I a' ∧ R b a') →
  (∀ a b b' a', b' ∈ l → I a → R b a → f a b' = Some a' → R b a') →
  foldlM f a l = Some r →
  I r ∧ ∀ b, b ∈ l → R b r.
Proof.
  intros Ia Hstep Hstable Hr.
  apply (foldlM_visited_from I R f l [] a r); try done.
  intros b Hb. by apply elem_of_nil in Hb.
Qed.

Lemma foldlM_pure {A B} (f : A → B → A) (l : list B) a :
  foldlM (λ a b, Some (f a b)) a l = Some (foldl f a l).
Proof. revert a. induction l as [|b l IH]; intros a; [done|]. apply IH. Qed.

Lemma foldl_visited {A B} (I : A → Prop) (R : B → A → Prop)
    (f : A → B → A) (l : list B) a :
  I a →
  (∀ a b, b ∈ l → I a → I (f a b) ∧ R b (f a b)) →
  (∀ a b b', b' ∈ l → I a → R b a → R b (f a b')) →
  I (foldl f a l) ∧ ∀ b, b ∈ l → R b (foldl f a l).
Proof.
  intros Ia Hstep Hstable.
  apply (foldlM_visited I R (λ a b, Some (f a b)) l a); [done| | |apply foldlM_pure].
  - intros a0 b a' Hb Ia0 [= <-]. by apply Hstep.
  - intros a0 b b' a' Hb' Ia0 Rb [= <-]. by apply Hstable.
Qed.

(** *** Counting *)

Lemma assigned_insert sm p v :
  sm !! p = Some (-1)%Z → v ≠ (-1)%Z →
  assigned (<[p := v]> sm) = S (assigned sm).
Proof.
  unfold assigned. revert p. induction sm as [|u sm IH]; intros p Hp Hv; [done|].
  destruct p as [|p]; cbn [insert list_insert].
  - injection Hp as ->. rewrite filter_cons_True by done.
    rewrite filter_cons_False by (intros H; by apply H). done.
  - cbn in Hp. rewrite !filter_cons.
    destruct (decide (u ≠ (-1)%Z)); cbn [length]; by rewrite IH.
Qed.

Lemma assigned_all sm :
  (∀ p v, sm !! p = Some v → v ≠ (-1)%Z) → assigned sm = length sm.
Proof.
  unfold assigned. induction sm as [|u sm IH]; intros H; [done|].
  rewrite filter_cons_True by (apply (H 0); done).
  cbn [length]. f_equal. apply IH. intros p v Hp. by apply (H (S p)).
Qed.

Lemma sum_sizes_alter_notin (sizes : gmap Z nat) (cur : Z) (l : list Z) :
  cur ∉ l →
  sum_list_with (λ i, default 0 (alter S cur sizes !! i)) l
  = sum_list_with (λ i, default 0 (sizes !! i)) l.
Proof.
  induction l as [|i l IH]; intros Hnotin; [done|].
  cbn [sum_list_with]. rewrite not_elem_of_cons in Hnotin.
  destruct Hnotin as [Hne Hnotin].
  rewrite lookup_alter_ne by done. by rewrite IH.
Qed.

Lemma sum_sizes_alter (sizes : gmap Z nat) (cur : Z) (l : list Z) :
  NoDup l → cur ∈ l → is_Some (sizes !! cur) →
  sum_list_with (λ i, default 0 (alter S cur sizes !! i)) l
  = S (sum_list_with (λ i, default 0 (sizes !! i)) l).
Proof.
  intros Hnd Hin [k Hk]. induction l as [|i l IH]; [by apply elem_of_nil in Hin|].
  apply NoDup_cons in Hnd as [Hnotin Hnd]. cbn [sum_list_with].
  destruct (decide (i = cur)) as [->|Hne].
  - rewrite lookup_alter_eq, Hk. cbn [fmap option_fmap option_map default].
    by rewrite sum_sizes_alter_notin.
  - rewrite lookup_alter_ne by done.
    rewrite IH; [lia|done|].
    apply elem_of_cons in Hin as [->|Hin]; done.
Qed.

Lemma totalSize_alter sizes cur n :
  (0 ≤ cur < n)%Z → is_Some (sizes !! cur) →
  totalSize (alter S cur sizes) n = S (totalSize sizes n).
Proof.
  intros Hcur Hsome. unfold totalSize.
  apply sum_sizes_alter; [apply NoDup_seqZ| |done].
  apply elem_of_seqZ. lia.
Qed.

Lemma sum_sizes_insert_notin (sizes : gmap Z nat) (cur : Z) k (l : list Z) :
  cur ∉ l →
  sum_list_with (λ i, default 0 (<[cur := k]> sizes !! i)) l
  = sum_list_with (λ i, default 0 (sizes !! i)) l.
Proof.
  induction l as [|i l IH]; intros Hnotin; [done|].
  cbn [sum_list_with]. rewrite not_elem_of_cons in Hnotin.
  destruct Hnotin as [Hne Hnotin].
  rewrite lookup_insert_ne by done. by rewrite IH.
Qed.

Lemma totalSize_insert_new sizes cur :
  (0 ≤ cur)%Z →
  totalSize (<[cur := 1]> sizes) (cur + 1) = S (totalSize sizes cur).
Proof.
  intros Hcur. unfold totalSize.
  rewrite seqZ_app by lia. rewrite (seqZ_cons _ 1), (seqZ_nil _ (Z.pred 1)) by lia.
  rewrite sum_list_with_app. cbn [sum_list_with].
  rewrite Z.add_0_l, lookup_insert_eq. cbn [default].
  rewrite sum_sizes_insert_notin; [unfold id; lia|].
  rewrite elem_of_seqZ. lia.
Qed.

(** *** Growth *)

Lemma extends_refl sm : extends sm sm.
Proof. by intros p v. Qed.

Lemma extends_trans sm1 sm2 sm3 :
  extends sm1 sm2 → extends sm2 sm3 → extends sm1 sm3.
Proof. intros H12 H23 p v Hp Hv. apply H23; [|done]. by apply H12. Qed.

Lemma extends_insert sm p v :
  sm !! p = Some (-1)%Z → extends sm (<[p := v]> sm).
Proof.
  intros Hp q u Hq Hu. rewrite list_lookup_insert_ne; [done|].
  intros ->. rewrite Hp in Hq. by injection Hq as <-.
Qed.

Section growth.
Variables (data : list Z) (width height : nat) (tolerance : float).
Variables (baseR baseG baseB : float).

Lemma visit_fillInv n cur cx cy s d :
  fillInv n cur s →
  fillInv n cur (visit data width height tolerance baseR baseG baseB cx cy s d)
  ∧ extends (segmentMap s)
      (segmentMap (visit data width height tolerance baseR baseG baseB cx cy s d)).
Proof.
  intros Hinv. pose proof Hinv as (Hcur & Hpos & Hlen & Hval & Hsome & Htot).
  unfold visit.
  case_bool_decide as Hbounds; [split; [done|apply extends_refl]|].
  case_bool_decide as Hfree; [split; [done|apply extends_refl]|].
  destruct (_ <=? _)%float; [|split; [done|apply extends_refl]].
  set (ni := Z.to_nat ((cy + d.2) * Z.of_nat width + (cx + d.1))) in *.
  assert (segmentMap s !! ni = Some (-1)%Z) as Hni by done.
  rewrite Hcur. split; [|by apply extends_insert].
  unfold fillInv. cbn [currentSegment segmentMap segmentSizes].
  split; [done|]. split; [done|].
  split; [by rewrite length_insert|].
  split.
  { intros p v Hp. apply list_lookup_insert_Some in Hp as [(-> & <- & _)|[_ Hp]].
    - lia.
    - by apply (Hval p). }
  split.
  { destruct Hsome as [k Hk]. exists (S k). by rewrite lookup_alter_eq, Hk. }
  rewrite totalSize_alter by (done || lia).
  rewrite assigned_insert by (done || lia). by rewrite Htot.
Qed.

Lemma visits_fillInv n cur cx cy s ds :
  fillInv n cur s →
  fillInv n cur
    (foldl (visit data width height tolerance baseR baseG baseB cx cy) s ds)
  ∧ extends (segmentMap s)
      (segmentMap
         (foldl (visit data width height tolerance baseR baseG baseB cx cy) s ds)).
Proof.
  intros Hinv.
  apply (foldl_invariant
    (λ s', fillInv n cur s' ∧ extends (segmentMap s) (segmentMap s')));
    [split; [done|apply extends_refl]|].
  intros a d _ [Ha He].
  destruct (visit_fillInv n cur cx cy a d Ha) as [Ha' He'].
  split; [done|]. by eapply extends_trans.
Qed.

Lemma floodLoop_fillInv fuel n cur s s' :
  fillInv n cur s →
  floodLoop fuel data width height tolerance baseR baseG baseB s = Some s' →
  fillInv n cur s' ∧ extends (segmentMap s) (segmentMap s').
Proof.
  revert s. induction fuel as [|fuel IH]; intros s Hinv Hs'; cbn [floodLoop] in Hs'.
  - destruct (stack s) as [|[cx cy] rest]; [|done].
    injection Hs' as <-. split; [done|apply extends_refl].
  - destruct (stack s) as [|[cx cy] rest].
    { injection Hs' as <-. split; [done|apply extends_refl]. }
    set (s0 := mkGrowth (segmentMap s) (segmentSizes s) (segmentColors s) rest
                 (currentSegment s)) in *.
    assert (fillInv n cur s0) as Hinv0 by done.
    destruct (visits_fillInv n cur cx cy s0 directions Hinv0) as [Hinv1 He1].
    destruct (IH _ Hinv1 Hs') as [Hinv' He'].
    split; [done|]. by eapply extends_trans.
Qed.
End growth.

Lemma assigned_replicate n : assigned (replicate n (-1)%Z) = 0.
Proof.
  unfold assigned. induction n as [|n IH]; [done|].
  cbn [replicate]. by rewrite filter_cons_False by (intros H; by apply H).
Qed.

Lemma growInv_init n : growInv n (mkGrowth (replicate n (-1)%Z) ∅ ∅ [] 0).
Proof.
  unfold growInv. cbn [currentSegment segmentMap segmentSizes].
  split; [done|]. split; [apply length_replicate|]. split.
  - intros p v Hp. apply lookup_replicate in Hp as [-> _]. lia.
  - by rewrite assigned_replicate.
Qed.

Section grow.
Variables (fuel : nat) (data : list Z) (width height : nat) (tolerance : float).

Lemma fillStart_fillInv n x y baseR baseG baseB s :
  growInv n s →
  segmentMap s !! (y * width + x) = Some (-1)%Z →
  fillInv n (currentSegment s) (fillStart width x y baseR baseG baseB s).
Proof.
  intros (Hpos & Hlen & Hval & Htot) Hfree.
  unfold fillInv, fillStart. cbn [currentSegment segmentMap segmentSizes].
  split; [done|]. split; [done|]. split; [by rewrite length_insert|].
  split.
  { intros p v Hp. apply list_lookup_insert_Some in Hp as [(_ & <- & _)|[_ Hp]].
    - lia.
    - apply Hval in Hp. lia. }
  split; [exists 1; apply lookup_insert_eq|].
  rewrite totalSize_insert_new by done.
  rewrite assigned_insert by (done || lia). by rewrite Htot.
Qed.

Lemma floodFill_growInv n x y baseR baseG baseB s s' :
  growInv n s →
  segmentMap s !! (y * width + x) = Some (-1)%Z →
  floodFill fuel data width height tolerance x y baseR baseG baseB s = Some s' →
  growInv n s' ∧ extends (segmentMap s) (segmentMap s')
  ∧ ∃ v, segmentMap s' !! (y * width + x) = Some v ∧ v ≠ (-1)%Z.
Proof.
  intros Hinv Hfree Hs'. unfold floodFill in Hs'.
  pose proof (fillStart_fillInv n x y baseR baseG baseB s Hinv Hfree) as Hinv0.
  destruct Hinv as (Hpos & Hlen & Hval & Htot).
  set (cur := currentSegment s) in *.
  set (s0 := fillStart width x y baseR baseG baseB s) in *.
  destruct (floodLoop _ _ _ _ _ _ _ _ s0) as [s1|] eqn:E; [|done].
  cbn [mbind option_bind] in Hs'. injection Hs' as <-.
  destruct (floodLoop_fillInv _ _ _ _ _ _ _ _ _ _ _ _ Hinv0 E)
    as [(Hcur1 & _ & Hlen1 & Hval1 & _ & Htot1) He1].
  cbn [segmentMap].
  assert (extends (segmentMap s) (segmentMap s1)) as He.
  { eapply extends_trans; [|exact He1]. by apply extends_insert. }
  split; [|split; [done|]].
  - unfold growInv. cbn [currentSegment segmentMap segmentSizes].
    split; [lia|]. split; [done|]. split; [|done].
    intros p v Hp. apply Hval1 in Hp. lia.
  - exists cur. split; [|lia]. apply He1; [|lia].
    unfold s0, fillStart. cbn [segmentMap]. apply list_lookup_insert_eq.
    by apply lookup_lt_Some in Hfree.
Qed.

Lemma growPixel_growInv n y x s s' :
  growInv n s → y * width + x < n →
  growPixel fuel data width height tolerance s (y, x) = Some s' →
  growInv n s' ∧ extends (segmentMap s) (segmentMap s')
  ∧ ∃ v, segmentMap s' !! (y * width + x) = Some v ∧ v ≠ (-1)%Z.
Proof.
  intros Hinv Hidx Hs'. unfold growPixel in Hs'.
  case_bool_decide as Hfree.
  - injection Hs' as <-. split; [done|]. split; [apply extends_refl|].
    destruct Hinv as (_ & Hlen & _).
    destruct (lookup_lt_is_Some_2 (segmentMap s) (y * width + x)) as [v Hv];
      [lia|].
    exists v. split; [done|]. intros ->. by apply Hfree.
  - by eapply floodFill_growInv.
Qed.

(** After the growth every pixel has a segment, and the sizes of the
    segments add up to the number of pixels. *)
Lemma grow_spec s :
  grow fuel data width height tolerance = Some s →
  growInv (width * height) s
  ∧ (∀ p, p < width * height →
       ∃ v, segmentMap s !! p = Some v ∧ (0 ≤ v < currentSegment s)%Z)
  ∧ totalSize (segmentSizes s) (currentSegment s) = width * height.
Proof.
  intros Hs. unfold grow in Hs.
  remember (width * height) as n eqn:Hn.
  assert (∀ y x, (y, x) ∈ raster 0 height 0 width → y * width + x < n) as Hidx.
  { intros y x Hin. apply elem_of_raster in Hin. nia. }
  apply (foldlM_visited (growInv n)
    (λ yx s, ∃ v, segmentMap s !! (yx.1 * width + yx.2) = Some v ∧ v ≠ (-1)%Z))
    in Hs as [Hinv Hall].
  - pose proof Hinv as (Hpos & Hlen & Hval & Htot).
    assert (∀ p, p < n →
      ∃ v, segmentMap s !! p = Some v ∧ (0 ≤ v < currentSegment s)%Z) as Hpix.
    { intros p Hp.
      assert (0 < width) as Hw by nia.
      destruct (Hall (p `div` width, p `mod` width)) as (v & Hv & Hne).
      { apply elem_of_raster.
        pose proof (Nat.div_mod_eq p width).
        pose proof (Nat.mod_upper_bound p width).
        assert (p `div` width < height); [|lia].
        apply Nat.Div0.div_lt_upper_bound. lia. }
      cbn [fst snd] in Hv.
      replace (p `div` width * width + p `mod` width) with p in Hv
        by (pose proof (Nat.div_mod_eq p width); lia).
      exists v. split; [done|]. apply Hval in Hv. lia. }
    split; [done|]. split; [done|].
    rewrite Htot, assigned_all, Hlen; [done|].
    intros p v Hp.
    destruct (Hpix p) as (v' & Hv' & Hrange);
      [apply lookup_lt_Some in Hp; lia|].
    rewrite Hp in Hv'. injection Hv' as <-. lia.
  - apply growInv_init.
  - intros a [y x] a' Hin Ha Ha'.
    destruct (growPixel_growInv n y x a a' Ha (Hidx y x Hin) Ha')
      as (? & _ & ?). done.
  - intros a [y x] [y' x'] a' Hin' Ha (v & Hv & Hne) Ha'.
    destruct (growPixel_growInv n y' x' a a' Ha (Hidx y' x' Hin') Ha')
      as (_ & He & _).
    exists v. split; [|done]. by apply He.
Qed.
End grow.

(** *** Merge *)

Lemma elem_of_setAdd set v t : t ∈ setAdd set v ↔ t ∈ set ∨ t = v.
Proof.
  unfold setAdd. case_bool_decide as Hin.
  - split; [by left|]. intros [?| ->]; done.
  - rewrite elem_of_app, list_elem_of_singleton. done.
Qed.

Lemma NoDup_setAdd set v : NoDup set → NoDup (setAdd set v).
Proof.
  intros Hnd. unfold setAdd. case_bool_decide as Hin; [done|].
  apply NoDup_app. split; [done|]. split; [|apply NoDup_singleton].
  intros t Ht ->%list_elem_of_singleton. done.
Qed.

Lemma lookup_mergeMap_init (l : list Z) (m0 : gmap Z Z) k :
  foldl (λ mergeMap i, <[i := i]> mergeMap) m0 l !! k
  = if decide (k ∈ l) then Some k else m0 !! k.
Proof.
  revert m0. induction l as [|i l IH]; intros m0; cbn [foldl].
  - by rewrite decide_False by apply not_elem_of_nil.
  - rewrite IH. destruct (decide (k ∈ l)) as [Hin|Hin].
    + rewrite decide_True by (apply elem_of_cons; by right). done.
    + destruct (decide (k = i)) as [->|Hne].
      * rewrite lookup_insert_eq.
        by rewrite decide_True by (apply elem_of_cons; by left).
      * rewrite lookup_insert_ne by done.
        rewrite decide_False; [done|].
        rewrite elem_of_cons. intros [?|?]; done.
Qed.

Lemma mergeInv_init cur :
  mergeInv cur (foldl (λ mergeMap i, <[i := i]> mergeMap) ∅ (seqZ 0 cur)).
Proof.
  split.
  - intros i Hi. rewrite lookup_mergeMap_init.
    rewrite decide_True by (apply elem_of_seqZ; lia). done.
  - intros k t Hk. rewrite lookup_mergeMap_init in Hk.
    case_decide as Hin; [|by rewrite lookup_empty in Hk].
    injection Hk as <-. apply elem_of_seqZ in Hin. lia.
Qed.

Lemma mergeInv_insert cur m i t :
  mergeInv cur m → (0 ≤ t < cur)%Z → mergeInv cur (<[i := t]> m).
Proof.
  intros [Hdom Hval] Ht. split.
  - intros j Hj. apply lookup_insert_is_Some'. right. by apply Hdom.
  - intros k u Hk. apply lookup_insert_Some in Hk as [[_ <-]|[_ Hk]]; [done|].
    by apply (Hval k).
Qed.

Lemma pixelNeighbors_values (P : Z → Prop) w h sm (m : gmap Z Z) i acc yx :
  (∀ k t, m !! k = Some t → P t) →
  (∀ t, t ∈ acc → P t) →
  ∀ t, t ∈ pixelNeighbors w h sm m i acc yx → P t.
Proof.
  intros Hm Hacc. destruct yx as [y x]. unfold pixelNeighbors.
  case_bool_decide; [|done].
  apply (foldl_invariant (λ set : list Z, ∀ t, t ∈ set → P t)); [done|].
  intros set d _ Hset. case_bool_decide; [done|].
  destruct (sm !! Z.to_nat _) as [ns|]; [|done].
  case_bool_decide; [|done].
  destruct (m !! ns) as [v|] eqn:E; [|done].
  intros t Ht. apply elem_of_setAdd in Ht as [Ht| ->]; [by apply Hset|].
  by apply (Hm ns).
Qed.

Lemma neighbors_values (P : Z → Prop) w h sm (m : gmap Z Z) i l :
  (∀ k t, m !! k = Some t → P t) →
  ∀ t, t ∈ foldl (pixelNeighbors w h sm m i) [] l → P t.
Proof.
  intros Hm.
  apply (foldl_invariant (λ set : list Z, ∀ t, t ∈ set → P t)).
  - intros t Ht. by apply elem_of_nil in Ht.
  - intros set yx _ Hset. by apply pixelNeighbors_values.
Qed.

Lemma closestNeighbor_elem (colors : gmap Z segColor) i l :
  (closestNeighbor colors i l).1 = (-1)%Z ∨ (closestNeighbor colors i l).1 ∈ l.
Proof.
  unfold closestNeighbor.
  apply (foldl_invariant
    (λ acc : Z * float, acc.1 = (-1)%Z ∨ acc.1 ∈ l)); [by left|].
  intros [best diff] ns Hns Hacc.
  destruct (colors !! i); [|done]. destruct (colors !! ns); [|done].
  destruct (_ <? _)%float; [|done]. by right.
Qed.

Lemma mergeSmall_mergeInv cur w h minSize s m i :
  mergeInv cur m → mergeInv cur (mergeSmall w h minSize s m i).
Proof.
  intros Hinv. unfold mergeSmall.
  destruct (_ <? _)%float; [|done].
  case_bool_decide as Hbest; [|done].
  apply mergeInv_insert; [done|].
  destruct (closestNeighbor_elem (segmentColors s) i
    (foldl (pixelNeighbors w h (segmentMap s) m i) [] (raster 0 h 0 w)))
    as [Hnone|Hin]; [done|].
  apply (neighbors_values (λ t, (0 ≤ t < cur)%Z) w h (segmentMap s) m i
           (raster 0 h 0 w)); [apply Hinv|done].
Qed.

(** *** Resolution of the merge chains *)

Lemma followChain_fixed fuel (m : gmap Z Z) i t :
  followChain fuel m i = Some t → m !! t = Some t.
Proof.
  revert i. induction fuel as [|fuel IH]; intros i; cbn [followChain];
    destruct (m !! i) as [next|] eqn:E; try done;
    case_bool_decide as Hnext; try done.
  - intros [= <-]. by rewrite E, Hnext.
  - apply IH.
  - intros [= <-]. by rewrite E, Hnext.
Qed.

Lemma followChain_self fuel (m : gmap Z Z) i :
  m !! i = Some i → followChain fuel m i = Some i.
Proof.
  intros Hi. destruct fuel; cbn [followChain]; rewrite Hi;
    by rewrite bool_decide_eq_false_2 by (intros H; by apply H).
Qed.

Lemma flatten_spec fuel cur m i m' :
  mergeInv cur m → flatten fuel m i = Some m' →
  mergeInv cur m' ∧ resolved m' i ∧ ∀ j, resolved m j → resolved m' j.
Proof.
  intros Hinv Hm'. unfold flatten in Hm'.
  destruct (followChain fuel m i) as [t|] eqn:E; [|done].
  cbn [mbind option_bind] in Hm'. injection Hm' as <-.
  pose proof (followChain_fixed _ _ _ _ E) as Ht.
  assert (resolved (<[i := t]> m) i) as Hres.
  { exists t. rewrite lookup_insert_eq. split; [done|].
    destruct (decide (t = i)) as [->|Hne];
      [apply lookup_insert_eq|by rewrite lookup_insert_ne]. }
  split; [|split; [done|]].
  - apply mergeInv_insert; [done|]. destruct Hinv as [_ Hval]. by apply (Hval t).
  - intros j (u & Hj & Hu).
    destruct (decide (j = i)) as [->|Hji]; [done|].
    exists u. rewrite lookup_insert_ne by done. split; [done|].
    destruct (decide (u = i)) as [->|Hui]; [|by rewrite lookup_insert_ne].
    rewrite (followChain_self fuel m i Hu) in E. injection E as <-.
    apply lookup_insert_eq.
Qed.

Lemma uniqueSegments_spec (m : gmap Z Z) (ids : list Z) :
  let unique :=
    foldl (λ set i,
      match m !! i with Some t => setAdd set t | None => set end) [] ids in
  NoDup unique ∧ ∀ i t, i ∈ ids → m !! i = Some t → t ∈ unique.
Proof.
  intros unique.
  destruct (foldl_visited (λ set : list Z, NoDup set)
    (λ i (set : list Z), ∀ t, m !! i = Some t → t ∈ set)
    (λ set i, match m !! i with Some t => setAdd set t | None => set end)
    ids []) as [Hnd Hall].
  - apply NoDup_nil_2.
  - intros set i _ Hset. destruct (m !! i) as [t|]; [|done].
    split; [by apply NoDup_setAdd|].
    intros ? [= <-]. apply elem_of_setAdd. by right.
  - intros set i i' _ _ Hi t Ht. destruct (m !! i') as [t'|]; [|by apply Hi].
    apply elem_of_setAdd. left. by apply Hi.
  - split; [done|]. intros i t Hi Ht. by apply (Hall i).
Qed.

(** *** Counting pixels per representative *)

Lemma sum_indicator (L : list Z) (x : Z) :
  NoDup L → x ∈ L →
  sum_list_with (λ r, if decide (x = r) then 1 else 0) L = 1.
Proof.
  intros Hnd Hin. induction L as [|r L IH]; [by apply elem_of_nil in Hin|].
  apply NoDup_cons in Hnd as [Hnotin Hnd]. cbn [sum_list_with].
  destruct (decide (x = r)) as [->|Hne].
  - f_equal. clear IH Hin Hnd. induction L as [|r' L IH]; [done|].
    cbn [sum_list_with]. rewrite not_elem_of_cons in Hnotin.
    destruct Hnotin as [Hne Hnotin].
    rewrite decide_False by done. by apply IH.
  - apply elem_of_cons in Hin as [?|Hin]; [done|]. by rewrite IH.
Qed.

Lemma count_partition (f : nat → option Z) (L : list Z) (ps : list nat) :
  NoDup L → (∀ p, p ∈ ps → ∃ r, f p = Some r ∧ r ∈ L) →
  sum_list_with (λ r, length (filter (λ p, f p = Some r) ps)) L = length ps.
Proof.
  intros Hnd. induction ps as [|p ps IH]; intros Hps.
  - cbn. clear. induction L as [|r L IH]; [done|]. cbn [sum_list_with]. by rewrite IH.
  - destruct (Hps p) as (rp & Hrp & Hin); [apply elem_of_cons; by left|].
    transitivity
      (sum_list_with (λ r, if decide (rp = r) then 1 else 0) L
       + sum_list_with (λ r, length (filter (λ p, f p = Some r) ps)) L).
    + clear IH Hin Hnd Hps. induction L as [|r L IHL]; [done|].
      cbn [sum_list_with]. rewrite IHL. rewrite filter_cons, Hrp.
      destruct (decide (rp = r)) as [->|Hne].
      * rewrite decide_True by done. cbn [length]. lia.
      * rewrite decide_False by congruence. lia.
    + rewrite sum_indicator by done. rewrite IH; [done|].
      intros q Hq. apply Hps. apply elem_of_cons. by right.
Qed.

(** *** The partition *)

Lemma segment_spec fuel img tolerance minSize sg :
  segment fuel img tolerance minSize = Some sg →
  let n := width img * height img in
  totalSize (segmentSizes (grown sg)) (currentSegment (grown sg)) = n
  ∧ sum_list_with (pixelCount sg n) (segmentList sg) = n
  ∧ NoDup (segmentList sg)
  ∧ ∀ p, p < n →
      ∃ rep, representative sg p = Some rep
        ∧ rep ∈ segmentList sg
        ∧ mergeMap sg !! rep = Some rep.
Proof.
  intros Hsg n. unfold segment in Hsg.
  destruct (grow _ _ _ _ _) as [s|] eqn:Egrow; [|done].
  cbn [mbind option_bind] in Hsg.
  apply grow_spec in Egrow as (Hinv & Hpix & Htot). fold n in Hinv, Hpix, Htot.
  set (cur := currentSegment s) in *.
  set (ids := seqZ 0 cur) in *.
  set (m0 := foldl (λ mergeMap i, <[i := i]> mergeMap) ∅ ids) in *.
  set (m1 := foldl (mergeSmall (width img) (height img) minSize s) m0 ids) in *.
  destruct (foldlM (flatten fuel) m1 ids) as [m2|] eqn:Eflat; [|done].
  cbn [mbind option_bind] in Hsg. injection Hsg as <-.
  cbn [grown mergeMap segmentList].
  assert (mergeInv cur m1) as Hm1.
  { apply (foldl_invariant (mergeInv cur)); [apply mergeInv_init|].
    intros m i _ Hm. by apply mergeSmall_mergeInv. }
  apply (foldlM_visited (mergeInv cur) (λ i m, resolved m i)) in Eflat
    as [Hm2 Hres]; [|done| |].
  2:{ intros m i m' _ Hm Hm'.
      destruct (flatten_spec fuel cur m i m' Hm Hm') as (? & ? & _). done. }
  2:{ intros m i i' m' _ Hm Hi Hm'.
      destruct (flatten_spec fuel cur m i' m' Hm Hm') as (_ & _ & Hst).
      by apply Hst. }
  destruct (uniqueSegments_spec m2 ids) as [Hnd Hunique].
  assert (∀ p, p < n →
    ∃ rep, representative (mkSegments s m2
             (foldl (λ set i,
                match m2 !! i with Some t => setAdd set t | None => set end)
              [] ids)) p = Some rep
      ∧ rep ∈ foldl (λ set i,
                match m2 !! i with Some t => setAdd set t | None => set end)
              [] ids
      ∧ m2 !! rep = Some rep) as Hrep.
  { intros p Hp. destruct (Hpix p Hp) as (v & Hv & Hrange).
    assert (v ∈ ids) as Hvin by (apply elem_of_seqZ; lia).
    destruct (Hres v Hvin) as (t & Hvt & Htt).
    exists t. unfold representative. cbn [grown mergeMap].
    rewrite Hv. cbn [mbind option_bind]. split; [done|]. split; [|done].
    by apply (Hunique v). }
  split; [done|]. split; [|split; [done|done]].
  unfold pixelCount. rewrite count_partition; [apply length_seq|done|].
  intros p Hp. apply elem_of_seq in Hp.
  destruct (Hrep p) as (rep & ? & ? & _); [lia|]. by exists rep.
Qed.

(** C4: when [applySegmentation] completes, the sizes of the segments that
    the growth found add up to width*height; the numbers of pixels of the
    final segments (the representatives after the merge) add up to
    width*height; and every pixel is mapped to one representative, which
    is a member of the duplicate-free list of final segments and is its
    own merge target. *)
Theorem segmentation_partition fuel random img tolerance minSize colorScheme out :
  applySegmentation fuel random img tolerance minSize colorScheme
    = Some (Returned out) →
  ∃ sg, segment fuel img tolerance minSize = Some sg
    ∧ let n := width img * height img in
      totalSize (segmentSizes (grown sg)) (currentSegment (grown sg)) = n
      ∧ sum_list_with (pixelCount sg n) (segmentList sg) = n
      ∧ NoDup (segmentList sg)
      ∧ ∀ p, p < n →
          ∃ rep, representative sg p = Some rep
            ∧ rep ∈ segmentList sg
            ∧ mergeMap sg !! rep = Some rep.
Proof.
  intros Hout. unfold applySegmentation in Hout.
  destruct (segment fuel img tolerance minSize) as [sg|] eqn:Esg; [|done].
  exists sg. split; [done|]. exact (segment_spec _ _ _ _ _ Esg).
Qed.

Lemma segmentation_partition_witness :
  ∃ sg, segment 100 blocks4x4 10 1 = Some sg
    ∧ let n := 4 * 4 in
      totalSize (segmentSizes (grown sg)) (currentSegment (grown sg)) = n
      ∧ sum_list_with (pixelCount sg n) (segmentList sg) = n
      ∧ NoDup (segmentList sg)
      ∧ ∀ p, p < n →
          ∃ rep, representative sg p = Some rep
            ∧ rep ∈ segmentList sg
            ∧ mergeMap sg !! rep = Some rep.
Proof.
  eapply (segmentation_partition 100 (λ _, 0%float) blocks4x4 10 1 "rainbow").
  vm_compute. reflexivity.
Defined.

(** *** The sizes of merged segments are not accumulated *)

(** On the three columns with minSize 5 the three segments of 3 pixels are
    merged into segment 1, whose [segmentSizes] entry is still 3: the pixel
    count of a final segment is the number of pixels mapped to it, not its
    entry of [segmentSizes]. *)
Lemma merged_sizes_not_accumulated :
  ∃ sg, segment 100 columns3x3 10 5 = Some sg
    ∧ segmentList sg = [1%Z]
    ∧ segmentSizes (grown sg) !! 1%Z = Some 3
    ∧ pixelCount sg 9 1 = 9.
Proof.
  eexists. split; [vm_compute; reflexivity|].
  repeat split; vm_compute; reflexivity.
Qed.

(** *** The resolution of merge chains need not terminate *)

Lemma followChain_cycle fuel (m : gmap Z Z) a b :
  m !! a = Some b → m !! b = Some a → a ≠ b →
  followChain fuel m a = None ∧ followChain fuel m b = None.
Proof.
  intros Ha Hb Hne. induction fuel as [|fuel [IHa IHb]]; cbn [followChain];
    rewrite Ha, Hb, !bool_decide_eq_true_2 by done; done.
Qed.

Lemma flatten_cycle fuel (m m' : gmap Z Z) i a b :
  m !! a = Some b → m !! b = Some a → a ≠ b →
  flatten fuel m i = Some m' →
  i ≠ a ∧ i ≠ b ∧ m' !! a = Some b ∧ m' !! b = Some a.
Proof.
  intros Ha Hb Hne Hm'. unfold flatten in Hm'.
  destruct (followChain_cycle fuel m a b Ha Hb Hne) as [Ca Cb].
  assert (i ≠ a) by (intros ->; by rewrite Ca in Hm').
  assert (i ≠ b) by (intros ->; by rewrite Cb in Hm').
  destruct (followChain fuel m i) as [t|]; [|done].
  injection Hm' as <-. by rewrite !lookup_insert_ne by done.
Qed.

Lemma flatten_loop_cycle fuel (m : gmap Z Z) ids a b :
  m !! a = Some b → m !! b = Some a → a ≠ b → a ∈ ids →
  foldlM (flatten fuel) m ids = None.
Proof.
  intros Ha Hb Hne. revert m Ha Hb.
  induction ids as [|i ids IH]; intros m Ha Hb Hin;
    [by apply elem_of_nil in Hin|].
  cbn [foldlM]. destruct (flatten fuel m i) as [m'|] eqn:E; [|done].
  cbn [mbind option_bind].
  destruct (flatten_cycle fuel m m' i a b Ha Hb Hne E) as (Hia & _ & Ha' & Hb').
  apply IH; [done..|]. apply elem_of_cons in Hin as [?|?]; [congruence|done].
Qed.

(** More fuel does not change the result of the growth. *)
Lemma floodLoop_deterministic f1 f2 data w h tol bR bG bB s s1 s2 :
  floodLoop f1 data w h tol bR bG bB s = Some s1 →
  floodLoop f2 data w h tol bR bG bB s = Some s2 → s1 = s2.
Proof.
  revert f2 s. induction f1 as [|f1 IH]; intros f2 s H1 H2.
  - cbn [floodLoop] in H1. destruct (stack s) as [|[cx cy] rest] eqn:E; [|done].
    destruct f2; cbn [floodLoop] in H2; rewrite E in H2; congruence.
  - cbn [floodLoop] in H1. destruct (stack s) as [|[cx cy] rest] eqn:E.
    + destruct f2; cbn [floodLoop] in H2; rewrite E in H2; congruence.
    + destruct f2; cbn [floodLoop] in H2; rewrite E in H2; [done|].
      by apply (IH f2 _ H1).
Qed.

Lemma foldlM_deterministic {A B} (f1 f2 : A → B → option A) l a r1 r2 :
  (∀ a b a1 a2, f1 a b = Some a1 → f2 a b = Some a2 → a1 = a2) →
  foldlM f1 a l = Some r1 → foldlM f2 a l = Some r2 → r1 = r2.
Proof.
  intros Hf. revert a. induction l as [|b l IH]; intros a H1 H2;
    cbn [foldlM] in *; [congruence|].
  destruct (f1 a b) as [a1|] eqn:E1; [|done].
  destruct (f2 a b) as [a2|] eqn:E2; [|done].
  cbn [mbind option_bind] in *.
  rewrite (Hf a b a1 a2 E1 E2) in H1. by apply (IH a2).
Qed.

Lemma grow_deterministic f1 f2 data w h tol s1 s2 :
  grow f1 data w h tol = Some s1 → grow f2 data w h tol = Some s2 → s1 = s2.
Proof.
  apply foldlM_deterministic. intros a [y x] a1 a2. unfold growPixel.
  case_bool_decide; [congruence|]. unfold floodFill.
  destruct (floodLoop f1 _ _ _ _ _ _ _ _) as [t1|] eqn:E1; [|done].
  destruct (floodLoop f2 _ _ _ _ _ _ _ _) as [t2|] eqn:E2; [|done].
  cbn [mbind option_bind].
  rewrite (floodLoop_deterministic _ _ _ _ _ _ _ _ _ _ _ _ E1 E2).
  congruence.
Qed.

(** A cycle of two segments in the merge map, after the loop that merges
    small segments, makes the resolution of the chains fail for every
    fuel. *)
Lemma segment_cycle_diverges fuel img tolerance minSize s0 a b :
  grow 100 (data img) (width img) (height img) tolerance = Some s0 →
  (let ids := seqZ 0 (currentSegment s0) in
   let m := foldl (mergeSmall (width img) (height img) minSize s0)
              (foldl (λ mergeMap i, <[i := i]> mergeMap) ∅ ids) ids in
   m !! a = Some b ∧ m !! b = Some a ∧ a ∈ ids) →
  a ≠ b →
  segment fuel img tolerance minSize = None.
Proof.
  intros E100 (Hab & Hba & Hin) Hne. unfold segment.
  destruct (grow fuel _ _ _ _) as [s|] eqn:E; [|done].
  rewrite (grow_deterministic _ _ _ _ _ _ _ _ E E100).
  cbn [mbind option_bind].
  by rewrite (flatten_loop_cycle fuel _ _ a b Hab Hba Hne Hin).
Qed.

(** On [cycleImage] with tolerance 10 and minSize 10, both inside the
    declared ranges, segments 7 and 9 have the same mean colour and become
    each other's merge target; the loop that follows the merge chain of
    segment 2 then never ends, whatever the fuel: [applySegmentation] does
    not complete on this input. *)
Lemma segmentation_can_diverge fuel random colorScheme :
  cycleMergeMap !! 7%Z = Some 9%Z ∧ cycleMergeMap !! 9%Z = Some 7%Z
  ∧ segment fuel cycleImage 10 10 = None
  ∧ applySegmentation fuel random cycleImage 10 10 colorScheme = None.
Proof.
  split; [vm_compute; reflexivity|]. split; [vm_compute; reflexivity|].
  assert (segment fuel cycleImage 10 10 = None) as Hseg.
  { apply (segment_cycle_diverges fuel cycleImage 10 10 cycleGrown 7 9).
    - vm_compute. reflexivity.
    - cbv zeta. split; [vm_compute; reflexivity|].
      split; [vm_compute; reflexivity|].
      apply elem_of_seqZ. vm_compute. split; [by intros ?|done].
    - lia. }
  split; [done|]. unfold applySegmentation. by rewrite Hseg.
Qed.

(** The same happens on a buffer of the wrong length: with one byte more
    than 5x4 pixels need, the segmentation of [malformedCycle] does not
    complete either, and so never reaches the constructor that would
    throw. *)
Lemma segmentation_malformed_can_diverge fuel random colorScheme :
  length (data malformedCycle)
    ≠ width malformedCycle * height malformedCycle * 4
  ∧ applySegmentation fuel random malformedCycle 10 10 colorScheme = None.
Proof.
  split; [vm_compute; lia|].
  assert (segment fuel malformedCycle 10 10 = None) as Hseg.
  { apply (segment_cycle_diverges fuel malformedCycle 10 10
             malformedCycleGrown 7 9).
    - vm_compute. reflexivity.
    - cbv zeta. split; [vm_compute; reflexivity|].
      split; [vm_compute; reflexivity|].
      apply elem_of_seqZ. vm_compute. split; [by intros ?|done].
    - lia. }
  unfold applySegmentation. by rewrite Hseg.
Qed.

(** *** The growth terminates *)

Lemma assigned_lt sm p : sm !! p = Some (-1)%Z → assigned sm < length sm.
Proof.
  unfold assigned. revert p. induction sm as [|u sm IH]; intros p Hp; [done|].
  pose proof (length_filter (λ v, v ≠ (-1)%Z) sm) as Hle.
  destruct p as [|p]; cbn in Hp.
  - injection Hp as ->. rewrite filter_cons_False by (intros H; by apply H).
    cbn [length]. lia.
  - rewrite filter_cons. specialize (IH p Hp).
    destruct (decide (u ≠ (-1)%Z)); cbn [length]; lia.
Qed.

Lemma visit_measure data w h tol bR bG bB n cur cx cy s d :
  fillInv n cur s →
  fillMeasure n (visit data w h tol bR bG bB cx cy s d) ≤ fillMeasure n s.
Proof.
  intros (Hcur & Hpos & Hlen & Hval & Hsome & Htot). unfold visit.
  case_bool_decide as Hbounds; [done|].
  case_bool_decide as Hfree; [done|].
  destruct (_ <=? _)%float; [|done].
  unfold fillMeasure. cbn [stack segmentMap length].
  pose proof (assigned_lt _ _ Hfree).
  rewrite assigned_insert by (done || lia). lia.
Qed.

Lemma visits_measure data w h tol bR bG bB n cur cx cy s ds :
  fillInv n cur s →
  fillMeasure n (foldl (visit data w h tol bR bG bB cx cy) s ds)
  ≤ fillMeasure n s.
Proof.
  intros Hinv.
  apply (foldl_invariant (λ s', fillInv n cur s' ∧ fillMeasure n s' ≤ fillMeasure n s));
    [done|].
  intros a d _ [Ha Hm]. split.
  - apply visit_fillInv. done.
  - pose proof (visit_measure data w h tol bR bG bB n cur cx cy a d Ha). lia.
Qed.

Lemma floodLoop_terminates fuel data w h tol bR bG bB n cur s :
  fillInv n cur s → fillMeasure n s ≤ fuel →
  ∃ s', floodLoop fuel data w h tol bR bG bB s = Some s' ∧ stack s' = [].
Proof.
  revert s. induction fuel as [|fuel IH]; intros s Hinv Hm; cbn [floodLoop];
    destruct (stack s) as [|[cx cy] rest] eqn:E;
    try (exists s; by split).
  - unfold fillMeasure in Hm. rewrite E in Hm. cbn [length] in Hm. lia.
  - set (s0 := mkGrowth (segmentMap s) (segmentSizes s) (segmentColors s) rest
                 (currentSegment s)).
    assert (fillInv n cur s0) as Hinv0 by done.
    apply IH; [by apply visits_fillInv|].
    pose proof (visits_measure data w h tol bR bG bB n cur cx cy s0 directions
                  Hinv0) as Hle.
    unfold fillMeasure in Hm, Hle at 2. rewrite E in Hm.
    subst s0. cbn [stack segmentMap length] in Hm, Hle. lia.
Qed.

Lemma foldlM_total {A B} (I : A → Prop) (f : A → B → option A) l a :
  I a → (∀ a b, b ∈ l → I a → ∃ a', f a b = Some a' ∧ I a') →
  is_Some (foldlM f a l).
Proof.
  revert a. induction l as [|b l IH]; intros a Ia Hf; cbn [foldlM]; [done|].
  destruct (Hf a b) as (a' & -> & Ia'); [apply elem_of_cons; by left|done|].
  cbn [mbind option_bind]. apply IH; [done|].
  intros a0 b0 Hb0. apply Hf. apply elem_of_cons. by right.
Qed.

(** With fuel above twice the number of pixels every flood fill, and so
    the growth, returns: only the resolution of the merge chains can fail
    to complete. *)
Lemma grow_terminates fuel data w h tol :
  2 * (w * h) + 1 ≤ fuel → is_Some (grow fuel data w h tol).
Proof.
  intros Hfuel. unfold grow.
  apply (foldlM_total (λ s, growInv (w * h) s ∧ stack s = [])).
  - split; [apply growInv_init|done].
  - intros s [y x] Hin [Hinv Hstack]. unfold growPixel.
    case_bool_decide as Hfree; [by exists s|].
    set (bR := rd data ((y * w + x) * 4)).
    set (bG := rd data ((y * w + x) * 4 + 1)).
    set (bB := rd data ((y * w + x) * 4 + 2)).
    pose proof (fillStart_fillInv w (w * h) x y bR bG bB s Hinv Hfree) as Hinv0.
    destruct (floodLoop_terminates fuel data w h tol bR bG bB _ _ _ Hinv0)
      as (s1 & E & Hstack1).
    { unfold fillMeasure, fillStart. cbn [stack segmentMap]. rewrite Hstack.
      cbn [length]. lia. }
    destruct (floodFill fuel data w h tol x y bR bG bB s) as [s'|] eqn:E';
      [|unfold floodFill in E'; by rewrite E in E'].
    exists s'. split; [done|]. split.
    + by destruct (floodFill_growInv fuel data w h tol _ x y _ _ _ s s' Hinv Hfree E').
    + unfold floodFill in E'. rewrite E in E'. cbn [mbind option_bind] in E'.
      injection E' as <-. done.
Qed.

(** *** The lookups of the merge are defined *)

Lemma visit_definedBelow data w h tol bR bG bB n cx cy s d :
  definedBelow n s → definedBelow n (visit data w h tol bR bG bB cx cy s d).
Proof.
  intros Hdef. unfold visit.
  case_bool_decide; [done|]. case_bool_decide; [done|].
  destruct (_ <=? _)%float; [|done].
  intros i Hi. destruct (Hdef i Hi) as [Hs Hc].
  cbn [segmentSizes segmentColors]. split.
  - apply lookup_alter_is_Some. done.
  - apply lookup_alter_is_Some. done.
Qed.

Lemma floodLoop_definedBelow fuel data w h tol bR bG bB n s s' :
  definedBelow n s →
  floodLoop fuel data w h tol bR bG bB s = Some s' → definedBelow n s'.
Proof.
  revert s. induction fuel as [|fuel IH]; intros s Hdef Hs'; cbn [floodLoop] in Hs';
    destruct (stack s) as [|[cx cy] rest]; try done;
    try (by injection Hs' as <-).
  refine (IH _ _ Hs').
  apply (foldl_invariant (definedBelow n)); [done|].
  intros a d _ Ha. by apply visit_definedBelow.
Qed.

Lemma growPixel_definedBelow fuel data w h tol s s' yx :
  (0 ≤ currentSegment s)%Z → definedBelow (currentSegment s) s →
  growPixel fuel data w h tol s yx = Some s' →
  definedBelow (currentSegment s') s'.
Proof.
  intros Hpos Hdef Hs'. destruct yx as [y x]. unfold growPixel in Hs'.
  case_bool_decide; [by injection Hs' as <-|].
  unfold floodFill in Hs'.
  destruct (floodLoop _ _ _ _ _ _ _ _ _) as [s1|] eqn:E; [|done].
  cbn [mbind option_bind] in Hs'. injection Hs' as <-.
  apply floodLoop_definedBelow with (n := (currentSegment s + 1)%Z) in E.
  - intros i Hi. cbn [currentSegment] in Hi.
    destruct (E i Hi) as [Hs Hc]. cbn [segmentSizes segmentColors].
    split; [done|]. by apply lookup_alter_is_Some.
  - intros i Hi. unfold fillStart. cbn [segmentSizes segmentColors].
    destruct (decide (i = currentSegment s)) as [->|Hne].
    + rewrite !lookup_insert_eq. done.
    + rewrite !lookup_insert_ne by done. apply Hdef. lia.
Qed.

(** After the growth every segment id has a size and a colour: the merge
    never reads an entry that is not there. *)
Lemma grow_definedBelow fuel data w h tol s :
  grow fuel data w h tol = Some s → definedBelow (currentSegment s) s.
Proof.
  intros Hs. unfold grow in Hs.
  apply (foldlM_visited
    (λ s, (0 ≤ currentSegment s)%Z ∧ definedBelow (currentSegment s) s
          ∧ growInv (w * h) s)
    (λ _ _, True)) in Hs as [(_ & Hdef & _) _]; [done| | |done].
  - split; [done|]. split; [|apply growInv_init].
    intros i Hi. cbn [currentSegment] in Hi. lia.
  - intros a [y x] a' Hin (Hpos & Hdef & Hinv) Ha'. split; [|done].
    assert (y * w + x < w * h) as Hidx
      by (apply elem_of_raster in Hin; nia).
    destruct (growPixel_growInv fuel data w h tol (w * h) y x a a' Hinv Hidx Ha')
      as (Hinv' & _ & _).
    split; [by destruct Hinv'|]. split; [|done].
    by apply (growPixel_definedBelow fuel data w h tol a a' (y, x)).
Qed.

(** * Further properties *)

(** ** Byte buffers *)

Lemma byteBuffer_st i x d : byteBuffer d → byteBuffer (st i x d).
Proof.
  intros Hd. unfold st. apply Forall_insert; [done|]. apply ToUint8Clamp_byte.
Qed.

Lemma byteBuffer_foldl {B} (f : list Z → B → list Z) d l :
  (∀ d b, byteBuffer d → byteBuffer (f d b)) →
  byteBuffer d → byteBuffer (foldl f d l).
Proof.
  intros Hf Hd. apply (foldl_invariant byteBuffer); [done|].
  intros a b _ Ha. by apply Hf.
Qed.

Lemma byteBuffer_lookup d i b : byteBuffer d → d !! i = Some b → (0 ≤ b ≤ 255)%Z.
Proof. intros Hd Hi. by apply (Forall_lookup_1 _ _ _ _ Hd Hi). Qed.

(** A fact checked on each of the 256 bytes holds for every byte. *)
Lemma all_bytes (P : Z → bool) :
  forallb P bytes = true → ∀ b, (0 ≤ b ≤ 255)%Z → P b = true.
Proof.
  intros Hall b Hb. rewrite forallb_forall in Hall. apply Hall.
  apply list_elem_of_In, elem_of_seqZ. lia.
Qed.

(** ** Loops that map the colour channels *)

Lemma rd_st_ne i j x d : i ≠ j → rd (st i x d) j = rd d j.
Proof. intros Hne. unfold rd. by rewrite lookup_st_ne. Qed.

Lemma lookup_mapChannelsPixel f d i j :
  mapChannels f d i !! j =
    if decide (j < length d ∧ i ≤ j < i + 3)
    then Some (ToUint8Clamp (f (rd d j))) else d !! j.
Proof.
  unfold mapChannels. rewrite !rd_st_ne by lia.
  destruct (decide (j = i)) as [->|?];
    [|destruct (decide (j = i + 1)) as [->|?];
      [|destruct (decide (j = i + 2)) as [->|?]]]; stores.
Qed.

Lemma length_mapChannels f d l :
  length (foldl (mapChannels f) d l) = length d.
Proof.
  apply (foldl_invariant (λ d', length d' = length d)); [done|].
  intros a i _ Ha. unfold mapChannels. by rewrite !length_st.
Qed.

Lemma lookup_mapChannels f d j :
  j < length d →
  foldl (mapChannels f) d (stride4 (length d)) !! j =
    if decide (j `mod` 4 < 3)
    then Some (ToUint8Clamp (f (rd d j))) else d !! j.
Proof.
  intros Hj.
  pose proof (Nat.div_mod_eq j 4) as Hdm.
  rewrite (in_place_lookup (mapChannels f)).
  - rewrite lookup_mapChannelsPixel. repeat case_decide; try lia; done.
  - intros d0 i. apply length_mapChannels with (l := [i]).
  - intros d0 k j0 Hj0. rewrite lookup_mapChannelsPixel.
    case_decide; [lia|done].
  - intros d0 d' k j0 Hlen Hagree Hj0. rewrite !lookup_mapChannelsPixel.
    rewrite Hlen, (rd_ext d0 d' j0) by (by apply Hagree).
    case_decide; [done|]. by apply Hagree.
  - done.
Qed.

(** A channel map that fixes every byte leaves a byte buffer as it is. *)
Lemma mapChannels_identity f d :
  (∀ b, (0 ≤ b ≤ 255)%Z → ToUint8Clamp (f (of_Z b)) = b) →
  byteBuffer d →
  foldl (mapChannels f) d (stride4 (length d)) = d.
Proof.
  intros Hf Hd. apply list_eq. intros j.
  destruct (decide (j < length d)) as [Hj|Hj].
  2:{ rewrite !lookup_ge_None_2; [done|lia|rewrite length_mapChannels; lia]. }
  rewrite lookup_mapChannels by done. case_decide; [|done].
  destruct (lookup_lt_is_Some_2 d j Hj) as [b Hb].
  unfold rd. rewrite Hb. f_equal. apply Hf. by eapply byteBuffer_lookup.
Qed.

Lemma contrastPixel_mapChannels factor :
  contrastPixel factor
  = mapChannels (λ x, clamp (factor * (x - 128) + 128)).
Proof. reflexivity. Qed.

Lemma brightnessPixel_mapChannels factor :
  brightnessPixel factor = mapChannels (λ x, clamp (x * factor)).
Proof. reflexivity. Qed.

Lemma invertPixel_mapChannels :
  invertPixel = mapChannels (λ x, (255 - x)%float).
Proof. reflexivity. Qed.

Lemma image_eta img : mkImageData (width img) (height img) (data img) = img.
Proof. by destruct img. Qed.

(** ** Neutral parameter values *)

(** X1: contrast 0 is the neutral value of [applyContrast]: on a
    well-formed buffer of bytes it returns the input unchanged. *)
Theorem applyContrast_0_identity img :
  wellFormed img → byteBuffer (data img) →
  applyContrast img 0 = Returned img.
Proof.
  intros (Hl & Hw & Hh) Hb. unfold applyContrast. cbv zeta.
  rewrite contrastPixel_mapChannels, mapChannels_identity; [| |done].
  - rewrite new_ImageData_wellFormed by done. by rewrite image_eta.
  - intros b Hbyte. apply Z.eqb_eq. revert b Hbyte.
    apply all_bytes. vm_compute. reflexivity.
Qed.

Lemma applyContrast_0_identity_witness :
  applyContrast columns3x3 0 = Returned columns3x3.
Proof.
  apply applyContrast_0_identity.
  - unfold wellFormed. simpl. split; [reflexivity|lia].
  - unfold byteBuffer, columns3x3. simpl. repeat constructor; lia.
Defined.

(** X2: brightness 100 is the neutral value of [applyBrightness]: on a
    well-formed buffer of bytes it returns the input unchanged. *)
Theorem applyBrightness_100_identity img :
  wellFormed img → byteBuffer (data img) →
  applyBrightness img 100 = Returned img.
Proof.
  intros (Hl & Hw & Hh) Hb. unfold applyBrightness. cbv zeta.
  rewrite brightnessPixel_mapChannels, mapChannels_identity; [| |done].
  - rewrite new_ImageData_wellFormed by done. by rewrite image_eta.
  - intros b Hbyte. apply Z.eqb_eq. revert b Hbyte.
    apply all_bytes. vm_compute. reflexivity.
Qed.

Lemma applyBrightness_100_identity_witness :
  applyBrightness columns3x3 100 = Returned columns3x3.
Proof.
  apply applyBrightness_100_identity.
  - unfold wellFormed. simpl. split; [reflexivity|lia].
  - unfold byteBuffer, columns3x3. simpl. repeat constructor; lia.
Defined.

(** ** Inversion *)

Lemma length_invert d l : length (foldl invertPixel d l) = length d.
Proof. rewrite invertPixel_mapChannels. apply length_mapChannels. Qed.

Lemma invert_byte b :
  (0 ≤ b ≤ 255)%Z → ToUint8Clamp (255 - of_Z b) = (255 - b)%Z.
Proof.
  intros Hb. apply Z.eqb_eq. revert b Hb.
  apply all_bytes. vm_compute. reflexivity.
Qed.

Lemma lookup_invert d j b :
  byteBuffer d → d !! j = Some b →
  foldl invertPixel d (stride4 (length d)) !! j
  = Some (if decide (j `mod` 4 < 3) then (255 - b)%Z else b).
Proof.
  intros Hd Hj. rewrite invertPixel_mapChannels.
  rewrite lookup_mapChannels by (by eapply lookup_lt_Some).
  case_decide; [|done].
  unfold rd. rewrite Hj. f_equal. apply invert_byte.
  by eapply byteBuffer_lookup.
Qed.

(** X3: on a well-formed buffer of bytes [applyInvert] returns the buffer
    in which every R, G and B byte [b] is replaced by [255 - b] and every
    alpha byte is kept, and applying it to its result gives the input
    back. *)
Theorem applyInvert_involutive img :
  wellFormed img → byteBuffer (data img) →
  ∃ out, applyInvert img = Returned out
    ∧ (∀ j b, data img !! j = Some b →
         data out !! j
         = Some (if decide (j `mod` 4 < 3) then (255 - b)%Z else b))
    ∧ applyInvert out = Returned img.
Proof.
  destruct img as [w h d]. intros (Hl & Hw & Hh) Hb.
  cbn [width height data] in *. unfold applyInvert at 1.
  cbn [width height data].
  rewrite new_ImageData_wellFormed by (by rewrite ?length_invert).
  eexists. split; [done|]. cbn [data]. split.
  { intros j b. by apply lookup_invert. }
  unfold applyInvert. cbn [width height data].
  rewrite new_ImageData_wellFormed by (by rewrite ?length_invert).
  do 2 f_equal. apply list_eq. intros j.
  destruct (d !! j) as [b|] eqn:Hj.
  2:{ apply lookup_ge_None_2. rewrite !length_invert.
      by apply lookup_ge_None_1. }
  assert (0 ≤ b ≤ 255)%Z as Hbyte by (by eapply byteBuffer_lookup).
  rewrite (lookup_invert _ j (if decide (j `mod` 4 < 3) then (255 - b)%Z else b)).
  - f_equal. case_decide; lia.
  - rewrite invertPixel_mapChannels. apply byteBuffer_foldl; [|done].
    intros d0 i Hd0. unfold mapChannels. by do 3 apply byteBuffer_st.
  - by apply lookup_invert.
Qed.

Lemma applyInvert_involutive_witness :
  ∃ out, applyInvert columns3x3 = Returned out
    ∧ (∀ j b, data columns3x3 !! j = Some b →
         data out !! j
         = Some (if decide (j `mod` 4 < 3) then (255 - b)%Z else b))
    ∧ applyInvert out = Returned columns3x3.
Proof.
  apply applyInvert_involutive.
  - unfold wellFormed. simpl. split; [reflexivity|lia].
  - unfold byteBuffer, columns3x3. simpl. repeat constructor; lia.
Defined.

(** ** No operator throws on a well-formed buffer *)

Lemma keepsShape_new img d :
  wellFormed img → length d = length (data img) →
  keepsShape img (new_ImageData d (width img) (height img)).
Proof.
  intros (Hl & Hw & Hh) Hd. unfold keepsShape.
  rewrite new_ImageData_wellFormed by (done || congruence).
  eexists. split; [done|]. unfold wellFormed. cbn [width height data].
  split; [done|]. split; [done|]. split; [by rewrite Hd|done].
Qed.

Lemma keepsShape_wellFormed img img' c :
  keepsShape img' c → width img' = width img → height img' = height img →
  keepsShape img c.
Proof.
  intros (out & -> & Hw & Hh & Hwf) Ew Eh. exists out.
  split; [done|]. split; [congruence|]. split; [congruence|done].
Qed.

Lemma length_hysteresis w h d : length (hysteresis w h d) = length d.
Proof.
  unfold hysteresis.
  apply (foldl_invariant (λ d', length d' = length d)); [done|].
  intros a [y x] _ Ha. unfold hysteresisPixel.
  destruct (is_value _ _ _); [|done].
  destruct (hasStrongNeighbor _ _ _ _); by rewrite !length_st.
Qed.

Lemma applyGrayscale_keepsShape img :
  wellFormed img → keepsShape img (applyGrayscale img).
Proof. intros Hwf. apply keepsShape_new; [done|apply length_grayscale]. Qed.

Lemma applyGaussianBlur_keepsShape img :
  wellFormed img → keepsShape img (applyGaussianBlur img).
Proof. intros Hwf. apply keepsShape_new; [done|apply length_blur]. Qed.

Lemma applySobelEdgeDetection_keepsShape img :
  wellFormed img → keepsShape img (applySobelEdgeDetection img).
Proof.
  intros Hwf. unfold applySobelEdgeDetection.
  rewrite applyGrayscale_wellFormed by done. cbn [bind data].
  apply keepsShape_new; [done|].
  rewrite (raster_write_length (sobelBorderPixel _ _))
    by apply length_sobelBorderPixel.
  rewrite (raster_write_length (sobelPixel _ _)) by apply length_sobelPixel.
  by rewrite length_replicate, length_grayscale.
Qed.

Lemma applyCannyEdgeDetection_keepsShape img low high :
  wellFormed img → keepsShape img (applyCannyEdgeDetection img low high).
Proof.
  intros Hwf. unfold applyCannyEdgeDetection, cannyDoubleThreshold.
  destruct (applyGaussianBlur_keepsShape img Hwf)
    as (blurred & -> & Hbw & Hbh & Hbwf).
  cbn [bind].
  destruct (applySobelEdgeDetection_keepsShape blurred Hbwf)
    as (sobelData & -> & Hsw & Hsh & Hswf).
  cbn [bind]. apply keepsShape_new; [done|].
  rewrite length_hysteresis, length_doubleThreshold.
  destruct Hswf as (-> & _), Hwf as (-> & _). congruence.
Qed.

(** X4: on a well-formed buffer no operator throws: each of them returns
    a well-formed buffer of the same width and height, for every
    parameter value. *)
Theorem operators_keep_shape img v v' :
  wellFormed img →
  keepsShape img (applyContrast img v)
  ∧ keepsShape img (applyBrightness img v)
  ∧ keepsShape img (applySharpen img v)
  ∧ keepsShape img (applyGrayscale img)
  ∧ keepsShape img (applyThreshold img v)
  ∧ keepsShape img (applyInvert img)
  ∧ keepsShape img (applySobelEdgeDetection img)
  ∧ keepsShape img (applyCannyEdgeDetection img v v').
Proof.
  intros Hwf.
  split; [apply keepsShape_new; [done|apply length_contrast]|].
  split; [apply keepsShape_new; [done|apply length_brightness]|].
  split.
  { unfold applySharpen. destruct (v =? 0)%float.
    - by exists img.
    - apply keepsShape_new; [done|apply length_sharpen]. }
  split; [by apply applyGrayscale_keepsShape|].
  split.
  { unfold applyThreshold. rewrite applyGrayscale_wellFormed by done.
    cbn [bind data]. apply keepsShape_new; [done|].
    by rewrite length_threshold, length_grayscale. }
  split; [apply keepsShape_new; [done|apply length_invert]|].
  split; [by apply applySobelEdgeDetection_keepsShape|].
  by apply applyCannyEdgeDetection_keepsShape.
Qed.

Lemma operators_keep_shape_witness :
  keepsShape ramp4x4 (applyContrast ramp4x4 150)
  ∧ keepsShape ramp4x4 (applyBrightness ramp4x4 150)
  ∧ keepsShape ramp4x4 (applySharpen ramp4x4 150)
  ∧ keepsShape ramp4x4 (applyGrayscale ramp4x4)
  ∧ keepsShape ramp4x4 (applyThreshold ramp4x4 150)
  ∧ keepsShape ramp4x4 (applyInvert ramp4x4)
  ∧ keepsShape ramp4x4 (applySobelEdgeDetection ramp4x4)
  ∧ keepsShape ramp4x4 (applyCannyEdgeDetection ramp4x4 150 50).
Proof.
  apply (operators_keep_shape ramp4x4 150 50).
  unfold wellFormed. cbn [width height data ramp4x4].
  split; [reflexivity|lia].
Defined.

(** ** Every operator returns bytes *)

Lemma byteBuffer_replicate n : byteBuffer (replicate n 0%Z).
Proof. apply Forall_replicate. lia. Qed.

Lemma byteBuffer_mapChannels f d l :
  byteBuffer d → byteBuffer (foldl (mapChannels f) d l).
Proof.
  apply byteBuffer_foldl. intros d0 i Hd0. unfold mapChannels.
  by do 3 apply byteBuffer_st.
Qed.

Lemma byteBuffer_grayscale d l :
  byteBuffer d → byteBuffer (foldl grayscalePixel d l).
Proof.
  apply byteBuffer_foldl. intros d0 i Hd0. unfold grayscalePixel.
  by do 3 apply byteBuffer_st.
Qed.

Lemma byteBuffer_sobel data w h d :
  byteBuffer d →
  byteBuffer (foldl (sobelBorderPixel w h)
                (foldl (sobelPixel data w) d (raster 1 (h - 2) 1 (w - 2)))
                (raster 0 h 0 w)).
Proof.
  intros Hd. apply byteBuffer_foldl.
  { intros d0 [y x] Hd0. unfold sobelBorderPixel.
    case_bool_decide; [done|]. by do 4 apply byteBuffer_st. }
  apply byteBuffer_foldl; [|done].
  intros d0 [y x] Hd0. unfold sobelPixel. by do 4 apply byteBuffer_st.
Qed.

Lemma byteBuffer_doubleThreshold data low high :
  byteBuffer (doubleThreshold data low high).
Proof.
  unfold doubleThreshold. apply byteBuffer_foldl; [|apply byteBuffer_replicate].
  intros d0 i Hd0. unfold doubleThresholdPixel.
  destruct (_ <? _)%float; [|destruct (_ <? _)%float];
    by do 4 apply byteBuffer_st.
Qed.

Lemma byteBuffer_hysteresis w h d :
  byteBuffer d → byteBuffer (hysteresis w h d).
Proof.
  apply byteBuffer_foldl. intros d0 [y x] Hd0. unfold hysteresisPixel.
  destruct (is_value _ _ _); [|done].
  destruct (hasStrongNeighbor _ _ _ _); by do 3 apply byteBuffer_st.
Qed.

Lemma byteBuffer_paint w sm mm colors d l :
  byteBuffer d → byteBuffer (foldl (paintPixel w sm mm colors) d l).
Proof.
  apply byteBuffer_foldl. intros d0 [y x] Hd0. unfold paintPixel.
  destruct (sm !! _); [|done]. case_bool_decide; [|done].
  destruct (_ ≫= _); [|done]. by do 3 apply byteBuffer_st.
Qed.

(** X5: every operator maps buffers of bytes to buffers of bytes: when
    the elements of the input are all in 0..255, so are those of the
    buffer it returns. *)
Theorem operators_return_bytes img v v' fuel random scheme out :
  byteBuffer (data img) →
  applyContrast img v = Returned out
  ∨ applyBrightness img v = Returned out
  ∨ applySharpen img v = Returned out
  ∨ applyGrayscale img = Returned out
  ∨ applyThreshold img v = Returned out
  ∨ applyInvert img = Returned out
  ∨ applySobelEdgeDetection img = Returned out
  ∨ applyCannyEdgeDetection img v v' = Returned out
  ∨ applySegmentation fuel random img v v' scheme = Some (Returned out) →
  byteBuffer (data out).
Proof.
  intros Hb H.
  destruct H as [H|[H|[H|[H|[H|[H|[H|[H|H]]]]]]]].
  - apply new_ImageData_Returned in H as [-> _]. cbn [data].
    rewrite contrastPixel_mapChannels. by apply byteBuffer_mapChannels.
  - apply new_ImageData_Returned in H as [-> _]. cbn [data].
    rewrite brightnessPixel_mapChannels. by apply byteBuffer_mapChannels.
  - unfold applySharpen in H. destruct (v =? 0)%float.
    + by injection H as <-.
    + apply new_ImageData_Returned in H as [-> _]. cbn [data].
      apply byteBuffer_foldl; [|done].
      intros d0 [y x] Hd0. unfold sharpenPixel. cbn [foldl seq].
      by do 3 apply byteBuffer_st.
  - apply new_ImageData_Returned in H as [-> _]. cbn [data].
    by apply byteBuffer_grayscale.
  - unfold applyThreshold in H.
    destruct (applyGrayscale img) as [g0|] eqn:Eg; [|done]. cbn [bind] in H.
    apply new_ImageData_Returned in Eg as [-> _].
    apply new_ImageData_Returned in H as [-> _]. cbn [data].
    apply byteBuffer_foldl; [|by apply byteBuffer_grayscale].
    intros d0 i Hd0. unfold thresholdPixel. by do 3 apply byteBuffer_st.
  - apply new_ImageData_Returned in H as [-> _]. cbn [data].
    rewrite invertPixel_mapChannels. by apply byteBuffer_mapChannels.
  - unfold applySobelEdgeDetection in H.
    destruct (applyGrayscale img) as [g0|] eqn:Eg; [|done]. cbn [bind] in H.
    apply new_ImageData_Returned in H as [-> _]. cbn [data].
    apply byteBuffer_sobel, byteBuffer_replicate.
  - unfold applyCannyEdgeDetection in H.
    destruct (cannyDoubleThreshold img v v') as [thr|] eqn:Et; [|done].
    cbn [bind] in H. apply new_ImageData_Returned in H as [-> _]. cbn [data].
    apply byteBuffer_hysteresis.
    unfold cannyDoubleThreshold in Et.
    destruct (applyGaussianBlur img) as [bl|]; [|done]. cbn [bind] in Et.
    destruct (applySobelEdgeDetection bl) as [so|]; [|done]. cbn [bind] in Et.
    injection Et as <-. apply byteBuffer_doubleThreshold.
  - unfold applySegmentation in H.
    destruct (segment _ _ _ _) as [sg|]; [|done].
    cbn [mbind option_bind] in H. injection H as H.
    apply new_ImageData_Returned in H as [-> _]. cbn [data].
    by apply byteBuffer_paint.
Qed.

Lemma operators_return_bytes_witness :
  byteBuffer (data (constantImage 2 2 65 65 65 255)).
Proof.
  apply (operators_return_bytes gray2x2 100 0 0 (λ _, 0%float) "rainbow").
  - unfold byteBuffer, gray2x2. simpl. repeat constructor; lia.
  - left. vm_compute. reflexivity.
Defined.

(** ** Grey output *)

(** X6: in the buffer [applyGrayscale] returns the R, G and B bytes of
    every pixel are equal, and the alpha byte is the one of the input. *)
Theorem applyGrayscale_gray img out :
  applyGrayscale img = Returned out →
  ∀ p, p < width img * height img →
    ∃ v, (0 ≤ v ≤ 255)%Z
      ∧ data out !! (4 * p) = Some v
      ∧ data out !! (4 * p + 1) = Some v
      ∧ data out !! (4 * p + 2) = Some v
      ∧ data out !! (4 * p + 3) = data img !! (4 * p + 3).
Proof.
  intros E p Hp. unfold applyGrayscale in E.
  apply new_ImageData_Returned in E as [-> (Hl & _ & _)].
  cbn [width height data] in *. rewrite length_grayscale in Hl.
  exists (ToUint8Clamp (luminanceAt (data img) (4 * p))).
  split; [apply ToUint8Clamp_byte|].
  assert (∀ c, c < 4 →
    foldl grayscalePixel (data img) (stride4 (length (data img))) !! (4 * p + c)
    = if decide (c < 3)
      then Some (ToUint8Clamp (luminanceAt (data img) (4 * p)))
      else data img !! (4 * p + c)) as Hlook.
  { intros c Hc. rewrite lookup_grayscale by lia.
    by destruct (div_mod_pixel p c Hc) as [-> ->]. }
  pose proof (Hlook 0) as H0. rewrite Nat.add_0_r in H0.
  rewrite H0, !Hlook by lia. done.
Qed.

Lemma applyGrayscale_gray_witness :
  ∃ out, applyGrayscale ramp4x4 = Returned out
    ∧ ∀ p, p < 4 * 4 →
        ∃ v, (0 ≤ v ≤ 255)%Z
          ∧ data out !! (4 * p) = Some v
          ∧ data out !! (4 * p + 1) = Some v
          ∧ data out !! (4 * p + 2) = Some v
          ∧ data out !! (4 * p + 3) = data ramp4x4 !! (4 * p + 3).
Proof.
  eexists. split; [vm_compute; reflexivity|].
  apply (applyGrayscale_gray ramp4x4). vm_compute. reflexivity.
Defined.

(** ** Sharpening keeps the border *)

Lemma lookup_sharpenPixel kernel data w d y x j :
  sharpenPixel kernel data w d (y, x) !! j =
    if decide (j < length d ∧ pixelIndexOf w y x ≤ j < pixelIndexOf w y x + 3)
    then Some (ToUint8Clamp
                 (clamp (sharpenSum kernel data w y x (j - pixelIndexOf w y x))))
    else d !! j.
Proof.
  unfold sharpenPixel, pixelIndexOf. cbn [foldl seq].
  destruct (decide (j = (y * w + x) * 4 + 0)) as [->|?];
    [|destruct (decide (j = (y * w + x) * 4 + 1)) as [->|?];
      [|destruct (decide (j = (y * w + x) * 4 + 2)) as [->|?]]].
  - replace ((y * w + x) * 4 + 0 - (y * w + x) * 4) with 0 by lia. stores.
  - replace ((y * w + x) * 4 + 1 - (y * w + x) * 4) with 1 by lia. stores.
  - replace ((y * w + x) * 4 + 2 - (y * w + x) * 4) with 2 by lia. stores.
  - stores.
Qed.

Lemma sharpenPixel_frame kernel data w d y x j :
  ¬ (pixelIndexOf w y x ≤ j < pixelIndexOf w y x + 4) →
  sharpenPixel kernel data w d (y, x) !! j = d !! j.
Proof. intros H. rewrite lookup_sharpenPixel. by rewrite decide_False by lia. Qed.

Lemma sharpenPixel_own kernel data w d d' yx j :
  length d = length d' → d !! j = d' !! j →
  sharpenPixel kernel data w d yx !! j = sharpenPixel kernel data w d' yx !! j.
Proof.
  destruct yx as [y x]. intros Hl Hj. rewrite !lookup_sharpenPixel, Hl, Hj. done.
Qed.

(** The convolution loop of [applySharpen], byte by byte. *)
Lemma lookup_sharpen kernel data w h d y x c :
  y < h → x < w → c < 4 →
  foldl (sharpenPixel kernel data w) d (raster 1 (h - 2) 1 (w - 2))
    !! (pixelIndexOf w y x + c)
  = if decide (pixelIndexOf w y x + c < length d ∧ c < 3 ∧ ¬ onBorder w h y x)
    then Some (ToUint8Clamp (clamp (sharpenSum kernel data w y x c)))
    else d !! (pixelIndexOf w y x + c).
Proof.
  intros Hy Hx Hc.
  rewrite (raster_write_lookup (sharpenPixel kernel data w) w);
    [|apply length_sharpenPixel|apply sharpenPixel_frame
     |apply sharpenPixel_own|apply NoDup_raster| |done|done].
  2:{ intros y' x' Hin. apply elem_of_raster in Hin. lia. }
  unfold onBorder.
  destruct (decide ((y, x) ∈ raster 1 (h - 2) 1 (w - 2))) as [Hin|Hout].
  - apply elem_of_raster in Hin. rewrite lookup_sharpenPixel.
    replace (pixelIndexOf w y x + c - pixelIndexOf w y x) with c by lia.
    repeat case_decide; try lia; done.
  - rewrite elem_of_raster in Hout. rewrite decide_False; [done|].
    intros (_ & _ & Hb). apply Hout. lia.
Qed.

(** X7: [applySharpen] leaves the pixels on the four edges of the image
    as they are, alpha included, for every amount: the convolution runs
    over interior pixels only.  An image less than 3 pixels wide or high
    has only such pixels. *)
Theorem applySharpen_border img amount out :
  applySharpen img amount = Returned out →
  ∀ y x c, y < height img → x < width img → c < 4 →
    onBorder (width img) (height img) y x →
    data out !! (pixelIndexOf (width img) y x + c)
    = data img !! (pixelIndexOf (width img) y x + c).
Proof.
  intros E y x c Hy Hx Hc Hb. unfold applySharpen in E.
  destruct (amount =? 0)%float; [by injection E as <-|].
  apply new_ImageData_Returned in E as [-> _]. cbn [data].
  rewrite (lookup_sharpen _ _ _ (height img)) by done.
  by rewrite decide_False by tauto.
Qed.

Lemma applySharpen_border_witness :
  ∃ out, applySharpen columns3x3 5 = Returned out
    ∧ ∀ y x c, y < 3 → x < 3 → c < 4 → onBorder 3 3 y x →
        data out !! (pixelIndexOf 3 y x + c)
        = data columns3x3 !! (pixelIndexOf 3 y x + c).
Proof.
  eexists. split; [vm_compute; reflexivity|].
  apply (applySharpen_border columns3x3 5). vm_compute. reflexivity.
Defined.

(** ** Threshold applied twice *)

Lemma thresholdValue_at_cases t d i :
  thresholdValue_at t d i = 0%float ∨ thresholdValue_at t d i = 255%float.
Proof.
  unfold thresholdValue_at. destruct (rd d i <? t)%float; [by left|by right].
Qed.

Lemma threshold_data_idempotent t d :
  (0 <? t)%float = true → (255 <? t)%float = false →
  length d `mod` 4 = 0 →
  let gray := λ d, foldl grayscalePixel d (stride4 (length d)) in
  let thr := λ d, foldl (thresholdPixel t) d (stride4 (length d)) in
  thr (gray (thr (gray d))) = thr (gray d).
Proof.
  intros H0 H255 Hlen gray thr.
  set (d2 := thr (gray d)).
  assert (length d2 = length d) as Hl2
    by (unfold d2, thr, gray; by rewrite length_threshold, length_grayscale).
  apply list_eq. intros j.
  destruct (decide (j < length d)) as [Hj|Hj].
  2:{ rewrite !lookup_ge_None_2; [done|lia|].
      unfold thr, gray. rewrite length_threshold, length_grayscale. lia. }
  pose proof (Nat.div_mod_eq j 4) as Hdm.
  pose proof (Nat.div_mod_eq (length d) 4) as Hdl.
  unfold thr at 1.
  rewrite lookup_threshold by (unfold gray; rewrite length_grayscale; lia).
  case_decide as Hc.
  2:{ unfold gray. rewrite lookup_grayscale by lia. by rewrite decide_False. }
  set (i := 4 * (j `div` 4)).
  (* the pixel of [d2] at [i] is [(v, v, v)] with [v] 0 or 255 *)
  set (v := ToUint8Clamp (thresholdValue_at t (gray d) i)).
  assert (∀ c, c < 3 → d2 !! (i + c) = Some v) as Hd2.
  { intros c Hc'. unfold d2, thr.
    rewrite lookup_threshold by (unfold gray; rewrite length_grayscale; lia).
    destruct (div_mod_pixel (j `div` 4) c) as [Hdiv Hmod]; [lia|].
    fold i in Hdiv, Hmod. rewrite Hmod, Hdiv. by rewrite decide_True by lia. }
  assert (v = 0%Z ∨ v = 255%Z) as Hv.
  { unfold v. destruct (thresholdValue_at_cases t (gray d) i) as [-> | ->];
      [by left|by right]. }
  assert (rd (gray d2) i = of_Z v) as Hrd.
  { unfold rd, gray. rewrite lookup_grayscale by lia.
    assert (i `mod` 4 = 0) as Hmod
      by (unfold i; rewrite Nat.mul_comm; apply Nat.Div0.mod_mul).
    assert (i `div` 4 = j `div` 4) as Hdiv
      by (unfold i; rewrite Nat.mul_comm; apply Nat.div_mul; lia).
    rewrite decide_True by lia. rewrite Hdiv. fold i.
    unfold luminanceAt, rd.
    pose proof (Hd2 0) as E0. rewrite Nat.add_0_r in E0.
    rewrite E0, !Hd2 by lia.
    pose proof (grayFixed_all v) as Hfix. unfold grayFixed in Hfix.
    f_equal. apply Z.eqb_eq, Hfix. lia. }
  assert (j = i + j `mod` 4) as Ej by (unfold i; lia).
  replace (d2 !! j) with (d2 !! (i + j `mod` 4)) by (f_equal; lia).
  rewrite Hd2 by lia. f_equal.
  unfold thresholdValue_at. rewrite Hrd.
  destruct Hv as [-> | ->].
  - change (of_Z 0) with 0%float. by rewrite H0.
  - change (of_Z 255) with 255%float. by rewrite H255.
Qed.

(** X8: for a threshold [t] with [0 < t] and not [255 < t],
    [applyThreshold] is idempotent: whatever the first call does (return or
    throw), applying it again to its result with the same threshold changes
    nothing. *)
Theorem applyThreshold_idempotent img t :
  (0 <? t)%float = true → (255 <? t)%float = false →
  bind (applyThreshold img t) (λ out, applyThreshold out t)
  = applyThreshold img t.
Proof.
  intros H0 H255.
  destruct (applyThreshold img t) as [out|e] eqn:E; [|done].
  cbn [bind]. unfold applyThreshold in E.
  destruct (applyGrayscale img) as [g0|] eqn:Eg; [|done]. cbn [bind] in E.
  apply new_ImageData_Returned in Eg as [-> _]. cbn [data] in E.
  apply new_ImageData_Returned in E as [-> Hwf].
  pose proof Hwf as (Hl & Hw & Hh). cbn [width height data] in Hl, Hw, Hh.
  rewrite length_threshold, length_grayscale in Hl.
  unfold applyThreshold. rewrite applyGrayscale_wellFormed by done.
  cbn [bind width height data].
  rewrite (threshold_data_idempotent t (data img)); [|done|done|].
  - apply new_ImageData_wellFormed; [|done|done].
    by rewrite length_threshold, length_grayscale.
  - rewrite Hl. apply Nat.Div0.mod_mul.
Qed.

Lemma applyThreshold_idempotent_witness :
  bind (applyThreshold ramp4x4 128) (λ out, applyThreshold out 128)
  = applyThreshold ramp4x4 128.
Proof. apply applyThreshold_idempotent; reflexivity. Defined.

(** ** The output of the Sobel operator *)

(** X9: in the buffer [applySobelEdgeDetection] returns every pixel is
    grey (R = G = B) and opaque (alpha 255), whatever the alpha of the
    input, and the pixels on the four edges of the image are black. *)
Theorem applySobelEdgeDetection_output img out :
  applySobelEdgeDetection img = Returned out →
  ∀ y x, y < height img → x < width img →
    ∃ v, (0 ≤ v ≤ 255)%Z
      ∧ pixelIs (data out) (width img) y x v
      ∧ data out !! (pixelIndexOf (width img) y x + 3) = Some 255%Z
      ∧ (onBorder (width img) (height img) y x → v = 0%Z).
Proof.
  unfold applySobelEdgeDetection. intros E y x Hy Hx.
  destruct (applyGrayscale img) as [g0|e] eqn:Eg; [|done].
  unfold applyGrayscale in Eg.
  apply new_ImageData_Returned in Eg as [-> (Hl & Hw & Hh)].
  cbn [bind width height data] in *.
  rewrite length_grayscale in Hl.
  apply new_ImageData_Returned in E as [-> _]. cbn [data].
  rewrite length_grayscale, Hl.
  set (g0 := foldl grayscalePixel _ _).
  exists (if decide (onBorder (width img) (height img) y x) then 0%Z
          else ToUint8Clamp (sobelMagnitude g0 (width img) y x)).
  split; [case_decide; [lia|apply ToUint8Clamp_byte]|].
  assert (∀ c, c < 4 →
    foldl (sobelBorderPixel (width img) (height img))
      (foldl (sobelPixel g0 (width img))
         (replicate (width img * height img * 4) 0%Z)
         (raster 1 (height img - 2) 1 (width img - 2)))
      (raster 0 (height img) 0 (width img))
      !! (pixelIndexOf (width img) y x + c)
    = Some (if decide (c = 3) then 255%Z
            else if decide (onBorder (width img) (height img) y x) then 0%Z
            else ToUint8Clamp (sobelMagnitude g0 (width img) y x))) as Hlook.
  { intros c Hc. rewrite lookup_sobel by done.
    repeat case_decide; done. }
  split; [|split].
  - unfold pixelIs. pose proof (Hlook 0) as H0. rewrite Nat.add_0_r in H0.
    rewrite H0, !Hlook by lia. done.
  - by rewrite Hlook by lia.
  - intros Hb. by rewrite decide_True.
Qed.

Lemma applySobelEdgeDetection_output_witness :
  ∃ out, applySobelEdgeDetection ramp4x4 = Returned out
    ∧ ∀ y x, y < 4 → x < 4 →
        ∃ v, (0 ≤ v ≤ 255)%Z
          ∧ pixelIs (data out) 4 y x v
          ∧ data out !! (pixelIndexOf 4 y x + 3) = Some 255%Z
          ∧ (onBorder 4 4 y x → v = 0%Z).
Proof.
  eexists. split; [vm_compute; reflexivity|].
  apply (applySobelEdgeDetection_output ramp4x4). vm_compute. reflexivity.
Defined.

(** ** The output of the Canny operator *)

Lemma lookup_doubleThreshold_alpha data low high p :
  4 * p + 3 < length data →
  doubleThreshold data low high !! (4 * p + 3) = Some 255%Z.
Proof.
  intros Hj. unfold doubleThreshold.
  rewrite <-(length_replicate (length data) 0%Z) at 2.
  rewrite (in_place_lookup (doubleThresholdPixel data low high)).
  - destruct (div_mod_pixel p 3) as [-> _]; [lia|].
    rewrite lookup_doubleThresholdPixel, length_replicate.
    rewrite decide_False by lia. by rewrite decide_True by lia.
  - intros d0 i. apply length_doubleThresholdLoop with (l := [i]).
  - intros d0 k j0 Hj0. rewrite lookup_doubleThresholdPixel.
    by rewrite !decide_False by lia.
  - intros d0 d' k j0 Hlen Hagree Hj0. rewrite !lookup_doubleThresholdPixel.
    rewrite Hlen. repeat case_decide; try done. by apply Hagree.
  - by rewrite length_replicate.
Qed.

Lemma hysteresis_alpha w h d p :
  hysteresis w h d !! (4 * p + 3) = d !! (4 * p + 3).
Proof.
  unfold hysteresis.
  apply (foldl_invariant (λ d', d' !! (4 * p + 3) = d !! (4 * p + 3))); [done|].
  intros a [y x] _ Ha. rewrite lookup_hysteresisPixel.
  rewrite decide_False; [done|]. unfold pixelIndexOf. lia.
Qed.

(** The steps of the hysteresis loop at other pixels leave a pixel as it
    is. *)
Lemma hysteresis_others w d l y x c :
  x < w → c < 4 → (y, x) ∉ l → (∀ y' x', (y', x') ∈ l → x' < w) →
  foldl (hysteresisPixel w) d l !! (pixelIndexOf w y x + c)
  = d !! (pixelIndexOf w y x + c).
Proof.
  intros Hx Hc Hnotin Hl.
  apply (foldl_invariant
    (λ d', d' !! (pixelIndexOf w y x + c) = d !! (pixelIndexOf w y x + c)));
    [done|].
  intros a [y' x'] Hin Ha. rewrite hysteresisPixel_other; [done|done| |done|].
  - by apply (Hl y').
  - intros [= -> ->]. done.
Qed.

Lemma pixelIs_ext d d' w y x v :
  (∀ c, c < 3 → d' !! (pixelIndexOf w y x + c) = d !! (pixelIndexOf w y x + c)) →
  pixelIs d w y x v → pixelIs d' w y x v.
Proof.
  intros H (H0 & H1 & H2). unfold pixelIs.
  pose proof (H 0) as E0. rewrite Nat.add_0_r in E0.
  rewrite E0, !H by lia. done.
Qed.

(** After the hysteresis loop no pixel it visits is weak. *)
Lemma hysteresis_interior w h d y x v :
  1 ≤ y → y + 1 < h → 1 ≤ x → x + 1 < w →
  pixelIs d w y x v → v = 0%Z ∨ v = 128%Z ∨ v = 255%Z →
  pixelIs (hysteresis w h d) w y x 0 ∨ pixelIs (hysteresis w h d) w y x 255.
Proof.
  intros Hy1 Hy2 Hx1 Hx2 Hpix Hv. unfold hysteresis.
  assert (∀ y0 x0, (y0, x0) ∈ raster 1 (h - 2) 1 (w - 2) → x0 < w) as Hl.
  { intros y0 x0 Hin. apply elem_of_raster in Hin. lia. }
  pose proof (NoDup_raster 1 (h - 2) 1 (w - 2)) as Hnd.
  destruct (list_elem_of_split (raster 1 (h - 2) 1 (w - 2)) (y, x))
    as (l1 & l2 & Hsplit); [apply elem_of_raster; lia|].
  rewrite Hsplit in Hl, Hnd |- *.
  apply NoDup_app in Hnd as (_ & Hnotin1 & Hnd2).
  apply NoDup_cons in Hnd2 as [Hnotin2 _].
  rewrite foldl_app. cbn [foldl].
  set (d1 := foldl (hysteresisPixel w) d l1).
  assert (pixelIs d1 w y x v) as Hpix1.
  { apply (pixelIs_ext d); [|done]. intros c Hc.
    apply hysteresis_others; [lia|lia| |].
    - intros Hin. apply (Hnotin1 _ Hin), elem_of_cons. by left.
    - intros y0 x0 Hin. apply (Hl y0), elem_of_app. by left. }
  assert (pixelIs (hysteresisPixel w d1 (y, x)) w y x 0
          ∨ pixelIs (hysteresisPixel w d1 (y, x)) w y x 255) as Hstep.
  { destruct Hpix1 as (P0 & P1 & P2).
    assert (pixelIndexOf w y x + 2 < length d1)
      by (by apply lookup_lt_Some in P2).
    unfold pixelIs. rewrite !lookup_hysteresisPixel. rewrite P0.
    destruct Hv as [-> | [-> | ->]].
    - left. rewrite !decide_False by (intros ([=] & _)). done.
    - rewrite !decide_True by (split; [done|lia]).
      destruct (hasStrongNeighbor d1 w y x); [by right|by left].
    - right. rewrite !decide_False by (intros ([=] & _)). done. }
  assert (∀ u, pixelIs (hysteresisPixel w d1 (y, x)) w y x u →
    pixelIs (foldl (hysteresisPixel w) (hysteresisPixel w d1 (y, x)) l2) w y x u)
    as Hrest.
  { intros u. apply pixelIs_ext. intros c Hc.
    apply hysteresis_others; [lia|lia|done|].
    intros y0 x0 Hin. apply (Hl y0), elem_of_app. right.
    apply elem_of_cons. by right. }
  destruct Hstep as [Hs|Hs]; [left|right]; by apply Hrest.
Qed.

Lemma pixelIs_doubleThreshold data low high w y x :
  pixelIndexOf w y x + 3 < length data →
  pixelIs (doubleThreshold data low high) w y x
    (edgeClass low high (rd data (pixelIndexOf w y x))).
Proof.
  intros Hlen. unfold pixelIs, pixelIndexOf in *.
  replace ((y * w + x) * 4) with (4 * (y * w + x)) in * by lia.
  pose proof (lookup_doubleThreshold data low high (y * w + x) 0) as E0.
  rewrite Nat.add_0_r in E0.
  rewrite E0, !lookup_doubleThreshold by lia. done.
Qed.

Lemma edgeClass_cases low high m :
  edgeClass low high m = 0%Z ∨ edgeClass low high m = 128%Z
  ∨ edgeClass low high m = 255%Z.
Proof.
  unfold edgeClass. destruct (high <? m)%float; [auto|].
  destruct (low <? m)%float; auto.
Qed.

(** X10: the buffer [applyCannyEdgeDetection] returns is opaque (alpha
    255 at every pixel), and after the hysteresis no interior pixel is weak:
    each one is black (0,0,0) or white (255,255,255).  When
    [0 > lowThreshold] is false the same holds for the pixels on the
    border, so that the whole image is binary. *)
Theorem applyCannyEdgeDetection_binary img low high out :
  applyCannyEdgeDetection img low high = Returned out →
  ∀ y x, y < height img → x < width img →
    data out !! (pixelIndexOf (width img) y x + 3) = Some 255%Z
    ∧ (¬ onBorder (width img) (height img) y x ∨ (low <? 0)%float = false →
       pixelIs (data out) (width img) y x 0
       ∨ pixelIs (data out) (width img) y x 255).
Proof.
  intros Eout y x Hy Hx. unfold applyCannyEdgeDetection in Eout.
  destruct (cannyDoubleThreshold img low high) as [thr|] eqn:Ethr; [|done].
  cbn [bind] in Eout.
  apply new_ImageData_Returned in Eout as [-> (Hlen & _ & _)].
  cbn [width height data] in *. rewrite length_hysteresis in Hlen.
  unfold cannyDoubleThreshold in Ethr.
  destruct (applyGaussianBlur img) as [blurred|e] eqn:Eb; [|done].
  unfold applyGaussianBlur in Eb.
  apply new_ImageData_Returned in Eb as [-> _]. cbn [bind] in Ethr.
  destruct (applySobelEdgeDetection _) as [sobelData|e] eqn:Es; [|done].
  cbn [bind] in Ethr. injection Ethr as <-.
  rewrite length_doubleThreshold in Hlen.
  apply applySobelEdgeDetection_Returned in Es
    as (_ & _ & _ & _ & Hborder).
  cbn [width height data] in Hborder.
  set (w := width img) in *. set (h := height img) in *.
  assert (pixelIndexOf w y x + 3 < length (data sobelData)) as Hidx
    by (unfold pixelIndexOf; nia).
  split.
  { unfold pixelIndexOf in *.
    replace ((y * w + x) * 4 + 3) with (4 * (y * w + x) + 3) in * by lia.
    rewrite hysteresis_alpha. by apply lookup_doubleThreshold_alpha. }
  pose proof (pixelIs_doubleThreshold (data sobelData) low high w y x Hidx)
    as Hpix.
  intros Hcase.
  destruct (decide (onBorder w h y x)) as [Hb|Hb].
  - destruct Hcase as [?|Hlow]; [done|].
    assert (rd (data sobelData) (pixelIndexOf w y x) = 0%float) as Hrd.
    { specialize (Hborder y x 0 Hy Hx ltac:(lia) Hb).
      rewrite Nat.add_0_r in Hborder. unfold rd. rewrite Hborder.
      by rewrite decide_False by lia. }
    rewrite Hrd in Hpix. unfold edgeClass in Hpix. rewrite Hlow in Hpix.
    assert (∀ u, pixelIs (doubleThreshold (data sobelData) low high) w y x u →
      pixelIs (hysteresis w h (doubleThreshold (data sobelData) low high))
        w y x u) as Hkeep.
    { intros u. apply pixelIs_ext. intros c Hc.
      apply hysteresis_border; [done|lia|done]. }
    destruct (high <? 0)%float; [right|left]; by apply Hkeep.
  - unfold onBorder in Hb.
    eapply (hysteresis_interior w h _ y x); [lia..|exact Hpix|].
    apply edgeClass_cases.
Qed.

Lemma applyCannyEdgeDetection_binary_witness :
  ∃ out, applyCannyEdgeDetection ramp4x4 50 150 = Returned out
    ∧ ∀ y x, y < 4 → x < 4 →
        data out !! (pixelIndexOf 4 y x + 3) = Some 255%Z
        ∧ (¬ onBorder 4 4 y x ∨ (50 <? 0)%float = false →
           pixelIs (data out) 4 y x 0 ∨ pixelIs (data out) 4 y x 255).
Proof.
  eexists. split; [vm_compute; reflexivity|].
  apply (applyCannyEdgeDetection_binary ramp4x4 50 150).
  vm_compute. reflexivity.
Defined.

(** ** The Gaussian blur *)

Lemma blurSums_channels k d w y x :
  blurSums k d w y x
  = (channelSum k d w y x 0, channelSum k d w y x 1, channelSum k d w y x 2).
Proof.
  unfold blurSums, channelSum. change (offsets 2) with [-2; -1; 0; 1; 2]%Z.
  cbn [foldl]. rewrite !Z.add_0_r. reflexivity.
Qed.

Lemma channelSum_ext k d d' w w' y y' x x' c c' :
  (∀ ky kx, (-2 ≤ ky ≤ 2)%Z → (-2 ≤ kx ≤ 2)%Z →
     rdZ d (((Z.of_nat y + ky) * Z.of_nat w + (Z.of_nat x + kx)) * 4 + c)
     = rdZ d' (((Z.of_nat y' + ky) * Z.of_nat w' + (Z.of_nat x' + kx)) * 4 + c')) →
  channelSum k d w y x c = channelSum k d' w' y' x' c'.
Proof.
  intros H. unfold channelSum. change (offsets 2) with [-2; -1; 0; 1; 2]%Z.
  cbn [foldl]. rewrite !H by lia. done.
Qed.

Lemma lookup_blurPixel k data w d y x j :
  blurPixel k data w d (y, x) !! j =
    if decide (j < length d ∧ pixelIndexOf w y x ≤ j < pixelIndexOf w y x + 3)
    then Some (ToUint8Clamp (Math_round
                 (channelSum k data w y x (Z.of_nat (j - pixelIndexOf w y x)))))
    else d !! j.
Proof.
  unfold blurPixel, pixelIndexOf. rewrite blurSums_channels.
  destruct (decide (j = (y * w + x) * 4 + 0)) as [->|?];
    [|destruct (decide (j = (y * w + x) * 4 + 1)) as [->|?];
      [|destruct (decide (j = (y * w + x) * 4 + 2)) as [->|?]]].
  - replace ((y * w + x) * 4 + 0 - (y * w + x) * 4) with 0 by lia. stores.
  - replace ((y * w + x) * 4 + 1 - (y * w + x) * 4) with 1 by lia. stores.
  - replace ((y * w + x) * 4 + 2 - (y * w + x) * 4) with 2 by lia. stores.
  - stores.
Qed.

Lemma blurPixel_frame k data w d y x j :
  ¬ (pixelIndexOf w y x ≤ j < pixelIndexOf w y x + 4) →
  blurPixel k data w d (y, x) !! j = d !! j.
Proof. intros H. rewrite lookup_blurPixel. by rewrite decide_False by lia. Qed.

Lemma blurPixel_own k data w d d' yx j :
  length d = length d' → d !! j = d' !! j →
  blurPixel k data w d yx !! j = blurPixel k data w d' yx !! j.
Proof.
  destruct yx as [y x]. intros Hl Hj. rewrite !lookup_blurPixel, Hl, Hj. done.
Qed.

(** The convolution loop of [applyGaussianBlur], byte by byte. *)
Lemma lookup_blur k data w h d y x c :
  y < h → x < w → c < 4 →
  foldl (blurPixel k data w) d (raster 2 (h - 4) 2 (w - 4))
    !! (pixelIndexOf w y x + c)
  = if decide (pixelIndexOf w y x + c < length d ∧ c < 3
               ∧ 2 ≤ y ∧ y + 2 < h ∧ 2 ≤ x ∧ x + 2 < w)
    then Some (ToUint8Clamp (Math_round (channelSum k data w y x (Z.of_nat c))))
    else d !! (pixelIndexOf w y x + c).
Proof.
  intros Hy Hx Hc.
  rewrite (raster_write_lookup (blurPixel k data w) w);
    [|apply length_blurPixel|apply blurPixel_frame
     |apply blurPixel_own|apply NoDup_raster| |done|done].
  2:{ intros y' x' Hin. apply elem_of_raster in Hin. lia. }
  destruct (decide ((y, x) ∈ raster 2 (h - 4) 2 (w - 4))) as [Hin|Hout].
  - apply elem_of_raster in Hin. rewrite lookup_blurPixel.
    replace (pixelIndexOf w y x + c - pixelIndexOf w y x) with c by lia.
    repeat case_decide; try lia; done.
  - rewrite elem_of_raster in Hout. rewrite decide_False; [done|]. lia.
Qed.

(** X11: [applyGaussianBlur] keeps the alpha byte of every pixel and all
    bytes of the pixels in the two outermost rows and columns: the
    convolution runs over the pixels at distance 2 or more from the
    edges. *)
Theorem applyGaussianBlur_frame img out :
  applyGaussianBlur img = Returned out →
  ∀ y x c, y < height img → x < width img → c < 4 →
    c = 3 ∨ y < 2 ∨ height img ≤ y + 2 ∨ x < 2 ∨ width img ≤ x + 2 →
    data out !! (pixelIndexOf (width img) y x + c)
    = data img !! (pixelIndexOf (width img) y x + c).
Proof.
  intros E y x c Hy Hx Hc Hcase. unfold applyGaussianBlur in E.
  apply new_ImageData_Returned in E as [-> _]. cbn [data].
  rewrite (lookup_blur _ _ _ (height img)) by done.
  rewrite decide_False; [done|]. lia.
Qed.

Lemma applyGaussianBlur_frame_witness :
  ∃ out, applyGaussianBlur ramp4x4 = Returned out
    ∧ ∀ y x c, y < 4 → x < 4 → c < 4 →
        c = 3 ∨ y < 2 ∨ 4 ≤ y + 2 ∨ x < 2 ∨ 4 ≤ x + 2 →
        data out !! (pixelIndexOf 4 y x + c)
        = data ramp4x4 !! (pixelIndexOf 4 y x + c).
Proof.
  eexists. split; [vm_compute; reflexivity|].
  apply (applyGaussianBlur_frame ramp4x4). vm_compute. reflexivity.
Defined.

Lemma blurOfConstant_fixed v : (0 ≤ v ≤ 255)%Z → blurOfConstant v = v.
Proof.
  intros Hv. apply Z.eqb_eq. revert v Hv.
  apply all_bytes. vm_compute. reflexivity.
Qed.

Lemma blur_reads_constant r g b a w h y x ky kx c :
  2 ≤ y → y + 2 < h → 2 ≤ x → x + 2 < w →
  (-2 ≤ ky ≤ 2)%Z → (-2 ≤ kx ≤ 2)%Z → c < 4 →
  rdZ (pixelBytes r g b a (w * h))
    (((Z.of_nat y + ky) * Z.of_nat w + (Z.of_nat x + kx)) * 4 + Z.of_nat c)
  = from_option of_Z nan ([r; g; b; a] !! c).
Proof.
  intros Hy1 Hy2 Hx1 Hx2 Hky Hkx Hc.
  rewrite rdZ_pixel by lia. unfold rd, pixelIndexOf.
  set (y' := Z.to_nat (Z.of_nat y + ky)). set (x' := Z.to_nat (Z.of_nat x + kx)).
  assert (y' < h) by lia. assert (x' < w) by lia.
  replace ((y' * w + x') * 4 + c) with (4 * (y' * w + x') + c) by lia.
  rewrite lookup_pixelBytes; [|nia|done].
  by destruct ([r; g; b; a] !! c).
Qed.

Lemma channelSum_constant r g b a w h y x c v :
  2 ≤ y → y + 2 < h → 2 ≤ x → x + 2 < w → c < 3 →
  [r; g; b; a] !! c = Some v →
  ToUint8Clamp (Math_round
    (channelSum normalizedKernel (pixelBytes r g b a (w * h)) w y x (Z.of_nat c)))
  = blurOfConstant v.
Proof.
  intros Hy1 Hy2 Hx1 Hx2 Hc Hv. unfold blurOfConstant.
  rewrite (channelSum_ext _ _ (pixelBytes v v v 255 25) w 5 y 2 x 2 _ 0); [done|].
  intros ky kx Hky Hkx.
  rewrite (blur_reads_constant r g b a w h) by (done || lia). rewrite Hv.
  change 0%Z with (Z.of_nat 0).
  change 25 with (5 * 5).
  rewrite (blur_reads_constant v v v 255 5 5) by lia. done.
Qed.

(** The loop of the blur leaves a constant buffer of bytes as it is. *)
Lemma blur_constant_data r g b a w h :
  (0 ≤ r ≤ 255)%Z → (0 ≤ g ≤ 255)%Z → (0 ≤ b ≤ 255)%Z →
  foldl (blurPixel normalizedKernel (pixelBytes r g b a (w * h)) w)
    (pixelBytes r g b a (w * h)) (raster 2 (h - 4) 2 (w - 4))
  = pixelBytes r g b a (w * h).
Proof.
  intros Hr Hg Hb. apply list_eq. intros j.
  destruct (decide (j < w * h * 4)) as [Hj|Hj].
  2:{ rewrite !lookup_ge_None_2;
        [done|rewrite length_pixelBytes; lia
             |rewrite length_blur, length_pixelBytes; lia]. }
  destruct (byte_index j (w * h) Hj) as (p & c & -> & Hp & Hc).
  assert (0 < w) as Hw by nia.
  set (y := p `div` w). set (x := p `mod` w).
  assert (p = y * w + x) as Ep
    by (unfold y, x; pose proof (Nat.div_mod_eq p w); lia).
  assert (x < w) as Hx by (apply Nat.mod_upper_bound; lia).
  assert (y < h) as Hy by (apply Nat.Div0.div_lt_upper_bound; lia).
  replace (4 * p + c) with (pixelIndexOf w y x + c)
    by (unfold pixelIndexOf; lia).
  rewrite (lookup_blur _ _ _ h) by done.
  case_decide as Hin; [|done].
  destruct Hin as (_ & Hc3 & ? & ? & ? & ?).
  replace (pixelIndexOf w y x + c) with (4 * p + c)
    by (unfold pixelIndexOf; lia).
  rewrite lookup_pixelBytes by done.
  destruct ([r; g; b; a] !! c) as [v|] eqn:Ev;
    [|apply lookup_ge_None_1 in Ev; simpl in Ev; lia].
  rewrite (channelSum_constant r g b a w h y x c v) by done.
  f_equal. apply blurOfConstant_fixed.
  destruct c as [|[|[|c]]]; simpl in Ev; try lia; by injection Ev as <-.
Qed.

(** X12: [applyGaussianBlur] leaves an image whose pixels all have the
    same colour as it is: the weights of the normalized kernel add up to
    one closely enough for every byte to be rounded back to itself. *)
Theorem applyGaussianBlur_constant w h r g b a :
  0 < w → 0 < h →
  (0 ≤ r ≤ 255)%Z → (0 ≤ g ≤ 255)%Z → (0 ≤ b ≤ 255)%Z →
  applyGaussianBlur (constantImage w h r g b a)
  = Returned (constantImage w h r g b a).
Proof.
  intros Hw Hh Hr Hg Hb. unfold applyGaussianBlur.
  cbn [width height data constantImage].
  fold normalizedKernel. rewrite blur_constant_data by done.
  apply new_ImageData_wellFormed; [apply length_pixelBytes|done|done].
Qed.

Lemma applyGaussianBlur_constant_witness :
  applyGaussianBlur (constantImage 6 5 10 200 30 77)
  = Returned (constantImage 6 5 10 200 30 77).
Proof. apply applyGaussianBlur_constant; lia. Defined.

(** ** Canny on a constant image *)

Lemma sobel_constant_data w h v a :
  (0 ≤ v ≤ 255)%Z →
  foldl (sobelBorderPixel w h)
    (foldl (sobelPixel (pixelBytes v v v a (w * h)) w)
       (replicate (w * h * 4) 0%Z) (raster 1 (h - 2) 1 (w - 2)))
    (raster 0 h 0 w)
  = pixelBytes 0 0 0 255 (w * h).
Proof.
  intros Hv. apply list_eq. intros j.
  destruct (decide (j < w * h * 4)) as [Hj|Hj].
  2:{ rewrite !lookup_ge_None_2; [done|rewrite length_pixelBytes; lia|].
      rewrite (raster_write_length (sobelBorderPixel w h))
        by apply length_sobelBorderPixel.
      rewrite (raster_write_length (sobelPixel _ w)) by apply length_sobelPixel.
      rewrite length_replicate. lia. }
  destruct (byte_index j (w * h) Hj) as (p & c & -> & Hp & Hc).
  assert (0 < w) as Hw by nia.
  set (y := p `div` w). set (x := p `mod` w).
  assert (p = y * w + x) as Ep
    by (unfold y, x; pose proof (Nat.div_mod_eq p w); lia).
  assert (x < w) as Hx by (apply Nat.mod_upper_bound; lia).
  assert (y < h) as Hy by (apply Nat.Div0.div_lt_upper_bound; lia).
  rewrite lookup_pixelBytes by done.
  replace (4 * p + c) with (pixelIndexOf w y x + c)
    by (unfold pixelIndexOf; lia).
  rewrite lookup_sobel by done.
  destruct (decide (onBorder w h y x)) as [Hb|Hb].
  - destruct c as [|[|[|[|c]]]]; try lia; done.
  - unfold onBorder in Hb.
    rewrite (sobelMagnitude_constant v a w h) by lia.
    rewrite sobelOfConstant_zero by done.
    destruct c as [|[|[|[|c]]]]; try lia; done.
Qed.

Lemma applySobelEdgeDetection_constant_black w h r g b a :
  0 < w → 0 < h →
  applySobelEdgeDetection (constantImage w h r g b a)
  = Returned (constantImage w h 0 0 0 255).
Proof.
  intros Hw Hh. unfold applySobelEdgeDetection.
  rewrite applyGrayscale_wellFormed
    by (split; [apply length_pixelBytes|done]).
  cbn [bind width height data constantImage].
  destruct (grayscale_constant r g b a (w * h)) as (v & Hv & ->).
  rewrite length_pixelBytes, sobel_constant_data by done.
  apply new_ImageData_wellFormed; [apply length_pixelBytes|done|done].
Qed.

Lemma doubleThreshold_black low high n :
  (low <? 0)%float = false → (high <? 0)%float = false →
  doubleThreshold (pixelBytes 0 0 0 255 n) low high = pixelBytes 0 0 0 255 n.
Proof.
  intros Hlow Hhigh. apply list_eq. intros j.
  destruct (decide (j < n * 4)) as [Hj|Hj].
  2:{ rewrite !lookup_ge_None_2; [done|rewrite length_pixelBytes; lia|].
      rewrite length_doubleThreshold, length_pixelBytes. lia. }
  destruct (byte_index j n Hj) as (p & c & -> & Hp & Hc).
  rewrite lookup_pixelBytes by done.
  destruct (decide (c = 3)) as [->|Hc3].
  - rewrite lookup_doubleThreshold_alpha; [done|].
    rewrite length_pixelBytes. lia.
  - rewrite lookup_doubleThreshold by (rewrite ?length_pixelBytes; lia).
    unfold rd. rewrite <-(Nat.add_0_r (4 * p)).
    rewrite lookup_pixelBytes by lia. cbn [lookup list_lookup].
    unfold edgeClass. change (of_Z 0) with 0%float. rewrite Hlow, Hhigh.
    destruct c as [|[|[|c]]]; try lia; done.
Qed.

Lemma hysteresis_black w h n :
  hysteresis w h (pixelBytes 0 0 0 255 n) = pixelBytes 0 0 0 255 n.
Proof.
  unfold hysteresis.
  apply (foldl_invariant (λ d', d' = pixelBytes 0 0 0 255 n)); [done|].
  intros d' [y x] _ ->. unfold hysteresisPixel, is_value.
  rewrite bool_decide_eq_false_2; [done|].
  destruct (decide ((y * w + x) * 4 < n * 4)) as [Hj|Hj].
  - replace ((y * w + x) * 4) with (4 * (y * w + x) + 0) by lia.
    rewrite lookup_pixelBytes by lia. done.
  - rewrite lookup_ge_None_2 by (rewrite length_pixelBytes; lia). done.
Qed.

(** X13: on an image whose pixels all have the same colour, and for
    thresholds with neither [0 > lowThreshold] nor [0 > highThreshold],
    [applyCannyEdgeDetection] returns the black opaque image: the blur
    keeps the image, its gradient is zero and no pixel is an edge. *)
Theorem applyCannyEdgeDetection_constant w h r g b a low high :
  0 < w → 0 < h →
  (0 ≤ r ≤ 255)%Z → (0 ≤ g ≤ 255)%Z → (0 ≤ b ≤ 255)%Z →
  (low <? 0)%float = false → (high <? 0)%float = false →
  applyCannyEdgeDetection (constantImage w h r g b a) low high
  = Returned (constantImage w h 0 0 0 255).
Proof.
  intros Hw Hh Hr Hg Hb Hlow Hhigh.
  unfold applyCannyEdgeDetection, cannyDoubleThreshold, applyGaussianBlur.
  cbn [width height data constantImage].
  fold normalizedKernel. rewrite blur_constant_data by done.
  rewrite new_ImageData_wellFormed by (apply length_pixelBytes || done).
  cbn [bind].
  change (mkImageData w h (pixelBytes r g b a (w * h)))
    with (constantImage w h r g b a).
  rewrite applySobelEdgeDetection_constant_black by done.
  cbn [bind width height data constantImage].
  rewrite doubleThreshold_black, hysteresis_black by done.
  apply new_ImageData_wellFormed; [apply length_pixelBytes|done|done].
Qed.

Lemma applyCannyEdgeDetection_constant_witness :
  applyCannyEdgeDetection (constantImage 6 5 10 200 30 77) 50 150
  = Returned (constantImage 6 5 0 0 0 255).
Proof. apply applyCannyEdgeDetection_constant; (lia || reflexivity). Defined.

(** ** Segmentation: growth, colours and painting *)

(** X14: with fuel above twice the number of pixels the growth phase of
    [applySegmentation] completes, for every buffer and tolerance: no flood
    fill runs forever.  It gives every pixel a segment, and the sizes of
    the segments add up to the number of pixels. *)
Theorem grow_completes fuel data w h tol :
  2 * (w * h) + 1 ≤ fuel →
  ∃ s, grow fuel data w h tol = Some s
    ∧ (∀ p, p < w * h →
         ∃ v, segmentMap s !! p = Some v ∧ (0 ≤ v < currentSegment s)%Z)
    ∧ totalSize (segmentSizes s) (currentSegment s) = w * h.
Proof.
  intros Hfuel.
  destruct (grow_terminates fuel data w h tol Hfuel) as [s Hs].
  exists s. split; [done|].
  by destruct (grow_spec fuel data w h tol s Hs) as (_ & ? & ?).
Qed.

Lemma grow_completes_witness :
  ∃ s, grow 41 (data cycleImage) 5 4 10 = Some s
    ∧ (∀ p, p < 5 * 4 →
         ∃ v, segmentMap s !! p = Some v ∧ (0 ≤ v < currentSegment s)%Z)
    ∧ totalSize (segmentSizes s) (currentSegment s) = 5 * 4.
Proof. apply (grow_completes 41 (data cycleImage) 5 4 10). lia. Defined.

(** X15: when the loop that merges small segments leaves two segments
    as each other's merge target, the loop that flattens the merge chains
    never ends: [applySegmentation] returns for no amount of fuel. *)
Theorem applySegmentation_cycle_diverges
    fuel0 fuel random img tolerance minSize colorScheme s0 a b :
  grow fuel0 (data img) (width img) (height img) tolerance = Some s0 →
  (let ids := seqZ 0 (currentSegment s0) in
   let m := foldl (mergeSmall (width img) (height img) minSize s0)
              (foldl (λ mergeMap i, <[i := i]> mergeMap) ∅ ids) ids in
   m !! a = Some b ∧ m !! b = Some a ∧ a ∈ ids) →
  a ≠ b →
  applySegmentation fuel random img tolerance minSize colorScheme = None.
Proof.
  intros E0 (Hab & Hba & Hin) Hne. unfold applySegmentation, segment.
  destruct (grow fuel _ _ _ _) as [s|] eqn:E; [|done].
  rewrite (grow_deterministic _ _ _ _ _ _ _ _ E E0).
  cbn [mbind option_bind].
  by rewrite (flatten_loop_cycle fuel _ _ a b Hab Hba Hne Hin).
Qed.

Lemma applySegmentation_cycle_diverges_witness :
  applySegmentation 1000 (λ _, 0%float) cycleImage 10 10 "rainbow" = None.
Proof.
  apply (applySegmentation_cycle_diverges 100 1000 (λ _, 0%float)
           cycleImage 10 10 "rainbow" cycleGrown 7 9).
  - vm_compute. reflexivity.
  - cbv zeta. split; [vm_compute; reflexivity|].
    split; [vm_compute; reflexivity|].
    apply elem_of_seqZ. vm_compute. split; [by intros ?|done].
  - lia.
Defined.

(** *** The colours of the segments *)

Lemma colorEach_lookup_from (color : nat → Z → rgb) (l : list Z) k
    (m : gmap Z rgb) s :
  foldl (λ colors '(i, segment), <[segment := color i segment]> colors) m
    (zip (seq k (length l)) l) !! s
  = match last (filter (λ it, it.2 = s) (zip (seq k (length l)) l)) with
    | Some (i, _) => Some (color i s)
    | None => m !! s
    end.
Proof.
  revert k m. induction l as [|t l IH]; intros k m; [done|].
  cbn [length seq zip zip_with foldl]. rewrite IH.
  destruct (decide (t = s)) as [->|Hne].
  - rewrite filter_cons_True by done. rewrite last_cons.
    destruct (last _) as [[i ?]|]; [done|]. apply lookup_insert_eq.
  - rewrite filter_cons_False by done.
    destruct (last _) as [[i ?]|]; [done|]. by rewrite lookup_insert_ne.
Qed.

Lemma filter_zip_notin (l : list Z) k s :
  s ∉ l → filter (λ it : nat * Z, it.2 = s) (zip (seq k (length l)) l) = [].
Proof.
  intros Hnotin. revert k. induction l as [|t l IH]; intros k; [done|].
  apply not_elem_of_cons in Hnotin as [Hne Hnotin].
  cbn [length seq zip zip_with].
  rewrite filter_cons_False by (cbn [snd]; congruence). by apply IH.
Qed.

Lemma filter_zip_NoDup (l : list Z) k i s :
  NoDup l → l !! i = Some s →
  filter (λ it : nat * Z, it.2 = s) (zip (seq k (length l)) l) = [(k + i, s)].
Proof.
  revert k i. induction l as [|t l IH]; intros k i Hnd Hi; [done|].
  apply NoDup_cons in Hnd as [Hnotin Hnd].
  cbn [length seq zip zip_with].
  destruct i as [|i]; cbn in Hi.
  - injection Hi as ->. rewrite filter_cons_True by done.
    rewrite Nat.add_0_r. f_equal. by apply filter_zip_notin.
  - rewrite filter_cons_False.
    + rewrite (IH (S k) i) by done. do 2 f_equal. lia.
    + cbn [snd]. intros ->. apply Hnotin. by eapply list_elem_of_lookup_2.
Qed.

Lemma colorEach_lookup color l i s :
  NoDup l → l !! i = Some s → colorEach l color !! s = Some (color i s).
Proof.
  intros Hnd Hi. unfold colorEach.
  rewrite colorEach_lookup_from, (filter_zip_NoDup l 0 i s) by done. done.
Qed.

Lemma colorEach_lookup_None color l s :
  s ∉ l → colorEach l color !! s = None.
Proof.
  intros Hnotin. unfold colorEach.
  rewrite colorEach_lookup_from, filter_zip_notin by done. done.
Qed.

Lemma assignColorsToSegments_colorEach random l colors scheme :
  assignColorsToSegments random l colors scheme
  = colorEach l (schemeColor random colors scheme (length l)).
Proof.
  unfold assignColorsToSegments, schemeColor.
  repeat case_bool_decide; reflexivity.
Qed.

(** X16: [assignColorsToSegments] gives a colour to the segments of the
    list and to no other: in a list without duplicates the segment at
    position [i] gets the colour of its scheme for position [i], and a
    scheme name that is none of the five is treated as rainbow. *)
Theorem assignColorsToSegments_spec random l colors scheme :
  NoDup l →
  (∀ i s, l !! i = Some s →
     assignColorsToSegments random l colors scheme !! s
     = Some (schemeColor random colors scheme (length l) i s))
  ∧ (∀ s, s ∉ l → assignColorsToSegments random l colors scheme !! s = None)
  ∧ (scheme ∉ ["rainbow"; "pastel"; "grayscale"; "highContrast";
               "preserveBrightness"] →
     assignColorsToSegments random l colors scheme
     = assignColorsToSegments random l colors "rainbow").
Proof.
  intros Hnd. rewrite assignColorsToSegments_colorEach.
  split; [intros i s Hi; by apply colorEach_lookup|].
  split; [intros s Hs; by apply colorEach_lookup_None|].
  intros Hscheme. rewrite assignColorsToSegments_colorEach.
  f_equal. unfold schemeColor.
  rewrite !elem_of_cons, elem_of_nil in Hscheme.
  repeat case_bool_decide; try done; exfalso; tauto.
Qed.

Lemma assignColorsToSegments_spec_witness :
  (∀ i s, [4; 2; 7]%Z !! i = Some s →
     assignColorsToSegments (λ _, 0%float) [4; 2; 7]%Z ∅ "pastel" !! s
     = Some (schemeColor (λ _, 0%float) ∅ "pastel" 3 i s))
  ∧ (∀ s, s ∉ [4; 2; 7]%Z →
       assignColorsToSegments (λ _, 0%float) [4; 2; 7]%Z ∅ "pastel" !! s = None)
  ∧ ("pastel" ∉ ["rainbow"; "pastel"; "grayscale"; "highContrast";
                 "preserveBrightness"] →
     assignColorsToSegments (λ _, 0%float) [4; 2; 7]%Z ∅ "pastel"
     = assignColorsToSegments (λ _, 0%float) [4; 2; 7]%Z ∅ "rainbow").
Proof.
  apply (assignColorsToSegments_spec (λ _, 0%float) [4; 2; 7]%Z ∅ "pastel").
  repeat constructor; rewrite ?elem_of_cons, ?elem_of_nil; lia.
Defined.

(** *** Painting *)

Lemma lookup_paintPixel w sm mm colors d y x j :
  paintPixel w sm mm colors d (y, x) !! j =
    match sm !! (y * w + x) with
    | Some pixelSegment =>
        if bool_decide (pixelSegment ≠ (-1)%Z) then
          match mm !! pixelSegment ≫= (colors !!.) with
          | Some color =>
              if decide (j < length d ∧ j = pixelIndexOf w y x)
              then Some (ToUint8Clamp (red color))
              else if decide (j < length d ∧ j = pixelIndexOf w y x + 1)
              then Some (ToUint8Clamp (green color))
              else if decide (j < length d ∧ j = pixelIndexOf w y x + 2)
              then Some (ToUint8Clamp (blue color))
              else d !! j
          | None => d !! j
          end
        else d !! j
    | None => d !! j
    end.
Proof.
  unfold paintPixel, pixelIndexOf.
  destruct (sm !! _) as [v|]; [|done]. case_bool_decide; [|done].
  destruct (_ ≫= _) as [color|]; [|done]. stores.
Qed.

Lemma paintPixel_frame w sm mm colors d y x j :
  ¬ (pixelIndexOf w y x ≤ j < pixelIndexOf w y x + 4) →
  paintPixel w sm mm colors d (y, x) !! j = d !! j.
Proof.
  intros H. rewrite lookup_paintPixel.
  destruct (sm !! _) as [v|]; [|done]. case_bool_decide; [|done].
  destruct (_ ≫= _) as [color|]; [|done].
  by rewrite !decide_False by lia.
Qed.

Lemma paintPixel_own w sm mm colors d d' yx j :
  length d = length d' → d !! j = d' !! j →
  paintPixel w sm mm colors d yx !! j = paintPixel w sm mm colors d' yx !! j.
Proof.
  destruct yx as [y x]. intros Hl Hj. rewrite !lookup_paintPixel, Hl, Hj. done.
Qed.

(** X17: when [applySegmentation] returns a buffer, every pixel is
    painted with the colour that [assignColorsToSegments] gave the final
    segment of the pixel, so that the pixels of one final segment all get
    the same colour, and the alpha byte of every pixel is the one of the
    input. *)
Theorem applySegmentation_paints
    fuel random img tolerance minSize colorScheme out :
  applySegmentation fuel random img tolerance minSize colorScheme
    = Some (Returned out) →
  width out = width img ∧ height out = height img
  ∧ ∃ sg, segment fuel img tolerance minSize = Some sg
    ∧ let colors :=
        assignColorsToSegments random (segmentList sg)
          (segmentColors (grown sg)) colorScheme in
      ∀ p, p < width img * height img →
        ∃ color, pixelColor sg colors p = Some color
          ∧ data out !! (4 * p) = Some (ToUint8Clamp (red color))
          ∧ data out !! (4 * p + 1) = Some (ToUint8Clamp (green color))
          ∧ data out !! (4 * p + 2) = Some (ToUint8Clamp (blue color))
          ∧ data out !! (4 * p + 3) = data img !! (4 * p + 3).
Proof.
  intros Hout. unfold applySegmentation in Hout.
  destruct (segment fuel img tolerance minSize) as [sg|] eqn:Esg; [|done].
  cbn [mbind option_bind] in Hout. injection Hout as Hout.
  apply new_ImageData_Returned in Hout as [-> (Hlen & Hw & Hh)].
  cbn [width height data] in Hlen, Hw, Hh. rewrite length_paint in Hlen.
  split; [done|]. split; [done|]. exists sg. split; [done|].
  intros colors p Hp. cbn [data]. fold colors.
  destruct (segment_spec _ _ _ _ _ Esg) as (_ & _ & Hnd & Hrep).
  destruct (Hrep p Hp) as (rep & Hr & Hin & _).
  (* the segment of the pixel is not -1 *)
  assert (∃ v, segmentMap (grown sg) !! p = Some v ∧ v ≠ (-1)%Z
               ∧ mergeMap sg !! v = Some rep) as (v & Hv & Hne & Hm).
  { unfold segment in Esg.
    destruct (grow _ _ _ _ _) as [s|] eqn:Egrow; [|done].
    cbn [mbind option_bind] in Esg.
    destruct (foldlM _ _ _) as [m2|]; [|done].
    cbn [mbind option_bind] in Esg. injection Esg as <-.
    cbn [grown mergeMap] in *.
    apply grow_spec in Egrow as (_ & Hpix & _).
    destruct (Hpix p Hp) as (v & Hv & Hrange).
    exists v. split; [done|]. split; [lia|].
    unfold representative in Hr. cbn [grown mergeMap] in Hr.
    by rewrite Hv in Hr. }
  apply list_elem_of_lookup in Hin as [i Hi].
  assert (colors !! rep
          = Some (schemeColor random (segmentColors (grown sg)) colorScheme
                    (length (segmentList sg)) i rep)) as Hcolor.
  { unfold colors. rewrite assignColorsToSegments_colorEach.
    by apply colorEach_lookup. }
  eexists. split.
  { unfold pixelColor. rewrite Hr. cbn [mbind option_bind]. exact Hcolor. }
  set (w := width img) in *. set (h := height img) in *.
  assert (0 < w) as Hw' by done.
  set (y := p `div` w). set (x := p `mod` w).
  assert (p = y * w + x) as Ep
    by (unfold y, x; pose proof (Nat.div_mod_eq p w); lia).
  assert (x < w) as Hx by (apply Nat.mod_upper_bound; lia).
  assert (y < h) as Hy by (apply Nat.Div0.div_lt_upper_bound; lia).
  assert (∀ c, c < 4 →
    foldl (paintPixel w (segmentMap (grown sg)) (mergeMap sg) colors)
      (data img) (raster 0 h 0 w) !! (4 * p + c)
    = paintPixel w (segmentMap (grown sg)) (mergeMap sg) colors (data img)
        (y, x) !! (pixelIndexOf w y x + c)) as Hlook.
  { intros c Hc.
    replace (4 * p + c) with (pixelIndexOf w y x + c)
      by (unfold pixelIndexOf; lia).
    rewrite (raster_write_lookup _ w);
      [|apply (λ d yx, length_paint w _ _ _ d [yx])
       |apply paintPixel_frame|apply paintPixel_own|apply NoDup_raster
       | |done|done].
    2:{ intros y' x' Hin'. apply elem_of_raster in Hin'. lia. }
    by rewrite decide_True by (apply elem_of_raster; lia). }
  pose proof (Hlook 0) as H0. rewrite Nat.add_0_r in H0.
  rewrite H0, !Hlook by lia. rewrite !lookup_paintPixel.
  rewrite <-Ep, Hv. rewrite bool_decide_eq_true_2 by done.
  rewrite Hm. cbn [mbind option_bind]. rewrite Hcolor.
  assert (pixelIndexOf w y x + 3 < length (data img))
    by (unfold pixelIndexOf; nia).
  rewrite Nat.add_0_r.
  repeat case_decide; try lia.
  replace (pixelIndexOf w y x + 3) with (4 * p + 3)
    by (unfold pixelIndexOf; lia).
  done.
Qed.

Lemma applySegmentation_paints_witness :
  ∃ out,
    applySegmentation 100 (λ _, 0%float) blocks4x4 10 1 "rainbow"
      = Some (Returned out)
    ∧ width out = 4 ∧ height out = 4
    ∧ ∃ sg, segment 100 blocks4x4 10 1 = Some sg
      ∧ let colors :=
          assignColorsToSegments (λ _, 0%float) (segmentList sg)
            (segmentColors (grown sg)) "rainbow" in
        ∀ p, p < 4 * 4 →
          ∃ color, pixelColor sg colors p = Some color
            ∧ data out !! (4 * p) = Some (ToUint8Clamp (red color))
            ∧ data out !! (4 * p + 1) = Some (ToUint8Clamp (green color))
            ∧ data out !! (4 * p + 2) = Some (ToUint8Clamp (blue color))
            ∧ data out !! (4 * p + 3) = data blocks4x4 !! (4 * p + 3).
Proof.
  eexists. split; [vm_compute; reflexivity|].
  apply (applySegmentation_paints 100 (λ _, 0%float) blocks4x4 10 1 "rainbow").
  vm_compute. reflexivity.
Defined.

(** ** Colour utilities *)

(** A function computed on each of the 256 bytes is known on every
    byte. *)
Lemma all_bytes_eq {A} (f g : Z → A) :
  f <$> bytes = g <$> bytes → ∀ b, (0 ≤ b ≤ 255)%Z → f b = g b.
Proof.
  intros H b Hb.
  assert (bytes !! Z.to_nat b = Some b) as Hlook.
  { unfold bytes. rewrite lookup_seqZ. split; lia. }
  apply (f_equal (.!! Z.to_nat b)) in H.
  rewrite !list_lookup_fmap, Hlook in H. by injection H.
Qed.

(** X18: a grey colour survives the conversion to HSV and back: for
    every byte [a], [rgbToHsv] of (a, a, a) is hue 0, saturation 0 and
    value a/255, and [hsvToRgb] of that, with any hue, is (a, a, a). *)
Theorem grey_roundtrip a h :
  (0 ≤ a ≤ 255)%Z →
  rgbToHsv (of_Z a) (of_Z a) (of_Z a) = (0, 0, of_Z a / 255)%float
  ∧ hsvToRgb h 0 (of_Z a / 255) = (of_Z a, of_Z a, of_Z a).
Proof.
  intros Ha. split.
  - revert a Ha.
    apply (all_bytes_eq (λ a, rgbToHsv (of_Z a) (of_Z a) (of_Z a))
             (λ a, (0, 0, of_Z a / 255)%float)).
    vm_compute. reflexivity.
  - unfold hsvToRgb. cbv zeta.
    change (0 =? 0)%float with true. cbv iota.
    assert (Math_round (of_Z a / 255 * 255) = of_Z a) as ->; [|done].
    revert a Ha.
    apply (all_bytes_eq (λ a, Math_round (of_Z a / 255 * 255)) of_Z).
    vm_compute. reflexivity.
Qed.

Lemma grey_roundtrip_witness :
  rgbToHsv (of_Z 77) (of_Z 77) (of_Z 77) = (0, 0, of_Z 77 / 255)%float
  ∧ hsvToRgb 123 0 (of_Z 77 / 255) = (of_Z 77, of_Z 77, of_Z 77).
Proof. apply (grey_roundtrip 77 123). lia. Defined.

Lemma sq_difference_sym x y :
  (0 ≤ x ≤ 255)%Z → (0 ≤ y ≤ 255)%Z →
  sq (of_Z y - of_Z x) = sq (of_Z x - of_Z y).
Proof.
  intros Hx Hy.
  assert ((λ x, (λ y, sq (of_Z y - of_Z x)) <$> bytes) <$> bytes
          = (λ x, (λ y, sq (of_Z x - of_Z y)) <$> bytes) <$> bytes) as H
    by (vm_compute; reflexivity).
  pose proof (all_bytes_eq _ _ H x Hx) as H1. cbv beta in H1.
  exact (all_bytes_eq _ _ H1 y Hy).
Qed.

Lemma sq_difference_self x : (0 ≤ x ≤ 255)%Z → sq (of_Z x - of_Z x) = 0%float.
Proof.
  revert x. apply (all_bytes_eq (λ x, sq (of_Z x - of_Z x)) (λ _, 0%float)).
  vm_compute. reflexivity.
Qed.

(** X19: on colours made of bytes [getColorDistance] is symmetric, and
    the distance of a colour to itself is 0. *)
Theorem getColorDistance_symmetric r1 g1 b1 r2 g2 b2 :
  (0 ≤ r1 ≤ 255)%Z → (0 ≤ g1 ≤ 255)%Z → (0 ≤ b1 ≤ 255)%Z →
  (0 ≤ r2 ≤ 255)%Z → (0 ≤ g2 ≤ 255)%Z → (0 ≤ b2 ≤ 255)%Z →
  getColorDistance (of_Z r1) (of_Z g1) (of_Z b1) (of_Z r2) (of_Z g2) (of_Z b2)
  = getColorDistance (of_Z r2) (of_Z g2) (of_Z b2) (of_Z r1) (of_Z g1) (of_Z b1)
  ∧ getColorDistance (of_Z r1) (of_Z g1) (of_Z b1)
      (of_Z r1) (of_Z g1) (of_Z b1) = 0%float.
Proof.
  intros Hr1 Hg1 Hb1 Hr2 Hg2 Hb2. unfold getColorDistance. split.
  - by rewrite (sq_difference_sym r1 r2), (sq_difference_sym g1 g2),
      (sq_difference_sym b1 b2).
  - by rewrite !sq_difference_self.
Qed.

Lemma getColorDistance_symmetric_witness :
  getColorDistance (of_Z 10) (of_Z 200) (of_Z 30) (of_Z 0) (of_Z 255) (of_Z 77)
  = getColorDistance (of_Z 0) (of_Z 255) (of_Z 77) (of_Z 10) (of_Z 200) (of_Z 30)
  ∧ getColorDistance (of_Z 10) (of_Z 200) (of_Z 30)
      (of_Z 10) (of_Z 200) (of_Z 30) = 0%float.
Proof. apply getColorDistance_symmetric; lia. Defined.

(** X20: for every colour made of bytes [getLuminance] is a number
    between 0 and 1, as its documentation says. *)
Theorem getLuminance_range r g b :
  (0 ≤ r ≤ 255)%Z → (0 ≤ g ≤ 255)%Z → (0 ≤ b ≤ 255)%Z →
  (0 <=? getLuminance (of_Z r) (of_Z g) (of_Z b))%float = true
  ∧ (getLuminance (of_Z r) (of_Z g) (of_Z b) <=? 1)%float = true.
Proof.
  intros Hr Hg Hb.
  assert (forallb luminanceInRange bytes = true) as Hall
    by (vm_compute; reflexivity).
  pose proof (all_bytes _ Hall r Hr) as H1.
  unfold luminanceInRange in H1. cbv zeta in H1.
  pose proof (all_bytes _ H1 g Hg) as H2. cbv beta in H2.
  pose proof (all_bytes _ H2 b Hb) as H3. cbv beta in H3.
  by apply andb_prop in H3.
Qed.

Lemma getLuminance_range_witness :
  (0 <=? getLuminance (of_Z 10) (of_Z 200) (of_Z 30))%float = true
  ∧ (getLuminance (of_Z 10) (of_Z 200) (of_Z 30) <=? 1)%float = true.
Proof. apply getLuminance_range; lia. Defined.

(** *** Colours of a given luminance *)

Lemma testValues_more fuel fuel' t l :
  testValues fuel t = Some l → fuel ≤ fuel' → testValues fuel' t = Some l.
Proof.
  revert fuel' t l. induction fuel as [|fuel IH]; intros fuel' t l H Hle.
  - cbn [testValues] in H. destruct fuel'; cbn [testValues];
      destruct (t <=? 1)%float; done.
  - destruct fuel' as [|fuel']; [lia|]. cbn [testValues] in *.
    destruct (t <=? 1)%float; [|done].
    destruct (testValues fuel (t + 0.05)) as [l'|] eqn:E; [|done].
    by rewrite (IH fuel' _ l' E) by lia.
Qed.

Lemma testValues_tried fuel :
  18 ≤ fuel → testValues fuel 0.1 = Some triedValues.
Proof.
  intros Hfuel. apply (testValues_more 18); [|done].
  vm_compute. reflexivity.
Qed.

Lemma tryValue_choice luminance hue saturation best t :
  tryValue luminance hue saturation best t = best
  ∨ (tryValue luminance hue saturation best t).2 = hsvToRgb hue saturation t.
Proof.
  unfold tryValue. destruct best as [bestDiff bestRgb].
  destruct (_ <? _)%float; [by right|by left].
Qed.

Lemma tryValues_choice luminance hue saturation l best :
  (foldl (tryValue luminance hue saturation) best l).2 = best.2
  ∨ ∃ t, t ∈ l
      ∧ (foldl (tryValue luminance hue saturation) best l).2
        = hsvToRgb hue saturation t.
Proof.
  revert best. induction l as [|t0 l IH]; intros best; cbn [foldl]; [by left|].
  destruct (IH (tryValue luminance hue saturation best t0)) as [E|(t & Ht & E)].
  - destruct (tryValue_choice luminance hue saturation best t0) as [E'|E'].
    + left. by rewrite E, E'.
    + right. exists t0. split; [apply elem_of_cons; by left|]. by rewrite E.
  - right. exists t. split; [apply elem_of_cons; by right|done].
Qed.

(** X21: with fuel 18 or more [preserveLuminance] returns, for every
    colour and target: its loop tries 18 values, from 0.1 in steps of 0.05,
    the last of which is 0.9500000000000003, and then stops because the
    next sum is above 1, so that the value 1 is never tried.  The result is
    [hsvToRgb] of the target at one of the values tried, or the initial
    (0, 0, 0). *)
Theorem preserveLuminance_tries fuel r g b hue saturation :
  18 ≤ fuel →
  testValues fuel 0.1 = Some triedValues
  ∧ length triedValues = 18
  ∧ last triedValues = Some 0.9500000000000003%float
  ∧ (∀ t, t ∈ triedValues → (t <? 1)%float = true)
  ∧ ∃ rgb, preserveLuminance fuel r g b hue saturation = Some rgb
      ∧ (rgb = (0, 0, 0)%float
         ∨ ∃ t, t ∈ triedValues ∧ rgb = hsvToRgb hue saturation t).
Proof.
  intros Hfuel. split; [by apply testValues_tried|].
  split; [vm_compute; reflexivity|]. split; [vm_compute; reflexivity|].
  split.
  { assert (Forall (λ t, (t <? 1)%float = true) triedValues) as Hall
      by (vm_compute; repeat constructor).
    intros t Ht. by apply (proj1 (Forall_forall _ _) Hall). }
  unfold preserveLuminance. rewrite testValues_tried by done.
  cbn [mbind option_bind]. eexists. split; [done|].
  apply tryValues_choice.
Qed.

Lemma preserveLuminance_tries_witness :
  testValues 18 0.1 = Some triedValues
  ∧ length triedValues = 18
  ∧ last triedValues = Some 0.9500000000000003%float
  ∧ (∀ t, t ∈ triedValues → (t <? 1)%float = true)
  ∧ ∃ rgb, preserveLuminance 18 255 255 255 0 0 = Some rgb
      ∧ (rgb = (0, 0, 0)%float
         ∨ ∃ t, t ∈ triedValues ∧ rgb = hsvToRgb 0 0 t).
Proof. apply (preserveLuminance_tries 18 255 255 255 0 0). lia. Defined.

(** White is not preserved: the brightest grey the loop tries is 242. *)
Lemma preserveLuminance_white :
  preserveLuminance 18 255 255 255 0 0 = Some (242, 242, 242)%float.
Proof. vm_compute. reflexivity. Qed.

(** ** The stack of transformations *)

Lemma removeTransform_from k index (prev : list transform) :
  snd <$> filter (λ it : nat * transform, it.1 ≠ k + index)
            (zip (seq k (length prev)) prev)
  = take index prev ++ drop (S index) prev.
Proof.
  revert k index. induction prev as [|t prev IH]; intros k index.
  - by destruct index.
  - cbn [length seq zip zip_with]. destruct index as [|index].
    + rewrite filter_cons_False by (cbn [fst]; lia).
      cbn [take drop app]. rewrite drop_0.
      assert (∀ l : list (nat * transform),
        Forall (λ it, it.1 ≠ k + 0) l → filter (λ it, it.1 ≠ k + 0) l = l) as Hall.
      { intros l Hl. induction Hl as [|it l Hit Hl IHl]; [done|].
        by rewrite filter_cons_True, IHl by done. }
      rewrite Hall.
      * by rewrite snd_zip by (rewrite length_seq; lia).
      * apply Forall_forall. intros [i u] Hin. cbn [fst].
        apply elem_of_zip_l, elem_of_seq in Hin. lia.
    + rewrite filter_cons_True by (cbn [fst]; lia).
      cbn [fmap list_fmap snd take drop app]. f_equal.
      replace (k + S index) with (S k + index) by lia. apply IH.
Qed.

(** X22: [removeTransform] removes the entry at the index and keeps the
    others in their order; an index outside the stack leaves it as it is,
    and removing the entry that [addCurrentTransform] has just added gives
    the stack back. *)
Theorem removeTransform_spec index (prev : list transform) t :
  removeTransform index prev = take index prev ++ drop (S index) prev
  ∧ (length prev ≤ index → removeTransform index prev = prev)
  ∧ removeTransform (length prev) (addCurrentTransform t prev) = prev.
Proof.
  assert (∀ i l, removeTransform i l = take i l ++ drop (S i) l) as H.
  { intros i l. unfold removeTransform. apply (removeTransform_from 0). }
  split; [apply H|]. split.
  - intros Hle. rewrite H, take_ge, drop_ge by lia. apply app_nil_r.
  - rewrite H. unfold addCurrentTransform.
    rewrite take_app_length, drop_ge by (rewrite length_app; simpl; lia).
    apply app_nil_r.
Qed.

Lemma removeTransform_spec_witness :
  let stack := [mkTransform "contrast" sampleParams;
                mkTransform "edges" sampleParams] in
  removeTransform 5 stack = take 5 stack ++ drop 6 stack
  ∧ (length stack ≤ 5 → removeTransform 5 stack = stack)
  ∧ removeTransform (length stack)
      (addCurrentTransform (mkTransform "canny" sampleParams) stack) = stack.
Proof.
  exact (removeTransform_spec 5
           [mkTransform "contrast" sampleParams; mkTransform "edges" sampleParams]
           (mkTransform "canny" sampleParams)).
Defined.

Lemma applyTransformation_default fuel random img t :
  type t ∉ recognizedTypes →
  applyTransformation fuel random img t = Some (Returned img)
  ∧ randomCalls fuel img t = 0.
Proof.
  intros Hty.
  assert (∀ s, s ∈ recognizedTypes → type t ≠ s) as Hne
    by (intros s Hs E; apply Hty; by rewrite E).
  unfold applyTransformation, randomCalls, recognizedTypes in *.
  rewrite !bool_decide_eq_false_2; [done|..];
    try (intros [E _]; revert E); apply Hne; rewrite !elem_of_cons; tauto.
Qed.

(** X23: the loop of [applyAllTransformations] skips the transformations
    whose type is none of the [case] labels: the stack gives what the stack
    without them gives, whether that is a buffer, an exception or no
    result. *)
Theorem applyTransformations_skips_unrecognized fuel random img l :
  applyTransformations fuel random img
    (filter (λ t, type t ∈ recognizedTypes) l)
  = applyTransformations fuel random img l.
Proof.
  revert random img. induction l as [|t l IH]; intros random img; [done|].
  destruct (decide (type t ∈ recognizedTypes)) as [Hin|Hout].
  - rewrite filter_cons_True by done. cbn [applyTransformations].
    destruct (applyTransformation fuel random img t) as [[next|e]|]; [|done..].
    cbn [mbind option_bind]. apply IH.
  - rewrite filter_cons_False by done. cbn [applyTransformations].
    destruct (applyTransformation_default fuel random img t Hout) as [-> ->].
    cbn [mbind option_bind]. rewrite IH. done.
Qed.

(** ** Segments are made of pixels similar to their seed *)

Section seeds.
Variables (data : list Z) (width height : nat) (tolerance : float).
Variable seed : Z → nat.

Lemma visit_seeded n cur cx cy s d :
  fillInv n cur s → cur ≠ (-1)%Z →
  segmentMap s !! seed cur = Some cur →
  seededBy data tolerance seed (segmentMap s) →
  seededBy data tolerance seed
    (segmentMap
       (visit data width height tolerance
          (rd data (seed cur * 4)) (rd data (seed cur * 4 + 1))
          (rd data (seed cur * 4 + 2)) cx cy s d))
  ∧ segmentMap
      (visit data width height tolerance
         (rd data (seed cur * 4)) (rd data (seed cur * 4 + 1))
         (rd data (seed cur * 4 + 2)) cx cy s d) !! seed cur = Some cur.
Proof.
  intros (Hcur & _) Hne Hseed Hinv. unfold visit.
  case_bool_decide as Hbounds; [done|].
  case_bool_decide as Hfree; [done|].
  destruct (_ <=? _)%float eqn:Htest; [|done].
  cbn [segmentMap]. rewrite Hcur.
  set (ni := ((cy + d.2) * Z.of_nat width + (cx + d.1))%Z) in *.
  assert (0 ≤ cx + d.1)%Z as Hnx by lia.
  assert (0 ≤ cy + d.2)%Z as Hny by lia.
  assert (0 ≤ ni)%Z as Hni.
  { unfold ni. apply Z.add_nonneg_nonneg; [apply Z.mul_nonneg_nonneg|]; lia. }
  assert (seed cur ≠ Z.to_nat ni) as Hsn.
  { intros E. rewrite E, Hfree in Hseed. by injection Hseed as <-. }
  split; [|by rewrite list_lookup_insert_ne by done].
  intros p v Hp Hv.
  apply list_lookup_insert_Some in Hp as [(<- & <- & Hlt)|[Hpn Hp]].
  - split; [by rewrite list_lookup_insert_ne by done|]. right.
    unfold similarTo. rewrite <-Htest. unfold rdZ.
    rewrite !bool_decide_eq_true_2 by lia.
    by replace (Z.to_nat (ni * 4)) with (Z.to_nat ni * 4) by lia;
       replace (Z.to_nat (ni * 4 + 1)) with (Z.to_nat ni * 4 + 1) by lia;
       replace (Z.to_nat (ni * 4 + 2)) with (Z.to_nat ni * 4 + 2) by lia.
  - destruct (Hinv p v Hp Hv) as [Hsv Hsim]. split; [|done].
    rewrite list_lookup_insert_ne; [done|].
    intros E. rewrite <-E, Hfree in Hsv. by injection Hsv as <-.
Qed.

Lemma floodLoop_seeded fuel n cur s s' :
  fillInv n cur s → cur ≠ (-1)%Z →
  segmentMap s !! seed cur = Some cur →
  seededBy data tolerance seed (segmentMap s) →
  floodLoop fuel data width height tolerance
    (rd data (seed cur * 4)) (rd data (seed cur * 4 + 1))
    (rd data (seed cur * 4 + 2)) s = Some s' →
  seededBy data tolerance seed (segmentMap s').
Proof.
  revert s. induction fuel as [|fuel IH]; intros s Hinv Hne Hseed Hs Hs';
    cbn [floodLoop] in Hs'; destruct (stack s) as [|[cx cy] rest];
    try done; try (by injection Hs' as <-).
  set (s0 := mkGrowth (segmentMap s) (segmentSizes s) (segmentColors s) rest
               (currentSegment s)) in *.
  assert (fillInv n cur s0) as Hinv0 by done.
  refine (IH _ _ Hne _ _ Hs').
  - by apply visits_fillInv.
  - apply (foldl_invariant (λ s1,
      fillInv n cur s1 ∧ seededBy data tolerance seed (segmentMap s1)
      ∧ segmentMap s1 !! seed cur = Some cur)); [done|].
    intros a d _ (Ha & Hsa & Hca).
    destruct (visit_seeded n cur cx cy a d Ha Hne Hca Hsa) as [? ?].
    split; [by apply visit_fillInv|done].
  - apply (foldl_invariant (λ s1,
      fillInv n cur s1 ∧ seededBy data tolerance seed (segmentMap s1)
      ∧ segmentMap s1 !! seed cur = Some cur)); [done|].
    intros a d _ (Ha & Hsa & Hca).
    destruct (visit_seeded n cur cx cy a d Ha Hne Hca Hsa) as [? ?].
    split; [by apply visit_fillInv|done].
Qed.
End seeds.

Lemma growPixel_seeded fuel data w h tol n s s' y x seed :
  growInv n s → seededBy data tol seed (segmentMap s) →
  growPixel fuel data w h tol s (y, x) = Some s' →
  ∃ seed', seededBy data tol seed' (segmentMap s').
Proof.
  intros Hinv Hs Hs'. unfold growPixel in Hs'.
  case_bool_decide as Hfree; [injection Hs' as <-; by exists seed|].
  assert (segmentMap s !! (y * w + x) = Some (-1)%Z) as Hfree' by done.
  pose proof Hinv as (Hpos & Hlen & Hval & _).
  set (cur := currentSegment s) in *.
  set (seed' := λ v, if decide (v = cur) then y * w + x else seed v).
  exists seed'. unfold floodFill in Hs'. fold cur in Hs'.
  destruct (floodLoop _ _ _ _ _ _ _ _ _) as [s1|] eqn:E; [|done].
  cbn [mbind option_bind] in Hs'. injection Hs' as <-. cbn [segmentMap].
  assert (seed' cur = y * w + x) as Hsc by (unfold seed'; by rewrite decide_True).
  rewrite <-Hsc in E.
  apply (floodLoop_seeded data w h tol seed' fuel n cur _ s1) in E; [done|..].
  - rewrite Hsc. by apply fillStart_fillInv.
  - lia.
  - unfold fillStart. cbn [segmentMap]. rewrite Hsc.
    apply list_lookup_insert_eq. by apply lookup_lt_Some in Hfree'.
  - unfold fillStart. cbn [segmentMap]. fold cur. intros p v Hp Hv.
    apply list_lookup_insert_Some in Hp as [(<- & <- & Hlt)|[Hpn Hp]].
    + rewrite Hsc. split; [by apply list_lookup_insert_eq|by left].
    + assert (v ≠ cur) as Hvc by (apply Hval in Hp; lia).
      unfold seed'. rewrite decide_False by done.
      destruct (Hs p v Hp Hv) as [Hsv Hsim]. split; [|done].
      rewrite list_lookup_insert_ne; [done|].
      intros E'. rewrite <-E', Hfree' in Hsv. by injection Hsv as <-.
Qed.

(** X24: the segments the growth finds are made of similar pixels: every
    segment has a seed pixel in it, and every other pixel of the segment
    passed the test of the flood fill against the colour of the seed, that
    is, their distance in RGB is at most the tolerance. *)
Theorem grow_similarity fuel data w h tol s :
  grow fuel data w h tol = Some s →
  ∃ seed, seededBy data tol seed (segmentMap s).
Proof.
  intros Hs. unfold grow in Hs.
  apply (foldlM_visited
    (λ s, growInv (w * h) s ∧ ∃ seed, seededBy data tol seed (segmentMap s))
    (λ _ _, True)) in Hs as [[_ Hseed] _]; [done| | |done].
  - split; [apply growInv_init|]. exists (λ _, 0). intros p v Hp Hv.
    cbn [segmentMap] in Hp. apply lookup_replicate in Hp as [-> _]. done.
  - intros a [y x] a' Hin [Hinv [seed Hseed]] Ha'. split; [|done].
    assert (y * w + x < w * h) as Hidx
      by (apply elem_of_raster in Hin; nia).
    split.
    + by destruct (growPixel_growInv fuel data w h tol (w * h) y x a a'
                     Hinv Hidx Ha').
    + by apply (growPixel_seeded fuel data w h tol (w * h) a a' y x seed).
Qed.

Lemma grow_similarity_witness :
  ∃ s, grow 100 (data blocks4x4) 4 4 10 = Some s
    ∧ ∃ seed, seededBy (data blocks4x4) 10 seed (segmentMap s).
Proof.
  eexists. split; [vm_compute; reflexivity|].
  apply (grow_similarity 100 (data blocks4x4) 4 4 10).
  vm_compute. reflexivity.
Defined.

(** ** Segments of the minimum size are kept *)

Lemma mergeSmall_keeps w h minSize s (m : gmap Z Z) i j :
  (from_option of_nat nan (segmentSizes s !! i) <? minSize)%float = false →
  m !! i = Some i → mergeSmall w h minSize s m j !! i = Some i.
Proof.
  intros Hbig Hi. unfold mergeSmall.
  destruct (decide (j = i)) as [->|Hne]; [rewrite Hbig; exact Hi|].
  destruct (from_option of_nat nan (segmentSizes s !! j) <? minSize)%float;
    [|exact Hi].
  cbv zeta. case_bool_decide; [|exact Hi].
  by rewrite lookup_insert_ne.
Qed.

Lemma flatten_keeps fuel (m m' : gmap Z Z) i j :
  m !! i = Some i → flatten fuel m j = Some m' → m' !! i = Some i.
Proof.
  intros Hi Hm'. unfold flatten in Hm'.
  destruct (followChain fuel m j) as [t|] eqn:E; [|done].
  cbn [mbind option_bind] in Hm'. injection Hm' as <-.
  destruct (decide (j = i)) as [->|Hne]; [|by rewrite lookup_insert_ne].
  rewrite (followChain_self fuel m i Hi) in E. injection E as <-.
  apply lookup_insert_eq.
Qed.

(** X25: a segment that the growth found and whose size is not below
    [minSize] is never merged into another one: when the segmentation
    completes it is its own merge target and one of the final segments. *)
Theorem segment_keeps_large fuel img tolerance minSize sg i :
  segment fuel img tolerance minSize = Some sg →
  (0 ≤ i < currentSegment (grown sg))%Z →
  (from_option of_nat nan (segmentSizes (grown sg) !! i) <? minSize)%float
    = false →
  mergeMap sg !! i = Some i ∧ i ∈ segmentList sg.
Proof.
  intros Hsg Hi Hbig. unfold segment in Hsg.
  destruct (grow _ _ _ _ _) as [s|] eqn:Egrow; [|done].
  cbn [mbind option_bind] in Hsg.
  set (cur := currentSegment s) in *.
  set (ids := seqZ 0 cur) in *.
  set (m0 := foldl (λ mergeMap i, <[i := i]> mergeMap) ∅ ids) in *.
  set (m1 := foldl (mergeSmall (width img) (height img) minSize s) m0 ids) in *.
  destruct (foldlM (flatten fuel) m1 ids) as [m2|] eqn:Eflat; [|done].
  cbn [mbind option_bind] in Hsg. injection Hsg as <-.
  cbn [grown mergeMap segmentList] in *. fold cur in Hi.
  assert (i ∈ ids) as Hin by (apply elem_of_seqZ; lia).
  assert (m1 !! i = Some i) as Hm1.
  { apply (foldl_invariant (λ m : gmap Z Z, m !! i = Some i)).
    - unfold m0. rewrite lookup_mergeMap_init. by rewrite decide_True.
    - intros m j _ Hm. by apply mergeSmall_keeps. }
  assert (m2 !! i = Some i) as Hm2.
  { apply (foldlM_visited (λ m : gmap Z Z, m !! i = Some i) (λ _ _, True))
      in Eflat as [? _]; [done|done| |done].
    intros m j m' _ Hm Hm'. split; [|done]. by eapply flatten_keeps. }
  split; [done|].
  destruct (uniqueSegments_spec m2 ids) as [_ Hunique]. by apply (Hunique i).
Qed.

Lemma segment_keeps_large_witness :
  ∃ sg, segment 100 blocks4x4 10 8 = Some sg
    ∧ mergeMap sg !! 1%Z = Some 1%Z ∧ 1%Z ∈ segmentList sg.
Proof.
  assert (∃ sg, segment 100 blocks4x4 10 8 = Some sg) as [sg Hsg]
    by (eexists; vm_compute; reflexivity).
  exists sg. split; [done|].
  apply (segment_keeps_large 100 blocks4x4 10 8 sg 1 Hsg).
  - revert Hsg. vm_compute. intros [= <-]. done.
  - revert Hsg. vm_compute. intros [= <-]. done.
Defined.

(** ** Grayscale before an operator that starts with it *)

(** X26: [applyThreshold] and [applySobelEdgeDetection] start by
    converting to grayscale, and that conversion is idempotent: applying
    [applyGrayscale] before one of them changes nothing, whether the calls
    return or throw. *)
Theorem grayscale_absorbed img t :
  bind (applyGrayscale img) (λ g, applyThreshold g t) = applyThreshold img t
  ∧ bind (applyGrayscale img) applySobelEdgeDetection
    = applySobelEdgeDetection img.
Proof.
  unfold applyThreshold, applySobelEdgeDetection.
  destruct (applyGrayscale img) as [g0|e] eqn:E; [|done].
  cbn [bind]. unfold applyGrayscale in E.
  apply new_ImageData_Returned in E as [-> Hwf].
  pose proof Hwf as (Hl & Hw & Hh). cbn [width height data] in Hl, Hw, Hh.
  rewrite applyGrayscale_wellFormed by done. cbn [bind width height data].
  rewrite grayscale_data_idempotent; [done|].
  rewrite length_grayscale in Hl. rewrite Hl. apply Nat.Div0.mod_mul.
Qed.

(** ** Palettes and ranges *)

Lemma hsvToRgb_grey h v :
  hsvToRgb h 0 v
  = (Math_round (v * 255), Math_round (v * 255), Math_round (v * 255)).
Proof. reflexivity. Qed.

Lemma generateDistinctColors_length random count saturation value :
  length (generateDistinctColors random count saturation value) = count.
Proof.
  unfold generateDistinctColors. cbv zeta.
  assert (∀ (l : list nat) h0 (acc : list (float * float * float)),
    length (foldl (λ '(h, colors) (_ : nat),
               (rem (h + 0.618033988749895) 1,
                colors ++ [hsvToRgb (rem (h + 0.618033988749895) 1 * 360)
                             (default 0.8%float saturation)
                             (default 0.9%float value)]))
              (h0, acc) l).2
    = length acc + length l) as H.
  { induction l as [|i l IH]; intros h0 acc; cbn [foldl snd length]; [lia|].
    rewrite IH, length_app. simpl. lia. }
  rewrite H, length_seq. done.
Qed.

(** X27: [generateDistinctColors] returns exactly [count] colours, for
    every start of the hue; with saturation 0 they are all the same grey,
    [Math.round(value * 255)] in each channel, so that the colours are not
    distinct then. *)
Theorem generateDistinctColors_spec random count saturation value :
  length (generateDistinctColors random count saturation value) = count
  ∧ generateDistinctColors random count (Some 0%float) value
    = replicate count
        (let grey := Math_round (default 0.9%float value * 255) in
         (grey, grey, grey)).
Proof.
  split; [apply generateDistinctColors_length|].
  unfold generateDistinctColors. cbv zeta. cbn [default].
  assert (∀ (l : list nat) h0 (acc : list (float * float * float)),
    (foldl (λ '(h, colors) (_ : nat),
        (rem (h + 0.618033988749895) 1,
         colors ++ [hsvToRgb (rem (h + 0.618033988749895) 1 * 360) 0
                      (default 0.9%float value)]))
       (h0, acc) l).2
    = acc ++ replicate (length l)
               (Math_round (default 0.9%float value * 255),
                Math_round (default 0.9%float value * 255),
                Math_round (default 0.9%float value * 255))) as H.
  { induction l as [|i l IH]; intros h0 acc; cbn [foldl snd length replicate].
    - by rewrite app_nil_r.
    - rewrite IH, hsvToRgb_grey, <-app_assoc. done. }
  rewrite H, length_seq. done.
Qed.

(** *** The ranges of [rgbToHsv] *)

(** On bytes over 255, [Math.max] and [Math.min] are the greater and the
    smaller byte over 255. *)
Lemma Math_max_bytes x y :
  (0 ≤ x ≤ 255)%Z → (0 ≤ y ≤ 255)%Z →
  Math_max (of_Z x / 255) (of_Z y / 255) = (of_Z (Z.max x y) / 255)%float.
Proof.
  intros Hx Hy.
  assert ((λ x, (λ y, Math_max (of_Z x / 255) (of_Z y / 255)) <$> bytes)
            <$> bytes
          = (λ x, (λ y, of_Z (Z.max x y) / 255)%float <$> bytes) <$> bytes)
    as H by (vm_compute; reflexivity).
  pose proof (all_bytes_eq _ _ H x Hx) as H1. cbv beta in H1.
  exact (all_bytes_eq _ _ H1 y Hy).
Qed.

Lemma Math_min_bytes x y :
  (0 ≤ x ≤ 255)%Z → (0 ≤ y ≤ 255)%Z →
  Math_min (of_Z x / 255) (of_Z y / 255) = (of_Z (Z.min x y) / 255)%float.
Proof.
  intros Hx Hy.
  assert ((λ x, (λ y, Math_min (of_Z x / 255) (of_Z y / 255)) <$> bytes)
            <$> bytes
          = (λ x, (λ y, of_Z (Z.min x y) / 255)%float <$> bytes) <$> bytes)
    as H by (vm_compute; reflexivity).
  pose proof (all_bytes_eq _ _ H x Hx) as H1. cbv beta in H1.
  exact (all_bytes_eq _ _ H1 y Hy).
Qed.

Lemma saturationInRange_all : forallb saturationInRange bytes = true.
Proof. vm_compute. reflexivity. Qed.

Lemma valueInRange_all : forallb valueInRange bytes = true.
Proof. vm_compute. reflexivity. Qed.

(** The greatest and the least channel of a colour made of bytes are
    the greatest and the least of the three bytes, over 255. *)
Lemma rgbToHsv_extremes r g b :
  (0 ≤ r ≤ 255)%Z → (0 ≤ g ≤ 255)%Z → (0 ≤ b ≤ 255)%Z →
  Math_max (Math_max (of_Z r / 255) (of_Z g / 255)) (of_Z b / 255)
  = (of_Z (Z.max (Z.max r g) b) / 255)%float
  ∧ Math_min (Math_min (of_Z r / 255) (of_Z g / 255)) (of_Z b / 255)
    = (of_Z (Z.min (Z.min r g) b) / 255)%float.
Proof.
  intros Hr Hg Hb. split.
  - rewrite (Math_max_bytes r g), Math_max_bytes by lia. done.
  - rewrite (Math_min_bytes r g), Math_min_bytes by lia. done.
Qed.

(** X28: for every colour made of bytes the saturation and the value
    that [rgbToHsv] returns lie between 0 and 1, as its documentation
    says. *)
Theorem rgbToHsv_range r g b :
  (0 ≤ r ≤ 255)%Z → (0 ≤ g ≤ 255)%Z → (0 ≤ b ≤ 255)%Z →
  let '(_, s, v) := rgbToHsv (of_Z r) (of_Z g) (of_Z b) in
  (0 <=? s)%float = true ∧ (s <=? 1)%float = true
  ∧ (0 <=? v)%float = true ∧ (v <=? 1)%float = true.
Proof.
  intros Hr Hg Hb.
  assert ((rgbToHsv (of_Z r) (of_Z g) (of_Z b)).1.2
            = saturationOf (of_Z r) (of_Z g) (of_Z b)
          ∧ (rgbToHsv (of_Z r) (of_Z g) (of_Z b)).2
            = valueOf (of_Z r) (of_Z g) (of_Z b)) as [Es Ev]
    by (split; reflexivity).
  destruct (rgbToHsv (of_Z r) (of_Z g) (of_Z b)) as [[h s] v].
  cbn [fst snd] in Es, Ev. subst s v.
  destruct (rgbToHsv_extremes r g b Hr Hg Hb) as [Emax Emin].
  unfold saturationOf, valueOf. cbv zeta. rewrite Emax, Emin.
  set (M := (Z.max (Z.max r g) b)%Z). set (m := (Z.min (Z.min r g) b)%Z).
  assert (0 ≤ M ≤ 255)%Z as HM by lia.
  assert (0 ≤ m ≤ 255)%Z as Hm by lia.
  pose proof (all_bytes _ saturationInRange_all M HM) as H1.
  unfold saturationInRange in H1.
  pose proof (all_bytes _ H1 m Hm) as H2. cbv beta zeta in H2.
  assert ((M <? m)%Z = false) as Hle by (apply Z.ltb_ge; lia).
  rewrite Hle in H2. cbn [orb] in H2.
  apply andb_prop in H2 as [? ?].
  pose proof (all_bytes _ valueInRange_all M HM) as H3.
  apply andb_prop in H3 as [? ?]. done.
Qed.

Lemma rgbToHsv_range_witness :
  let '(_, s, v) := rgbToHsv (of_Z 10) (of_Z 200) (of_Z 30) in
  (0 <=? s)%float = true ∧ (s <=? 1)%float = true
  ∧ (0 <=? v)%float = true ∧ (v <=? 1)%float = true.
Proof. apply (rgbToHsv_range 10 200 30); lia. Defined.

(** ** An image of one colour is one segment *)

Lemma index_inj w h (c c' : Z * Z) :
  inBounds w h c → inBounds w h c' →
  Z.to_nat (c.2 * Z.of_nat w + c.1) = Z.to_nat (c'.2 * Z.of_nat w + c'.1) →
  c = c'.
Proof.
  destruct c as [x y], c' as [x' y']. unfold inBounds. cbn [fst snd].
  intros [Hx Hy] [Hx' Hy'] E.
  assert (y * Z.of_nat w + x = y' * Z.of_nat w + x')%Z as E' by nia.
  assert (y = y') as -> by nia. f_equal. lia.
Qed.

Lemma index_lt w h (c : Z * Z) :
  inBounds w h c → Z.to_nat (c.2 * Z.of_nat w + c.1) < w * h.
Proof. destruct c as [x y]. unfold inBounds. cbn [fst snd]. nia. Qed.

Section constant_fill.
Variables (w h : nat) (r g b a : Z) (tol : float).
Hypothesis Hr : (0 ≤ r ≤ 255)%Z.
Hypothesis Hg : (0 ≤ g ≤ 255)%Z.
Hypothesis Hb : (0 ≤ b ≤ 255)%Z.
Hypothesis Htol : (0 <=? tol)%float = true.

Lemma constant_test_passes c :
  inBounds w h c →
  let nIndex := ((c.2 * Z.of_nat w + c.1) * 4)%Z in
  (colorDiff3 (of_Z r) (of_Z g) (of_Z b)
     (rdZ (pixelBytes r g b a (w * h)) nIndex)
     (rdZ (pixelBytes r g b a (w * h)) (nIndex + 1))
     (rdZ (pixelBytes r g b a (w * h)) (nIndex + 2)) <=? tol)%float = true.
Proof.
  intros Hc nIndex. pose proof (index_lt w h c Hc) as Hlt.
  destruct c as [x y]. unfold inBounds in Hc. cbn [fst snd] in *.
  assert (0 ≤ y * Z.of_nat w + x)%Z as Hpos by nia.
  assert (∀ k : nat, k < 4 →
    rdZ (pixelBytes r g b a (w * h)) (nIndex + Z.of_nat k)
    = from_option of_Z nan ([r; g; b; a] !! k)) as Hrd.
  { intros k Hk. unfold rdZ, rd. rewrite bool_decide_eq_true_2 by lia.
    replace (Z.to_nat (nIndex + Z.of_nat k))
      with (4 * Z.to_nat (y * Z.of_nat w + x) + k) by lia.
    rewrite lookup_pixelBytes by done. by destruct ([r; g; b; a] !! k). }
  pose proof (Hrd 0 ltac:(lia)) as H0. rewrite Z.add_0_r in H0.
  pose proof (Hrd 1 ltac:(lia)) as H1. change (Z.of_nat 1) with 1%Z in H1.
  pose proof (Hrd 2 ltac:(lia)) as H2. change (Z.of_nat 2) with 2%Z in H2.
  rewrite H0, H1, H2. cbn [lookup list_lookup from_option].
  unfold colorDiff3. rewrite !sq_difference_self by done. exact Htol.
Qed.

Lemma filled_insert sm c c' :
  sm !! Z.to_nat (c'.2 * Z.of_nat w + c'.1) = Some (-1)%Z →
  filled sm w c →
  filled (<[Z.to_nat (c'.2 * Z.of_nat w + c'.1) := 0%Z]> sm) w c.
Proof.
  unfold filled. intros Hfree Hc. rewrite list_lookup_insert_ne; [done|].
  intros E. rewrite E, Hc in Hfree. done.
Qed.

Lemma closedAt_mono sm sm' c :
  (∀ c', filled sm w c' → filled sm' w c') →
  closedAt w h sm c → closedAt w h sm' c.
Proof. intros Hmono Hc d Hd Hin. by apply Hmono, Hc. Qed.

(** A step of the loop over the directions, at the position [(cx, cy)]. *)
Lemma visit_filling cx cy s d :
  fillingAt w h (cx, cy) s →
  let s' := visit (pixelBytes r g b a (w * h)) w h tol
              (of_Z r) (of_Z g) (of_Z b) cx cy s d in
  fillingAt w h (cx, cy) s'
  ∧ (inBounds w h (neighbour (cx, cy) d) →
     filled (segmentMap s') w (neighbour (cx, cy) d))
  ∧ (∀ c, filled (segmentMap s) w c → filled (segmentMap s') w c).
Proof.
  intros (Hcur & Hlen & Hval & Hstack & Hclosed) s'. subst s'. unfold visit.
  case_bool_decide as Hbounds.
  { split; [done|]. split; [|done]. intros [H1 H2].
    unfold neighbour in H1, H2. cbn [fst snd] in H1, H2. lia. }
  assert (inBounds w h (neighbour (cx, cy) d)) as Hin
    by (unfold inBounds, neighbour; cbn [fst snd]; lia).
  pose proof (index_lt w h _ Hin) as Hlt.
  unfold neighbour in Hlt. cbn [fst snd] in Hlt.
  set (ni := Z.to_nat ((cy + d.2) * Z.of_nat w + (cx + d.1))) in *.
  case_bool_decide as Hfree.
  { split; [done|]. split; [|done]. intros _.
    destruct (lookup_lt_is_Some_2 (segmentMap s) ni) as [v Hv]; [lia|].
    destruct (Hval _ _ Hv) as [-> | ->]; [done|]. exact Hv. }
  assert (segmentMap s !! ni = Some (-1)%Z) as Hfree' by done.
  pose proof (constant_test_passes _ Hin) as Htest.
  unfold neighbour in Htest. cbn [fst snd] in Htest. cbv zeta in Htest.
  rewrite Htest. rewrite Hcur.
  assert (∀ c, filled (segmentMap s) w c →
               filled (<[ni := 0%Z]> (segmentMap s)) w c) as Hmono.
  { intros c Hc. by apply (filled_insert _ c (neighbour (cx, cy) d)). }
  assert (filled (<[ni := 0%Z]> (segmentMap s)) w (neighbour (cx, cy) d))
    as Hnew.
  { unfold filled, neighbour. cbn [fst snd]. fold ni.
    apply list_lookup_insert_eq. lia. }
  split; [|split; [done|done]].
  unfold fillingAt. cbn [currentSegment segmentMap stack].
  split; [done|]. split; [by rewrite length_insert|]. split.
  { intros p v Hp.
    apply list_lookup_insert_Some in Hp as [(_ & <- & _)|[_ Hp]];
      [by right|by apply (Hval p)]. }
  split.
  { intros c Hc. apply elem_of_cons in Hc as [->|Hc].
    - split; [exact Hin|exact Hnew].
    - destruct (Hstack c Hc) as [? ?]. split; [done|by apply Hmono]. }
  intros c Hc Hfc.
  destruct (decide (Z.to_nat (c.2 * Z.of_nat w + c.1) = ni)) as [E|Hne].
  - right. left. apply elem_of_cons. left.
    apply (index_inj w h); [done|done|].
    unfold neighbour. cbn [fst snd]. exact E.
  - assert (filled (segmentMap s) w c) as Hold.
    { unfold filled in Hfc |- *. by rewrite list_lookup_insert_ne in Hfc. }
    destruct (Hclosed c Hc Hold) as [?|[?|Hcl]]; [by left| |].
    + right. left. apply elem_of_cons. by right.
    + right. right. by apply (closedAt_mono (segmentMap s)).
Qed.

(** The loop over the four directions closes the position it visits. *)
Lemma visits_filling cx cy s :
  fillingAt w h (cx, cy) s →
  let s' := foldl (visit (pixelBytes r g b a (w * h)) w h tol
                     (of_Z r) (of_Z g) (of_Z b) cx cy) s directions in
  fillingAt w h (cx, cy) s'
  ∧ closedAt w h (segmentMap s') (cx, cy)
  ∧ (∀ c, filled (segmentMap s) w c → filled (segmentMap s') w c).
Proof.
  intros Hs s'. subst s'.
  destruct (foldl_visited
    (λ s1, fillingAt w h (cx, cy) s1
           ∧ ∀ c, filled (segmentMap s) w c → filled (segmentMap s1) w c)
    (λ d s1, inBounds w h (neighbour (cx, cy) d) →
             filled (segmentMap s1) w (neighbour (cx, cy) d))
    (visit (pixelBytes r g b a (w * h)) w h tol (of_Z r) (of_Z g) (of_Z b) cx cy)
    directions s) as [[Hinv Hmono] Hall].
  - split; [done|]. by intros c.
  - intros s1 d _ [H1 Hm1].
    destruct (visit_filling cx cy s1 d H1) as (H1' & Hd & Hm).
    split; [split; [done|]|done]. intros c Hc. by apply Hm, Hm1.
  - intros s1 d d' _ [H1 _] Hd Hin.
    destruct (visit_filling cx cy s1 d' H1) as (_ & _ & Hm). by apply Hm, Hd.
  - split; [done|]. split; [|done]. intros d Hd. by apply Hall.
Qed.

Lemma floodLoop_filling fuel s s' :
  filling w h s →
  floodLoop fuel (pixelBytes r g b a (w * h)) w h tol
    (of_Z r) (of_Z g) (of_Z b) s = Some s' →
  filling w h s' ∧ stack s' = [].
Proof.
  revert s. induction fuel as [|fuel IH]; intros s Hs Hs';
    cbn [floodLoop] in Hs'; destruct (stack s) as [|[cx cy] rest] eqn:E;
    try done; try (injection Hs' as <-; by split).
  apply IH in Hs'; [done|].
  destruct Hs as (Hcur & Hlen & Hval & Hstack & Hclosed & Hseed).
  rewrite E in Hstack, Hclosed.
  set (s0 := mkGrowth (segmentMap s) (segmentSizes s) (segmentColors s) rest
               (currentSegment s)).
  assert (fillingAt w h (cx, cy) s0) as H0.
  { unfold fillingAt, s0. cbn [currentSegment segmentMap stack].
    split; [done|]. split; [done|]. split; [done|]. split.
    - intros c Hc. apply Hstack. apply elem_of_cons. by right.
    - intros c Hc Hfc. destruct (Hclosed c Hc Hfc) as [Hin|?]; [|auto].
      apply elem_of_cons in Hin as [->|?]; auto. }
  destruct (visits_filling cx cy s0 H0)
    as ((Hcur' & Hlen' & Hval' & Hstack' & Hclosed') & Hc0 & Hmono).
  split; [done|]. split; [done|]. split; [done|]. split; [done|].
  split; [|by apply Hmono].
  intros c Hc Hfc. destruct (Hclosed' c Hc Hfc) as [->|[?|?]]; auto.
Qed.

(** A set of pixels that contains the first pixel and, with a pixel, its
    neighbours in the image, is the whole image. *)
Lemma closed_all sm :
  filled sm w (0, 0)%Z →
  (∀ c, inBounds w h c → filled sm w c → closedAt w h sm c) →
  ∀ c, inBounds w h c → filled sm w c.
Proof.
  intros Hseed Hclosed.
  assert (∀ x : nat, x < w → 0 < h → filled sm w (Z.of_nat x, 0%Z)) as Hrow.
  { induction x as [|x IH]; intros Hx Hh; [done|].
    assert (inBounds w h (Z.of_nat x, 0%Z)) as Hin
      by (unfold inBounds; cbn [fst snd]; lia).
    specialize (Hclosed _ Hin (IH ltac:(lia) Hh) (1, 0)%Z).
    unfold neighbour in Hclosed. cbn [fst snd] in Hclosed.
    replace (Z.of_nat (S x)) with (Z.of_nat x + 1)%Z by lia.
    apply Hclosed.
    - unfold directions. rewrite !elem_of_cons. auto.
    - unfold inBounds. cbn [fst snd]. lia. }
  assert (∀ (y x : nat), y < h → x < w → filled sm w (Z.of_nat x, Z.of_nat y))
    as Hcol.
  { induction y as [|y IH]; intros x Hy Hx; [apply Hrow; lia|].
    assert (inBounds w h (Z.of_nat x, Z.of_nat y)) as Hin
      by (unfold inBounds; cbn [fst snd]; lia).
    specialize (Hclosed _ Hin (IH x ltac:(lia) Hx) (0, 1)%Z).
    unfold neighbour in Hclosed. cbn [fst snd] in Hclosed.
    replace (Z.of_nat (S y)) with (Z.of_nat y + 1)%Z by lia.
    rewrite <-(Z.add_0_r (Z.of_nat x)).
    apply Hclosed.
    - unfold directions. rewrite !elem_of_cons. auto.
    - unfold inBounds. cbn [fst snd]. lia. }
  intros [x y] [Hx Hy]. cbn [fst snd] in Hx, Hy.
  replace x with (Z.of_nat (Z.to_nat x)) by lia.
  replace y with (Z.of_nat (Z.to_nat y)) by lia.
  apply Hcol; lia.
Qed.
End constant_fill.

Lemma raster_head h w :
  0 < h → 0 < w → ∃ l, raster 0 h 0 w = (0, 0) :: l.
Proof.
  intros Hh Hw. destruct h as [|h]; [lia|]. destruct w as [|w]; [lia|].
  eexists. unfold raster. cbn. reflexivity.
Qed.

Lemma foldlM_fixed {A B} (f : A → B → option A) l a :
  (∀ b, b ∈ l → f a b = Some a) → foldlM f a l = Some a.
Proof.
  induction l as [|b l IH]; intros H; cbn [foldlM]; [done|].
  rewrite H by (apply elem_of_cons; by left). cbn [mbind option_bind].
  apply IH. intros b' Hb'. apply H. apply elem_of_cons. by right.
Qed.

(** The growth of an image of one colour: the first flood fill takes every
    pixel. *)
Lemma grow_constant fuel w h r g b a tol :
  0 < w → 0 < h →
  (0 ≤ r ≤ 255)%Z → (0 ≤ g ≤ 255)%Z → (0 ≤ b ≤ 255)%Z →
  (0 <=? tol)%float = true →
  2 * (w * h) + 1 ≤ fuel →
  ∃ s, grow fuel (pixelBytes r g b a (w * h)) w h tol = Some s
    ∧ currentSegment s = 1%Z
    ∧ length (segmentMap s) = w * h
    ∧ ∀ p, p < w * h → segmentMap s !! p = Some 0%Z.
Proof.
  intros Hw Hh Hr Hg Hb Htol Hfuel.
  set (data := pixelBytes r g b a (w * h)).
  set (n := w * h). assert (0 < n) as Hn by (unfold n; nia).
  set (init := mkGrowth (replicate n (-1)%Z) ∅ ∅ [] 0).
  assert (segmentMap init !! (0 * w + 0) = Some (-1)%Z) as Hfree.
  { cbn [segmentMap]. apply lookup_replicate. split; [done|lia]. }
  set (s0 := fillStart w 0 0 (of_Z r) (of_Z g) (of_Z b) init).
  (* the loop of the first flood fill *)
  assert (fillInv n 0 s0) as Hinv0.
  { apply (fillStart_fillInv w n 0 0 _ _ _ init); [apply growInv_init|done]. }
  destruct (floodLoop_terminates fuel data w h tol (of_Z r) (of_Z g) (of_Z b)
              n 0 s0 Hinv0) as (s1 & E1 & Hstack1).
  { unfold fillMeasure, s0, fillStart, init, n.
    cbn [stack segmentMap length]. lia. }
  assert (filling w h s0) as Hfill0.
  { unfold filling, s0, fillStart, init.
    cbn [currentSegment segmentMap stack]. fold n.
    assert (∀ c, inBounds w h c →
      filled (<[0 * w + 0 := 0%Z]> (replicate n (-1)%Z)) w c → c = (0, 0)%Z)
      as Honly.
    { intros c Hc Hfc. apply (index_inj w h); [done| |].
      - unfold inBounds. cbn [fst snd]. lia.
      - unfold filled in Hfc.
        apply list_lookup_insert_Some in Hfc as [(E & _)|[_ Hfc]].
        + cbn [fst snd]. rewrite <-E. lia.
        + apply lookup_replicate in Hfc as [[=] _]. }
    assert (filled (<[0 * w + 0 := 0%Z]> (replicate n (-1)%Z)) w (0, 0)%Z)
      as Hseed.
    { unfold filled. cbn [fst snd].
      replace (Z.to_nat (0 * Z.of_nat w + 0)) with (0 * w + 0) by lia.
      apply list_lookup_insert_eq. rewrite length_replicate. lia. }
    split; [done|]. split; [by rewrite length_insert, length_replicate|].
    split.
    { intros p v Hp.
      apply list_lookup_insert_Some in Hp as [(_ & <- & _)|[_ Hp]];
        [by right|].
      apply lookup_replicate in Hp as [-> _]. by left. }
    split.
    { intros c Hc. apply list_elem_of_singleton in Hc as ->.
      split; [|done]. unfold inBounds. cbn [fst snd]. lia. }
    split; [|done].
    intros c Hc Hfc. left. rewrite (Honly c Hc Hfc).
    by apply list_elem_of_singleton. }
  destruct (floodLoop_filling w h r g b a tol Hr Hg Hb Htol fuel s0 s1 Hfill0 E1)
    as [(Hcur1 & Hlen1 & _ & _ & Hclosed1 & Hseed1) _].
  rewrite Hstack1 in Hclosed1.
  assert (∀ c, inBounds w h c → filled (segmentMap s1) w c) as Hall.
  { apply (closed_all w h); [done|].
    intros c Hc Hfc. destruct (Hclosed1 c Hc Hfc) as [Hin|?]; [|done].
    by apply elem_of_nil in Hin. }
  assert (∀ p, p < n → segmentMap s1 !! p = Some 0%Z) as Hpix.
  { intros p Hp.
    pose proof (Nat.div_mod_eq p w) as Hdm.
    pose proof (Nat.mod_upper_bound p w ltac:(lia)) as Hmod.
    assert (p `div` w < h) as Hdiv
      by (apply Nat.Div0.div_lt_upper_bound; unfold n in Hp; lia).
    specialize (Hall (Z.of_nat (p `mod` w), Z.of_nat (p `div` w))).
    unfold filled, inBounds in Hall. cbn [fst snd] in Hall.
    replace (Z.to_nat (Z.of_nat (p `div` w) * Z.of_nat w + Z.of_nat (p `mod` w)))
      with p in Hall by lia.
    apply Hall. lia. }
  (* the loop over the pixels *)
  set (s2 := mkGrowth (segmentMap s1) (segmentSizes s1)
               (alter (λ c, mkSegColor (Math_round (Segmentation.r c / count c))
                              (Math_round (Segmentation.g c / count c))
                              (Math_round (Segmentation.b c / count c))
                              (count c)) 0%Z (segmentColors s1))
               (stack s1) 1%Z).
  exists s2. split; [|done].
  unfold grow. fold n init.
  destruct (raster_head h w Hh Hw) as [l El].
  assert (∀ yx, yx ∈ l → yx ∈ raster 0 h 0 w) as Hl
    by (intros yx Hin; rewrite El; apply elem_of_cons; by right).
  rewrite El. cbn [foldlM].
  assert (growPixel fuel data w h tol init (0, 0) = Some s2) as ->.
  { unfold growPixel. rewrite bool_decide_eq_false_2
      by (rewrite Hfree; intros H; by apply H).
    assert (∀ c, c < 4 → rd data ((0 * w + 0) * 4 + c)
                         = from_option of_Z nan ([r; g; b; a] !! c)) as Hrd.
    { intros c Hc. unfold rd, data.
      replace ((0 * w + 0) * 4 + c) with (4 * 0 + c) by lia.
      rewrite lookup_pixelBytes by (done || lia).
      by destruct ([r; g; b; a] !! c). }
    pose proof (Hrd 0 ltac:(lia)) as H0. rewrite Nat.add_0_r in H0.
    rewrite H0, (Hrd 1), (Hrd 2) by lia.
    cbn [lookup list_lookup from_option].
    unfold floodFill. fold s0. rewrite E1. done. }
  cbn [mbind option_bind]. apply foldlM_fixed.
  intros [y x] Hin. apply Hl, elem_of_raster in Hin.
  unfold growPixel. rewrite bool_decide_eq_true_2; [done|].
  cbn [segmentMap s2]. rewrite Hpix by (unfold n; nia). done.
Qed.

Lemma pixelNeighbors_single w h sm (m : gmap Z Z) acc yx :
  length sm = w * h → (∀ p, p < w * h → sm !! p = Some 0%Z) →
  pixelNeighbors w h sm m 0 acc yx = acc.
Proof.
  intros Hlen Hall. destruct yx as [y x]. unfold pixelNeighbors.
  case_bool_decide; [|done].
  apply (foldl_invariant (λ acc', acc' = acc)); [done|].
  intros acc' d _ ->. case_bool_decide as Hb; [done|].
  destruct (sm !! Z.to_nat _) as [ns|] eqn:E; [|done].
  rewrite bool_decide_eq_false_2; [done|]. intros [Hne _]. apply Hne.
  pose proof (lookup_lt_Some _ _ _ E) as Hlt. rewrite Hlen in Hlt.
  rewrite (Hall _ Hlt) in E. by injection E as <-.
Qed.

(** X29: an image whose pixels all have the same byte colour is one
    segment: for every tolerance with [0 <= tolerance], every [minSize]
    and fuel above twice the number of pixels, the segmentation finds the
    single final segment 0, to which every pixel belongs. *)
Theorem segment_constant fuel w h r g b a tol minSize :
  0 < w → 0 < h →
  (0 ≤ r ≤ 255)%Z → (0 ≤ g ≤ 255)%Z → (0 ≤ b ≤ 255)%Z →
  (0 <=? tol)%float = true →
  2 * (w * h) + 1 ≤ fuel →
  ∃ sg, segment fuel (constantImage w h r g b a) tol minSize = Some sg
    ∧ segmentList sg = [0%Z]
    ∧ ∀ p, p < w * h → representative sg p = Some 0%Z.
Proof.
  intros Hw Hh Hr Hg Hb Htol Hfuel. unfold segment.
  cbn [width height data constantImage].
  destruct (grow_constant fuel w h r g b a tol Hw Hh Hr Hg Hb Htol Hfuel)
    as (s & -> & Hcur & Hlen & Hpix).
  cbn [mbind option_bind]. rewrite Hcur.
  change (seqZ 0 1) with [0%Z]. cbn [foldl].
  assert (mergeSmall w h minSize s (<[0%Z := 0%Z]> ∅) 0 = <[0%Z := 0%Z]> ∅)
    as ->.
  { unfold mergeSmall. destruct (_ <? minSize)%float; [|done]. cbv zeta.
    assert (foldl (pixelNeighbors w h (segmentMap s) (<[0%Z := 0%Z]> ∅) 0) []
              (raster 0 h 0 w) = []) as ->.
    { apply (foldl_invariant (λ acc : list Z, acc = [])); [done|].
      intros acc yx _ ->. by apply pixelNeighbors_single. }
    cbn [closestNeighbor foldl fst].
    by rewrite bool_decide_eq_false_2 by (intros H; by apply H). }
  cbn [foldlM]. unfold flatten.
  rewrite followChain_self by apply lookup_insert_eq.
  cbn [mbind option_bind foldl].
  rewrite lookup_insert_eq.
  eexists. split; [reflexivity|]. cbn [segmentList]. split; [done|].
  intros p Hp. unfold representative. cbn [grown mergeMap].
  rewrite Hpix by done. cbn [mbind option_bind]. apply lookup_insert_eq.
Qed.

Lemma segment_constant_witness :
  ∃ sg, segment 41 (constantImage 5 4 10 200 30 77) 0 100 = Some sg
    ∧ segmentList sg = [0%Z]
    ∧ ∀ p, p < 5 * 4 → representative sg p = Some 0%Z.
Proof. apply segment_constant; (lia || reflexivity). Defined.

(** ** The segmentation completes when no segment is small *)

(** X30: when no segment that the growth finds is smaller than
    [minSize], nothing is merged and the loop that flattens the merge
    chains ends at once: on a well-formed buffer, once the growth has
    returned, [applySegmentation] returns a buffer, and the final segments
    are the segments of the growth, in their order. *)
Theorem applySegmentation_completes
    fuel random img tolerance minSize colorScheme s :
  wellFormed img →
  grow fuel (data img) (width img) (height img) tolerance = Some s →
  (∀ i, (0 ≤ i < currentSegment s)%Z →
     (from_option of_nat nan (segmentSizes s !! i) <? minSize)%float = false) →
  (∃ out, applySegmentation fuel random img tolerance minSize colorScheme
          = Some (Returned out))
  ∧ ∃ sg, segment fuel img tolerance minSize = Some sg
      ∧ segmentList sg = seqZ 0 (currentSegment s).
Proof.
  intros (Hl & Hw & Hh) Hgrow Hbig.
  assert (∃ sg, segment fuel img tolerance minSize = Some sg
            ∧ segmentList sg = seqZ 0 (currentSegment s)) as (sg & Hsg & Hlist).
  { unfold segment. rewrite Hgrow. cbn [mbind option_bind].
    set (ids := seqZ 0 (currentSegment s)).
    set (m0 := foldl (λ mergeMap i, <[i := i]> mergeMap) ∅ ids).
    set (m1 := foldl (mergeSmall (width img) (height img) minSize s) m0 ids).
    assert (∀ i, i ∈ ids → m1 !! i = Some i) as Hm1.
    { intros i Hi.
      apply (foldl_invariant (λ m : gmap Z Z, m !! i = Some i)).
      - unfold m0. rewrite lookup_mergeMap_init. by rewrite decide_True.
      - intros m j _ Hm. apply mergeSmall_keeps; [|done].
        apply Hbig. by apply elem_of_seqZ in Hi. }
    assert (∀ (l : list Z) (m : gmap Z Z),
      (∀ i, i ∈ ids → m !! i = Some i) → l ⊆ ids →
      ∃ m', foldlM (flatten fuel) m l = Some m'
            ∧ ∀ i, i ∈ ids → m' !! i = Some i) as Hflat.
    { induction l as [|j l IH]; intros m Hm Hsub; cbn [foldlM].
      - by exists m.
      - assert (flatten fuel m j = Some (<[j := j]> m)) as ->.
        { unfold flatten. rewrite followChain_self; [done|].
          apply Hm, Hsub, elem_of_cons. by left. }
        cbn [mbind option_bind]. apply IH.
        + intros i Hi. destruct (decide (i = j)) as [->|Hne];
            [apply lookup_insert_eq|by rewrite lookup_insert_ne; auto].
        + intros i Hi. apply Hsub, elem_of_cons. by right. }
    destruct (Hflat ids m1 Hm1 ltac:(done)) as (m2 & -> & Hm2).
    cbn [mbind option_bind]. eexists. split; [reflexivity|].
    cbn [segmentList].
    assert (∀ (l acc : list Z), l ⊆ ids → NoDup (acc ++ l) →
      foldl (λ set i,
         match m2 !! i with Some t => setAdd set t | None => set end) acc l
      = acc ++ l) as Hunique.
    { induction l as [|j l IH]; intros acc Hsub Hnd; cbn [foldl].
      - by rewrite app_nil_r.
      - rewrite Hm2 by (apply Hsub, elem_of_cons; by left).
        unfold setAdd. rewrite bool_decide_eq_false_2.
        + rewrite IH; [by rewrite <-app_assoc| |by rewrite <-app_assoc].
          intros i Hi. apply Hsub, elem_of_cons. by right.
        + apply NoDup_app in Hnd as (_ & Hdisj & _). intros Hin.
          apply (Hdisj _ Hin), elem_of_cons. by left. }
    apply (Hunique ids []); [done|]. apply NoDup_seqZ. }
  split; [|by exists sg].
  unfold applySegmentation. rewrite Hsg. cbn [mbind option_bind].
  rewrite new_ImageData_wellFormed by (by rewrite ?length_paint).
  by eexists.
Qed.

Lemma applySegmentation_completes_witness :
  (∃ out, applySegmentation 100 (λ _, 0%float) blocks4x4 10 1 "rainbow"
          = Some (Returned out))
  ∧ ∃ sg, segment 100 blocks4x4 10 1 = Some sg
      ∧ segmentList sg = seqZ 0 2.
Proof.
  assert (∃ s, grow 100 (data blocks4x4) 4 4 10 = Some s
               ∧ currentSegment s = 2%Z
               ∧ segmentSizes s !! 0%Z = Some 8
               ∧ segmentSizes s !! 1%Z = Some 8) as (s & Hs & Hcur & H0 & H1).
  { eexists. split; [vm_compute; reflexivity|].
    repeat split; vm_compute; reflexivity. }
  rewrite <-Hcur.
  apply (applySegmentation_completes 100 (λ _, 0%float) blocks4x4 10 1
           "rainbow" s).
  - unfold wellFormed. cbn [width height data blocks4x4].
    split; [reflexivity|lia].
  - exact Hs.
  - intros i Hi. rewrite Hcur in Hi.
    assert (i = 0 ∨ i = 1)%Z as [-> | ->] by lia.
    + rewrite H0. reflexivity.
    + rewrite H1. reflexivity.
Defined.

(** ** The HSV round trip on every colour

    The operations of [hsvToRgb] and [rgbToHsv] are followed on the real
    values of the numbers, with the rounding that the axioms of the
    primitive numbers state for each operation. *)

Local Open Scope R_scope.

(** *** Powers of two *)

Lemma IZR_pow2_pos e : (0 <= e)%Z → 0 < IZR (2 ^ e).
Proof. intros He. apply IZR_lt. by apply Z.pow_pos_nonneg. Qed.

Lemma bpow_pos e : 0 < bpow e.
Proof.
  unfold bpow. destruct (Z.leb_spec 0 e) as [He|He].
  - by apply IZR_pow2_pos.
  - apply Rinv_0_lt_compat, IZR_pow2_pos. lia.
Qed.

Lemma bpow_IZR e : (0 <= e)%Z → bpow e = IZR (2 ^ e).
Proof. intros He. unfold bpow. destruct (Z.leb_spec 0 e); [done|lia]. Qed.

Lemma bpow_opp e : bpow (- e) = / bpow e.
Proof.
  unfold bpow.
  destruct (Z.leb_spec 0 e) as [He|He], (Z.leb_spec 0 (- e)) as [He'|He'];
    try lia.
  - assert (e = 0)%Z as -> by lia. change (1 = / 1). by rewrite Rinv_1.
  - by rewrite Z.opp_involutive.
  - by rewrite Rinv_inv.
Qed.

Lemma bpow_add_nonneg a b :
  (0 <= a)%Z → (0 <= b)%Z → bpow (a + b) = bpow a * bpow b.
Proof.
  intros Ha Hb. rewrite !bpow_IZR by lia.
  by rewrite Z.pow_add_r, mult_IZR by lia.
Qed.

Lemma bpow_add_r a k : (0 <= k)%Z → bpow (a + k) = bpow a * bpow k.
Proof.
  intros Hk. destruct (Z.le_gt_cases 0 a) as [Ha|Ha].
  { by apply bpow_add_nonneg. }
  pose proof (bpow_pos (- a)) as Hpa.
  assert (bpow a = / bpow (- a)) as ->.
  { by rewrite <-bpow_opp, Z.opp_involutive. }
  destruct (Z.le_gt_cases 0 (a + k)) as [Hak|Hak].
  - assert (bpow k = bpow (a + k) * bpow (- a)) as ->.
    { rewrite <-bpow_add_nonneg by lia. f_equal. lia. }
    field. lra.
  - pose proof (bpow_pos (- (a + k))) as Hq.
    assert (bpow (a + k) = / bpow (- (a + k))) as ->.
    { by rewrite <-bpow_opp, Z.opp_involutive. }
    assert (bpow (- a) = bpow (- (a + k)) * bpow k) as ->.
    { rewrite <-bpow_add_nonneg by lia. f_equal. lia. }
    pose proof (bpow_pos k). field. split; lra.
Qed.

Lemma bpow_add a b : bpow (a + b) = bpow a * bpow b.
Proof.
  destruct (Z.le_gt_cases 0 b) as [Hb|Hb].
  { by apply bpow_add_r. }
  pose proof (bpow_pos (- b)) as Hpb.
  assert (bpow b = / bpow (- b)) as ->.
  { by rewrite <-bpow_opp, Z.opp_involutive. }
  assert (bpow a = bpow (a + b) * bpow (- b)) as ->.
  { rewrite <-bpow_add_r by lia. f_equal. lia. }
  field. lra.
Qed.

Lemma bpow_0 : bpow 0 = 1.
Proof. reflexivity. Qed.

Lemma bpow_1 : bpow 1 = 2.
Proof. reflexivity. Qed.

Lemma bpow_ge_1 e : (0 <= e)%Z → 1 <= bpow e.
Proof.
  intros He. rewrite bpow_IZR by done. apply IZR_le.
  pose proof (Z.pow_pos_nonneg 2 e). lia.
Qed.

Lemma bpow_le a b : (a <= b)%Z → bpow a <= bpow b.
Proof.
  intros Hab. replace b with (a + (b - a))%Z by lia. rewrite bpow_add.
  pose proof (bpow_pos a). pose proof (bpow_ge_1 (b - a) ltac:(lia)). nra.
Qed.

Lemma bpow_lt a b : (a < b)%Z → bpow a < bpow b.
Proof.
  intros Hab. replace b with (a + 1 + (b - a - 1))%Z by lia.
  rewrite !bpow_add, bpow_1.
  pose proof (bpow_pos a). pose proof (bpow_ge_1 (b - a - 1) ltac:(lia)). nra.
Qed.

Lemma bpow_lt_inv a b : bpow a < bpow b → (a < b)%Z.
Proof.
  intros H. destruct (Z.lt_ge_cases a b) as [|Hge]; [done|].
  apply bpow_le in Hge. lra.
Qed.

Lemma bpow_div a b : bpow a / bpow b = bpow (a - b).
Proof.
  unfold Rdiv, Z.sub. by rewrite bpow_add, bpow_opp.
Qed.

(** *** Digits *)

Lemma digits2_pos_bounds m :
  (2 ^ (Z.pos (digits2_pos m) - 1) <= Z.pos m < 2 ^ Z.pos (digits2_pos m))%Z.
Proof.
  induction m as [m IH|m IH|]; cbn [digits2_pos].
  - rewrite Pos2Z.inj_succ. change (Z.pos m~1) with (2 * Z.pos m + 1)%Z.
    replace (Z.succ (Z.pos (digits2_pos m)) - 1)%Z
      with (Z.succ (Z.pos (digits2_pos m) - 1)) by lia.
    rewrite !Z.pow_succ_r by lia. lia.
  - rewrite Pos2Z.inj_succ. change (Z.pos m~0) with (2 * Z.pos m)%Z.
    replace (Z.succ (Z.pos (digits2_pos m)) - 1)%Z
      with (Z.succ (Z.pos (digits2_pos m) - 1)) by lia.
    rewrite !Z.pow_succ_r by lia. lia.
  - change (2 ^ 0 <= 1 < 2 ^ 1)%Z. lia.
Qed.

Lemma Zdigits2_nonneg m : (0 <= Zdigits2 m)%Z.
Proof. destruct m; simpl; lia. Qed.

Lemma Zdigits2_upper m : (0 <= m)%Z → (m + 1 <= 2 ^ Zdigits2 m)%Z.
Proof.
  destruct m as [|p|p]; intros Hm; [simpl; lia| |lia].
  cbn [Zdigits2]. pose proof (digits2_pos_bounds p). lia.
Qed.

Lemma Zdigits2_lower m : (0 < m)%Z → (2 ^ (Zdigits2 m - 1) <= m)%Z.
Proof.
  destruct m as [|p|p]; intros Hm; [lia| |lia].
  cbn [Zdigits2]. pose proof (digits2_pos_bounds p). lia.
Qed.

Lemma fexp_fexp64 d : fexp prec emax d = fexp64 d.
Proof. reflexivity. Qed.

(** *** Locations and shifts *)

Lemma inbetween_bounds Y m l : inbetween Y m l → IZR m <= Y < IZR m + 1.
Proof. destruct l as [|[]]; simpl; lra. Qed.

Lemma shr_1_inv Y mrs : shr_inv Y mrs → shr_inv (Y / 2) (shr_1 mrs).
Proof.
  destruct mrs as [m r s]. intros [Hm Hin]. cbn [shr_m] in Hm.
  destruct m as [|p|p]; [| |lia].
  - destruct r, s; unfold shr_inv;
      cbn [shr_1 shr_m loc_of_shr_record inbetween orb] in *;
      (split; [lia|lra]).
  - destruct p as [p|p|];
      [change (Z.pos p~1) with (2 * Z.pos p + 1)%Z in Hin
      |change (Z.pos p~0) with (2 * Z.pos p)%Z in Hin|];
      destruct r, s; unfold shr_inv;
      cbn [shr_1 shr_m loc_of_shr_record inbetween orb] in *;
      rewrite ?plus_IZR, ?mult_IZR in Hin; (split; [lia|lra]).
Qed.

Lemma iter_shr_1_inv p : ∀ Y mrs,
  shr_inv Y mrs → shr_inv (Y / bpow (Z.pos p)) (SpecFloat.iter_pos shr_1 p mrs).
Proof.
  induction p as [p IH|p IH|]; intros Y mrs H; cbn [SpecFloat.iter_pos].
  - apply shr_1_inv, IH, IH in H.
    replace (Y / bpow (Z.pos p~1)) with (Y / 2 / bpow (Z.pos p) / bpow (Z.pos p));
      [done|].
    rewrite Pos2Z.inj_xI.
    replace (2 * Z.pos p + 1)%Z with (Z.pos p + Z.pos p + 1)%Z by lia.
    rewrite !bpow_add, bpow_1. pose proof (bpow_pos (Z.pos p)). field. lra.
  - apply IH, IH in H.
    replace (Y / bpow (Z.pos p~0)) with (Y / bpow (Z.pos p) / bpow (Z.pos p));
      [done|].
    rewrite Pos2Z.inj_xO.
    replace (2 * Z.pos p)%Z with (Z.pos p + Z.pos p)%Z by lia.
    rewrite !bpow_add. pose proof (bpow_pos (Z.pos p)). field. lra.
  - apply shr_1_inv in H. by rewrite bpow_1.
Qed.

Lemma shr_spec Y mrs e n :
  shr_inv Y mrs → (0 <= n)%Z →
  shr_inv (Y / bpow n) (shr mrs e n).1 ∧ (shr mrs e n).2 = (e + n)%Z.
Proof.
  intros H Hn. destruct n as [|p|p]; [| |lia]; cbn [shr fst snd].
  - rewrite bpow_0, Rdiv_1_r. split; [done|lia].
  - split; [by apply iter_shr_1_inv|done].
Qed.

Lemma shr_record_of_loc_inv Y m l :
  (0 <= m)%Z → inbetween Y m l → shr_inv Y (shr_record_of_loc m l).
Proof. intros Hm H. destruct l as [|[]]; by split. Qed.

Lemma round_nearest_even_spec Y m l :
  inbetween Y m l →
  let k := round_nearest_even m l in
  Rabs (IZR k - Y) <= / 2
  ∧ (Rabs (IZR k - Y) = / 2 → Z.even k = true)
  ∧ (m <= k <= m + 1)%Z.
Proof.
  intros H. destruct l as [|[]]; cbn [round_nearest_even inbetween] in *.
  - rewrite H, Rminus_diag, Rabs_R0. split; [lra|]. split; [lra|lia].
  - destruct (Z.even m) eqn:Ev.
    + split; [|split; [done|lia]]. apply Rabs_le. lra.
    + rewrite plus_IZR. split; [apply Rabs_le; lra|]. split; [|lia].
      intros _. rewrite Z.even_add, Ev. done.
  - split; [apply Rabs_le; lra|]. split; [|lia].
    intros E. exfalso. revert E. unfold Rabs. destruct (Rcase_abs _); lra.
  - rewrite plus_IZR. split; [apply Rabs_le; lra|]. split; [|lia].
    intros E. exfalso. revert E. unfold Rabs. destruct (Rcase_abs _); lra.
Qed.

(** *** Rounding to nearest, ties to even *)

Lemma shr_m_record_of_loc m l : shr_m (shr_record_of_loc m l) = m.
Proof. by destruct l as [|[]]. Qed.

Lemma binary_round_aux_spec sx mx ex lx X :
  (0 <= mx)%Z → inbetween (X / bpow ex) mx lx →
  (ex <= fexp64 (Zdigits2 mx + ex))%Z → X < bpow 1000 →
  ∃ Y, RN X Y ∧ SFmag (binary_round_aux prec emax sx mx ex lx) sx Y.
Proof.
  intros Hm Hin Hex HX.
  set (d := Zdigits2 mx) in *. set (e1 := fexp64 (d + ex)) in *.
  pose proof (bpow_pos ex) as Hpex. pose proof (bpow_pos e1) as Hpe1.
  pose proof (Zdigits2_nonneg mx) as Hd0. fold d in Hd0.
  destruct (inbetween_bounds _ _ _ Hin) as [Hlo Hhi].
  assert (X = X / bpow ex * bpow ex) as HXex by (field; lra).
  assert (0 <= X) as HX0.
  { apply IZR_le in Hm. nra. }
  assert (X < bpow (d + ex)) as HXd.
  { pose proof (Zdigits2_upper mx Hm) as Hup. apply IZR_le in Hup.
    rewrite plus_IZR in Hup. fold d in Hup.
    rewrite <-bpow_IZR in Hup by done. rewrite bpow_add. nra. }
  assert ((0 < mx)%Z → bpow (d + ex - 1) <= X) as HXlow.
  { intros Hpos. pose proof (Zdigits2_lower mx Hpos) as Hl. apply IZR_le in Hl.
    fold d in Hl. rewrite <-bpow_IZR in Hl by (unfold d; destruct mx; simpl; lia).
    replace (d + ex - 1)%Z with ((d - 1) + ex)%Z by lia. rewrite bpow_add. nra. }
  assert (-1074 <= e1 <= 947)%Z as He1.
  { unfold e1, fexp64. split; [lia|].
    destruct (Z.eq_dec mx 0%Z) as [->|Hne].
    - unfold e1, fexp64 in Hex. cbn in d. subst d. lia.
    - assert (bpow (d + ex - 1) < bpow 1000) as Hlt.
      { eapply Rle_lt_trans; [apply HXlow; lia|done]. }
      apply bpow_lt_inv in Hlt. lia. }
  assert (canon X e1) as Hcanon.
  { exists (d + ex)%Z. split; [done|]. split; [done|].
    destruct (Z.eq_dec mx 0%Z) as [->|Hne].
    - right. unfold e1, fexp64 in Hex. cbn in d. subst d. lia.
    - left. apply HXlow. lia. }
  (* the first shift *)
  unfold binary_round_aux, shr_fexp. rewrite !fexp_fexp64. fold d e1.
  pose proof (shr_spec (X / bpow ex) (shr_record_of_loc mx lx) ex (e1 - ex)
                (shr_record_of_loc_inv _ _ _ Hm Hin) ltac:(lia)) as [[Hm1 Hin1] He].
  destruct (shr (shr_record_of_loc mx lx) ex (e1 - ex)) as [mrs1 e1'].
  cbn [fst snd] in Hm1, Hin1, He.
  change (fexp prec emax) with fexp64.
  replace (ex + (e1 - ex))%Z with e1 in He by lia. subst e1'.
  replace (X / bpow ex / bpow (e1 - ex)) with (X / bpow e1) in Hin1.
  2:{ rewrite <-bpow_div. field. split; lra. }
  set (m1 := shr_m mrs1) in *. set (l1 := loc_of_shr_record mrs1) in *.
  destruct (inbetween_bounds _ _ _ Hin1) as [Hlo1 Hhi1].
  destruct (round_nearest_even_spec _ _ _ Hin1) as (Habs & Htie & Hk).
  set (m2 := round_nearest_even m1 l1) in *.
  assert (m1 < 2 ^ 53)%Z as Hm1lt.
  { apply lt_IZR. rewrite <-bpow_IZR by lia.
    assert (X / bpow e1 < bpow (d + ex - e1)) as Hlt.
    { rewrite <-bpow_div. apply Rmult_lt_compat_r; [|done].
      by apply Rinv_0_lt_compat. }
    assert (bpow (d + ex - e1) <= bpow 53) as Hle.
    { apply bpow_le. unfold e1, fexp64. lia. }
    lra. }
  assert (RN X (IZR m2 * bpow e1)) as HRN.
  { exists e1, m2. done. }
  exists (IZR m2 * bpow e1). split; [done|].
  (* the second shift *)
  destruct (Z.eq_dec m2 (2 ^ 53)%Z) as [E53|N53].
  - rewrite E53. change (Zdigits2 (2 ^ 53)) with 54%Z.
    replace (fexp64 (54 + e1) - e1)%Z with 1%Z by (unfold fexp64; lia).
    assert (shr (shr_record_of_loc (2 ^ 53) loc_Exact) e1 1
            = ({| shr_m := 2 ^ 52; shr_r := false; shr_s := false |},
               (e1 + 1)%Z)) as -> by reflexivity.
    cbn [shr_m]. change (2 ^ 52)%Z with (Z.pos (2 ^ 52)).
    change (emax - prec)%Z with 971%Z.
    destruct (Z.leb_spec (e1 + 1)%Z 971%Z) as [_|?]; [|lia].
    right. eexists _, _. split; [done|].
    replace (e1 + 1)%Z with (1 + e1)%Z by lia. rewrite bpow_add, bpow_1.
    change (Z.pos (2 ^ 52)) with (2 ^ 52)%Z.
    change (2 ^ 53)%Z with (2 * 2 ^ 52)%Z. rewrite mult_IZR. lra.
  - assert (fexp64 (Zdigits2 m2 + e1) - e1 <= 0)%Z as Hn2.
    { destruct (Z.eq_dec m2 0%Z) as [->|Hne0]; [unfold fexp64; simpl; lia|].
      pose proof (Zdigits2_lower m2 ltac:(lia)) as Hl2.
      assert (Zdigits2 m2 <= 53)%Z.
      { destruct (Z.le_gt_cases (Zdigits2 m2) 53%Z) as [|Hgt]; [done|].
        assert (2 ^ 53 <= 2 ^ (Zdigits2 m2 - 1))%Z
          by (apply Z.pow_le_mono_r; lia).
        lia. }
      unfold fexp64. lia. }
    assert (shr (shr_record_of_loc m2 loc_Exact) e1
              (fexp64 (Zdigits2 m2 + e1) - e1)
            = (shr_record_of_loc m2 loc_Exact, e1)) as ->.
    { destruct (fexp64 (Zdigits2 m2 + e1) - e1)%Z; [done|lia|done]. }
    cbn [shr_record_of_loc shr_m]. change (emax - prec)%Z with 971%Z.
    destruct m2 as [|p|p]; [left; split; [done|lra]| |lia].
    destruct (Z.leb_spec e1 971%Z) as [_|?]; [|lia].
    right. by eexists _, _.
Qed.

(** *** Properties of the rounding *)

Lemma canon_le X X' e e' : X <= X' → canon X e → canon X' e' → (e <= e')%Z.
Proof.
  intros HXX (d & -> & Hd & Hlow) (d' & -> & Hd' & Hlow').
  destruct (Z.le_gt_cases (fexp64 d) (fexp64 d')) as [|Hgt]; [done|exfalso].
  unfold fexp64 in Hgt.
  destruct Hlow as [Hlow|Hsmall]; [|lia].
  assert (bpow (d - 1) < bpow d') as Hlt by lra.
  apply bpow_lt_inv in Hlt. lia.
Qed.

Lemma canon_unique X e e' : canon X e → canon X e' → e = e'.
Proof.
  intros H H'.
  pose proof (canon_le X X e e' ltac:(lra) H H').
  pose proof (canon_le X X e' e ltac:(lra) H' H). lia.
Qed.

Lemma Rabs_le_inv x b : Rabs x <= b → - b <= x <= b.
Proof. unfold Rabs. destruct (Rcase_abs x); lra. Qed.

Lemma Rabs_half_cases x :
  Rabs x <= / 2 → - / 2 <= x <= / 2.
Proof. apply Rabs_le_inv. Qed.

Lemma nearest_unique (Z0 : R) k k' :
  Rabs (IZR k - Z0) <= / 2 → (Rabs (IZR k - Z0) = / 2 → Z.even k = true) →
  Rabs (IZR k' - Z0) <= / 2 → (Rabs (IZR k' - Z0) = / 2 → Z.even k' = true) →
  k = k'.
Proof.
  intros H1 T1 H2 T2.
  apply Rabs_half_cases in H1 as H1'. apply Rabs_half_cases in H2 as H2'.
  assert (k' - 1 <= k <= k' + 1)%Z as Hk.
  { split; apply le_IZR; rewrite ?minus_IZR, ?plus_IZR; lra. }
  destruct (Z.eq_dec k k') as [|Hne]; [done|exfalso].
  assert (k = k' + 1 ∨ k = k' - 1)%Z as [->| ->] by lia.
  - rewrite plus_IZR in *.
    assert (IZR k' + 1 - Z0 = / 2) as E1 by lra.
    assert (IZR k' - Z0 = - / 2) as E2 by lra.
    rewrite E1, Rabs_pos_eq in T1 by lra.
    rewrite E2, Rabs_Ropp, Rabs_pos_eq in T2 by lra.
    specialize (T1 eq_refl). specialize (T2 eq_refl).
    rewrite Z.even_add, T2 in T1. done.
  - rewrite minus_IZR in *.
    assert (IZR k' - 1 - Z0 = - / 2) as E1 by lra.
    assert (IZR k' - Z0 = / 2) as E2 by lra.
    rewrite E1, Rabs_Ropp, Rabs_pos_eq in T1 by lra.
    rewrite E2, Rabs_pos_eq in T2 by lra.
    specialize (T1 eq_refl). specialize (T2 eq_refl).
    rewrite Z.even_sub, T2 in T1. done.
Qed.

Lemma RN_unique X Y Y' : RN X Y → RN X Y' → Y = Y'.
Proof.
  intros (e & k & Hc & -> & Ha & Ht) (e' & k' & Hc' & -> & Ha' & Ht').
  pose proof (canon_unique _ _ _ Hc Hc'). subst e'.
  by rewrite (nearest_unique _ _ _ Ha Ht Ha' Ht').
Qed.

Lemma RN_nonneg X Y : 0 <= X → RN X Y → 0 <= Y.
Proof.
  intros HX (e & k & Hc & -> & Ha & Ht).
  pose proof (bpow_pos e) as Hp. apply Rabs_half_cases in Ha.
  assert (0 <= X / bpow e) as HZ.
  { apply Rmult_le_pos; [done|]. by apply Rlt_le, Rinv_0_lt_compat. }
  assert (0 <= k)%Z as Hk.
  { apply Z.lt_succ_r. apply lt_IZR. rewrite succ_IZR. lra. }
  apply IZR_le in Hk. nra.
Qed.

Lemma RN_error X Y :
  0 <= X → RN X Y → Rabs (Y - X) <= X * bpow (-53) + bpow (-1075).
Proof.
  intros HX (e & k & (d & -> & Hd & Hlow) & -> & Ha & Ht).
  set (e := fexp64 d) in *. pose proof (bpow_pos e) as Hp.
  assert (IZR k * bpow e - X = (IZR k - X / bpow e) * bpow e) as ->
    by (field; lra).
  rewrite Rabs_mult, (Rabs_pos_eq (bpow e)) by lra.
  assert (Rabs (IZR k - X / bpow e) * bpow e <= bpow (e - 1)) as Hle.
  { replace (e - 1)%Z with (-1 + e)%Z by lia. rewrite bpow_add.
    change (bpow (-1)) with (/ 2). nra. }
  pose proof (bpow_pos (-53)). pose proof (bpow_pos (-1075)).
  destruct (Z.le_gt_cases e (-1074)) as [Hs|Hn].
  - pose proof (bpow_le (e - 1) (-1075) ltac:(lia)). nra.
  - assert (e = d - 53)%Z as Ee by (unfold e, fexp64 in *; lia).
    destruct Hlow as [Hlow|?]; [|unfold e, fexp64 in *; lia].
    assert (bpow (e - 1) = bpow (d - 1) * bpow (-53)) as E.
    { rewrite <-bpow_add. f_equal. lia. }
    nra.
Qed.

Lemma IZR_shift r n : (0 <= n)%Z → IZR (r * 2 ^ n) = IZR r * bpow n.
Proof. intros Hn. by rewrite mult_IZR, bpow_IZR. Qed.

Lemma RN_repr X : Repr X → RN X X.
Proof.
  intros (r & e0 & -> & Hr & He0). pose proof (bpow_pos e0) as Hp0.
  destruct (Z.eq_dec r 0%Z) as [->|Hne].
  - exists (-1074)%Z, 0%Z. rewrite !Rmult_0_l. split; [|split; [done|]].
    + exists (-1074)%Z. split; [done|]. split; [apply bpow_pos|by right].
    + unfold Rdiv. rewrite Rmult_0_l, Rminus_diag, Rabs_R0. split; lra.
  - set (d := (Zdigits2 r + e0)%Z).
    pose proof (Zdigits2_lower r ltac:(lia)) as Hl.
    pose proof (Zdigits2_upper r ltac:(lia)) as Hu.
    pose proof (Zdigits2_nonneg r) as Hd0.
    assert (Zdigits2 r <= 53)%Z as Hd53.
    { destruct (Z.le_gt_cases (Zdigits2 r) 53%Z) as [|Hgt]; [done|].
      assert (2 ^ 53 <= 2 ^ (Zdigits2 r - 1))%Z
        by (apply Z.pow_le_mono_r; lia).
      lia. }
    assert (1 <= Zdigits2 r)%Z as Hd1.
    { destruct r; simpl; lia. }
    set (e := fexp64 d). assert (e <= e0)%Z as Hee by (unfold e, fexp64, d; lia).
    pose proof (bpow_pos e) as Hp.
    exists e, (r * 2 ^ (e0 - e))%Z.
    assert (IZR (r * 2 ^ (e0 - e)) = IZR r * bpow e0 / bpow e) as Ek.
    { rewrite IZR_shift by lia. rewrite <-bpow_div. field. lra. }
    split; [|split].
    + exists d. split; [done|]. apply IZR_le in Hl, Hu.
      rewrite plus_IZR in Hu. rewrite <-bpow_IZR in Hl, Hu by lia.
      unfold d. replace (Zdigits2 r + e0 - 1)%Z with ((Zdigits2 r - 1) + e0)%Z by lia.
      rewrite !bpow_add. split; [nra|left; nra].
    + rewrite Ek. field. lra.
    + rewrite Ek, Rminus_diag, Rabs_R0. split; lra.
Qed.

Lemma RN_mono X X' Y Y' : 0 <= X <= X' → RN X Y → RN X' Y' → Y <= Y'.
Proof.
  intros [HX0 HXX] H H'.
  destruct (Req_dec X X') as [<-|Hne].
  { rewrite (RN_unique _ _ _ H H'). lra. }
  pose proof (RN_nonneg X' Y' ltac:(lra) H') as HY'0.
  destruct H as (e & k & Hc & -> & Ha & _).
  destruct H' as (e' & k' & Hc' & -> & Ha' & _).
  pose proof (canon_le _ _ _ _ HXX Hc Hc') as Hee.
  pose proof (bpow_pos e) as Hp. pose proof (bpow_pos e') as Hp'.
  apply Rabs_half_cases in Ha, Ha'.
  destruct (Z.eq_dec e e') as [<-|Hnee].
  - assert (X / bpow e < X' / bpow e) as Hlt.
    { apply Rmult_lt_compat_r; [by apply Rinv_0_lt_compat|lra]. }
    assert (k <= k')%Z as Hk.
    { apply Z.lt_succ_r, lt_IZR. rewrite succ_IZR. lra. }
    apply IZR_le in Hk. nra.
  - destruct Hc as (d & -> & Hd & Hlow), Hc' as (d' & -> & Hd' & Hlow').
    assert (d < d')%Z as Hdd by (unfold fexp64 in *; lia).
    assert (-1021 < d')%Z as Hd'n by (unfold fexp64 in *; lia).
    destruct Hlow' as [Hlow'|?]; [|lia].
    assert (fexp64 d' = d' - 53)%Z as Ee' by (unfold fexp64; lia).
    (* the upper number is at least [bpow (d' - 1)] *)
    assert (bpow (d' - 1) <= IZR k' * bpow (fexp64 d')) as HB'.
    { rewrite Ee' in *.
      assert (bpow (d' - 1) = bpow 52 * bpow (d' - 53)) as E.
      { rewrite <-bpow_add. f_equal. lia. }
      assert (bpow 52 <= X' / bpow (d' - 53)) as HZ'.
      { apply Rmult_le_reg_r with (bpow (d' - 53)); [done|].
        rewrite <-E. replace (X' / bpow (d' - 53) * bpow (d' - 53)) with X'
          by (field; lra). done. }
      assert (2 ^ 52 - 1 < k')%Z as Hk'0.
      { apply lt_IZR. rewrite minus_IZR, <-bpow_IZR by lia. lra. }
      assert (2 ^ 52 <= k')%Z as Hk' by lia.
      apply IZR_le in Hk'. rewrite <-bpow_IZR in Hk' by lia. rewrite E. nra. }
    (* the lower number is at most [bpow d] *)
    assert (IZR k * bpow (fexp64 d) <= bpow d) as HB.
    { destruct (Z.le_gt_cases (fexp64 d) d) as [Hed|Hed].
      - assert (bpow d = bpow (d - fexp64 d) * bpow (fexp64 d)) as E.
        { rewrite <-bpow_add. f_equal. lia. }
        assert (X / bpow (fexp64 d) < bpow (d - fexp64 d)) as HZ.
        { rewrite <-bpow_div. apply Rmult_lt_compat_r;
            [by apply Rinv_0_lt_compat|done]. }
        assert (k <= 2 ^ (d - fexp64 d))%Z as Hk.
        { apply Z.lt_succ_r, lt_IZR.
          rewrite succ_IZR, <-bpow_IZR by lia. lra. }
        apply IZR_le in Hk. rewrite <-bpow_IZR in Hk by lia. rewrite E. nra.
      - assert (X / bpow (fexp64 d) < / 2) as HZ.
        { assert (bpow d <= bpow (-1 + fexp64 d)) as Hle
            by (apply bpow_le; lia).
          rewrite bpow_add in Hle. change (bpow (-1)) with (/ 2) in Hle.
          apply Rmult_lt_reg_r with (bpow (fexp64 d)); [done|].
          replace (X / bpow (fexp64 d) * bpow (fexp64 d)) with X
            by (field; lra). lra. }
        assert (k <= 0)%Z as Hk.
        { apply Z.lt_succ_r, lt_IZR. rewrite succ_IZR. lra. }
        apply IZR_le in Hk. pose proof (bpow_pos d). nra. }
    pose proof (bpow_le d (d' - 1) ltac:(lia)). lra.
Qed.

(** A rounding does not cross a binary64 number. *)
Lemma RN_le_repr X Y B : 0 <= X <= B → RN X Y → Repr B → Y <= B.
Proof. intros HX H HB. eapply RN_mono; [done|done|by apply RN_repr]. Qed.

Lemma RN_ge_repr X Y B : 0 <= B <= X → RN X Y → Repr B → B <= Y.
Proof. intros HX H HB. eapply RN_mono; [done|by apply RN_repr|done]. Qed.

Lemma RN_exact X Y : Repr X → RN X Y → Y = X.
Proof. intros HX H. eapply RN_unique; [done|by apply RN_repr]. Qed.

(** *** The value of a binary64 number *)

Lemma Zdigits2_gt m k : (0 <= k)%Z → (2 ^ k <= m)%Z → (k < Zdigits2 m)%Z.
Proof.
  intros Hk Hm. pose proof (Zdigits2_upper m ltac:(pose proof (Z.pow_pos_nonneg 2 k); lia)) as Hu.
  apply (Z.pow_lt_mono_r_iff 2); [lia|apply Zdigits2_nonneg|lia].
Qed.

Lemma Zdigits2_le m k : (0 < m)%Z → (m < 2 ^ k)%Z → (Zdigits2 m <= k)%Z.
Proof.
  intros Hm Hk. pose proof (Zdigits2_lower m Hm) as Hl.
  destruct (Z.le_gt_cases (Zdigits2 m) k) as [|Hgt]; [done|].
  assert (0 <= k)%Z.
  { destruct (Z.le_gt_cases 0 k) as [|Hneg]; [done|].
    rewrite Z.pow_neg_r in Hk by done. lia. }
  assert (2 ^ k <= 2 ^ (Zdigits2 m - 1))%Z by (apply Z.pow_le_mono_r; lia).
  lia.
Qed.

Lemma SFabsV_nonneg x : 0 <= SFabsV x.
Proof.
  destruct x as [| | |s m e]; simpl; try lra.
  pose proof (bpow_pos e). pose proof (IZR_lt 0 (Z.pos m) ltac:(lia)). nra.
Qed.

Lemma valid_finite s m e :
  valid_binary (S754_finite s m e) = true →
  e = fexp64 (Z.pos (digits2_pos m) + e) ∧ (e <= 971)%Z.
Proof.
  cbn [SpecFloat.valid_binary]. unfold bounded, canonical_mantissa.
  intros H. apply andb_prop in H as [H1 H2].
  apply Z.eqb_eq in H1. apply Z.leb_le in H2.
  change (fexp prec emax) with fexp64 in H1. change (emax - prec)%Z with 971%Z in H2.
  done.
Qed.

Lemma valid_finite_digits s m e :
  valid_binary (S754_finite s m e) = true →
  (1 <= Z.pos (digits2_pos m) <= 53)%Z ∧ (-1074 <= e <= 971)%Z
  ∧ (Z.pos m < 2 ^ 53)%Z.
Proof.
  intros H. apply valid_finite in H as [H1 H2]. unfold fexp64 in H1.
  pose proof (digits2_pos_bounds m) as Hb.
  assert (Z.pos (digits2_pos m) <= 53)%Z as Hd by lia.
  split; [lia|]. split; [lia|].
  assert (2 ^ Z.pos (digits2_pos m) <= 2 ^ 53)%Z by (apply Z.pow_le_mono_r; lia).
  lia.
Qed.

Lemma SFabsV_repr x :
  SFfin x = true → valid_binary x = true → Repr (SFabsV x).
Proof.
  destruct x as [s| | |s m e]; intros Hf Hv; try done.
  - exists 0%Z, 0%Z. simpl. split; [lra|lia].
  - apply valid_finite_digits in Hv as (Hd & He & Hm).
    exists (Z.pos m), e. simpl. split; [done|lia].
Qed.

Lemma RN_0 Y : RN 0 Y → Y = 0.
Proof.
  intros H. apply (RN_exact 0 Y); [|done].
  exists 0%Z, 0%Z. split; [lra|lia].
Qed.

Lemma RN_0_0 : RN 0 0.
Proof. apply RN_repr. exists 0%Z, 0%Z. split; [lra|lia]. Qed.

(** *** The operations *)

Lemma SFmag_fin r s Y : SFmag r s Y → SFfin r = true ∧ SFsign r = s ∧ SFabsV r = Y.
Proof. intros [[-> ->]|(m & e & -> & ->)]; done. Qed.

Lemma SFmul_spec a b :
  SFfin a = true → SFfin b = true →
  valid_binary a = true → valid_binary b = true →
  SFabsV a * SFabsV b < bpow 1000 →
  ∃ Y, RN (SFabsV a * SFabsV b) Y
       ∧ SFmag (SFmul prec emax a b) (xorb (SFsign a) (SFsign b)) Y.
Proof.
  intros Ha Hb Va Vb HX.
  destruct a as [sa| | |sa ma ea], b as [sb| | |sb mb eb]; try done;
    cbn [SFmul SFabsV SFsign] in *;
    rewrite ?Rmult_0_l, ?Rmult_0_r;
    try (exists 0; split; [apply RN_0_0|by left]).
  apply valid_finite_digits in Va as Va'. apply valid_finite_digits in Vb as Vb'.
  apply valid_finite in Va as [Ea _]. apply valid_finite in Vb as [Eb _].
  destruct Va' as (Hda & Hea & Hma), Vb' as (Hdb & Heb & Hmb).
  pose proof (digits2_pos_bounds ma) as Hba.
  pose proof (digits2_pos_bounds mb) as Hbb.
  apply binary_round_aux_spec; [lia| | |done].
  - cbn [inbetween]. rewrite Pos2Z.inj_mul, mult_IZR, bpow_add.
    pose proof (bpow_pos ea). pose proof (bpow_pos eb). field. split; lra.
  - assert (Z.pos (digits2_pos ma) + Z.pos (digits2_pos mb) - 2
            < Zdigits2 (Z.pos (ma * mb)))%Z as HD.
    { apply Zdigits2_gt; [lia|]. rewrite Pos2Z.inj_mul.
      replace (Z.pos (digits2_pos ma) + Z.pos (digits2_pos mb) - 2)%Z
        with ((Z.pos (digits2_pos ma) - 1) + (Z.pos (digits2_pos mb) - 1))%Z
        by lia.
      rewrite Z.pow_add_r by lia. nia. }
    unfold fexp64 in *. lia.
Qed.

Lemma iter_xO m d : Z.pos (Pos.iter xO m d) = (Z.pos m * 2 ^ Z.pos d)%Z.
Proof.
  induction d as [|d IH] using Pos.peano_ind.
  - change (Z.pos m~0 = Z.pos m * 2)%Z. lia.
  - rewrite Pos.iter_succ, Pos2Z.inj_succ, Z.pow_succ_r by lia.
    change (Z.pos (Pos.iter xO m d)~0) with (2 * Z.pos (Pos.iter xO m d))%Z.
    rewrite IH. lia.
Qed.

Lemma shl_align_spec mx ex ex' :
  let ez := Z.min ex ex' in
  shl_align mx ex ex' = (Z.to_pos (Z.pos mx * 2 ^ (ex - ez)), ez).
Proof.
  unfold shl_align. cbv zeta.
  destruct (ex' - ex)%Z as [|d|d] eqn:E.
  - replace (Z.min ex ex') with ex by lia.
    rewrite Z.sub_diag, Z.mul_1_r. done.
  - replace (Z.min ex ex') with ex by lia.
    rewrite Z.sub_diag, Z.mul_1_r. done.
  - replace (Z.min ex ex') with ex' by lia.
    replace (ex - ex')%Z with (Z.pos d) by lia.
    by rewrite <-iter_xO.
Qed.

Lemma Zdigits2_shift m k :
  (0 < m)%Z → (0 <= k)%Z → Zdigits2 (m * 2 ^ k) = (Zdigits2 m + k)%Z.
Proof.
  intros Hm Hk.
  pose proof (Zdigits2_lower m Hm) as Hl. pose proof (Zdigits2_upper m ltac:(lia)) as Hu.
  pose proof (Z.pow_pos_nonneg 2 k ltac:(lia) Hk) as Hp.
  assert (1 <= Zdigits2 m)%Z as Hd1 by (destruct m; simpl in *; lia).
  apply Z.le_antisymm.
  - apply Zdigits2_le; [nia|]. rewrite Z.pow_add_r by lia. nia.
  - assert (Zdigits2 m + k - 1 < Zdigits2 (m * 2 ^ k))%Z; [|lia].
    apply Zdigits2_gt; [lia|].
    replace (Zdigits2 m + k - 1)%Z with ((Zdigits2 m - 1) + k)%Z by lia.
    rewrite Z.pow_add_r by lia. nia.
Qed.

Lemma binary_round_spec sx mx ex :
  IZR (Z.pos mx) * bpow ex < bpow 1000 →
  ∃ Y, RN (IZR (Z.pos mx) * bpow ex) Y
       ∧ SFmag (binary_round prec emax sx mx ex) sx Y.
Proof.
  intros HX. unfold binary_round. change (fexp prec emax) with fexp64.
  rewrite shl_align_spec. cbv zeta.
  set (e' := fexp64 (Z.pos (digits2_pos mx) + ex)).
  set (ez := Z.min ex e').
  pose proof (Z.pow_pos_nonneg 2 (ex - ez) ltac:(lia) ltac:(lia)) as Hp.
  assert (Z.pos (Z.to_pos (Z.pos mx * 2 ^ (ex - ez)))
          = (Z.pos mx * 2 ^ (ex - ez))%Z) as Emz by (apply Z2Pos.id; nia).
  rewrite Emz.
  assert (IZR (Z.pos mx * 2 ^ (ex - ez)) * bpow ez = IZR (Z.pos mx) * bpow ex)
    as EX.
  { rewrite IZR_shift by lia. rewrite Rmult_assoc, <-bpow_add.
    do 2 f_equal. lia. }
  apply binary_round_aux_spec; [lia| | |done].
  - cbn [inbetween]. rewrite <-EX. pose proof (bpow_pos ez). field. lra.
  - rewrite Zdigits2_shift by lia. cbn [Zdigits2].
    replace (Z.pos (digits2_pos mx) + (ex - ez) + ez)%Z
      with (Z.pos (digits2_pos mx) + ex)%Z by lia.
    fold e'. lia.
Qed.

Lemma binary_normalize_spec z ez :
  Rabs (IZR z * bpow ez) < bpow 1000 →
  ∃ Y, RN (Rabs (IZR z * bpow ez)) Y
       ∧ SFmag (binary_normalize prec emax z ez false) (z <? 0)%Z Y.
Proof.
  intros HX. pose proof (bpow_pos ez) as Hp.
  destruct z as [|m|m]; cbn [binary_normalize Z.ltb Z.compare].
  - rewrite Rmult_0_l, Rabs_R0. exists 0. split; [apply RN_0_0|by left].
  - pose proof (IZR_lt 0 (Z.pos m) ltac:(lia)).
    rewrite Rabs_pos_eq in * by nra. by apply binary_round_spec.
  - pose proof (IZR_lt (Z.neg m) 0 ltac:(lia)).
    assert (Rabs (IZR (Z.neg m) * bpow ez) = IZR (Z.pos m) * bpow ez) as E.
    { rewrite Rabs_left by nra. change (Z.neg m) with (- Z.pos m)%Z.
      rewrite opp_IZR. lra. }
    rewrite E in *. by apply binary_round_spec.
Qed.

Lemma SFV_SFabsV x : Rabs (SFV x) = SFabsV x.
Proof.
  pose proof (SFabsV_nonneg x). unfold SFV. destruct (SFsign x).
  - rewrite Rabs_Ropp. by apply Rabs_pos_eq.
  - by apply Rabs_pos_eq.
Qed.

Lemma SFV_finite s m e :
  SFV (S754_finite s m e) = IZR (cond_Zopp s (Z.pos m)) * bpow e.
Proof.
  unfold SFV. cbn [SFsign SFabsV cond_Zopp]. destruct s; [|done].
  rewrite opp_IZR. lra.
Qed.

Lemma rounds_self b :
  SFfin b = true → valid_binary b = true →
  SFmag b (SFsign b) (SFabsV b) ∧ RN (Rabs (SFV b)) (SFabsV b)
  ∧ (if SFsign b then SFV b <= 0 else 0 <= SFV b).
Proof.
  intros Hf Hv. pose proof (SFabsV_nonneg b) as Hn. split; [|split].
  - destruct b; try done; [by left|right; by eexists _, _].
  - rewrite SFV_SFabsV. by apply RN_repr, SFabsV_repr.
  - unfold SFV. destruct (SFsign b); lra.
Qed.

Lemma shl_align_fst_value mx ex ez :
  (ez <= ex)%Z →
  IZR (Z.pos (shl_align mx ex ez).1) * bpow ez = IZR (Z.pos mx) * bpow ex.
Proof.
  intros Hle. rewrite shl_align_spec. cbv zeta. cbn [fst].
  replace (Z.min ex ez) with ez by lia.
  pose proof (Z.pow_pos_nonneg 2 (ex - ez) ltac:(lia) ltac:(lia)) as Hp.
  rewrite Z2Pos.id by nia. rewrite IZR_shift by lia.
  rewrite Rmult_assoc, <-bpow_add. do 2 f_equal. lia.
Qed.

Lemma aligned_value s mx ex ez :
  (ez <= ex)%Z →
  IZR (cond_Zopp s (Z.pos (shl_align mx ex ez).1)) * bpow ez
  = SFV (S754_finite s mx ex).
Proof.
  intros Hle. rewrite SFV_finite.
  pose proof (shl_align_fst_value mx ex ez Hle) as E.
  destruct s; cbn [cond_Zopp]; rewrite ?opp_IZR; lra.
Qed.

(** The sum and the difference. *)
Lemma SFadd_spec a b :
  SFfin a = true → SFfin b = true →
  valid_binary a = true → valid_binary b = true →
  Rabs (SFV a + SFV b) < bpow 1000 →
  ∃ Y s, SFmag (SFadd prec emax a b) s Y ∧ RN (Rabs (SFV a + SFV b)) Y
         ∧ (if s then SFV a + SFV b <= 0 else 0 <= SFV a + SFV b)
         ∧ (SFnn a = true → SFnn b = true → s = false).
Proof.
  intros Ha Hb Va Vb HX.
  destruct a as [sa| | |sa ma ea], b as [sb| | |sb mb eb]; try done.
  - exists 0, (sa && sb). cbn [SFadd].
    replace (SFV (S754_zero sa) + SFV (S754_zero sb)) with 0
      by (unfold SFV; destruct sa, sb; simpl; lra).
    rewrite Rabs_R0. split; [|split; [apply RN_0_0|]].
    + destruct sa, sb; by left.
    + split; [destruct (sa && sb); lra|]. by destruct sa.
  - destruct (rounds_self _ Hb Vb) as (H1 & H2 & H3).
    replace (SFV (S754_zero sa) + SFV (S754_finite sb mb eb))
      with (SFV (S754_finite sb mb eb)) by (unfold SFV; destruct sa; simpl; lra).
    exists (SFabsV (S754_finite sb mb eb)), sb. cbn [SFadd].
    split; [done|]. split; [done|]. split; [done|].
    intros _ H. by destruct sb.
  - destruct (rounds_self _ Ha Va) as (H1 & H2 & H3).
    replace (SFV (S754_finite sa ma ea) + SFV (S754_zero sb))
      with (SFV (S754_finite sa ma ea)) by (unfold SFV; destruct sb; simpl; lra).
    exists (SFabsV (S754_finite sa ma ea)), sa. cbn [SFadd].
    split; [done|]. split; [done|]. split; [done|].
    intros H _. by destruct sa.
  - cbn [SFadd]. set (ez := Z.min ea eb).
    set (z := (cond_Zopp sa (Z.pos (shl_align ma ea ez).1)
               + cond_Zopp sb (Z.pos (shl_align mb eb ez).1))%Z).
    assert (SFV (S754_finite sa ma ea) + SFV (S754_finite sb mb eb)
            = IZR z * bpow ez) as EX.
    { unfold z. rewrite plus_IZR, Rmult_plus_distr_r.
      rewrite !aligned_value by lia. done. }
    rewrite EX in *.
    destruct (binary_normalize_spec z ez HX) as (Y & HRN & Hmag).
    exists Y, (z <? 0)%Z. split; [done|]. split; [done|].
    pose proof (bpow_pos ez) as Hp.
    destruct (Z.ltb_spec z 0) as [Hz|Hz]; apply IZR_le in Hz || apply IZR_lt in Hz.
    + split; [nra|]. intros H1 H2. destruct sa, sb; try done.
      exfalso. unfold z in Hz. cbn [cond_Zopp] in Hz.
      apply lt_IZR in Hz. lia.
    + split; [nra|done].
Qed.

Lemma SFsub_spec a b :
  SFfin a = true → SFfin b = true →
  valid_binary a = true → valid_binary b = true →
  Rabs (SFV a - SFV b) < bpow 1000 →
  ∃ Y s, SFmag (SFsub prec emax a b) s Y ∧ RN (Rabs (SFV a - SFV b)) Y
         ∧ (if s then SFV a - SFV b <= 0 else 0 <= SFV a - SFV b)
         ∧ (SFnn a = true → SFnn b = true → 0 <= SFV a - SFV b → s = false).
Proof.
  intros Ha Hb Va Vb HX.
  destruct a as [sa| | |sa ma ea], b as [sb| | |sb mb eb]; try done.
  - exists 0, (sa && negb sb). cbn [SFsub].
    replace (SFV (S754_zero sa) - SFV (S754_zero sb)) with 0
      by (unfold SFV; destruct sa, sb; simpl; lra).
    rewrite Rabs_R0. split; [|split; [apply RN_0_0|]].
    + destruct sa, sb; by left.
    + split; [destruct (sa && negb sb); lra|]. by destruct sa.
  - assert (valid_binary (S754_finite (negb sb) mb eb) = true) as Vb' by done.
    destruct (rounds_self (S754_finite (negb sb) mb eb) Hb Vb') as (H1 & H2 & H3).
    replace (SFV (S754_zero sa) - SFV (S754_finite sb mb eb))
      with (SFV (S754_finite (negb sb) mb eb))
      by (unfold SFV; destruct sa, sb; simpl; lra).
    exists (SFabsV (S754_finite sb mb eb)), (negb sb). cbn [SFsub].
    split; [done|]. split; [done|]. split; [done|].
    intros _ H Hge. destruct sb; [done|]. exfalso.
    cbn [negb SFsign] in H3.
    pose proof (IZR_lt 0 (Z.pos mb) ltac:(lia)). pose proof (bpow_pos eb).
    unfold SFV in *. cbn [SFsign SFabsV negb] in *. nra.
  - destruct (rounds_self _ Ha Va) as (H1 & H2 & H3).
    replace (SFV (S754_finite sa ma ea) - SFV (S754_zero sb))
      with (SFV (S754_finite sa ma ea)) by (unfold SFV; destruct sb; simpl; lra).
    exists (SFabsV (S754_finite sa ma ea)), sa. cbn [SFsub].
    split; [done|]. split; [done|]. split; [done|].
    intros H _ _. by destruct sa.
  - cbn [SFsub]. set (ez := Z.min ea eb).
    set (z := (cond_Zopp sa (Z.pos (shl_align ma ea ez).1)
               - cond_Zopp sb (Z.pos (shl_align mb eb ez).1))%Z).
    assert (SFV (S754_finite sa ma ea) - SFV (S754_finite sb mb eb)
            = IZR z * bpow ez) as EX.
    { unfold z. rewrite minus_IZR, Rmult_minus_distr_r.
      rewrite !aligned_value by lia. done. }
    rewrite EX in *.
    destruct (binary_normalize_spec z ez HX) as (Y & HRN & Hmag).
    exists Y, (z <? 0)%Z. split; [done|]. split; [done|].
    pose proof (bpow_pos ez) as Hp.
    destruct (Z.ltb_spec z 0) as [Hz|Hz]; apply IZR_le in Hz || apply IZR_lt in Hz.
    + split; [nra|]. intros _ _ Hge. exfalso. nra.
    + split; [nra|done].
Qed.

(** The quotient. *)
Lemma new_location_spec nb q k :
  (0 <= k < nb)%Z →
  inbetween (IZR q + IZR k / IZR nb) q (new_location nb k).
Proof.
  intros Hk. assert (0 < IZR nb) as Hnb by (apply IZR_lt; lia).
  assert (0 <= IZR k < IZR nb) as Hk' by (split; [apply IZR_le|apply IZR_lt]; lia).
  assert (new_location nb k
          = if (k =? 0)%Z then loc_Exact
            else loc_Inexact
                   (if Z.even nb then (2 * k ?= nb)%Z
                    else match (2 * k + 1 ?= nb)%Z with
                         | Gt => Gt | _ => Lt
                         end)) as ->.
  { unfold new_location, new_location_even, new_location_odd.
    destruct (Z.even nb), (k =? 0)%Z; try done. }
  destruct (Z.eqb_spec k 0) as [->|Hk0].
  { cbn [inbetween]. unfold Rdiv. by rewrite Rmult_0_l, Rplus_0_r. }
  assert (0 < IZR k) by (apply IZR_lt; lia).
  assert (0 < IZR k / IZR nb) as Hpos by (apply Rdiv_lt_0_compat; lra).
  assert (IZR k / IZR nb < 1) as Hlt1.
  { apply Rmult_lt_reg_r with (IZR nb); [done|].
    unfold Rdiv. rewrite Rmult_assoc, Rinv_l by lra. lra. }
  assert (IZR k * 2 < IZR nb → IZR k / IZR nb < / 2) as Hc1.
  { intros Hc. apply Rmult_lt_reg_r with (IZR nb); [done|].
    unfold Rdiv. rewrite Rmult_assoc, Rinv_l by lra. lra. }
  assert (IZR k * 2 = IZR nb → IZR k / IZR nb = / 2) as Hc2.
  { intros Hc. rewrite <-Hc. field. lra. }
  assert (IZR nb < IZR k * 2 → / 2 < IZR k / IZR nb) as Hc3.
  { intros Hc. apply Rmult_lt_reg_r with (IZR nb); [done|].
    unfold Rdiv. rewrite (Rmult_assoc (IZR k)), Rinv_l by lra. lra. }
  destruct (Z.even nb) eqn:Ev.
  - destruct (Z.compare_spec (2 * k) nb) as [E|E|E]; cbn [inbetween].
    + apply (f_equal IZR) in E. rewrite mult_IZR in E. rewrite Hc2; lra.
    + apply IZR_lt in E. rewrite mult_IZR in E. specialize (Hc1 ltac:(lra)). lra.
    + apply IZR_lt in E. rewrite mult_IZR in E. specialize (Hc3 ltac:(lra)). lra.
  - assert (2 * k ≠ nb)%Z as Hodd.
    { intros <-. rewrite Z.even_mul in Ev. done. }
    destruct (Z.compare_spec (2 * k + 1) nb) as [E|E|E]; cbn [inbetween].
    + assert (2 * k < nb)%Z as E' by lia. apply IZR_lt in E'.
      rewrite mult_IZR in E'. specialize (Hc1 ltac:(lra)). lra.
    + assert (2 * k < nb)%Z as E' by lia. apply IZR_lt in E'.
      rewrite mult_IZR in E'. specialize (Hc1 ltac:(lra)). lra.
    + assert (nb < 2 * k)%Z as E' by lia. apply IZR_lt in E'.
      rewrite mult_IZR in E'. specialize (Hc3 ltac:(lra)). lra.
Qed.

Lemma SFdiv_core_binary_spec m1 e1 m2 e2 :
  (0 < m1)%Z → (0 < m2)%Z →
  let '(q, e', l) := SFdiv_core_binary prec emax m1 e1 m2 e2 in
  (0 <= q)%Z
  ∧ inbetween (IZR m1 * bpow e1 / (IZR m2 * bpow e2) / bpow e') q l
  ∧ (e' <= fexp64 (Zdigits2 q + e'))%Z.
Proof.
  intros H1 H2. unfold SFdiv_core_binary. change (fexp prec emax) with fexp64.
  set (d1 := Zdigits2 m1). set (d2 := Zdigits2 m2).
  set (e' := Z.min (fexp64 (d1 + e1 - (d2 + e2))) (e1 - e2)).
  set (s := (e1 - e2 - e')%Z).
  assert (0 <= s)%Z as Hs by (unfold s, e'; lia).
  assert (match s with
          | Z.pos _ => Z.shiftl m1 s | 0%Z => m1 | Z.neg _ => 0%Z
          end = (m1 * 2 ^ s)%Z) as ->.
  { destruct s as [|p|p] eqn:Es; [lia| |lia]. by rewrite Z.shiftl_mul_pow2. }
  pose proof (Z.pow_pos_nonneg 2 s ltac:(lia) Hs) as Hps.
  pose proof (Z_div_mod (m1 * 2 ^ s) m2 ltac:(lia)) as Hdm.
  destruct (Z.div_eucl (m1 * 2 ^ s) m2) as [q r]. destruct Hdm as [Eq Hr].
  assert (0 <= q)%Z as Hq by nia.
  split; [done|]. split.
  - assert (IZR m1 * bpow e1 / (IZR m2 * bpow e2) / bpow e'
            = IZR q + IZR r / IZR m2) as ->.
    { assert (0 < IZR m2) by (apply IZR_lt; lia).
      pose proof (bpow_pos e1). pose proof (bpow_pos e2). pose proof (bpow_pos e').
      apply (f_equal IZR) in Eq. rewrite IZR_shift, plus_IZR, mult_IZR in Eq by done.
      assert (bpow e1 = bpow s * bpow e2 * bpow e') as ->.
      { rewrite <-!bpow_add. f_equal. unfold s. lia. }
      apply Rmult_eq_reg_r with (IZR m2); [|lra].
      replace ((IZR q + IZR r / IZR m2) * IZR m2) with (IZR m2 * IZR q + IZR r)
        by (field; lra).
      rewrite <-Eq. field. repeat split; lra. }
    by apply new_location_spec.
  - destruct (Z.le_gt_cases e' (-1074)) as [|Hn]; [unfold fexp64; lia|].
    assert (e' <= d1 + e1 - (d2 + e2) - 53)%Z as He' by (unfold e', fexp64 in *; lia).
    assert (2 ^ 52 <= q)%Z as Hq52.
    { pose proof (Zdigits2_lower m1 H1) as Hl1. fold d1 in Hl1.
      pose proof (Zdigits2_upper m2 ltac:(lia)) as Hu2. fold d2 in Hu2.
      assert (1 <= d1)%Z by (unfold d1; destruct m1; simpl in *; lia).
      assert (1 <= d2)%Z by (unfold d2; destruct m2; simpl in *; lia).
      assert (2 ^ (d2 + 52) <= m1 * 2 ^ s)%Z as Hm'.
      { assert (2 ^ (d2 + 52) <= 2 ^ (d1 - 1 + s))%Z as Hle
          by (apply Z.pow_le_mono_r; unfold s; lia).
        rewrite (Z.pow_add_r 2 (d1 - 1) s) in Hle by lia.
        pose proof (Z.mul_le_mono_nonneg_r _ _ (2 ^ s) ltac:(lia) Hl1). lia. }
      rewrite Z.pow_add_r in Hm' by lia.
      destruct (Z.le_gt_cases (2 ^ 52) q) as [|Hlt]; [done|exfalso].
      assert (q + 1 <= 2 ^ 52)%Z by lia. nia. }
    pose proof (Zdigits2_gt q 52 ltac:(lia) Hq52). unfold fexp64. lia.
Qed.

Lemma SFdiv_spec a b :
  SFfin a = true → SFfin b = true →
  valid_binary a = true → valid_binary b = true →
  SFabsV b ≠ 0 →
  SFabsV a / SFabsV b < bpow 1000 →
  ∃ Y, RN (SFabsV a / SFabsV b) Y
       ∧ SFmag (SFdiv prec emax a b) (xorb (SFsign a) (SFsign b)) Y.
Proof.
  intros Ha Hb Va Vb Hb0 HX.
  destruct a as [sa| | |sa ma ea], b as [sb| | |sb mb eb]; try done;
    cbn [SFdiv SFabsV SFsign] in *.
  - unfold Rdiv. rewrite Rmult_0_l. exists 0. split; [apply RN_0_0|by left].
  - pose proof (SFdiv_core_binary_spec (Z.pos ma) ea (Z.pos mb) eb
                  ltac:(lia) ltac:(lia)) as H.
    destruct (SFdiv_core_binary prec emax (Z.pos ma) ea (Z.pos mb) eb)
      as [[mz ez] lz].
    destruct H as (Hq & Hin & Hez).
    by apply binary_round_aux_spec.
Qed.

(** *** Comparisons *)

Lemma canonical_lt m1 e1 m2 e2 s1 s2 :
  valid_binary (S754_finite s1 m1 e1) = true →
  valid_binary (S754_finite s2 m2 e2) = true →
  (e1 < e2)%Z → IZR (Z.pos m1) * bpow e1 < IZR (Z.pos m2) * bpow e2.
Proof.
  intros V1 V2 Hlt.
  apply valid_finite_digits in V1 as V1'. apply valid_finite_digits in V2 as V2'.
  apply valid_finite in V1 as [E1 _]. apply valid_finite in V2 as [E2 _].
  destruct V1' as (Hd1 & He1 & Hm1), V2' as (Hd2 & He2 & Hm2).
  pose proof (digits2_pos_bounds m2) as Hb2.
  assert (Z.pos (digits2_pos m2) = 53)%Z as Ed2 by (unfold fexp64 in *; lia).
  rewrite Ed2 in Hb2. change (53 - 1)%Z with 52%Z in Hb2.
  assert (IZR (Z.pos m1) < bpow 53).
  { rewrite bpow_IZR by lia. by apply IZR_lt. }
  assert (bpow 52 <= IZR (Z.pos m2)).
  { rewrite bpow_IZR by lia. apply IZR_le. lia. }
  assert (bpow (e1 + 1) <= bpow e2) as Hle by (apply bpow_le; lia).
  rewrite bpow_add, bpow_1 in Hle.
  assert (bpow 53 = 2 * bpow 52) as E53.
  { change 53%Z with (1 + 52)%Z. by rewrite bpow_add, bpow_1. }
  pose proof (bpow_pos e1). pose proof (bpow_pos e2). pose proof (bpow_pos 52).
  nra.
Qed.

Lemma SFabs_compare s1 m1 e1 s2 m2 e2 :
  valid_binary (S754_finite s1 m1 e1) = true →
  valid_binary (S754_finite s2 m2 e2) = true →
  cmp_rel (match (e1 ?= e2)%Z with
           | Lt => Lt | Gt => Gt | Eq => Pos.compare_cont Eq m1 m2
           end)
    (IZR (Z.pos m1) * bpow e1) (IZR (Z.pos m2) * bpow e2).
Proof.
  intros V1 V2. destruct (Z.compare_spec e1 e2) as [->|Hlt|Hgt].
  - change (Pos.compare_cont Eq m1 m2) with (m1 ?= m2)%positive.
    pose proof (bpow_pos e2).
    destruct (Pos.compare_spec m1 m2) as [->|Hlt|Hgt]; cbn [cmp_rel].
    + done.
    + apply Rmult_lt_compat_r; [done|]. apply IZR_lt. lia.
    + apply Rmult_lt_compat_r; [done|]. apply IZR_lt. lia.
  - by apply (canonical_lt _ _ _ _ s1 s2).
  - by apply (canonical_lt _ _ _ _ s2 s1).
Qed.

Lemma cmp_rel_opp c x y : cmp_rel c x y → cmp_rel (CompOpp c) (- x) (- y).
Proof. destruct c; cbn; lra. Qed.

Lemma SFcompare_spec a b :
  SFfin a = true → SFfin b = true →
  valid_binary a = true → valid_binary b = true →
  ∃ c, SFcompare a b = Some c ∧ cmp_rel c (SFV a) (SFV b).
Proof.
  intros Ha Hb Va Vb.
  destruct a as [sa| | |sa ma ea], b as [sb| | |sb mb eb]; try done;
    cbn [SFcompare].
  - exists Eq. split; [done|]. unfold SFV. destruct sa, sb; cbn; lra.
  - pose proof (IZR_lt 0 (Z.pos mb) ltac:(lia)). pose proof (bpow_pos eb).
    eexists. split; [done|]. unfold SFV.
    destruct sa, sb; cbn; nra.
  - pose proof (IZR_lt 0 (Z.pos ma) ltac:(lia)). pose proof (bpow_pos ea).
    eexists. split; [done|]. unfold SFV.
    destruct sa, sb; cbn; nra.
  - pose proof (IZR_lt 0 (Z.pos ma) ltac:(lia)). pose proof (bpow_pos ea).
    pose proof (IZR_lt 0 (Z.pos mb) ltac:(lia)). pose proof (bpow_pos eb).
    pose proof (SFabs_compare sa ma ea sb mb eb Va Vb) as Hc.
    eexists. split; [done|]. unfold SFV. cbn [SFsign SFabsV].
    destruct sa, sb.
    + apply cmp_rel_opp in Hc. by destruct (ea ?= eb)%Z.
    + cbn. nra.
    + cbn. nra.
    + done.
Qed.

(** *** Primitive numbers *)

Lemma FV_valid x : valid_binary (Prim2SF x) = true.
Proof. apply Prim2SF_valid. Qed.

Lemma NN_Fin x : NN x → Fin x.
Proof. unfold NN, Fin, SFnn. intros H. by apply andb_prop in H as [? _]. Qed.

Lemma NN_nonneg x : NN x → 0 <= FV x.
Proof.
  unfold NN, FV, SFnn, SFV. intros H. apply andb_prop in H as [_ H].
  apply negb_true_iff in H. rewrite H. apply SFabsV_nonneg.
Qed.

Lemma NN_FV x : NN x → FV x = SFabsV (Prim2SF x).
Proof.
  unfold NN, FV, SFnn, SFV. intros H. apply andb_prop in H as [_ H].
  apply negb_true_iff in H. by rewrite H.
Qed.

Lemma FV_abs x : Rabs (FV x) = SFabsV (Prim2SF x).
Proof. apply SFV_SFabsV. Qed.

Lemma Fin_repr x : Fin x → Repr (Rabs (FV x)).
Proof. intros H. rewrite FV_abs. apply SFabsV_repr; [done|apply FV_valid]. Qed.

Lemma NN_repr x : NN x → Repr (FV x).
Proof.
  intros H. rewrite <-(Rabs_pos_eq (FV x)) by (by apply NN_nonneg).
  by apply Fin_repr, NN_Fin.
Qed.

Lemma rounds_Round X r Y s :
  SFmag r s Y → RN (Rabs X) Y → (if s then X <= 0 else 0 <= X) →
  SFfin r = true ∧ Round X (SFV r) ∧ SFsign r = s.
Proof.
  intros Hmag HRN Hs. destruct (SFmag_fin _ _ _ Hmag) as (Hf & Hsg & Hv).
  split; [done|]. split; [|done]. unfold SFV. rewrite Hsg, Hv.
  destruct s.
  - right. split; [done|]. rewrite Ropp_involutive.
    by rewrite Rabs_left1 in HRN.
  - left. split; [done|]. by rewrite Rabs_pos_eq in HRN.
Qed.

Lemma Round_error X Y :
  Round X Y → Rabs (Y - X) <= Rabs X * bpow (-53) + bpow (-1075).
Proof.
  intros [[HX H]|[HX H]].
  - rewrite (Rabs_pos_eq X) by done. by apply RN_error.
  - rewrite (Rabs_left1 X) by done.
    replace (Y - X) with (- (- Y - - X)) by lra. rewrite Rabs_Ropp.
    apply RN_error; [lra|done].
Qed.

Lemma Round_nonneg X Y : 0 <= X → Round X Y → RN X Y.
Proof.
  intros HX [[_ H]|[HX' H]]; [done|].
  assert (X = 0) as -> by lra. rewrite Ropp_0 in H.
  apply RN_0 in H. assert (Y = 0) as -> by lra. apply RN_0_0.
Qed.

Lemma Round_exact X Y : Repr (Rabs X) → Round X Y → Y = X.
Proof.
  intros HX [[H0 H]|[H0 H]].
  - rewrite Rabs_pos_eq in HX by done. by apply RN_exact.
  - rewrite Rabs_left1 in HX by done.
    pose proof (RN_exact _ _ HX H). lra.
Qed.

Section Operations.
Context (x y : float) (Hx : Fin x) (Hy : Fin y).

Lemma mul_Round :
  Rabs (FV x * FV y) < bpow 1000 →
  Fin (x * y) ∧ Round (FV x * FV y) (FV (x * y)).
Proof.
  intros HX. unfold Fin, FV in *. rewrite mul_spec.
  rewrite Rabs_mult, !SFV_SFabsV in HX.
  destruct (SFmul_spec _ _ Hx Hy (FV_valid x) (FV_valid y) HX) as (Y & HRN & Hmag).
  rewrite <-!SFV_SFabsV, <-Rabs_mult in HRN.
  eapply rounds_Round in Hmag as (? & ? & ?); [done|done|].
  pose proof (SFabsV_nonneg (Prim2SF x)). pose proof (SFabsV_nonneg (Prim2SF y)).
  unfold SFV. destruct (SFsign (Prim2SF x)), (SFsign (Prim2SF y)); cbn; nra.
Qed.

Lemma add_Round :
  Rabs (FV x + FV y) < bpow 1000 →
  Fin (x + y) ∧ Round (FV x + FV y) (FV (x + y)).
Proof.
  intros HX. unfold Fin, FV in *. rewrite add_spec.
  destruct (SFadd_spec _ _ Hx Hy (FV_valid x) (FV_valid y) HX)
    as (Y & s & Hmag & HRN & Hs & _).
  by eapply rounds_Round in Hmag as (? & ? & ?).
Qed.

Lemma sub_Round :
  Rabs (FV x - FV y) < bpow 1000 →
  Fin (x - y) ∧ Round (FV x - FV y) (FV (x - y)).
Proof.
  intros HX. unfold Fin, FV in *. rewrite sub_spec.
  destruct (SFsub_spec _ _ Hx Hy (FV_valid x) (FV_valid y) HX)
    as (Y & s & Hmag & HRN & Hs & _).
  by eapply rounds_Round in Hmag as (? & ? & ?).
Qed.

Lemma div_Round :
  FV y ≠ 0 → Rabs (FV x / FV y) < bpow 1000 →
  Fin (x / y) ∧ Round (FV x / FV y) (FV (x / y)).
Proof.
  intros Hy0 HX. unfold Fin, FV in *. rewrite div_spec.
  assert (SFabsV (Prim2SF y) ≠ 0) as Hy0'.
  { rewrite <-SFV_SFabsV. by apply Rabs_no_R0. }
  unfold Rdiv in HX. rewrite Rabs_mult, Rabs_inv, !SFV_SFabsV in HX.
  destruct (SFdiv_spec _ _ Hx Hy (FV_valid x) (FV_valid y) Hy0' HX)
    as (Y & HRN & Hmag).
  unfold Rdiv in HRN. rewrite <-!SFV_SFabsV, <-Rabs_inv, <-Rabs_mult in HRN.
  eapply rounds_Round in Hmag as (? & ? & ?); [done|done|].
  pose proof (SFabsV_nonneg (Prim2SF x)). pose proof (SFabsV_nonneg (Prim2SF y)).
  assert (0 < / SFabsV (Prim2SF y)) by (apply Rinv_0_lt_compat; lra).
  unfold SFV, Rdiv.
  destruct (SFsign (Prim2SF x)), (SFsign (Prim2SF y)); cbn;
    rewrite ?Rinv_opp; nra.
Qed.

Lemma compare_R :
  ((x <? y)%float = true ↔ FV x < FV y)
  ∧ ((x =? y)%float = true ↔ FV x = FV y)
  ∧ ((x <=? y)%float = true ↔ FV x <= FV y).
Proof.
  rewrite FloatAxioms.ltb_spec, FloatAxioms.eqb_spec, FloatAxioms.leb_spec. unfold SFltb, SFeqb, SFleb, FV.
  destruct (SFcompare_spec _ _ Hx Hy (FV_valid x) (FV_valid y)) as (c & -> & Hc).
  destruct c; cbn in Hc; (repeat split; intros; try done; try lra).
Qed.

End Operations.

(** *** Signs *)

Lemma NN_intro x : Fin x → SFsign (Prim2SF x) = false → NN x.
Proof. unfold NN, Fin, SFnn. by intros -> ->. Qed.

Lemma NN_sign x : NN x → SFsign (Prim2SF x) = false.
Proof.
  unfold NN, SFnn. intros H. apply andb_prop in H as [_ H].
  by apply negb_true_iff in H.
Qed.

Lemma mul_NN x y :
  NN x → NN y → FV x * FV y < bpow 1000 →
  NN (x * y) ∧ RN (FV x * FV y) (FV (x * y)).
Proof.
  intros Hx Hy HX. pose proof (NN_nonneg x Hx). pose proof (NN_nonneg y Hy).
  assert (0 <= FV x * FV y) as HX0 by nra.
  destruct (mul_Round x y (NN_Fin _ Hx) (NN_Fin _ Hy)) as [Hf HR].
  { by rewrite Rabs_pos_eq. }
  split; [|by apply Round_nonneg]. apply NN_intro; [done|].
  assert (SFabsV (Prim2SF x) * SFabsV (Prim2SF y) < bpow 1000) as HX'.
  { by rewrite <-!NN_FV. }
  rewrite mul_spec. unfold SF64mul.
  destruct (SFmul_spec _ _ (NN_Fin _ Hx) (NN_Fin _ Hy) (FV_valid x) (FV_valid y) HX')
    as (Y & _ & Hmag).
  apply SFmag_fin in Hmag as (_ & -> & _).
  by rewrite (NN_sign x), (NN_sign y).
Qed.

Lemma add_NN x y :
  NN x → NN y → FV x + FV y < bpow 1000 →
  NN (x + y) ∧ RN (FV x + FV y) (FV (x + y)).
Proof.
  intros Hx Hy HX. pose proof (NN_nonneg x Hx). pose proof (NN_nonneg y Hy).
  assert (0 <= FV x + FV y) as HX0 by nra.
  destruct (add_Round x y (NN_Fin _ Hx) (NN_Fin _ Hy)) as [Hf HR].
  { by rewrite Rabs_pos_eq. }
  split; [|by apply Round_nonneg]. apply NN_intro; [done|].
  unfold Fin, FV in *. rewrite add_spec in *. unfold SF64add in *.
  destruct (SFadd_spec _ _ (NN_Fin _ Hx) (NN_Fin _ Hy) (FV_valid x) (FV_valid y))
    as (Y & s & Hmag & _ & _ & Hs).
  { by rewrite Rabs_pos_eq. }
  apply SFmag_fin in Hmag as (_ & -> & _). by apply Hs.
Qed.

Lemma sub_NN x y :
  NN x → NN y → FV y <= FV x → FV x - FV y < bpow 1000 →
  NN (x - y) ∧ RN (FV x - FV y) (FV (x - y)).
Proof.
  intros Hx Hy Hle HX.
  assert (0 <= FV x - FV y) as HX0 by lra.
  destruct (sub_Round x y (NN_Fin _ Hx) (NN_Fin _ Hy)) as [Hf HR].
  { by rewrite Rabs_pos_eq. }
  split; [|by apply Round_nonneg]. apply NN_intro; [done|].
  unfold Fin, FV in *. rewrite sub_spec in *. unfold SF64sub in *.
  destruct (SFsub_spec _ _ (NN_Fin _ Hx) (NN_Fin _ Hy) (FV_valid x) (FV_valid y))
    as (Y & s & Hmag & _ & _ & Hs).
  { by rewrite Rabs_pos_eq. }
  apply SFmag_fin in Hmag as (_ & -> & _). by apply Hs.
Qed.

Lemma div_NN x y :
  NN x → NN y → 0 < FV y → FV x / FV y < bpow 1000 →
  NN (x / y) ∧ RN (FV x / FV y) (FV (x / y)).
Proof.
  intros Hx Hy Hy0 HX. pose proof (NN_nonneg x Hx).
  assert (0 <= FV x / FV y) as HX0.
  { apply Rmult_le_pos; [done|]. by apply Rlt_le, Rinv_0_lt_compat. }
  destruct (div_Round x y (NN_Fin _ Hx) (NN_Fin _ Hy)) as [Hf HR].
  { lra. } { by rewrite Rabs_pos_eq. }
  split; [|by apply Round_nonneg]. apply NN_intro; [done|].
  assert (SFabsV (Prim2SF y) ≠ 0) as Hy0' by (rewrite <-NN_FV by done; lra).
  assert (SFabsV (Prim2SF x) / SFabsV (Prim2SF y) < bpow 1000) as HX'.
  { by rewrite <-!NN_FV. }
  rewrite div_spec. unfold SF64div.
  destruct (SFdiv_spec _ _ (NN_Fin _ Hx) (NN_Fin _ Hy) (FV_valid x) (FV_valid y) Hy0' HX')
    as (Y & _ & Hmag).
  apply SFmag_fin in Hmag as (_ & -> & _).
  by rewrite (NN_sign x), (NN_sign y).
Qed.

(** *** Classification *)

Lemma Fin_is_nan x : Fin x → is_nan x = false.
Proof.
  intros Hx. unfold is_nan.
  destruct (compare_R x x Hx Hx) as (_ & [_ H] & _). by rewrite H.
Qed.

Lemma Fin_is_infinity x : Fin x → is_infinity x = false.
Proof.
  unfold Fin, is_infinity. intros Hx.
  rewrite FloatAxioms.eqb_spec, abs_spec.
  change (Prim2SF infinity) with (S754_infinity false).
  by destruct (Prim2SF x).
Qed.

Lemma Prim2SF_zero : Prim2SF zero = S754_zero false.
Proof. reflexivity. Qed.

Lemma Fin_zero : NN zero.
Proof. reflexivity. Qed.

Lemma Fin_is_zero x : Fin x → is_zero x = true ↔ FV x = 0.
Proof.
  intros Hx. unfold is_zero.
  destruct (compare_R x zero Hx (NN_Fin _ Fin_zero)) as (_ & H & _).
  rewrite H. change (FV zero) with (SFV (S754_zero false)).
  unfold SFV. cbn. lra.
Qed.

(** *** Integers as numbers *)

Lemma to_scaled_spec x :
  match Prim2SF x with
  | S754_zero _ => to_scaled x = Some (0, 0)%Z
  | S754_finite s m e => to_scaled x = Some (cond_Zopp s (Z.pos m), e)
  | _ => to_scaled x = None
  end.
Proof. unfold to_scaled. destruct (Prim2SF x) as [| | |[] m e]; done. Qed.

Lemma of_uint63_spec_R z :
  (0 <= z < 2 ^ 53)%Z →
  NN (of_uint63 (Uint63.of_Z z)) ∧ FV (of_uint63 (Uint63.of_Z z)) = IZR z.
Proof.
  intros Hz. unfold NN, FV. rewrite of_uint63_spec, Uint63.of_Z_spec.
  rewrite Z.mod_small.
  2:{ split; [lia|]. assert (2 ^ 53 < Uint63.wB)%Z by done. lia. }
  assert (IZR z * bpow 0 = IZR z) as E0 by (rewrite bpow_0; lra).
  assert (0 <= IZR z) as Hz0 by (apply IZR_le; lia).
  destruct (binary_normalize_spec z 0) as (Y & HRN & Hmag).
  { rewrite E0, Rabs_pos_eq by done.
    eapply Rlt_le_trans; [apply IZR_lt, Hz|].
    rewrite <-bpow_IZR by lia. apply bpow_le. lia. }
  rewrite E0, Rabs_pos_eq in HRN by done.
  apply RN_exact in HRN; [|exists z, 0%Z; rewrite bpow_0; split; [lra|lia]].
  subst Y. apply SFmag_fin in Hmag as (Hf & Hs & Hv).
  assert ((z <? 0)%Z = false) as Hneg by (apply Z.ltb_ge; lia).
  rewrite Hneg in Hs. unfold SFnn, SFV. by rewrite Hf, Hs, Hv.
Qed.

Lemma of_Z_spec z :
  (Z.abs z < 2 ^ 53)%Z →
  Fin (of_Z z) ∧ FV (of_Z z) = IZR z ∧ ((0 <= z)%Z → NN (of_Z z)).
Proof.
  intros Hz. unfold of_Z. destruct (Z.ltb_spec z 0) as [Hneg|Hpos].
  - destruct (of_uint63_spec_R (- z) ltac:(lia)) as [Hn Hv].
    split; [|split; [|lia]].
    + apply NN_Fin in Hn. unfold Fin in *. rewrite opp_spec.
      by destruct (Prim2SF _).
    + unfold FV in *. rewrite opp_spec.
      rewrite opp_IZR in Hv. unfold SFV in *.
      destruct (Prim2SF _) as [[]|[]| |[] m e]; cbn in *; lra.
  - destruct (of_uint63_spec_R z ltac:(lia)) as [Hn Hv].
    split; [by apply NN_Fin|]. done.
Qed.

(** *** [Math.round], [Math.floor] and [%] *)

Lemma NN_cases x :
  NN x →
  Prim2SF x = S754_zero false ∨ ∃ m e, Prim2SF x = S754_finite false m e.
Proof.
  unfold NN, SFnn. destruct (Prim2SF x) as [[]| | |[] m e]; try done.
  - by left.
  - right. by eexists _, _.
Qed.

Lemma NN_zero_eq x : Prim2SF x = S754_zero false → x = of_Z 0.
Proof. intros H. by apply Prim2SF_inj. Qed.

Lemma small_exponent s m e :
  valid_binary (S754_finite s m e) = true →
  IZR (Z.pos m) * bpow e < bpow 52 → (e < 0)%Z.
Proof.
  intros V Hlt. apply valid_finite_digits in V as V'.
  apply valid_finite in V as [E _]. destruct V' as (Hd & He & Hm).
  destruct (Z.lt_ge_cases e 0) as [|Hge]; [done|exfalso].
  pose proof (digits2_pos_bounds m) as Hb.
  assert (Z.pos (digits2_pos m) = 53)%Z as Ed by (unfold fexp64 in *; lia).
  rewrite Ed in Hb. change (53 - 1)%Z with 52%Z in Hb.
  assert (bpow 52 <= IZR (Z.pos m)).
  { rewrite bpow_IZR by lia. apply IZR_le. lia. }
  pose proof (bpow_ge_1 e Hge). pose proof (bpow_pos 52). nra.
Qed.

Lemma bpow_neg_inv e : (e < 0)%Z → bpow e = / IZR (2 ^ (- e)).
Proof. intros He. unfold bpow. destruct (Z.leb_spec 0 e); [lia|done]. Qed.

Lemma round_div n P :
  (0 < P)%Z →
  let q := ((2 * n + P) / (2 * P))%Z in
  IZR q <= IZR n / IZR P + / 2 < IZR q + 1.
Proof.
  intros HP q. assert (0 < IZR P) as HP' by (apply IZR_lt; lia).
  pose proof (Z.div_mod (2 * n + P) (2 * P) ltac:(lia)) as E.
  pose proof (Z.mod_pos_bound (2 * n + P) (2 * P) ltac:(lia)) as [Hr0 Hr1].
  fold q in E. set (r := ((2 * n + P) mod (2 * P))%Z) in *.
  apply (f_equal IZR) in E. apply IZR_le in Hr0. apply IZR_lt in Hr1.
  rewrite !plus_IZR, !mult_IZR in *.
  assert (IZR n / IZR P + / 2 = IZR q + IZR r / (2 * IZR P)) as ->.
  { apply Rmult_eq_reg_r with (2 * IZR P); [|lra].
    replace ((IZR n / IZR P + / 2) * (2 * IZR P)) with (2 * IZR n + IZR P)
      by (field; lra).
    replace ((IZR q + IZR r / (2 * IZR P)) * (2 * IZR P))
      with (2 * IZR P * IZR q + IZR r) by (field; lra).
    done. }
  assert (0 <= IZR r / (2 * IZR P) < 1); [|lra].
  split.
  - apply Rmult_le_pos; [done|]. apply Rlt_le, Rinv_0_lt_compat. lra.
  - apply Rmult_lt_reg_r with (2 * IZR P); [lra|].
    unfold Rdiv. rewrite Rmult_assoc, Rinv_l by lra. lra.
Qed.

Lemma floor_div n P :
  (0 < P)%Z →
  let q := (n / P)%Z in IZR q <= IZR n / IZR P < IZR q + 1.
Proof.
  intros HP q. assert (0 < IZR P) as HP' by (apply IZR_lt; lia).
  pose proof (Z.div_mod n P ltac:(lia)) as E.
  pose proof (Z.mod_pos_bound n P ltac:(lia)) as [Hr0 Hr1].
  fold q in E. set (r := (n mod P)%Z) in *.
  apply (f_equal IZR) in E. apply IZR_le in Hr0. apply IZR_lt in Hr1.
  rewrite !plus_IZR, !mult_IZR in *.
  assert (IZR n / IZR P = IZR q + IZR r / IZR P) as ->.
  { rewrite E. field. lra. }
  assert (0 <= IZR r / IZR P < 1); [|lra].
  split.
  - apply Rmult_le_pos; [done|]. apply Rlt_le, Rinv_0_lt_compat. lra.
  - apply Rmult_lt_reg_r with (IZR P); [lra|].
    unfold Rdiv. rewrite Rmult_assoc, Rinv_l by lra. lra.
Qed.

(** The value of a finite number from its mantissa and exponent. *)
Lemma FV_finite x s m e :
  Prim2SF x = S754_finite s m e →
  FV x = IZR (cond_Zopp s (Z.pos m)) * bpow e.
Proof. intros E. unfold FV. rewrite E. apply SFV_finite. Qed.

Lemma FV_finite_div x s m e :
  Prim2SF x = S754_finite s m e → (e < 0)%Z →
  FV x = IZR (cond_Zopp s (Z.pos m)) / IZR (2 ^ (- e)).
Proof. intros E He. rewrite (FV_finite x s m e E), bpow_neg_inv by done. done. Qed.

Lemma Fin_small_exponent x s m e :
  Prim2SF x = S754_finite s m e → Rabs (FV x) < bpow 52 → (e < 0)%Z.
Proof.
  intros E Hlt. apply (small_exponent s m e).
  - rewrite <-E. apply FV_valid.
  - rewrite FV_abs, E in Hlt. done.
Qed.

Lemma Math_round_spec x :
  Fin x → Rabs (FV x) < bpow 52 →
  ∃ q, Fin (Math_round x) ∧ FV (Math_round x) = IZR q
       ∧ IZR q <= FV x + / 2 < IZR q + 1.
Proof.
  intros Hx Hlt. unfold Math_round. pose proof (to_scaled_spec x) as Hsc.
  unfold Fin in Hx. destruct (Prim2SF x) as [s0| | |s m e] eqn:E; try done.
  - rewrite Hsc. cbn. exists 0%Z. unfold Fin, FV. rewrite E.
    unfold SFV. cbn. split; [done|]. split; [by destruct s0; lra|].
    destruct s0; lra.
  - pose proof (Fin_small_exponent x s m e E Hlt) as He.
    rewrite Hsc. set (n := cond_Zopp s (Z.pos m)).
    destruct (Z.leb_spec 0 e) as [|_]; [lia|].
    destruct (Z.eqb_spec n 0) as [Hn|_]; [destruct s; cbn in Hn; lia|].
    cbv zeta. set (P := (2 ^ (- e))%Z).
    assert (0 < P)%Z as HP by (apply Z.pow_pos_nonneg; lia).
    assert (2 ^ (- e + 1) = 2 * P)%Z as -> by (unfold P; rewrite Z.pow_add_r by lia; lia).
    pose proof (round_div n P HP) as Hq. cbv zeta in Hq.
    set (q := ((2 * n + P) / (2 * P))%Z) in *.
    assert (FV x = IZR n / IZR P) as EX by (by apply FV_finite_div).
    rewrite <-EX in Hq.
    exists q. destruct ((q =? 0)%Z && (n <? 0)%Z) eqn:Ez.
    + apply andb_prop in Ez as [Ez _]. apply Z.eqb_eq in Ez. rewrite Ez in *.
      split; [done|]. split; [|done]. unfold FV.
      change (Prim2SF neg_zero) with (S754_zero true). unfold SFV. cbn. lra.
    + assert (Z.abs q < 2 ^ 53)%Z as Hq53.
      { apply Rabs_def2 in Hlt as [Hl1 Hl2].
        rewrite bpow_IZR in Hl1, Hl2 by lia.
        assert (q < 2 ^ 52 + 1)%Z by (apply lt_IZR; rewrite plus_IZR; lra).
        assert (- 2 ^ 52 - 1 < q)%Z.
        { apply lt_IZR. rewrite minus_IZR, opp_IZR. lra. }
        assert (2 ^ 52 + 1 < 2 ^ 53)%Z by done. lia. }
      destruct (of_Z_spec q Hq53) as (Hf & Hv & _). done.
Qed.

Lemma Math_round_NN x :
  NN x → FV x < bpow 52 →
  ∃ q, (0 <= q)%Z ∧ Math_round x = of_Z q
       ∧ IZR q <= FV x + / 2 < IZR q + 1.
Proof.
  intros Hx Hlt. pose proof (NN_nonneg x Hx) as H0.
  assert (Rabs (FV x) < bpow 52) as Hlt' by (by rewrite Rabs_pos_eq).
  unfold Math_round. pose proof (to_scaled_spec x) as Hsc.
  destruct (NN_cases x Hx) as [E|(m & e & E)]; rewrite E in Hsc; rewrite Hsc.
  - cbn. exists 0%Z. split; [lia|]. split; [by apply NN_zero_eq|].
    unfold FV. rewrite E. unfold SFV. cbn. lra.
  - pose proof (Fin_small_exponent x false m e E Hlt') as He.
    cbn [cond_Zopp].
    destruct (Z.leb_spec 0 e) as [|_]; [lia|].
    change (Z.pos m =? 0)%Z with false. change (Z.pos m <? 0)%Z with false.
    rewrite andb_false_r. cbv zeta. set (P := (2 ^ (- e))%Z).
    assert (0 < P)%Z as HP by (apply Z.pow_pos_nonneg; lia).
    assert (2 ^ (- e + 1) = 2 * P)%Z as -> by (unfold P; rewrite Z.pow_add_r by lia; lia).
    pose proof (round_div (Z.pos m) P HP) as Hq. cbv zeta in Hq.
    assert (FV x = IZR (Z.pos m) / IZR P) as EX
      by (by apply (FV_finite_div x false m e)).
    rewrite <-EX in Hq.
    eexists. split; [|split; [done|done]].
    apply Z.div_pos; lia.
Qed.

Lemma Math_floor_NN x :
  NN x → FV x < bpow 52 →
  ∃ q, (0 <= q)%Z ∧ Math_floor x = of_Z q ∧ IZR q <= FV x < IZR q + 1.
Proof.
  intros Hx Hlt. pose proof (NN_nonneg x Hx) as H0.
  assert (Rabs (FV x) < bpow 52) as Hlt' by (by rewrite Rabs_pos_eq).
  unfold Math_floor. pose proof (to_scaled_spec x) as Hsc.
  destruct (NN_cases x Hx) as [E|(m & e & E)]; rewrite E in Hsc; rewrite Hsc.
  - cbn. exists 0%Z. split; [lia|]. split; [by apply NN_zero_eq|].
    unfold FV. rewrite E. unfold SFV. cbn. lra.
  - pose proof (Fin_small_exponent x false m e E Hlt') as He.
    cbn [cond_Zopp].
    destruct (Z.leb_spec 0 e) as [|_]; [lia|].
    change (Z.pos m =? 0)%Z with false. cbv iota. set (P := (2 ^ (- e))%Z).
    assert (0 < P)%Z as HP by (apply Z.pow_pos_nonneg; lia).
    pose proof (floor_div (Z.pos m) P HP) as Hq. cbv zeta in Hq.
    assert (FV x = IZR (Z.pos m) / IZR P) as EX
      by (by apply (FV_finite_div x false m e)).
    rewrite <-EX in Hq.
    eexists. split; [|split; [done|done]].
    apply Z.div_pos; lia.
Qed.

Lemma Zrem_facts a b :
  (0 < b)%Z →
  ∃ q, (a = b * q + Z.rem a b)%Z ∧ (Z.abs (Z.rem a b) < b)%Z
       ∧ (Z.abs (Z.rem a b) <= Z.abs a)%Z
       ∧ ((0 <= a)%Z → (0 <= Z.rem a b)%Z ∧ (0 <= q)%Z)
       ∧ ((a <= 0)%Z → (Z.rem a b <= 0)%Z).
Proof.
  intros Hb. exists (Z.quot a b). split; [apply Z.quot_rem'|].
  destruct (Z.le_gt_cases 0 a) as [Ha|Ha].
  - pose proof (Z.rem_bound_pos a b Ha Hb) as [H1 H2].
    pose proof (Z.rem_le a b Ha Hb) as H3.
    pose proof (Z.quot_pos a b Ha Hb).
    repeat split; lia.
  - pose proof (Z.rem_bound_pos (- a) b ltac:(lia) Hb) as [H1 H2].
    pose proof (Z.rem_le (- a) b ltac:(lia) Hb) as H3.
    rewrite Z.rem_opp_l in * by lia.
    repeat split; lia.
Qed.

Lemma ldexp_exact f e :
  Fin f → Repr (Rabs (FV f) * bpow e) → Rabs (FV f) * bpow e < bpow 1000 →
  Fin (Z.ldexp f e) ∧ FV (Z.ldexp f e) = FV f * bpow e
  ∧ (NN f → NN (Z.ldexp f e)).
Proof.
  intros Hf HR Hlt. unfold Fin, NN, FV in *. rewrite Z_ldexp_spec.
  rewrite SFV_SFabsV in *.
  destruct (Prim2SF f) as [s| | |s m e0]; try done; cbn [SFldexp].
  - split; [done|]. split; [|done]. unfold SFV. destruct s; cbn; lra.
  - cbn [SFabsV] in *. rewrite Rmult_assoc, <-bpow_add in HR, Hlt.
    destruct (binary_round_spec s m (e0 + e) Hlt) as (Y & HRN & Hmag).
    apply RN_exact in HRN; [|done]. subst Y.
    apply SFmag_fin in Hmag as (H1 & H2 & H3).
    split; [done|]. split.
    + unfold SFV. rewrite H2, H3. cbn [SFsign SFabsV].
      rewrite bpow_add. destruct s; lra.
    + unfold SFnn. rewrite H1, H2. done.
Qed.

Lemma rem_spec x y :
  Fin x → NN y → 0 < FV y < bpow 1000 →
  ∃ q, Fin (rem x y) ∧ FV (rem x y) = FV x - IZR q * FV y
       ∧ Rabs (FV (rem x y)) < FV y
       ∧ (0 <= FV x → 0 <= FV (rem x y) ∧ (0 <= q)%Z)
       ∧ (FV x <= 0 → FV (rem x y) <= 0)
       ∧ (NN x → NN (rem x y)).
Proof.
  intros Hx Hy [Hy0 Hy1]. pose proof (NN_Fin y Hy) as Hyf. unfold rem.
  rewrite (Fin_is_nan x), (Fin_is_nan y), (Fin_is_infinity x),
    (Fin_is_infinity y) by done.
  assert (is_zero y = false) as ->.
  { destruct (is_zero y) eqn:E; [|done].
    apply Fin_is_zero in E; [lra|done]. }
  cbn [orb]. destruct (is_zero x) eqn:Ezx.
  { apply Fin_is_zero in Ezx; [|done]. exists 0%Z.
    rewrite Ezx, Rabs_R0. repeat split; (done || lra || lia). }
  assert (FV x ≠ 0) as Hx0.
  { intros E. apply Fin_is_zero in E; [|done]. congruence. }
  pose proof (to_scaled_spec x) as Hsx. pose proof (to_scaled_spec y) as Hsy.
  pose proof (FV_valid x) as Vx. pose proof (FV_valid y) as Vy.
  destruct (NN_cases y Hy) as [Ey|(my & ey & Ey)].
  { exfalso. unfold FV in Hy0. rewrite Ey in Hy0. unfold SFV in Hy0.
    cbn in Hy0. lra. }
  unfold Fin in Hx. destruct (Prim2SF x) as [sx0| | |sx mx ex] eqn:Ex; try done.
  { exfalso. apply Hx0. unfold FV. rewrite Ex. unfold SFV. destruct sx0; cbn; lra. }
  rewrite Ey in Hsy, Vy. rewrite Hsx, Hsy. cbn [cond_Zopp]. cbv zeta.
  set (nx := cond_Zopp sx (Z.pos mx)). set (e0 := Z.min ex ey).
  set (a := (nx * 2 ^ (ex - e0))%Z). set (b := (Z.pos my * 2 ^ (ey - e0))%Z).
  pose proof (Z.pow_pos_nonneg 2 (ex - e0) ltac:(lia) ltac:(lia)) as Hpa.
  pose proof (Z.pow_pos_nonneg 2 (ey - e0) ltac:(lia) ltac:(lia)) as Hpb.
  assert (0 < b)%Z as Hb by (unfold b; nia).
  pose proof (bpow_pos e0) as Hp0.
  assert (FV x = IZR a * bpow e0) as EX.
  { rewrite (FV_finite x sx mx ex Ex). fold nx. unfold a.
    rewrite IZR_shift by lia. rewrite Rmult_assoc, <-bpow_add.
    do 2 f_equal. lia. }
  assert (FV y = IZR b * bpow e0) as EY.
  { rewrite (FV_finite y false my ey Ey). cbn [cond_Zopp]. unfold b.
    rewrite IZR_shift by lia. rewrite Rmult_assoc, <-bpow_add.
    do 2 f_equal. lia. }
  destruct (Zrem_facts a b Hb) as (q & Eq & Hrb & Hra & Hpos & Hneg).
  set (r := Z.rem a b) in *.
  apply valid_finite_digits in Vx as (_ & Hex & Hmx).
  apply valid_finite_digits in Vy as (_ & Hey & Hmy).
  assert (Z.abs r < 2 ^ 53)%Z as Hr53.
  { destruct (Z.le_gt_cases ex ey).
    - assert (a = nx) as Ea.
      { unfold a. replace (ex - e0)%Z with 0%Z by lia. lia. }
      assert (Z.abs nx = Z.pos mx) by (unfold nx; destruct sx; cbn; lia). lia.
    - assert (b = Z.pos my) as Eb.
      { unfold b. replace (ey - e0)%Z with 0%Z by lia. lia. }
      lia. }
  assert (IZR r * bpow e0 = FV x - IZR q * FV y) as Er.
  { rewrite EX, EY. apply (f_equal IZR) in Eq.
    rewrite plus_IZR, mult_IZR in Eq. rewrite Eq. ring. }
  assert (Rabs (IZR r * bpow e0) < FV y) as Hrabs.
  { rewrite Rabs_mult, (Rabs_pos_eq (bpow e0)), <-abs_IZR, EY by lra.
    apply Rmult_lt_compat_r; [done|]. by apply IZR_lt. }
  assert (0 <= FV x → 0 <= IZR r * bpow e0 ∧ (0 <= q)%Z) as Hsp.
  { intros H0. assert (0 <= a)%Z as Ha.
    { apply le_IZR. rewrite EX in H0. nra. }
    destruct (Hpos Ha) as [Hr0 Hq0]. split; [|done].
    apply IZR_le in Hr0. nra. }
  assert (FV x <= 0 → IZR r * bpow e0 <= 0) as Hsn.
  { intros H0. assert (a <= 0)%Z as Ha.
    { apply le_IZR. rewrite EX in H0. nra. }
    specialize (Hneg Ha). apply IZR_le in Hneg. nra. }
  exists q. destruct (Z.eqb_spec r 0) as [Er0|Er0].
  - rewrite Er0, Rmult_0_l in *.
    assert (∀ z, z = zero ∨ z = neg_zero → Fin z ∧ FV z = 0) as Hz.
    { intros z [-> | ->]; split; try done; unfold FV, SFV; cbn; lra. }
    destruct (Hz (if is_negative x then neg_zero else zero)) as [Hzf Hzv].
    { destruct (is_negative x); auto. }
    rewrite Hzv. split; [done|]. split; [done|]. split; [done|].
    split; [done|]. split; [done|].
    intros HNx. unfold is_negative.
    destruct (compare_R x 0 (NN_Fin _ HNx) (NN_Fin _ Fin_zero)) as ([Hlt _] & _).
    destruct (x <? 0)%float; [|apply Fin_zero].
    specialize (Hlt eq_refl). pose proof (NN_nonneg x HNx).
    change (FV 0) with (SFV (S754_zero false)) in Hlt. unfold SFV in Hlt.
    cbn in Hlt. lra.
  - destruct (of_Z_spec r Hr53) as (Hrf & Hrv & Hrn).
    destruct (ldexp_exact (of_Z r) e0 Hrf) as (Hlf & Hlv & Hln).
    { rewrite Hrv, <-abs_IZR. exists (Z.abs r), e0. split; [done|lia]. }
    { rewrite Hrv. rewrite Rabs_mult, (Rabs_pos_eq (bpow e0)) in Hrabs by lra.
      lra. }
    rewrite Hlv, Hrv. split; [done|]. split; [done|]. split; [done|].
    split; [done|]. split; [done|].
    intros HNx. apply Hln, Hrn.
    pose proof (NN_nonneg x HNx) as H0. destruct (Hsp H0) as [Hr0 _].
    apply le_IZR. nra.
Qed.

(** *** Constants and ranges *)

Ltac fv_const c :=
  let r := eval vm_compute in (Prim2SF c) in
  match r with
  | S754_finite ?s ?m ?e =>
      rewrite (FV_finite c s m e eq_refl);
      let k := eval vm_compute in (2 ^ (- e))%Z in
      rewrite (bpow_neg_inv e ltac:(lia)); change (2 ^ (- e))%Z with k;
      cbn [cond_Zopp]; lra
  end.

Lemma FV_0 : FV 0 = 0.
Proof. unfold FV, SFV. cbn. lra. Qed.
Lemma FV_1 : FV 1 = 1.
Proof. fv_const 1%float. Qed.
Lemma FV_2 : FV 2 = 2.
Proof. fv_const 2%float. Qed.
Lemma FV_4 : FV 4 = 4.
Proof. fv_const 4%float. Qed.
Lemma FV_6 : FV 6 = 6.
Proof. fv_const 6%float. Qed.
Lemma FV_60 : FV 60 = 60.
Proof. fv_const 60%float. Qed.
Lemma FV_255 : FV 255 = 255.
Proof. fv_const 255%float. Qed.
Lemma FV_360 : FV 360 = 360.
Proof. fv_const 360%float. Qed.

Lemma NN_pos x : Fin x → 0 < FV x → NN x.
Proof.
  intros Hf Hpos. apply NN_intro; [done|].
  unfold FV, SFV in Hpos. pose proof (SFabsV_nonneg (Prim2SF x)).
  destruct (SFsign (Prim2SF x)); [lra|done].
Qed.

Lemma Fin_between a x b :
  Fin a → Fin b → (a <=? x)%float = true → (x <=? b)%float = true → Fin x.
Proof.
  unfold Fin. rewrite !FloatAxioms.leb_spec. unfold SFleb.
  destruct (Prim2SF a) as [| | |], (Prim2SF b) as [| | |],
    (Prim2SF x) as [|[]| |]; try done.
Qed.

Lemma ltb_leb x y : (x <? y)%float = true → (x <=? y)%float = true.
Proof.
  rewrite FloatAxioms.ltb_spec, FloatAxioms.leb_spec. unfold SFltb, SFleb.
  by destruct (SFcompare _ _) as [[]|].
Qed.

Lemma Repr_IZR k : (0 <= k < 2 ^ 53)%Z → Repr (IZR k).
Proof. intros Hk. exists k, 0%Z. rewrite bpow_0. split; [lra|lia]. Qed.

Lemma RN_bounds X Y :
  0 <= X → RN X Y → Rabs (Y - X) <= X * bpow (-53) + bpow (-1075) ∧ 0 <= Y.
Proof. intros H0 H. split; [by apply RN_error|by eapply RN_nonneg]. Qed.

Lemma bpow_m53 : bpow (-53) = / 9007199254740992.
Proof. reflexivity. Qed.

Lemma bpow_m1075_small : bpow (-1075) <= bpow (-53) * bpow (-53).
Proof. rewrite <-bpow_add. apply bpow_le. lia. Qed.

Lemma bpow_1000_big : 1000000 <= bpow 1000.
Proof.
  eapply Rle_trans; [|apply (bpow_le 20 1000); lia].
  rewrite bpow_IZR by lia. apply IZR_le. done.
Qed.

Lemma bpow_52_big : 1000000 <= bpow 52.
Proof.
  eapply Rle_trans; [|apply (bpow_le 20 52); lia].
  rewrite bpow_IZR by lia. apply IZR_le. done.
Qed.

(** *** Errors of the operations on small numbers *)

Lemma err_bpow : err = bpow (-43).
Proof. reflexivity. Qed.

Lemma RN_close X Y : 0 <= X <= 1000 → RN X Y → Rabs (Y - X) <= err.
Proof.
  intros [H0 H1] H. eapply Rle_trans; [by apply RN_error|].
  pose proof bpow_m1075_small as Hs. rewrite bpow_m53 in *. unfold err.
  nra.
Qed.

Lemma Round_close X Y : Rabs X <= 1000 → Round X Y → Rabs (Y - X) <= err.
Proof.
  intros H1 H. eapply Rle_trans; [by apply Round_error|].
  pose proof bpow_m1075_small as Hs. rewrite bpow_m53 in *. unfold err.
  pose proof (Rabs_pos X). nra.
Qed.

Lemma RN_close' X Y : RN X Y → 0 <= X <= 1000 → Rabs (Y - X) <= err.
Proof. intros H1 H2. by apply RN_close. Qed.

Lemma lt_1000 X : X <= 1000 → X < bpow 1000.
Proof. pose proof bpow_1000_big. lra. Qed.

(** *** The bytes of [hsvToRgb] *)

Lemma byteOf_mono C C' b b' :
  0 <= C <= C' → byteOf C b → byteOf C' b' → (b <= b')%Z.
Proof.
  intros HC (Y & HY & Hb) (Y' & HY' & Hb').
  assert (Y <= Y') by (eapply RN_mono; [|done|done]; lra).
  apply Z.lt_succ_r, lt_IZR. rewrite succ_IZR. lra.
Qed.

Lemma byteOf_close C b :
  0 <= C <= 1 → byteOf C b →
  Rabs (IZR b - 255 * C) <= / 2 + err ∧ (0 <= b <= 255)%Z.
Proof.
  intros HC (Y & HY & Hb).
  pose proof (RN_close (C * 255) Y ltac:(lra) HY) as Hc.
  apply Rabs_le_inv in Hc.
  pose proof (RN_nonneg (C * 255) Y ltac:(lra) HY) as H0.
  assert (Y <= 255) as H255.
  { eapply RN_le_repr; [|done|apply (Repr_IZR 255); lia]. lra. }
  split; [apply Rabs_le; lra|].
  split.
  - apply Z.lt_succ_r, lt_IZR. rewrite succ_IZR. lra.
  - apply Z.lt_succ_r, lt_IZR. rewrite succ_IZR. lra.
Qed.

Lemma byte_of c :
  NN c → FV c <= 1 →
  ∃ b, Math_round (c * 255) = of_Z b ∧ byteOf (FV c) b.
Proof.
  intros Hc H1. pose proof (NN_nonneg c Hc) as H0.
  destruct (mul_NN c 255 Hc) as [Hn HR]; [done| |].
  { rewrite FV_255. apply lt_1000. lra. }
  rewrite FV_255 in HR.
  assert (FV (c * 255) <= 255) as H255.
  { eapply RN_le_repr; [|done|apply (Repr_IZR 255); lia]. lra. }
  destruct (Math_round_NN (c * 255) Hn) as (b & Hb0 & Hb & Hbb).
  { pose proof bpow_52_big. lra. }
  exists b. split; [done|]. by exists (FV (c * 255)).
Qed.

Lemma hsv_select (k : Z) (v p q t : float) :
  (0 <= k <= 6)%Z →
  (let i := rem (of_Z k) 6 in
   if (i =? 0)%float then (v, t, p)
   else if (i =? 1)%float then (q, v, p)
   else if (i =? 2)%float then (p, v, t)
   else if (i =? 3)%float then (p, q, v)
   else if (i =? 4)%float then (t, p, v)
   else if (i =? 5)%float then (v, p, q)
   else (v, p, q)) = sector k v p q t.
Proof.
  intros Hk.
  assert (k = 0 ∨ k = 1 ∨ k = 2 ∨ k = 3 ∨ k = 4 ∨ k = 5 ∨ k = 6)%Z
    as [->|[->|[->|[->|[->|[->| ->]]]]]] by lia; reflexivity.
Qed.

Lemma sector_map {A B} (g : A → B) k v p q t :
  (let '(r, g0, b) := sector k v p q t in (g r, g g0, g b))
  = sector k (g v) (g p) (g q) (g t).
Proof. unfold sector. by repeat destruct (_ =? _)%Z. Qed.

Lemma NN_360 : NN 360.
Proof. reflexivity. Qed.
Lemma NN_60 : NN 60.
Proof. reflexivity. Qed.
Lemma NN_6 : NN 6.
Proof. reflexivity. Qed.
Lemma NN_1 : NN 1.
Proof. reflexivity. Qed.
Lemma NN_255 : NN 255.
Proof. reflexivity. Qed.

Lemma err_pos : 0 < err.
Proof. unfold err. lra. Qed.

Lemma add_pos_NN x y :
  Fin x → Fin y → 0 < FV x + FV y < bpow 1000 →
  NN (x + y) ∧ RN (FV x + FV y) (FV (x + y)).
Proof.
  intros Hx Hy [H0 H1].
  destruct (add_Round x y Hx Hy) as [Hf HR].
  { rewrite Rabs_pos_eq; lra. }
  split; [|apply Round_nonneg; [lra|done]]. apply NN_intro; [done|].
  rewrite add_spec. unfold SF64add.
  destruct (SFadd_spec _ _ Hx Hy (FV_valid x) (FV_valid y))
    as (Y & s & Hmag & _ & Hs & _).
  { unfold FV in H0, H1. rewrite Rabs_pos_eq; lra. }
  apply SFmag_fin in Hmag as (_ & -> & _).
  destruct s; [|done]. unfold FV in H0. lra.
Qed.

Lemma sub1_NN x :
  NN x → FV x <= 1 →
  NN (1 - x) ∧ RN (1 - FV x) (FV (1 - x)) ∧ 0 <= FV (1 - x) <= 1
  ∧ Rabs (FV (1 - x) - (1 - FV x)) <= err.
Proof.
  intros Hx H1. pose proof (NN_nonneg x Hx) as H0. pose proof bpow_1000_big.
  destruct (sub_NN 1 x NN_1 Hx) as [Hn HR].
  { rewrite FV_1. lra. } { rewrite FV_1. lra. }
  rewrite FV_1 in HR. split; [done|]. split; [done|].
  pose proof (NN_nonneg _ Hn). split; [|apply RN_close; [lra|done]].
  split; [done|]. eapply RN_le_repr; [|done|apply (Repr_IZR 1); lia]. lra.
Qed.

Lemma mul01_NN x y :
  NN x → NN y → FV x <= 1 → FV y <= 1 →
  NN (x * y) ∧ RN (FV x * FV y) (FV (x * y))
  ∧ 0 <= FV (x * y) ∧ FV (x * y) <= FV x ∧ FV (x * y) <= FV y
  ∧ Rabs (FV (x * y) - FV x * FV y) <= err.
Proof.
  intros Hx Hy Hx1 Hy1.
  pose proof (NN_nonneg x Hx) as Hx0. pose proof (NN_nonneg y Hy) as Hy0.
  pose proof bpow_1000_big.
  assert (0 <= FV x * FV y <= 1) as [Hp0 Hp1] by nra.
  assert (FV x * FV y <= FV x) as Hpx by nra.
  assert (FV x * FV y <= FV y) as Hpy by nra.
  destruct (mul_NN x y Hx Hy) as [Hn HR]; [lra|].
  split; [done|]. split; [done|]. split; [by apply NN_nonneg|].
  split; [|split].
  - eapply RN_le_repr; [|done|by apply NN_repr]. lra.
  - eapply RN_le_repr; [|done|by apply NN_repr]. lra.
  - apply RN_close; [lra|done].
Qed.

Lemma channel_close V C W W' X b :
  0 <= V <= 1 →
  Rabs (C - V * W) <= err → Rabs (W - (1 - W')) <= err →
  Rabs (W' - X) <= 2 * err → Rabs (IZR b - 255 * C) <= / 2 + err →
  Rabs (IZR b - 255 * (V * (1 - X))) <= / 2 + 2000 * err.
Proof.
  intros HV H1 H2 H3 H4. pose proof err_pos.
  apply Rabs_le_inv in H1, H2, H3, H4. apply Rabs_le.
  assert (- (3 * err) <= V * (W - (1 - X)) <= 3 * err) by nra.
  lra.
Qed.

Lemma hsvToRgb_bytes h s v :
  Fin h → NN s → 0 < FV s <= 1 → NN v → 0 < FV v <= 1 →
  ∃ (k j : Z) (F : R) (bv bp bq bt : Z),
    (0 <= k <= 6)%Z ∧ 0 <= F <= 1
    ∧ Rabs (60 * (IZR k + F) - (FV h + 360 * IZR j)) <= 2000 * err
    ∧ hsvToRgb h s v = sector k (of_Z bv) (of_Z bp) (of_Z bq) (of_Z bt)
    ∧ (bp <= bq <= bv)%Z ∧ (bp <= bt <= bv)%Z ∧ (0 <= bp)%Z ∧ (bv <= 255)%Z
    ∧ Rabs (IZR bv - 255 * FV v) <= / 2 + err
    ∧ Rabs (IZR bp - 255 * (FV v * (1 - FV s))) <= / 2 + 2000 * err
    ∧ Rabs (IZR bq - 255 * (FV v * (1 - F * FV s))) <= / 2 + 2000 * err
    ∧ Rabs (IZR bt - 255 * (FV v * (1 - (1 - F) * FV s))) <= / 2 + 2000 * err.
Proof.
  intros Hh Hs [Hs0 Hs1] Hv [Hv0 Hv1].
  pose proof err_pos as He. pose proof bpow_1000_big as Hbig.
  set (h0 := rem h 360). set (h1 := (h0 + 360)%float).
  set (h2 := rem h1 360). set (a := (h2 / 60)%float).
  set (kf := Math_floor a). set (f := (a - kf)%float).
  set (w1 := (1 - s)%float). set (p := (v * w1)%float).
  set (w2 := (f * s)%float). set (w3 := (1 - w2)%float).
  set (q := (v * w3)%float).
  set (w4 := (1 - f)%float). set (w5 := (w4 * s)%float).
  set (w6 := (1 - w5)%float). set (t := (v * w6)%float).
  assert (hsvToRgb h s v
          = if (s =? 0)%float
            then (Math_round (v * 255), Math_round (v * 255), Math_round (v * 255))
            else
              let '(r, g, b) :=
                (let i := rem kf 6 in
                 if (i =? 0)%float then (v, t, p)
                 else if (i =? 1)%float then (q, v, p)
                 else if (i =? 2)%float then (p, v, t)
                 else if (i =? 3)%float then (p, q, v)
                 else if (i =? 4)%float then (t, p, v)
                 else if (i =? 5)%float then (v, p, q)
                 else (v, p, q)) in
              (Math_round (r * 255), Math_round (g * 255), Math_round (b * 255)))
    as Hunf by reflexivity.
  (* the hue *)
  destruct (rem_spec h 360 Hh NN_360) as (q0 & Hf0 & Ev0 & Ha0 & _ & _ & _).
  { rewrite FV_360. lra. }
  fold h0 in Hf0, Ev0, Ha0. rewrite FV_360 in Ev0, Ha0.
  apply Rabs_def2 in Ha0 as [Ha01 Ha02].
  destruct (add_pos_NN h0 360 Hf0 (NN_Fin _ NN_360)) as [Hn1 HR1].
  { rewrite FV_360. lra. }
  fold h1 in Hn1, HR1. rewrite FV_360 in HR1.
  pose proof (RN_close' _ _ HR1 ltac:(lra)) as Hc1. apply Rabs_le_inv in Hc1.
  pose proof (NN_nonneg h1 Hn1) as Hl1.
  assert (FV h1 <= 720) as Hu1.
  { eapply RN_le_repr; [|done|apply (Repr_IZR 720); lia]. lra. }
  destruct (rem_spec h1 360 (NN_Fin _ Hn1) NN_360)
    as (q1 & Hf2 & Ev2 & Ha2 & Hp2 & _ & Hn2).
  { rewrite FV_360. lra. }
  fold h2 in Hf2, Ev2, Ha2, Hp2, Hn2. rewrite FV_360 in Ev2, Ha2.
  specialize (Hn2 Hn1). destruct (Hp2 Hl1) as [Hr2 _].
  apply Rabs_def2 in Ha2 as [Ha2 _].
  set (j := (1 - q0 - q1)%Z).
  assert (Rabs (FV h2 - (FV h + 360 * IZR j)) <= err) as Hh2.
  { unfold j. rewrite !minus_IZR. apply Rabs_le. lra. }
  destruct (div_NN h2 60 Hn2 NN_60) as [Hna HRa].
  { rewrite FV_60. lra. } { rewrite FV_60. lra. }
  fold a in Hna, HRa. rewrite FV_60 in HRa.
  pose proof (RN_close' _ _ HRa ltac:(lra)) as Hca. apply Rabs_le_inv in Hca.
  pose proof (NN_nonneg a Hna) as Ha0.
  assert (FV a <= 6) as Ha6.
  { eapply RN_le_repr; [|done|apply (Repr_IZR 6); lia]. lra. }
  destruct (Math_floor_NN a Hna) as (k & Hk0 & Ek & Hkb).
  { pose proof bpow_52_big. lra. }
  fold kf in Ek.
  assert (k <= 6)%Z as Hk6.
  { apply Z.lt_succ_r, lt_IZR. rewrite succ_IZR. lra. }
  destruct (of_Z_spec k) as (Hfk & Evk & Hnk); [lia|]. specialize (Hnk Hk0).
  rewrite <-Ek in Hfk, Evk, Hnk.
  destruct (sub_NN a kf Hna Hnk) as [Hnf HRf].
  { lra. } { rewrite Evk. lra. }
  fold f in Hnf, HRf. rewrite Evk in HRf.
  pose proof (RN_close' _ _ HRf ltac:(lra)) as Hcf. apply Rabs_le_inv in Hcf.
  pose proof (NN_nonneg f Hnf) as Hf0'.
  assert (FV f <= 1) as Hf1'.
  { eapply RN_le_repr; [|done|apply (Repr_IZR 1); lia]. lra. }
  (* the channels *)
  destruct (sub1_NN s Hs Hs1) as (Hnw1 & HRw1 & [Hw10 Hw11] & Hcw1).
  fold w1 in Hnw1, HRw1, Hw10, Hw11, Hcw1.
  destruct (mul01_NN v w1 Hv Hnw1 Hv1 Hw11) as (Hnp & HRp & Hp0' & Hpv & _ & Hcp).
  fold p in Hnp, HRp, Hp0', Hpv, Hcp.
  (* q *)
  destruct (mul01_NN f s Hnf Hs Hf1' Hs1) as (Hnw2 & HRw2 & Hw20 & _ & Hw2s & Hcw2).
  fold w2 in Hnw2, HRw2, Hw20, Hw2s, Hcw2.
  destruct (sub1_NN w2 Hnw2 ltac:(lra)) as (Hnw3 & HRw3 & [Hw30 Hw31] & Hcw3).
  fold w3 in Hnw3, HRw3, Hw30, Hw31, Hcw3.
  assert (FV w1 <= FV w3) as Hw13.
  { eapply RN_mono; [|apply HRw1|apply HRw3]. lra. }
  destruct (mul01_NN v w3 Hv Hnw3 Hv1 Hw31) as (Hnq & HRq & Hq0' & Hqv & _ & Hcq).
  fold q in Hnq, HRq, Hq0', Hqv, Hcq.
  assert (FV p <= FV q) as Hpq.
  { eapply RN_mono; [|apply HRp|apply HRq].
    split; [by apply Rmult_le_pos; lra|]. apply Rmult_le_compat_l; lra. }
  (* t *)
  destruct (sub1_NN f Hnf Hf1') as (Hnw4 & HRw4 & [Hw40 Hw41] & Hcw4).
  fold w4 in Hnw4, HRw4, Hw40, Hw41, Hcw4.
  destruct (mul01_NN w4 s Hnw4 Hs Hw41 Hs1) as (Hnw5 & HRw5 & Hw50 & _ & Hw5s & Hcw5).
  fold w5 in Hnw5, HRw5, Hw50, Hw5s, Hcw5.
  destruct (sub1_NN w5 Hnw5 ltac:(lra)) as (Hnw6 & HRw6 & [Hw60 Hw61] & Hcw6).
  fold w6 in Hnw6, HRw6, Hw60, Hw61, Hcw6.
  assert (FV w1 <= FV w6) as Hw16.
  { eapply RN_mono; [|apply HRw1|apply HRw6]. lra. }
  destruct (mul01_NN v w6 Hv Hnw6 Hv1 Hw61) as (Hnt & HRt & Ht0' & Htv & _ & Hct).
  fold t in Hnt, HRt, Ht0', Htv, Hct.
  assert (FV p <= FV t) as Hpt.
  { eapply RN_mono; [|apply HRp|apply HRt].
    split; [by apply Rmult_le_pos; lra|]. apply Rmult_le_compat_l; lra. }
  (* the bytes *)
  destruct (byte_of v Hv Hv1) as (bv & Ebv & Hbv).
  destruct (byte_of p Hnp ltac:(lra)) as (bp & Ebp & Hbp).
  destruct (byte_of q Hnq ltac:(lra)) as (bq & Ebq & Hbq).
  destruct (byte_of t Hnt ltac:(lra)) as (bt & Ebt & Hbt).
  pose proof (byteOf_close (FV v) bv ltac:(lra) Hbv) as [Hcbv Hrbv].
  pose proof (byteOf_close (FV p) bp ltac:(lra) Hbp) as [Hcbp Hrbp].
  pose proof (byteOf_close (FV q) bq ltac:(lra) Hbq) as [Hcbq Hrbq].
  pose proof (byteOf_close (FV t) bt ltac:(lra) Hbt) as [Hcbt Hrbt].
  exists k, j, (FV f), bv, bp, bq, bt.
  split; [lia|]. split; [lra|]. split.
  { apply Rabs_le_inv in Hh2. apply Rabs_le. lra. }
  split.
  { rewrite Hunf.
    assert ((s =? 0)%float = false) as ->.
    { destruct (compare_R s 0 (NN_Fin _ Hs) (NN_Fin _ Fin_zero)) as (_ & [Heq _] & _).
      destruct (s =? 0)%float; [|done]. specialize (Heq eq_refl).
      rewrite FV_0 in Heq. lra. }
    rewrite Ek, hsv_select by lia.
    rewrite (sector_map (λ c, Math_round (c * 255))).
    by rewrite Ebv, Ebp, Ebq, Ebt. }
  split.
  { split; [apply (byteOf_mono (FV p) (FV q))|apply (byteOf_mono (FV q) (FV v))];
      (done || lra). }
  split.
  { split; [apply (byteOf_mono (FV p) (FV t))|apply (byteOf_mono (FV t) (FV v))];
      (done || lra). }
  split; [lia|]. split; [lia|]. split; [done|].
  split; [|split].
  - apply (channel_close (FV v) (FV p) (FV w1) (FV s) (FV s) bp);
      [lra|done|done| |done].
    rewrite Rminus_diag, Rabs_R0. lra.
  - apply (channel_close (FV v) (FV q) (FV w3) (FV w2) (FV f * FV s) bq);
      [lra|done|done| |done].
    apply Rabs_le_inv in Hcw2. apply Rabs_le. lra.
  - apply (channel_close (FV v) (FV t) (FV w6) (FV w5) ((1 - FV f) * FV s) bt);
      [lra|done|done| |done].
    apply Rabs_le_inv in Hcw5, Hcw4. apply Rabs_le.
    assert (- err <= (FV w4 - (1 - FV f)) * FV s <= err)
      by (clear - Hcw4 Hs0 Hs1; nra).
    lra.
Qed.

(** *** [rgbToHsv] on bytes *)

Lemma cb_spec a :
  (0 <= a <= 255)%Z →
  NN (of_Z a / 255) ∧ RN (IZR a / 255) (FV (of_Z a / 255))
  ∧ Rabs (FV (of_Z a / 255) - IZR a / 255) <= err.
Proof.
  intros Ha. destruct (of_Z_spec a) as (_ & Ev & Hn); [lia|].
  specialize (Hn ltac:(lia)).
  assert (0 <= IZR a <= 255) as [H0 H1] by (split; apply IZR_le; lia).
  pose proof bpow_1000_big.
  destruct (div_NN (of_Z a) 255 Hn NN_255) as [Hnd HR].
  { rewrite FV_255. lra. } { rewrite Ev, FV_255. lra. }
  rewrite Ev, FV_255 in HR. split; [done|]. split; [done|].
  apply RN_close; [lra|done].
Qed.

Lemma cb_le a a' :
  (0 <= a <= a')%Z → (a' <= 255)%Z →
  FV (of_Z a / 255) <= FV (of_Z a' / 255).
Proof.
  intros Ha Ha'. destruct (cb_spec a ltac:(lia)) as (_ & HR & _).
  destruct (cb_spec a' ltac:(lia)) as (_ & HR' & _).
  assert (0 <= IZR a <= IZR a') as [H0 H1] by (split; apply IZR_le; lia).
  eapply RN_mono; [|done|done]. lra.
Qed.

Lemma cb_lt a a' :
  (0 <= a < a')%Z → (a' <= 255)%Z →
  FV (of_Z a / 255) < FV (of_Z a' / 255).
Proof.
  intros Ha Ha'. destruct (cb_spec a ltac:(lia)) as (_ & _ & Hc).
  destruct (cb_spec a' ltac:(lia)) as (_ & _ & Hc').
  apply Rabs_le_inv in Hc, Hc'.
  assert (IZR a + 1 <= IZR a') as H1.
  { rewrite <-plus_IZR. apply IZR_le. lia. }
  unfold err in *. lra.
Qed.

(** The difference of two channels. *)
Lemma cb_sub a b :
  (0 <= a <= 255)%Z → (0 <= b <= 255)%Z →
  Fin (of_Z a / 255 - of_Z b / 255)
  ∧ Rabs (FV (of_Z a / 255 - of_Z b / 255) - (IZR a - IZR b) / 255)
    <= 3 * err.
Proof.
  intros Ha Hb.
  destruct (cb_spec a Ha) as (Hna & _ & Hca).
  destruct (cb_spec b Hb) as (Hnb & _ & Hcb).
  assert (0 <= IZR a <= 255) as [? ?] by (split; apply IZR_le; lia).
  assert (0 <= IZR b <= 255) as [? ?] by (split; apply IZR_le; lia).
  apply Rabs_le_inv in Hca, Hcb. pose proof err_pos as He.
  assert (err <= 1) by (unfold err; lra).
  pose proof bpow_1000_big.
  destruct (sub_Round _ _ (NN_Fin _ Hna) (NN_Fin _ Hnb)) as [Hf HR].
  { apply Rabs_def1; lra. }
  split; [done|].
  apply Round_close in HR; [|apply Rabs_le; lra].
  apply Rabs_le_inv in HR. apply Rabs_le. lra.
Qed.

Lemma div_le_bound x y k : 0 < y → x <= k * y → x / y <= k.
Proof.
  intros Hy H. apply Rmult_le_reg_r with y; [done|].
  unfold Rdiv. rewrite Rmult_assoc, Rinv_l by lra. lra.
Qed.

Lemma div_ge_bound x y k : 0 < y → k * y <= x → k <= x / y.
Proof.
  intros Hy H. apply Rmult_le_reg_r with y; [done|].
  unfold Rdiv. rewrite Rmult_assoc, Rinv_l by lra. lra.
Qed.

(** The quotient of two such differences, the divisor being positive. *)
Lemma quotient_close N D E1 Δ :
  1 <= D <= 255 → Rabs N <= D →
  Rabs (E1 - N / 255) <= 3 * err → Rabs (Δ - D / 255) <= 3 * err →
  0 < Δ ∧ Rabs (E1 / Δ - N / D) <= 1536 * err.
Proof.
  intros [HD1 HD2] HN H1 H2. pose proof err_pos as He.
  apply Rabs_le_inv in HN, H1, H2.
  assert (D / 256 <= Δ) as Hlow by (unfold err in *; lra).
  assert (0 < Δ) as HΔ by lra. split; [done|].
  assert (E1 / Δ - N / D = (D * E1 - N * Δ) / (D * Δ)) as ->
    by (field; lra).
  assert (0 < D * Δ) as Hpos by nra.
  assert (- (6 * err * D) <= D * E1 - N * Δ <= 6 * err * D) as [Hn1 Hn2].
  { assert (D * E1 - N * Δ = D * (E1 - N / 255) - N * (Δ - D / 255)) as ->
      by (field; lra).
    split; nra. }
  assert (6 * err * D <= 1536 * err * (D * Δ)) as Hk by nra.
  apply Rabs_le. split.
  - apply div_ge_bound; [done|]. lra.
  - apply div_le_bound; [done|]. lra.
Qed.

Lemma Round_close' X Y : Round X Y → Rabs X <= 1000 → Rabs (Y - X) <= err.
Proof. intros H1 H2. by apply Round_close. Qed.

(** One of the quotients [(x - y) / delta] of the hue. *)
Lemma hue_quotient a b M m :
  (0 <= a <= 255)%Z → (0 <= b <= 255)%Z →
  (0 <= m < M)%Z → (M <= 255)%Z →
  (Z.abs (a - b) <= M - m)%Z →
  let delta := (of_Z M / 255 - of_Z m / 255)%float in
  let e := ((of_Z a / 255 - of_Z b / 255) / delta)%float in
  Fin delta ∧ 0 < FV delta ∧ Fin e
  ∧ Rabs (FV e - (IZR a - IZR b) / (IZR M - IZR m)) <= 1537 * err.
Proof.
  intros Ha Hb Hm HM Hab delta e. pose proof err_pos as He.
  assert (err <= / 1000000) as Hesmall by (unfold err; lra).
  destruct (cb_sub M m ltac:(lia) ltac:(lia)) as [Hfd Hcd]. fold delta in Hfd, Hcd.
  destruct (cb_sub a b Ha Hb) as [Hfn Hcn].
  set (n := (of_Z a / 255 - of_Z b / 255)%float) in *.
  assert (1 <= IZR M - IZR m <= 255) as HD.
  { rewrite <-minus_IZR. split; apply IZR_le; lia. }
  assert (Rabs (IZR a - IZR b) <= IZR M - IZR m) as HN.
  { rewrite <-!minus_IZR, <-abs_IZR. by apply IZR_le. }
  destruct (quotient_close _ _ _ _ HD HN Hcn Hcd) as [Hdpos Hq].
  split; [done|]. split; [done|].
  assert (Rabs (FV n / FV delta) <= 2) as Hq2.
  { apply Rabs_le_inv in Hq, HN. apply Rabs_le.
    assert (-1 <= (IZR a - IZR b) / (IZR M - IZR m) <= 1) as [? ?].
    { split; [apply div_ge_bound|apply div_le_bound]; lra. }
    lra. }
  pose proof bpow_1000_big.
  destruct (div_Round n delta Hfn Hfd) as [Hfe HRe]; [lra|lra|].
  fold e in Hfe, HRe. split; [done|].
  apply Round_close' in HRe; [|lra].
  apply Rabs_le_inv in HRe, Hq. apply Rabs_le. lra.
Qed.

(** The degrees [rgbToHsv] makes of the hue [hx] in sixths. *)
Lemma hue_tail hx X E :
  Fin hx → Rabs (FV hx - X) <= E → Rabs X <= 6 → 0 <= E <= 1 →
  ∃ hq : Z,
    Rabs (IZR hq - 60 * X) <= / 2 + 60 * E + err
    ∧ Fin (let h := Math_round (hx * 60) in
           if (h <? 0)%float then (h + 360)%float else h)
    ∧ FV (let h := Math_round (hx * 60) in
          if (h <? 0)%float then (h + 360)%float else h)
      = IZR (if (hq <? 0)%Z then hq + 360 else hq).
Proof.
  intros Hf Hc HX HE. pose proof err_pos as He. pose proof bpow_1000_big.
  pose proof bpow_52_big. assert (err <= 1) by (unfold err; lra).
  apply Rabs_le_inv in Hc, HX.
  destruct (mul_Round hx 60 Hf (NN_Fin _ NN_60)) as [Hf4 HR4].
  { rewrite FV_60. apply Rabs_def1; lra. }
  rewrite FV_60 in HR4. apply Round_close' in HR4; [|apply Rabs_le; lra].
  apply Rabs_le_inv in HR4.
  destruct (Math_round_spec (hx * 60) Hf4) as (hq & Hf5 & Ev5 & Hq).
  { apply Rabs_def1; lra. }
  exists hq. split; [apply Rabs_le; lra|]. cbv zeta.
  destruct (compare_R (Math_round (hx * 60)) 0 Hf5 (NN_Fin _ Fin_zero))
    as (Hlt & _ & _).
  rewrite Ev5, FV_0 in Hlt.
  destruct (Z.ltb_spec hq 0) as [Hneg|Hpos].
  - apply IZR_lt in Hneg as Hneg'. rewrite (proj2 Hlt Hneg').
    destruct (add_Round (Math_round (hx * 60)) 360 Hf5 (NN_Fin _ NN_360))
      as [Hfa HR].
    { rewrite Ev5, FV_360. apply Rabs_def1; lra. }
    split; [done|].
    rewrite Ev5, FV_360, <-plus_IZR in HR.
    assert (-500 < hq)%Z as Hlow.
    { apply lt_IZR. lra. }
    apply Round_exact in HR; [done|].
    rewrite <-abs_IZR. apply Repr_IZR. lia.
  - destruct (Math_round (hx * 60) <? 0)%float; [|done].
    apply IZR_le in Hpos. destruct Hlt as [Hlt _]. specialize (Hlt eq_refl).
    lra.
Qed.

Lemma rem_small x :
  Fin x → Rabs (FV x) < 6 → Fin (rem x 6) ∧ FV (rem x 6) = FV x.
Proof.
  intros Hf Hlt. pose proof bpow_1000_big.
  destruct (rem_spec x 6 Hf NN_6) as (q & Hfr & Ev & Ha & Hp & Hn & _).
  { rewrite FV_6. lra. }
  rewrite FV_6 in *. split; [done|].
  apply Rabs_def2 in Hlt as [Hl1 Hl2]. apply Rabs_def2 in Ha as [Ha1 Ha2].
  assert (q = 0)%Z as ->; [|lra].
  destruct (Rle_lt_dec 0 (FV x)) as [H0|H0].
  - destruct (Hp H0) as [Hr0 Hq0]. pose proof (IZR_le _ _ Hq0) as Hq0'.
    assert (q < 1)%Z; [|lia]. apply lt_IZR. lra.
  - specialize (Hn ltac:(lra)).
    assert (q < 1)%Z by (apply lt_IZR; lra).
    assert (-1 < q)%Z by (apply lt_IZR; lra). lia.
Qed.

Lemma cb_eqb a b :
  (0 <= a <= 255)%Z → (0 <= b <= 255)%Z →
  (of_Z a / 255 =? of_Z b / 255)%float = (a =? b)%Z.
Proof.
  intros Ha Hb.
  destruct (cb_spec a Ha) as (Hna & _ & _), (cb_spec b Hb) as (Hnb & _ & _).
  destruct (compare_R _ _ (NN_Fin _ Hna) (NN_Fin _ Hnb)) as (_ & Heq & _).
  destruct (Z.eqb_spec a b) as [->|Hne].
  - by apply Heq.
  - destruct (_ =? _)%float; [|done]. exfalso.
    destruct Heq as [Heq _]. specialize (Heq eq_refl).
    destruct (Z.lt_gt_cases a b) as [H _]. destruct (H Hne) as [Hlt|Hlt].
    + pose proof (cb_lt a b ltac:(lia) ltac:(lia)). lra.
    + pose proof (cb_lt b a ltac:(lia) ltac:(lia)). lra.
Qed.

Lemma rgbToHsv_bytes r g b :
  (0 <= r <= 255)%Z → (0 <= g <= 255)%Z → (0 <= b <= 255)%Z →
  let M := Z.max (Z.max r g) b in
  let m := Z.min (Z.min r g) b in
  (m < M)%Z →
  ∃ (hq : Z) h' s' v',
    rgbToHsv (of_Z r) (of_Z g) (of_Z b) = (h', s', v')
    ∧ Fin h' ∧ Fin s' ∧ Fin v'
    ∧ Rabs (IZR hq - 60 * hueOfBytes r g b) <= / 2 + 100000 * err
    ∧ FV h' = IZR (if (hq <? 0)%Z then hq + 360 else hq)
    ∧ Rabs (FV s' - (IZR M - IZR m) / IZR M) <= 2000 * err
    ∧ Rabs (FV v' - IZR M / 255) <= err.
Proof.
  intros Hr Hg Hb M m HmM. pose proof err_pos as He.
  assert (err <= / 1000000) as Hesmall by (unfold err; lra).
  pose proof bpow_1000_big.
  destruct (rgbToHsv_extremes r g b Hr Hg Hb) as [Emax Emin].
  fold M in Emax. fold m in Emin.
  assert (0 <= m)%Z as Hm0 by lia. assert (M <= 255)%Z as HM255 by lia.
  unfold rgbToHsv. cbv zeta. rewrite Emax, Emin.
  set (delta := (of_Z M / 255 - of_Z m / 255)%float).
  rewrite !cb_eqb by lia.
  (* the value and the saturation *)
  destruct (cb_spec M ltac:(lia)) as (HnM & _ & HcM).
  destruct (cb_sub M m ltac:(lia) ltac:(lia)) as [Hfd Hcd]. fold delta in Hfd, Hcd.
  assert (1 <= IZR M - IZR m <= 255) as HD.
  { rewrite <-minus_IZR. split; apply IZR_le; lia. }
  assert (1 <= IZR M <= 255) as HMr by (split; apply IZR_le; lia).
  assert (0 <= IZR m) as Hmr by (apply IZR_le; lia).
  assert (0 < FV delta) as Hdpos.
  { apply Rabs_le_inv in Hcd. lra. }
  assert ((delta =? 0)%float = false) as Ed0.
  { destruct (compare_R delta 0 Hfd (NN_Fin _ Fin_zero)) as (_ & [Heq _] & _).
    destruct (delta =? 0)%float; [|done]. specialize (Heq eq_refl).
    rewrite FV_0 in Heq. lra. }
  assert (∃ s', (if (of_Z M / 255 =? 0)%float then 0%float
                 else (delta / (of_Z M / 255))%float) = s'
                ∧ Fin s'
                ∧ Rabs (FV s' - (IZR M - IZR m) / IZR M) <= 2000 * err)
    as (s' & Es & Hfs & Hs').
  { assert ((of_Z M / 255 =? 0)%float = false) as ->.
    { destruct (compare_R _ 0 (NN_Fin _ HnM) (NN_Fin _ Fin_zero)) as (_ & [Heq _] & _).
      destruct (of_Z M / 255 =? 0)%float; [|done]. specialize (Heq eq_refl).
      rewrite FV_0 in Heq. apply Rabs_le_inv in HcM. lra. }
    eexists. split; [done|].
    assert (Rabs (FV (of_Z M / 255) - IZR M / 255) <= 3 * err) as HcM'.
    { apply Rabs_le_inv in HcM. apply Rabs_le. lra. }
    destruct (quotient_close (IZR M - IZR m) (IZR M) (FV delta)
                (FV (of_Z M / 255)) HMr ltac:(apply Rabs_le; lra) Hcd HcM')
      as [HMpos Hq].
    assert (Rabs (FV delta / FV (of_Z M / 255)) <= 2) as Hq2.
    { apply Rabs_le_inv in Hq. apply Rabs_le.
      assert (0 <= (IZR M - IZR m) / IZR M <= 1) as [? ?].
      { split; [apply div_ge_bound|apply div_le_bound]; lra. }
      lra. }
    destruct (div_Round delta (of_Z M / 255) Hfd (NN_Fin _ HnM)) as [Hfe HRe];
      [lra|lra|].
    split; [done|]. apply Round_close' in HRe; [|lra].
    apply Rabs_le_inv in HRe, Hq. apply Rabs_le. lra. }
  rewrite Es.
  (* the hue *)
  assert (∀ x y, (0 <= x <= 255)%Z → (0 <= y <= 255)%Z →
            (m <= x <= M)%Z → (m <= y <= M)%Z →
            let e := ((of_Z x / 255 - of_Z y / 255) / delta)%float in
            Fin e ∧ Rabs (FV e - (IZR x - IZR y) / (IZR M - IZR m)) <= 1537 * err
            ∧ Rabs ((IZR x - IZR y) / (IZR M - IZR m)) <= 1) as Hquot.
  { intros x y Hx Hy Hxm Hym e.
    destruct (hue_quotient x y M m Hx Hy ltac:(lia) ltac:(lia) ltac:(lia))
      as (_ & _ & Hfe & Hce).
    split; [done|]. split; [done|].
    assert (Rabs (IZR x - IZR y) <= IZR M - IZR m) as HN.
    { rewrite <-!minus_IZR, <-abs_IZR. apply IZR_le. lia. }
    apply Rabs_le_inv in HN. apply Rabs_le.
    split; [apply div_ge_bound|apply div_le_bound]; lra. }
  assert (∃ hx, (if (M =? r)%Z
                 then rem ((of_Z g / 255 - of_Z b / 255) / delta) 6
                 else if (M =? g)%Z
                      then ((of_Z b / 255 - of_Z r / 255) / delta + 2)%float
                      else ((of_Z r / 255 - of_Z g / 255) / delta + 4)%float)
                = hx
                ∧ Fin hx ∧ Rabs (FV hx - hueOfBytes r g b) <= 1600 * err
                ∧ Rabs (hueOfBytes r g b) <= 6) as (hx & Ehx & Hfx & Hcx & Hbx).
  { unfold hueOfBytes. fold M m. rewrite (Z.eqb_sym r M), (Z.eqb_sym g M).
    destruct (Z.eqb_spec M r) as [EMr|NMr]; [|destruct (Z.eqb_spec M g) as [EMg|NMg]].
    - destruct (Hquot g b Hg Hb ltac:(lia) ltac:(lia)) as (Hfe & Hce & Hbe).
      eexists. split; [done|].
      apply Rabs_le_inv in Hce, Hbe.
      destruct (rem_small _ Hfe) as [Hfr Evr]; [apply Rabs_def1; lra|].
      rewrite Evr. split; [done|]. split; apply Rabs_le; lra.
    - destruct (Hquot b r Hb Hr ltac:(lia) ltac:(lia)) as (Hfe & Hce & Hbe).
      eexists. split; [done|].
      apply Rabs_le_inv in Hce, Hbe.
      destruct (add_Round _ 2 Hfe (NN_Fin _ (eq_refl : NN 2))) as [Hfa HRa].
      { rewrite FV_2. apply Rabs_def1; lra. }
      rewrite FV_2 in HRa. apply Round_close' in HRa; [|apply Rabs_le; lra].
      apply Rabs_le_inv in HRa. split; [done|]. split; apply Rabs_le; lra.
    - destruct (Hquot r g Hr Hg ltac:(lia) ltac:(lia)) as (Hfe & Hce & Hbe).
      eexists. split; [done|].
      apply Rabs_le_inv in Hce, Hbe.
      destruct (add_Round _ 4 Hfe (NN_Fin _ (eq_refl : NN 4))) as [Hfa HRa].
      { rewrite FV_4. apply Rabs_def1; lra. }
      rewrite FV_4 in HRa. apply Round_close' in HRa; [|apply Rabs_le; lra].
      apply Rabs_le_inv in HRa. split; [done|]. split; apply Rabs_le; lra. }
  rewrite Ed0, Ehx.
  destruct (hue_tail hx (hueOfBytes r g b) (1600 * err) Hfx Hcx Hbx ltac:(lra))
    as (hq & Hhq & Hfh & Eh).
  exists hq. eexists _, s', _. split; [done|].
  split; [done|]. split; [done|]. split; [by apply NN_Fin|].
  split; [|split; [done|split; [done|done]]].
  apply Rabs_le_inv in Hhq. apply Rabs_le. lra.
Qed.

(** *** The round trip *)

Lemma sector_hue k bv bp bq bt :
  (0 <= k <= 6)%Z → (bp <= bq <= bv)%Z → (bp <= bt <= bv)%Z → (bp < bv)%Z →
  ∃ r g b (a : Z),
    sector k bv bp bq bt = (r, g, b)
    ∧ Z.max (Z.max r g) b = bv ∧ Z.min (Z.min r g) b = bp
    ∧ (bp <= r <= bv)%Z ∧ (bp <= g <= bv)%Z ∧ (bp <= b <= bv)%Z
    ∧ (0 <= a <= 1)%Z
    ∧ hueOfBytes r g b
      = IZR k + (if Z.even k then IZR bt - IZR bp else IZR bv - IZR bq)
                / (IZR bv - IZR bp) - 6 * IZR a.
Proof.
  intros Hk Hq Ht Hpv.
  assert (IZR bv - IZR bp ≠ 0) as Hne.
  { rewrite <-minus_IZR. apply not_0_IZR. lia. }
  assert (k = 0 ∨ k = 1 ∨ k = 2 ∨ k = 3 ∨ k = 4 ∨ k = 5 ∨ k = 6)%Z
    as [->|[->|[->|[->|[->|[->| ->]]]]]] by lia.
  - exists bv, bt, bp, 0%Z. split; [done|]. unfold hueOfBytes.
    replace (Z.max (Z.max bv bt) bp) with bv by lia.
    replace (Z.min (Z.min bv bt) bp) with bp by lia.
    rewrite Z.eqb_refl. change (Z.even 0) with true.
    repeat split; try lia. field. done.
  - exists bq, bv, bp. unfold hueOfBytes.
    replace (Z.max (Z.max bq bv) bp) with bv by lia.
    replace (Z.min (Z.min bq bv) bp) with bp by lia.
    rewrite Z.eqb_refl. change (Z.even 1) with false.
    destruct (Z.eqb_spec bq bv) as [->|Hne'].
    + exists 0%Z. repeat split; try lia. field. done.
    + exists 0%Z. repeat split; try lia. field. done.
  - exists bp, bv, bt, 0%Z. split; [done|]. unfold hueOfBytes.
    replace (Z.max (Z.max bp bv) bt) with bv by lia.
    replace (Z.min (Z.min bp bv) bt) with bp by lia.
    rewrite Z.eqb_refl. change (Z.even 2) with true.
    destruct (Z.eqb_spec bp bv) as [?|_]; [lia|].
    repeat split; try lia. field. done.
  - exists bp, bq, bv. unfold hueOfBytes.
    replace (Z.max (Z.max bp bq) bv) with bv by lia.
    replace (Z.min (Z.min bp bq) bv) with bp by lia.
    change (Z.even 3) with false.
    destruct (Z.eqb_spec bp bv) as [?|_]; [lia|].
    destruct (Z.eqb_spec bq bv) as [->|Hne'].
    + exists 0%Z. repeat split; try lia. field. done.
    + exists 0%Z. repeat split; try lia. field. done.
  - exists bt, bp, bv. unfold hueOfBytes.
    replace (Z.max (Z.max bt bp) bv) with bv by lia.
    replace (Z.min (Z.min bt bp) bv) with bp by lia.
    change (Z.even 4) with true.
    destruct (Z.eqb_spec bt bv) as [->|Hne'].
    + exists 1%Z. repeat split; try lia. field. done.
    + destruct (Z.eqb_spec bp bv) as [?|_]; [lia|].
      exists 0%Z. repeat split; try lia. field. done.
  - exists bv, bp, bq, 1%Z. split; [done|]. unfold hueOfBytes.
    replace (Z.max (Z.max bv bp) bq) with bv by lia.
    replace (Z.min (Z.min bv bp) bq) with bp by lia.
    rewrite Z.eqb_refl. change (Z.even 5) with false.
    repeat split; try lia. field. done.
  - exists bv, bt, bp, 1%Z. split; [done|]. unfold hueOfBytes.
    replace (Z.max (Z.max bv bt) bp) with bv by lia.
    replace (Z.min (Z.min bv bt) bp) with bp by lia.
    rewrite Z.eqb_refl. change (Z.even 6) with true.
    repeat split; try lia. field. done.
Qed.

Lemma err_small : 0 < err <= / 1000000000000.
Proof. unfold err. lra. Qed.

Lemma value_bound V bv v' :
  Rabs (v' - bv / 255) <= err → Rabs (bv - 255 * V) <= / 2 + err →
  Rabs (v' - V) <= / 509.
Proof.
  intros H1 H2. pose proof err_small. apply Rabs_le_inv in H1, H2.
  apply Rabs_le. lra.
Qed.

Lemma Rabs_mul_le a b k : 0 <= b → Rabs (a * b) <= k → Rabs a * b <= k.
Proof. intros Hb H. by rewrite Rabs_mult, (Rabs_pos_eq b) in H. Qed.

Lemma saturation_bound V S bv bp s' :
  0 < S <= 1 → 0 < V <= 1 → 2 <= 255 * S * V → bv <= 255 →
  Rabs (bv - 255 * V) <= / 2 + err →
  Rabs (bp - 255 * (V * (1 - S))) <= / 2 + 2000 * err →
  Rabs (s' - (bv - bp) / bv) <= 2000 * err →
  Rabs (s' - S) * (255 * V - 1) <= 1.
Proof.
  intros HS HV HD Hb255 H1 H2 H3. pose proof err_small as He.
  assert (2 <= 255 * V) as HV2 by (clear - HS HV HD; nra).
  set (y := 255 * V - 1). assert (1 <= y <= 254) as Hy by (unfold y; lra).
  assert (y + 49 / 100 <= bv) as Hyb.
  { apply Rabs_le_inv in H1. unfold y. lra. }
  assert (0 < bv) as Hbpos by lra.
  set (T := (bv - bp) / bv - S).
  assert (T * bv = (1 - S) * (bv - 255 * V) - (bp - 255 * (V * (1 - S)))) as ET.
  { unfold T. field. lra. }
  assert (Rabs (T * bv) <= 1 + 3000 * err) as HT.
  { rewrite ET.
    eapply Rle_trans; [apply Rabs_triang|]. rewrite Rabs_Ropp, Rabs_mult.
    rewrite (Rabs_pos_eq (1 - S)) by lra.
    assert ((1 - S) * Rabs (bv - 255 * V) <= 1 * (/ 2 + err)) as Hm.
    { apply Rmult_le_compat; [lra|apply Rabs_pos|lra|done]. }
    lra. }
  apply Rabs_mul_le in HT; [|lra].
  assert (y <= (1 - 49 / 25500) * bv) as Hk by lra.
  assert (Rabs T * y <= 1 - / 1000) as HTy.
  { assert (Rabs T * y <= Rabs T * ((1 - 49 / 25500) * bv)) as Hle.
    { apply Rmult_le_compat_l; [apply Rabs_pos|done]. }
    assert (Rabs T * ((1 - 49 / 25500) * bv)
            = (1 - 49 / 25500) * (Rabs T * bv)) as E by ring.
    assert ((1 - 49 / 25500) * (Rabs T * bv)
            <= (1 - 49 / 25500) * (1 + 3000 * err)) as Hle2.
    { apply Rmult_le_compat_l; [lra|done]. }
    lra. }
  set (d := s' - (bv - bp) / bv) in *.
  assert (Rabs d * y <= 2000 * err * 254) as Hdy.
  { apply Rmult_le_compat; [apply Rabs_pos|lra|done|lra]. }
  replace (s' - S) with (T + d) by (unfold T, d; lra).
  assert (Rabs (T + d) * y <= (Rabs T + Rabs d) * y) as Htri.
  { apply Rmult_le_compat_r; [lra|apply Rabs_triang]. }
  lra.
Qed.

Lemma frac_bound F x y z c :
  0 <= F <= 1 → 0 <= c →
  Rabs x <= / 2 + c → Rabs y <= / 2 + c → Rabs z <= / 2 + c →
  Rabs (x - F * y - (1 - F) * z) <= 1 + 2 * c.
Proof.
  intros HF Hc Hx Hy Hz. apply Rabs_le_inv in Hx, Hy, Hz.
  apply Rabs_le. split; nra.
Qed.

(** The two fractions of the hue: bytes against the exact channels. *)
Lemma hue_fraction V S F bv bp bx X N :
  0 < S <= 1 → 0 < V <= 1 → 0 <= F <= 1 → 2 <= 255 * S * V →
  Rabs (bv - 255 * V) <= / 2 + err →
  Rabs (bp - 255 * (V * (1 - S))) <= / 2 + 2000 * err →
  Rabs (bx - 255 * X) <= / 2 + 2000 * err →
  (N = bx - bp ∧ X = V * (1 - (1 - F) * S)
   ∨ N = bv - bx ∧ X = V * (1 - F * S)) →
  0 < bv - bp
  ∧ Rabs (N / (bv - bp) - F) * (255 * S * V - 1) <= 1 + / 1000000.
Proof.
  intros HS HV HF HD H1 H2 H3 HN. pose proof err_small as He.
  assert (Rabs (bv - 255 * V) <= / 2 + 2000 * err) as H1'.
  { apply Rabs_le_inv in H1. apply Rabs_le. lra. }
  set (D := 255 * S * V) in *. set (Δ := bv - bp).
  assert (D - 1 - 4000 * err <= Δ) as HΔ.
  { unfold Δ, D. apply Rabs_le_inv in H1, H2. lra. }
  assert (0 < Δ) as HΔ0 by lra. split; [done|].
  assert (Rabs (N - F * Δ) <= 1 + 2 * (2000 * err)) as Hnum.
  { destruct HN as [[-> ->]| [-> ->]].
    - replace (bx - bp - F * Δ)
        with ((bx - 255 * (V * (1 - (1 - F) * S))) - F * (bv - 255 * V)
              - (1 - F) * (bp - 255 * (V * (1 - S))))
        by (unfold Δ; ring).
      apply frac_bound; (done || lra).
    - replace (bv - bx - F * Δ)
        with (- ((bx - 255 * (V * (1 - F * S))) - F * (bp - 255 * (V * (1 - S)))
                 - (1 - F) * (bv - 255 * V)))
        by (unfold Δ; ring).
      rewrite Rabs_Ropp. apply frac_bound; (done || lra). }
  set (T := N / Δ - F).
  assert (T * Δ = N - F * Δ) as ET by (unfold T; field; lra).
  rewrite <-ET in Hnum. apply Rabs_mul_le in Hnum; [|lra].
  assert (1 <= D - 1) as HD1 by lra.
  assert (D - 1 <= Δ + 4000 * err) as HDΔ by lra.
  assert (1 - 4000 * err <= Δ) as HΔ1 by lra.
  assert (Rabs T <= 2) as HT2.
  { assert (Rabs T * (1 - 4000 * err) <= Rabs T * Δ) as Hle.
    { apply Rmult_le_compat_l; [apply Rabs_pos|done]. }
    pose proof (Rabs_pos T) as HT0. clear - Hle Hnum He HT0. nra. }
  assert (Rabs T * (D - 1) <= Rabs T * (Δ + 4000 * err)) as Hle.
  { apply Rmult_le_compat_l; [apply Rabs_pos|done]. }
  rewrite Rmult_plus_distr_l in Hle.
  assert (Rabs T * (4000 * err) <= 2 * (4000 * err)) as Hle2.
  { apply Rmult_le_compat_r; [lra|done]. }
  lra.
Qed.

Lemma is_finite_Fin x : is_finite x = true ↔ Fin x.
Proof.
  split.
  - unfold is_finite, is_nan, is_infinity, Fin.
    rewrite !FloatAxioms.eqb_spec, abs_spec.
    change (Prim2SF infinity) with (S754_infinity false).
    destruct (Prim2SF x) as [|[]| |]; try done; by cbn.
  - intros H. unfold is_finite. by rewrite Fin_is_nan, Fin_is_infinity.
Qed.

Lemma unit_range x :
  (0 <? x)%float = true → (x <=? 1)%float = true → NN x ∧ 0 < FV x <= 1.
Proof.
  intros H0 H1.
  assert (Fin x) as Hf.
  { apply (Fin_between 0 x 1);
      [apply NN_Fin, Fin_zero|apply NN_Fin, NN_1|by apply ltb_leb|done]. }
  destruct (compare_R 0 x (NN_Fin _ Fin_zero) Hf) as ([Hlt _] & _ & _).
  destruct (compare_R x 1 Hf (NN_Fin _ NN_1)) as (_ & _ & [Hle _]).
  specialize (Hlt H0). specialize (Hle H1). rewrite FV_0 in Hlt.
  rewrite FV_1 in Hle. split; [by apply NN_pos|lra].
Qed.

Lemma hue_bound (hq k a a' j0 : Z) (H F T h' D : R) :
  2 <= D <= 255 →
  Rabs (IZR hq - 60 * (IZR k + T + F - 6 * IZR a)) <= / 2 + 100000 * err →
  Rabs T * (D - 1) <= 1 + / 1000000 →
  Rabs (60 * (IZR k + F) - (H + 360 * IZR j0)) <= 2000 * err →
  h' = IZR hq + 360 * IZR a' →
  Rabs (h' - H - 360 * IZR (j0 - a + a')) <= / 2 + 61 / (D - 1).
Proof.
  intros HD H1 H2 H3 ->. pose proof err_small as He.
  set (W := / (D - 1)).
  assert (0 < D - 1) as HD0 by lra.
  assert (/ 254 <= W <= 1) as HW.
  { unfold W. split.
    - apply Rinv_le_contravar; lra.
    - rewrite <-Rinv_1. apply Rinv_le_contravar; lra. }
  assert (Rabs T <= (1 + / 1000000) * W) as HT.
  { replace (Rabs T) with (Rabs T * (D - 1) * W) by (unfold W; field; lra).
    apply Rmult_le_compat_r; [lra|done]. }
  rewrite plus_IZR, minus_IZR. unfold Rdiv. fold W.
  apply Rabs_le_inv in H1, H3, HT. apply Rabs_le. lra.
Qed.

(** C9 (amended): for every finite hue [h] and every saturation [s] and value
    [v] in (0, 1] with [2 <= 255 * s * v], converting to RGB and back gives
    finite numbers [h'], [s'] and [v'] such that [v'] is within 1/509 of [v],
    [s'] is within [1 / (255 * v - 1)] of [s], and [h'] is, up to a multiple
    of 360, within [1/2 + 61 / (255 * s * v - 1)] degrees of [h]. The bounds
    are in exact arithmetic on the values of the doubles. *)
Theorem hsv_roundtrip h s v :
  is_finite h = true →
  (0 <? s)%float = true → (s <=? 1)%float = true →
  (0 <? v)%float = true → (v <=? 1)%float = true →
  2 <= 255 * FV s * FV v →
  ∃ h' s' v' (j : Z),
    roundTrip h s v = (h', s', v')
    ∧ is_finite h' = true ∧ is_finite s' = true ∧ is_finite v' = true
    ∧ Rabs (FV h' - FV h - 360 * IZR j) <= / 2 + 61 / (255 * FV s * FV v - 1)
    ∧ Rabs (FV s' - FV s) * (255 * FV v - 1) <= 1
    ∧ Rabs (FV v' - FV v) <= / 509.
Proof.
  intros Hh Hs0 Hs1 Hv0 Hv1 HD. apply is_finite_Fin in Hh.
  destruct (unit_range s Hs0 Hs1) as [Hns HS].
  destruct (unit_range v Hv0 Hv1) as [Hnv HV].
  destruct (hsvToRgb_bytes h s v Hh Hns HS Hnv HV)
    as (k & j0 & F & bv & bp & bq & bt & Hk & HF & Hhue & Ergb & Hq & Ht
        & Hp0 & Hv255 & Cv & Cp & Cq & Ct).
  assert (255 * FV s * FV v <= 255) as HD255.
  { clear - HS HV. nra. }
  assert (bp < bv)%Z as Hpv.
  { destruct (hue_fraction (FV v) (FV s) F (IZR bv) (IZR bp) (IZR bt) _
                (IZR bt - IZR bp) HS HV HF HD Cv Cp Ct (or_introl (conj eq_refl eq_refl)))
      as [Hpos _].
    apply lt_IZR. lra. }
  destruct (sector_hue k bv bp bq bt Hk Hq Ht Hpv)
    as (r & g & b & a & Esec & EM & Em & Hr & Hg & Hb & Ha & Ehue).
  pose proof (rgbToHsv_bytes r g b ltac:(lia) ltac:(lia) ltac:(lia)) as HB.
  cbv zeta in HB. rewrite EM, Em in HB.
  destruct (HB Hpv) as (hq & h' & s' & v' & Eback & Hfh & Hfs & Hfv & Chq & Eh
                        & Cs' & Cv').
  clear HB.
  exists h', s', v', (j0 - a + (if (hq <? 0)%Z then 1 else 0))%Z.
  split.
  { unfold roundTrip. rewrite Ergb, <-(sector_map of_Z), Esec. exact Eback. }
  split; [by apply is_finite_Fin|]. split; [by apply is_finite_Fin|].
  split; [by apply is_finite_Fin|].
  split; [|split].
  - rewrite Ehue in Chq.
    assert (∃ N X, (if Z.even k then IZR bt - IZR bp else IZR bv - IZR bq) = N
                   ∧ ∃ bx, Rabs (IZR bx - 255 * X) <= / 2 + 2000 * err
                     ∧ (N = IZR bx - IZR bp ∧ X = FV v * (1 - (1 - F) * FV s)
                        ∨ N = IZR bv - IZR bx ∧ X = FV v * (1 - F * FV s)))
      as (N & X & EN & bx & Cx & HN).
    { destruct (Z.even k).
      - eexists _, _. split; [done|]. exists bt. split; [exact Ct|]. by left.
      - eexists _, _. split; [done|]. exists bq. split; [exact Cq|]. by right. }
    rewrite EN in Chq.
    destruct (hue_fraction (FV v) (FV s) F (IZR bv) (IZR bp) (IZR bx) X N
                HS HV HF HD Cv Cp Cx HN) as [Hpos Hfrac].
    apply (hue_bound hq k a _ j0 (FV h) F (N / (IZR bv - IZR bp) - F));
      [lra| |done|done|].
    + replace (IZR k + (N / (IZR bv - IZR bp) - F) + F - 6 * IZR a)
        with (IZR k + N / (IZR bv - IZR bp) - 6 * IZR a) by ring.
      done.
    + rewrite Eh. destruct (hq <? 0)%Z; [rewrite plus_IZR|]; lra.
  - apply (saturation_bound (FV v) (FV s) (IZR bv) (IZR bp)); try done.
    by apply IZR_le.
  - by apply (value_bound (FV v) (IZR bv)).
Qed.

Lemma FV_half : FV 0.5 = / 2.
Proof. fv_const 0.5%float. Qed.

Lemma FV_three_quarters : FV 0.75 = 3 / 4.
Proof. fv_const 0.75%float. Qed.

Lemma hsv_roundtrip_witness :
  ∃ h' s' v' (j : Z),
    roundTrip 200 0.75 0.5 = (h', s', v')
    ∧ is_finite h' = true ∧ is_finite s' = true ∧ is_finite v' = true
    ∧ Rabs (FV h' - FV 200 - 360 * IZR j)
      <= / 2 + 61 / (255 * FV 0.75 * FV 0.5 - 1)
    ∧ Rabs (FV s' - FV 0.75) * (255 * FV 0.5 - 1) <= 1
    ∧ Rabs (FV v' - FV 0.5) <= / 509.
Proof.
  apply (hsv_roundtrip 200 0.75 0.5); try reflexivity.
  rewrite FV_half, FV_three_quarters. lra.
Defined.
